(** * dv-transaction-trace: the Perfetto back end, embedded in Rocq

    Shallow embedding of [dv_transaction_trace/impl/perfetto_impl.py]
    (with the enumerations of [dv_transaction_trace/api.py]) and the
    properties of the transaction/stream model and of its varint framing.

    Python objects live in a store ([World]) of three arenas, one per class;
    an object reference is its index in the arena, so that two references to
    one object observe each other's updates.  Python integers are [Z] and
    a Python float is an IEEE 754 value ([spec_float]).
    The generated protobuf classes ([perfetto_trace_pb2]) are outside the
    repository: a message is a record of the fields the code assigns, and a
    field holds whatever integer it is given.  A write to an open file
    succeeds: the errors of the operating system are not modelled.

    The legacy implementation ([dv_transaction_trace/impl/__init__.py]: its
    protobuf writer, its formatting functions, its classes and its API
    functions) is embedded as well, in a module and a store of its own
    ([Legacy]); its handle tables are finite maps. *)

From Stdlib Require Import ZArith Lia String Ascii Strings.Byte List Sorted SpecFloat.
From stdpp Require Import base list strings gmap.

Local Open Scope Z_scope.

(** ** api.py: enumerations *)

Inductive Radix := BIN | OCT | DEC | HEX | UNSIGNED | STRING | TIME | REAL.

Inductive LinkType := PARENT_CHILD | RELATED | CAUSE_EFFECT | CUSTOM.

#[global] Instance Radix_eq_dec : EqDecision Radix.
Proof. solve_decision. Defined.

(** ** Python built-ins used by the code *)

Definition bytes := list byte.

Definition Z_of_byte (b : byte) : Z := Z.of_N (Byte.to_N b).

(** [bytes([z])] for [z] in [range(256)]. *)
Definition byte_of_Z (z : Z) : byte :=
  match Byte.of_N (Z.to_N z) with
  | Some b => b
  | None => x00
  end.

Definition hex_digit (n : N) : ascii :=
  match String.get (N.to_nat n) "0123456789abcdef" with
  | Some c => c
  | None => "0"%char
  end.

(** [bytes.hex()]: two lowercase digits per byte, in storage order. *)
Fixpoint bytes_hex (bs : bytes) : string :=
  match bs with
  | [] => EmptyString
  | b :: bs' =>
      String (hex_digit (Byte.to_N b / 16))
        (String (hex_digit (Byte.to_N b mod 16)) (bytes_hex bs'))
  end.

Definition bit_char (b : bool) : ascii := if b then "1"%char else "0"%char.

(** [format(byte, '08b')]: eight binary digits, most significant first. *)
Definition format_08b (b : byte) : string :=
  let n := Byte.to_N b in
  string_of_list_ascii
    (map (fun i => bit_char (N.testbit n i)) [7; 6; 5; 4; 3; 2; 1; 0]%N).

(** [int.from_bytes(bits, 'little')]. *)
Fixpoint int_from_bytes_little (bs : bytes) : Z :=
  match bs with
  | [] => 0
  | b :: bs' => Z_of_byte b + 256 * int_from_bytes_little bs'
  end.

Definition oct_digit (z : Z) : ascii := ascii_of_N (48 + Z.to_N z).

(** The digits of [oct(value)] after its ["0o"] prefix, for [value >= 0]:
    most significant first, no leading zero.  [oct_digits_unfold] below shows
    that the fuel given is never exhausted. *)
Fixpoint oct_digits_loop (fuel : nat) (value : Z) : string :=
  match fuel with
  | O => String (oct_digit value) EmptyString
  | S n =>
      if value <? 8 then String (oct_digit value) EmptyString
      else oct_digits_loop n (value / 8) +:+ String (oct_digit (value mod 8)) EmptyString
  end.

Definition oct_digits (value : Z) : string :=
  oct_digits_loop (Z.to_nat (Z.log2 value)) value.

(** [s[:k]]: a negative bound counts from the end of the string. *)
Definition py_slice_to (k : Z) (s : string) : string :=
  if 0 <=? k then String.substring 0 (Z.to_nat k) s
  else String.substring 0 (Z.to_nat (Z.of_nat (String.length s) + k)) s.

(** ** perfetto_trace_pb2: the messages the code fills in *)

Inductive AnnotationValue :=
| int_value (v : Z)
| uint_value (v : Z)
| double_value (v : spec_float)
| string_value (v : string).

Record DebugAnnotation := mkDebugAnnotation {
  annotation_name : string;
  annotation_value : AnnotationValue }.

Inductive TrackEventType := TYPE_SLICE_BEGIN | TYPE_SLICE_END.

Record TrackEvent := mkTrackEvent {
  event_type : TrackEventType;
  event_track_uuid : Z;
  event_name : option string;
  event_categories : list string;
  event_debug_annotations : list DebugAnnotation;
  event_flow_ids : list Z }.

Record TrackDescriptor := mkTrackDescriptor {
  descriptor_uuid : Z;
  descriptor_name : string;
  descriptor_parent_uuid : option Z }.

Record Clock := mkClock { clock_id : Z; clock_timestamp : Z }.

Inductive PacketData :=
| clock_snapshot (clocks : list Clock)
| track_descriptor (d : TrackDescriptor)
| track_event (e : TrackEvent).

Record TracePacket := mkTracePacket {
  packet_timestamp : Z;
  packet_data : PacketData }.

(** ** The object store *)

(** An object reference: the index of the object in its arena. *)
Abbreviation ref := nat (only parsing).

Record PerfettoTransactionObj := mkTransaction {
  txn_id : Z;
  txn_stream : ref;
  txn_name : string;
  txn_type_name : option string;
  txn_start_time : Z;
  txn_end_time : Z;
  txn_is_open : bool;
  txn_parent : option ref;
  txn_attributes : list DebugAnnotation;
  txn_flow_ids : list Z;
  txn_track_uuid : Z }.

Record PerfettoStreamObj := mkStream {
  stream_trace : ref;
  stream_track_uuid : Z;
  stream_name : string;
  stream_scope : option string;
  stream_type_name : option string;
  stream_is_open : bool;
  stream_transactions : list ref }.

(** [self._file] is a pair: [trace_file_open] tells whether it still is a
    file object ([close] replaces it by [None]), and [trace_written] is the
    sequence of packets handed to [_write_packet] so far, in order. *)
Record PerfettoTraceObj := mkTrace {
  trace_filename : string;
  trace_name : string;
  trace_time_units : string;
  trace_file_open : bool;
  trace_written : list TracePacket;
  trace_streams : list ref;
  trace_next_track_uuid : Z;
  trace_next_transaction_id : Z;
  trace_next_flow_id : Z;
  trace_sequence_id : Z;
  trace_clock_id : Z }.

Record World := mkWorld {
  traces : list PerfettoTraceObj;
  streams : list PerfettoStreamObj;
  txns : list PerfettoTransactionObj }.

Definition empty_world : World := mkWorld [] [] [].

(** ** Calls: normal return, Python exception, or a dangling reference

    An exception keeps the store as the call left it.  [Invalid] is the
    outcome of a call on a reference that names no object; Python has no
    such references. *)

Inductive exn := RuntimeError | TypeError | AttributeError.

Inductive outcome (A : Type) :=
| Ret (a : A) (w : World)
| Raise (e : exn) (w : World)
| Invalid.
Arguments Ret {A} a w.
Arguments Raise {A} e w.
Arguments Invalid {A}.

Definition M (A : Type) := World -> outcome A.

Definition ret {A} (a : A) : M A := fun w => Ret a w.

Definition bind {A B} (m : M A) (k : A -> M B) : M B :=
  fun w =>
    match m w with
    | Ret a w' => k a w'
    | Raise e w' => Raise e w'
    | Invalid => Invalid
    end.

Definition raise {A} (e : exn) : M A := fun w => Raise e w.

Notation "'let*' x ':=' m 'in' k" := (bind m (fun x => k))
  (at level 10, x name, m at level 100, k at level 200).
Notation "'do' m 'then' k" := (bind m (fun _ => k))
  (at level 10, m at level 100, k at level 200).

(** [for x in l: body(x)] *)
Fixpoint for_each {A} (l : list A) (body : A -> M unit) : M unit :=
  match l with
  | [] => ret tt
  | x :: l' => do body x then for_each l' body
  end.

Definition get_trace (r : ref) : M PerfettoTraceObj :=
  fun w => match traces w !! r with Some o => Ret o w | None => Invalid end.

Definition get_stream (r : ref) : M PerfettoStreamObj :=
  fun w => match streams w !! r with Some o => Ret o w | None => Invalid end.

Definition get_txn (r : ref) : M PerfettoTransactionObj :=
  fun w => match txns w !! r with Some o => Ret o w | None => Invalid end.

(** Assignment to an object of the store, and creation of a new one. *)

Definition with_trace (r : ref) (o : PerfettoTraceObj) (w : World) : World :=
  mkWorld (<[r := o]> (traces w)) (streams w) (txns w).

Definition with_stream (r : ref) (o : PerfettoStreamObj) (w : World) : World :=
  mkWorld (traces w) (<[r := o]> (streams w)) (txns w).

Definition with_txn (r : ref) (o : PerfettoTransactionObj) (w : World) : World :=
  mkWorld (traces w) (streams w) (<[r := o]> (txns w)).

Definition push_trace (o : PerfettoTraceObj) (w : World) : World :=
  mkWorld (traces w ++ [o]) (streams w) (txns w).

Definition push_stream (o : PerfettoStreamObj) (w : World) : World :=
  mkWorld (traces w) (streams w ++ [o]) (txns w).

Definition push_txn (o : PerfettoTransactionObj) (w : World) : World :=
  mkWorld (traces w) (streams w) (txns w ++ [o]).

Definition put_trace (r : ref) (o : PerfettoTraceObj) : M unit :=
  fun w => Ret tt (with_trace r o w).

Definition put_stream (r : ref) (o : PerfettoStreamObj) : M unit :=
  fun w => Ret tt (with_stream r o w).

Definition put_txn (r : ref) (o : PerfettoTransactionObj) : M unit :=
  fun w => Ret tt (with_txn r o w).

Definition new_trace (o : PerfettoTraceObj) : M ref :=
  fun w => Ret (length (traces w)) (push_trace o w).

Definition new_stream (o : PerfettoStreamObj) : M ref :=
  fun w => Ret (length (streams w)) (push_stream o w).

Definition new_txn (o : PerfettoTransactionObj) : M ref :=
  fun w => Ret (length (txns w)) (push_txn o w).

(** Field assignments. *)

Definition set_trace_file_open (v : bool) (o : PerfettoTraceObj) :=
  mkTrace (trace_filename o) (trace_name o) (trace_time_units o) v
    (trace_written o) (trace_streams o) (trace_next_track_uuid o)
    (trace_next_transaction_id o) (trace_next_flow_id o) (trace_sequence_id o)
    (trace_clock_id o).

Definition set_trace_written (v : list TracePacket) (o : PerfettoTraceObj) :=
  mkTrace (trace_filename o) (trace_name o) (trace_time_units o)
    (trace_file_open o) v (trace_streams o) (trace_next_track_uuid o)
    (trace_next_transaction_id o) (trace_next_flow_id o) (trace_sequence_id o)
    (trace_clock_id o).

Definition set_trace_streams (v : list ref) (o : PerfettoTraceObj) :=
  mkTrace (trace_filename o) (trace_name o) (trace_time_units o)
    (trace_file_open o) (trace_written o) v (trace_next_track_uuid o)
    (trace_next_transaction_id o) (trace_next_flow_id o) (trace_sequence_id o)
    (trace_clock_id o).

Definition set_trace_next_track_uuid (v : Z) (o : PerfettoTraceObj) :=
  mkTrace (trace_filename o) (trace_name o) (trace_time_units o)
    (trace_file_open o) (trace_written o) (trace_streams o) v
    (trace_next_transaction_id o) (trace_next_flow_id o) (trace_sequence_id o)
    (trace_clock_id o).

Definition set_trace_next_transaction_id (v : Z) (o : PerfettoTraceObj) :=
  mkTrace (trace_filename o) (trace_name o) (trace_time_units o)
    (trace_file_open o) (trace_written o) (trace_streams o)
    (trace_next_track_uuid o) v (trace_next_flow_id o) (trace_sequence_id o)
    (trace_clock_id o).

Definition set_trace_next_flow_id (v : Z) (o : PerfettoTraceObj) :=
  mkTrace (trace_filename o) (trace_name o) (trace_time_units o)
    (trace_file_open o) (trace_written o) (trace_streams o)
    (trace_next_track_uuid o) (trace_next_transaction_id o) v
    (trace_sequence_id o) (trace_clock_id o).

Definition set_stream_is_open (v : bool) (o : PerfettoStreamObj) :=
  mkStream (stream_trace o) (stream_track_uuid o) (stream_name o)
    (stream_scope o) (stream_type_name o) v (stream_transactions o).

Definition set_stream_transactions (v : list ref) (o : PerfettoStreamObj) :=
  mkStream (stream_trace o) (stream_track_uuid o) (stream_name o)
    (stream_scope o) (stream_type_name o) (stream_is_open o) v.

Definition set_txn_end_time (v : Z) (o : PerfettoTransactionObj) :=
  mkTransaction (txn_id o) (txn_stream o) (txn_name o) (txn_type_name o)
    (txn_start_time o) v (txn_is_open o) (txn_parent o) (txn_attributes o)
    (txn_flow_ids o) (txn_track_uuid o).

Definition set_txn_is_open (v : bool) (o : PerfettoTransactionObj) :=
  mkTransaction (txn_id o) (txn_stream o) (txn_name o) (txn_type_name o)
    (txn_start_time o) (txn_end_time o) v (txn_parent o) (txn_attributes o)
    (txn_flow_ids o) (txn_track_uuid o).

Definition set_txn_attributes (v : list DebugAnnotation) (o : PerfettoTransactionObj) :=
  mkTransaction (txn_id o) (txn_stream o) (txn_name o) (txn_type_name o)
    (txn_start_time o) (txn_end_time o) (txn_is_open o) (txn_parent o) v
    (txn_flow_ids o) (txn_track_uuid o).

Definition set_txn_flow_ids (v : list Z) (o : PerfettoTransactionObj) :=
  mkTransaction (txn_id o) (txn_stream o) (txn_name o) (txn_type_name o)
    (txn_start_time o) (txn_end_time o) (txn_is_open o) (txn_parent o)
    (txn_attributes o) v (txn_track_uuid o).

(** A Python value passed where the signature asks for an [ITransaction]:
    [None], a [PerfettoTransaction], or an object of another class, of which
    only its truth value matters. *)
Inductive py_arg :=
| PyNone
| PyPerfettoTransaction (r : ref)
| PyOther (truthy : bool).

(** ** PerfettoTrace: internal helper methods *)

Definition _allocate_track_uuid (self : ref) : M Z :=
  let* tr := get_trace self in
  let uuid := trace_next_track_uuid tr in
  do put_trace self (set_trace_next_track_uuid (trace_next_track_uuid tr + 1) tr) then
  ret uuid.

Definition _allocate_transaction_id (self : ref) : M Z :=
  let* tr := get_trace self in
  let txn_id := trace_next_transaction_id tr in
  do put_trace self
       (set_trace_next_transaction_id (trace_next_transaction_id tr + 1) tr) then
  ret txn_id.

Definition _allocate_flow_id (self : ref) : M Z :=
  let* tr := get_trace self in
  let flow_id := trace_next_flow_id tr in
  do put_trace self (set_trace_next_flow_id (trace_next_flow_id tr + 1) tr) then
  ret flow_id.

(** [_write_varint]: the bytes it hands to [self._file.write], in order.
    The [while] loop runs on [fuel]; [_write_varint_unfold] below shows that
    the fuel given is never exhausted. *)
Fixpoint _write_varint_loop (fuel : nat) (value : Z) : bytes :=
  match fuel with
  | O => [byte_of_Z (Z.land value 0x7F)]
  | S n =>
      if 0x80 <=? value then
        byte_of_Z (Z.lor (Z.land value 0x7F) 0x80)
          :: _write_varint_loop n (Z.shiftr value 7)
      else [byte_of_Z (Z.land value 0x7F)]
  end.

Definition _write_varint (value : Z) : bytes :=
  _write_varint_loop (Z.to_nat (Z.log2 value)) value.

(** [_write_packet]: writing to a released file ([self._file] is [None])
    raises [AttributeError]. *)
Definition _write_packet (self : ref) (packet : TracePacket) : M unit :=
  let* tr := get_trace self in
  if trace_file_open tr then
    put_trace self (set_trace_written (trace_written tr ++ [packet]) tr)
  else raise AttributeError.

Section Wire.
(** [packet.SerializeToString()], of the protobuf runtime. *)
Variable SerializeToString : TracePacket -> bytes.

(** What [_write_packet] appends to the file for one packet. *)
Definition packet_frame (packet : TracePacket) : bytes :=
  let data := SerializeToString packet in
  _write_varint (Z.of_nat (length data)) ++ data.

Definition file_contents (tr : PerfettoTraceObj) : bytes :=
  concat (map packet_frame (trace_written tr)).
End Wire.

Definition _emit_clock_snapshot (self : ref) : M unit :=
  let* tr := get_trace self in
  _write_packet self
    (mkTracePacket 0 (clock_snapshot [mkClock (trace_clock_id tr) 0])).

Definition _emit_track_descriptor (self : ref) (stream : PerfettoStreamObj) : M unit :=
  _write_packet self
    (mkTracePacket 0
       (track_descriptor
          (mkTrackDescriptor (stream_track_uuid stream) (stream_name stream) None))).

Definition _emit_child_track_descriptor (self : ref) (txn : PerfettoTransactionObj)
  : M unit :=
  let* parent_uuid :=
    match txn_parent txn with
    | Some p => let* po := get_txn p in ret (Some (txn_track_uuid po))
    | None => ret None
    end in
  _write_packet self
    (mkTracePacket 0
       (track_descriptor
          (mkTrackDescriptor (txn_track_uuid txn) (txn_name txn) parent_uuid))).

(** [if txn.type_name:] holds for a string that is not empty. *)
Definition categories_of (type_name : option string) : list string :=
  match type_name with
  | Some s => if decide (s = EmptyString) then [] else [s]
  | None => []
  end.

Definition slice_begin_packet (t : PerfettoTransactionObj) : TracePacket :=
  mkTracePacket (txn_start_time t)
    (track_event
       (mkTrackEvent TYPE_SLICE_BEGIN (txn_track_uuid t) (Some (txn_name t))
          (categories_of (txn_type_name t)) (txn_attributes t) (txn_flow_ids t))).

Definition slice_end_packet (t : PerfettoTransactionObj) : TracePacket :=
  mkTracePacket (txn_end_time t)
    (track_event
       (mkTrackEvent TYPE_SLICE_END (txn_track_uuid t) None [] [] (txn_flow_ids t))).

Definition _emit_slice_begin (self : ref) (txn : ref) : M unit :=
  let* t := get_txn txn in
  _write_packet self (slice_begin_packet t).

Definition _emit_slice_end (self : ref) (txn : ref) : M unit :=
  let* t := get_txn txn in
  _write_packet self (slice_end_packet t).

(** ** class PerfettoTransaction *)

Module PerfettoTransaction.

Definition __init__ (txn_id : Z) (stream : ref) (name : string) (start_time : Z)
    (type_name : option string) (parent : option ref) : M ref :=
  let* s := get_stream stream in
  let self track_uuid :=
    mkTransaction txn_id stream name type_name start_time 0 true parent [] []
      track_uuid in
  match parent with
  | Some _ =>
      let* track_uuid := _allocate_track_uuid (stream_trace s) in
      do _emit_child_track_descriptor (stream_trace s) (self track_uuid) then
      new_txn (self track_uuid)
  | None => new_txn (self (stream_track_uuid s))
  end.

Definition is_open (self : ref) : M bool :=
  let* t := get_txn self in ret (txn_is_open t).

Definition is_closed (self : ref) : M bool :=
  let* t := get_txn self in
  ret (negb (txn_is_open t) && (0 <? txn_end_time t)).

Definition close (self : ref) (end_time : Z) : M unit :=
  let* t := get_txn self in
  if negb (txn_is_open t) then ret tt
  else
    do put_txn self (set_txn_is_open false (set_txn_end_time end_time t)) then
    let* s := get_stream (txn_stream t) in
    do _emit_slice_begin (stream_trace s) self then
    _emit_slice_end (stream_trace s) self.

Definition _format_name (name : string) (radix : Radix) : string :=
  let suffix :=
    match radix with
    | BIN => "[bin]"
    | OCT => "[oct]"
    | DEC => "[dec]"
    | HEX => "[hex]"
    | UNSIGNED => "[u]"
    | TIME => "[time]"
    | STRING | REAL => EmptyString
    end in
  name +:+ suffix.

Definition _bits_to_string (bits : bytes) (num_bits : Z) (radix : Radix) : string :=
  match radix with
  | HEX => "0x" +:+ bytes_hex bits
  | BIN =>
      let result :=
        fold_left (fun result byte => result +:+ format_08b byte) (rev bits) "0b" in
      py_slice_to (2 + num_bits) result
  | OCT =>
      let value := int_from_bytes_little bits in
      "0o" +:+ oct_digits value
  | _ => "0x" +:+ bytes_hex bits
  end.

(** [self._attributes.append(attr)] *)
Definition append_attribute (self : ref) (attr : DebugAnnotation) : M unit :=
  let* t := get_txn self in
  put_txn self (set_txn_attributes (txn_attributes t ++ [attr]) t).

(** [self._flow_ids.append(flow_id)] *)
Definition append_flow_id (self : ref) (flow_id : Z) : M unit :=
  let* t := get_txn self in
  put_txn self (set_txn_flow_ids (txn_flow_ids t ++ [flow_id]) t).

Definition add_int (self : ref) (name : string) (value : Z) (radix : Radix) : M unit :=
  append_attribute self
    (mkDebugAnnotation (_format_name name radix) (int_value value)).

Definition add_uint (self : ref) (name : string) (value : Z) (radix : Radix) : M unit :=
  append_attribute self
    (mkDebugAnnotation (_format_name name radix) (uint_value value)).

Definition add_float (self : ref) (name : string) (value : spec_float) : M unit :=
  append_attribute self (mkDebugAnnotation name (double_value value)).

Definition add_string (self : ref) (name : string) (value : string) : M unit :=
  append_attribute self (mkDebugAnnotation name (string_value value)).

Definition add_time (self : ref) (name : string) (value : Z) : M unit :=
  add_uint self name value TIME.

Definition add_bits (self : ref) (name : string) (bits : bytes) (num_bits : Z)
    (radix : Radix) : M unit :=
  append_attribute self
    (mkDebugAnnotation (_format_name name radix)
       (string_value (_bits_to_string bits num_bits radix))).

Definition add_blob (self : ref) (name : string) (data : bytes) : M unit :=
  append_attribute self (mkDebugAnnotation name (string_value (bytes_hex data))).

Definition add_link (self : ref) (target : py_arg) (link_type : LinkType)
    (relation_name : option string) : M unit :=
  match target with
  | PyPerfettoTransaction target =>
      let* t := get_txn self in
      let* s := get_stream (txn_stream t) in
      let* flow_id := _allocate_flow_id (stream_trace s) in
      do append_flow_id self flow_id then
      append_flow_id target flow_id
  | _ => raise TypeError
  end.

End PerfettoTransaction.

(** ** class PerfettoStream *)

Module PerfettoStream.

Definition __init__ (trace : ref) (track_uuid : Z) (name : string)
    (scope type_name : option string) : M ref :=
  let self := mkStream trace track_uuid name scope type_name true [] in
  do _emit_track_descriptor trace self then
  new_stream self.

Definition is_open (self : ref) : M bool :=
  let* s := get_stream self in ret (stream_is_open s).

Definition is_closed (self : ref) : M bool :=
  let* s := get_stream self in ret (negb (stream_is_open s)).

(** The body of the loop of [close]:
    [if txn.is_open(): txn.close(txn.start_time)]. *)
Definition close_if_open (txn : ref) : M unit :=
  let* is_open := PerfettoTransaction.is_open txn in
  if is_open then
    let* t := get_txn txn in
    PerfettoTransaction.close txn (txn_start_time t)
  else ret tt.

Definition close (self : ref) : M unit :=
  let* s := get_stream self in
  if negb (stream_is_open s) then ret tt
  else
    do for_each (stream_transactions s) close_if_open then
    let* s := get_stream self in
    put_stream self (set_stream_is_open false s).

Definition begin_transaction (self : ref) (name : string) (start_time : Z)
    (type_name : option string) (parent : py_arg) : M ref :=
  let* s := get_stream self in
  if negb (stream_is_open s) then raise RuntimeError
  else
    let* txn_id := _allocate_transaction_id (stream_trace s) in
    let* parent_txn :=
      match parent with
      | PyNone | PyOther false => ret None
      | PyPerfettoTransaction p => ret (Some p)
      | PyOther true => raise TypeError
      end in
    let* txn :=
      PerfettoTransaction.__init__ txn_id self name start_time type_name
        parent_txn in
    let* s := get_stream self in
    do put_stream self
         (set_stream_transactions (stream_transactions s ++ [txn]) s) then
    ret txn.

End PerfettoStream.

(** ** class PerfettoTrace *)

Module PerfettoTrace.

Definition __init__ (filename name time_units : string) : M ref :=
  let* self := new_trace (mkTrace filename name time_units true [] [] 1 1 1 1 64) in
  do _emit_clock_snapshot self then
  ret self.

Definition create_stream (self : ref) (name : string)
    (scope type_name : option string) : M ref :=
  let* track_uuid := _allocate_track_uuid self in
  let* stream := PerfettoStream.__init__ self track_uuid name scope type_name in
  let* tr := get_trace self in
  do put_trace self (set_trace_streams (trace_streams tr ++ [stream]) tr) then
  ret stream.

(** The body of the loop of [close]:
    [if stream.is_open(): stream.close()]. *)
Definition close_if_open (stream : ref) : M unit :=
  let* is_open := PerfettoStream.is_open stream in
  if is_open then PerfettoStream.close stream else ret tt.

Definition close (self : ref) : M unit :=
  let* tr := get_trace self in
  do for_each (trace_streams tr) close_if_open then
  let* tr := get_trace self in
  if trace_file_open tr then put_trace self (set_trace_file_open false tr)
  else ret tt.

(** The trace is its own context manager.  [__exit__] takes the exception
    of the block, if any, and returns [None]. *)
Definition __enter__ (self : ref) : M ref := ret self.

Definition __exit__ (self : ref) (exc : option exn) : M unit := close self.

End PerfettoTrace.

(** Python's [with mgr as v: body] for a trace [mgr]: [__exit__] runs
    whether the body returns or raises; as it returns [None], an exception
    of the body is raised again after it, and an exception of [__exit__]
    itself replaces it. *)
Definition py_with {A} (mgr : ref) (body : ref -> M A) : M A :=
  fun w =>
    match PerfettoTrace.__enter__ mgr w with
    | Ret v w1 =>
        match body v w1 with
        | Ret a w2 =>
            match PerfettoTrace.__exit__ mgr None w2 with
            | Ret _ w3 => Ret a w3
            | Raise e w3 => Raise e w3
            | Invalid => Invalid
            end
        | Raise e w2 =>
            match PerfettoTrace.__exit__ mgr (Some e) w2 with
            | Ret _ w3 => Raise e w3
            | Raise e' w3 => Raise e' w3
            | Invalid => Invalid
            end
        | Invalid => Invalid
        end
    | Raise e w1 => Raise e w1
    | Invalid => Invalid
    end.

(** [create_trace] of api.py. *)
Definition create_trace (filename name time_units : string) : M ref :=
  PerfettoTrace.__init__ filename name time_units.

(** ** Programs over the public interface *)

Inductive call :=
| CreateTrace (filename name time_units : string)
| CreateStream (trace : ref) (name : string) (scope type_name : option string)
| TraceClose (trace : ref)
| BeginTransaction (stream : ref) (name : string) (start_time : Z)
    (type_name : option string) (parent : py_arg)
| StreamClose (stream : ref)
| TxnClose (txn : ref) (end_time : Z)
| AddInt (txn : ref) (name : string) (value : Z) (radix : Radix)
| AddUint (txn : ref) (name : string) (value : Z) (radix : Radix)
| AddFloat (txn : ref) (name : string) (value : spec_float)
| AddString (txn : ref) (name : string) (value : string)
| AddTime (txn : ref) (name : string) (value : Z)
| AddBits (txn : ref) (name : string) (bits : bytes) (num_bits : Z) (radix : Radix)
| AddBlob (txn : ref) (name : string) (data : bytes)
| AddLink (txn : ref) (target : py_arg) (link_type : LinkType)
    (relation_name : option string).

Definition discard {A} (m : M A) : M unit := let* _ := m in ret tt.

Definition perform (c : call) : M unit :=
  match c with
  | CreateTrace f n u => discard (create_trace f n u)
  | CreateStream tr n sc ty => discard (PerfettoTrace.create_stream tr n sc ty)
  | TraceClose tr => PerfettoTrace.close tr
  | BeginTransaction s n st ty p =>
      discard (PerfettoStream.begin_transaction s n st ty p)
  | StreamClose s => PerfettoStream.close s
  | TxnClose t e => PerfettoTransaction.close t e
  | AddInt t n v r => PerfettoTransaction.add_int t n v r
  | AddUint t n v r => PerfettoTransaction.add_uint t n v r
  | AddFloat t n v => PerfettoTransaction.add_float t n v
  | AddString t n v => PerfettoTransaction.add_string t n v
  | AddTime t n v => PerfettoTransaction.add_time t n v
  | AddBits t n b k r => PerfettoTransaction.add_bits t n b k r
  | AddBlob t n d => PerfettoTransaction.add_blob t n d
  | AddLink t g k r => PerfettoTransaction.add_link t g k r
  end.

(** The store after a call, whether it returned or raised. *)
Definition world_after {A} (o : outcome A) : option World :=
  match o with
  | Ret _ w | Raise _ w => Some w
  | Invalid => None
  end.

(** A store is reachable when a program of calls on existing objects builds
    it from the empty store; a caller may catch an exception and go on. *)
Inductive reachable : World -> Prop :=
| reachable_empty : reachable empty_world
| reachable_step w c w' :
    reachable w -> world_after (perform c w) = Some w' -> reachable w'.

Fixpoint run (cs : list call) (w : World) : option World :=
  match cs with
  | [] => Some w
  | c :: cs' =>
      match world_after (perform c w) with
      | Some w' => run cs' w'
      | None => None
      end
  end.

(** ** Reference definitions for the wire format *)

(** The wire format's reading of an unsigned varint (base 128, least
    significant group first, a set high bit announcing one more byte).  The
    repository has no decoder; this one is the reference the writer is
    compared with. *)
Fixpoint uvarint_decode (bs : bytes) : option (Z * bytes) :=
  match bs with
  | [] => None
  | b :: rest =>
      let x := Z_of_byte b in
      if Z.testbit x 7 then
        match uvarint_decode rest with
        | Some (hi, rest') => Some (Z.land x 0x7F + Z.shiftl hi 7, rest')
        | None => None
        end
      else Some (x, rest)
  end.

(** Reading a file back: the frames [_write_packet] wrote are a varint
    length followed by that many bytes, one after the other (a frame has no
    field tag before its length).  The repository has no reader; this one is
    the reference the writer is compared with.  The fuel is a bound on the
    number of frames. *)
Fixpoint read_frames (fuel : nat) (bs : bytes) : option (list bytes) :=
  match bs, fuel with
  | [], _ => Some []
  | _, O => None
  | _, S fuel' =>
      match uvarint_decode bs with
      | Some (n, rest) =>
          if (Z.to_nat n <=? length rest)%nat then
            match read_frames fuel' (drop (Z.to_nat n) rest) with
            | Some frames => Some (take (Z.to_nat n) rest :: frames)
            | None => None
            end
          else None
      | None => None
      end
  end.

Definition read_file (bs : bytes) : option (list bytes) :=
  read_frames (length bs) bs.

(** ** The legacy implementation (impl/__init__.py): its protobuf writer
    and its formatting functions *)

Module ProtobufWriter.

Definition VARINT : Z := 0.
Definition FIXED64 : Z := 1.
Definition LENGTH_DELIMITED : Z := 2.
Definition FIXED32 : Z := 5.

(** A method of the writer takes the output written so far and gives the
    output after it.  [write_varint] has the loop of [_write_varint]. *)
Definition write_varint (value : Z) (output : bytes) : bytes :=
  output ++ _write_varint value.

Definition write_tag (field_number wire_type : Z) (output : bytes) : bytes :=
  write_varint (Z.lor (Z.shiftl field_number 3) wire_type) output.

Definition write_length_delimited (field_number : Z) (data : bytes)
    (output : bytes) : bytes :=
  let output := write_tag field_number LENGTH_DELIMITED output in
  let output := write_varint (Z.of_nat (length data)) output in
  output ++ data.

Definition write_uint64_field (field_number value : Z) (output : bytes) : bytes :=
  let output := write_tag field_number VARINT output in
  write_varint value output.

Definition write_int64_field (field_number value : Z) (output : bytes) : bytes :=
  let encoded := Z.lxor (Z.shiftl value 1) (Z.shiftr value 63) in
  write_uint64_field field_number encoded output.

Definition write_message (field_number : Z) (message_bytes : bytes)
    (output : bytes) : bytes :=
  write_length_delimited field_number message_bytes output.

End ProtobufWriter.

(** [format_radix_name] and [bits_to_string] of the legacy module. *)
Definition format_radix_name (name : string) (radix : Radix) : string :=
  let suffix :=
    match radix with
    | BIN => "[bin]"
    | OCT => "[oct]"
    | DEC => "[dec]"
    | HEX => "[hex]"
    | UNSIGNED => "[u]"
    | TIME => "[time]"
    | _ => EmptyString
    end in
  name +:+ suffix.

Definition bits_to_string (bits : bytes) (num_bits : Z) (radix : Radix) : string :=
  match radix with
  | HEX => "0x" +:+ bytes_hex bits
  | BIN =>
      let result :=
        fold_left (fun result byte => result +:+ format_08b byte) (rev bits) "0b" in
      py_slice_to (2 + num_bits) result
  | _ => "0x" +:+ bytes_hex bits
  end.

(** Reading one field of a protobuf message (wire types 0 and 2), and the
    inverse of the zigzag map: the references the writer is compared with. *)
Inductive wire_value :=
| varint_field (value : Z)
| bytes_field (data : bytes).

Definition read_field (bs : bytes) : option (Z * wire_value * bytes) :=
  match uvarint_decode bs with
  | Some (tag, rest) =>
      let field_number := Z.shiftr tag 3 in
      match Z.land tag 7 with
      | 0 =>
          match uvarint_decode rest with
          | Some (v, rest') => Some (field_number, varint_field v, rest')
          | None => None
          end
      | 2 =>
          match uvarint_decode rest with
          | Some (n, rest') =>
              if (Z.to_nat n <=? length rest')%nat then
                Some (field_number, bytes_field (take (Z.to_nat n) rest'),
                      drop (Z.to_nat n) rest')
              else None
          | None => None
          end
      | _ => None
      end
  | None => None
  end.

Definition zigzag_decode (n : Z) : Z :=
  Z.lxor (Z.shiftr n 1) (- Z.land n 1).

(** Reading digits back: the number a string of digits denotes in a base,
    most significant digit first (the reading of Python's [int(s, base)]
    for lowercase digit strings), the big-endian value of a byte string,
    and the inverse of [bytes.hex] ([bytes.fromhex]).  References for the
    renderings. *)
Definition digit_value (c : ascii) : option Z :=
  let n := Z.of_N (N_of_ascii c) in
  if (48 <=? n) && (n <=? 57) then Some (n - 48)
  else if (97 <=? n) && (n <=? 102) then Some (n - 87)
  else None.

Fixpoint digits_value (base : Z) (acc : Z) (s : string) : option Z :=
  match s with
  | EmptyString => Some acc
  | String c s' =>
      match digit_value c with
      | Some d => if d <? base then digits_value base (base * acc + d) s' else None
      | None => None
      end
  end.

Definition int_from_bytes_big (bs : bytes) : Z :=
  fold_left (fun acc b => 256 * acc + Z_of_byte b) bs 0.

Fixpoint bytes_fromhex (s : string) : option bytes :=
  match s with
  | EmptyString => Some []
  | String hi (String lo s') =>
      match digit_value hi, digit_value lo, bytes_fromhex s' with
      | Some h, Some l, Some bs => Some (byte_of_Z (16 * h + l) :: bs)
      | _, _, _ => None
      end
  | String _ EmptyString => None
  end.

(** The number an integer literal with a base prefix denotes (Python's
    [int(s, 0)] on ["0x.."], ["0o.."] and ["0b.."]; a literal without digits
    reads as 0 here). *)
Definition int_literal (s : string) : option Z :=
  match s with
  | String "0" (String "x" d) => digits_value 16 0 d
  | String "0" (String "o" d) => digits_value 8 0 d
  | String "0" (String "b" d) => digits_value 2 0 d
  | _ => None
  end.

(** The number of bytes the writer emits for [v]: one per group of seven bits. *)
Definition varint_size (v : Z) : nat := S (Z.to_nat (Z.log2 v / 7)).


(** The binary digits of a byte string, eight per byte, in the order given. *)
Definition bin_digits (bs : bytes) : string :=
  foldr (fun b acc => format_08b b +:+ acc) EmptyString bs.

(** ** The invariant of the store

    What every store built by calls satisfies ([reachable_wf] below): every
    reference held by an object names an object; a transaction is listed by
    its stream and a stream by its trace, once; an open transaction sits on
    an open stream and an open stream on a trace whose file is open; and the
    track of a stream or of a transaction was drawn from the counter of its
    trace, a child's track after its stream's. *)

Definition track_ok (o : PerfettoTransactionObj) (s : PerfettoStreamObj) : Prop :=
  match txn_parent o with
  | None => txn_track_uuid o = stream_track_uuid s
  | Some _ => stream_track_uuid s < txn_track_uuid o
  end.

Record wf (w : World) : Prop := mk_wf {
  wf_txn : forall t o, txns w !! t = Some o ->
    exists s tr,
      streams w !! txn_stream o = Some s /\
      traces w !! stream_trace s = Some tr /\
      t ∈ stream_transactions s /\
      (txn_is_open o = true -> stream_is_open s = true) /\
      track_ok o s /\
      txn_track_uuid o < trace_next_track_uuid tr;
  wf_parent : forall t o p, txns w !! t = Some o -> txn_parent o = Some p ->
    is_Some (txns w !! p);
  wf_stream : forall s o, streams w !! s = Some o ->
    exists tr,
      traces w !! stream_trace o = Some tr /\
      s ∈ trace_streams tr /\
      (stream_is_open o = true -> trace_file_open tr = true) /\
      stream_track_uuid o < trace_next_track_uuid tr /\
      NoDup (stream_transactions o);
  wf_listed_txn : forall s o t, streams w !! s = Some o ->
    t ∈ stream_transactions o ->
    exists ot, txns w !! t = Some ot /\ txn_stream ot = s;
  wf_trace : forall r o, traces w !! r = Some o -> NoDup (trace_streams o);
  wf_listed_stream : forall r o s, traces w !! r = Some o ->
    s ∈ trace_streams o ->
    exists os, streams w !! s = Some os /\ stream_trace os = r }.

(** How an object may change over its life: counters only grow, lists are
    only appended to, what is closed stays closed, the rest is fixed. *)

Record trace_evolves (o o' : PerfettoTraceObj) : Prop := mk_trace_evolves {
  ev_next_track : trace_next_track_uuid o <= trace_next_track_uuid o';
  ev_next_transaction : trace_next_transaction_id o <= trace_next_transaction_id o';
  ev_next_flow : trace_next_flow_id o <= trace_next_flow_id o';
  ev_written : trace_written o `prefix_of` trace_written o';
  ev_streams : trace_streams o `prefix_of` trace_streams o';
  ev_file : trace_file_open o = false -> trace_file_open o' = false }.

Record stream_evolves (o o' : PerfettoStreamObj) : Prop := mk_stream_evolves {
  ev_stream_trace : stream_trace o' = stream_trace o;
  ev_stream_track : stream_track_uuid o' = stream_track_uuid o;
  ev_stream_name : stream_name o' = stream_name o;
  ev_transactions : stream_transactions o `prefix_of` stream_transactions o';
  ev_stream_closed : stream_is_open o = false ->
    stream_is_open o' = false /\ stream_transactions o' = stream_transactions o }.

Record txn_evolves (o o' : PerfettoTransactionObj) : Prop := mk_txn_evolves {
  ev_txn_id : txn_id o' = txn_id o;
  ev_txn_stream : txn_stream o' = txn_stream o;
  ev_txn_name : txn_name o' = txn_name o;
  ev_txn_type_name : txn_type_name o' = txn_type_name o;
  ev_txn_start_time : txn_start_time o' = txn_start_time o;
  ev_txn_parent : txn_parent o' = txn_parent o;
  ev_txn_track : txn_track_uuid o' = txn_track_uuid o;
  ev_attributes : txn_attributes o `prefix_of` txn_attributes o';
  ev_flow_ids : txn_flow_ids o `prefix_of` txn_flow_ids o';
  ev_txn_closed : txn_is_open o = false ->
    txn_is_open o' = false /\ txn_end_time o' = txn_end_time o }.

Record evolves (w w' : World) : Prop := mk_evolves {
  ev_traces : forall r o, traces w !! r = Some o ->
    exists o', traces w' !! r = Some o' /\ trace_evolves o o';
  ev_streams_of : forall s o, streams w !! s = Some o ->
    exists o', streams w' !! s = Some o' /\ stream_evolves o o';
  ev_txns : forall t o, txns w !! t = Some o ->
    exists o', txns w' !! t = Some o' /\ txn_evolves o o' }.

(** A computation is [sound] when, from a store that satisfies the
    invariant, the store it returns or raises with satisfies it too and
    evolved from the first. *)
Definition sound {A} (m : M A) : Prop :=
  forall w w', wf w -> world_after (m w) = Some w' -> wf w' /\ evolves w w'.

(** The fields [close] assigns. *)
Definition closed_at (end_time : Z) (t : PerfettoTransactionObj) :=
  set_txn_is_open false (set_txn_end_time end_time t).

(** The two packets of a slice. *)
Definition slice_packets (t : PerfettoTransactionObj) : list TracePacket :=
  [slice_begin_packet t; slice_end_packet t].

(** What the loop of [PerfettoStream.close] makes of a transaction. *)
Definition force_closed (o : PerfettoTransactionObj) : PerfettoTransactionObj :=
  if txn_is_open o then closed_at (txn_start_time o) o else o.

(** The packets that force-closing the transactions [l] writes, in order:
    a slice for each one that is open. *)
Definition pending_packets (w : World) (l : list ref) : list TracePacket :=
  flat_map
    (fun t =>
       match txns w !! t with
       | Some o =>
           if txn_is_open o then slice_packets (closed_at (txn_start_time o) o)
           else []
       | None => []
       end) l.

Definition is_open_in (w : World) (t : ref) : bool :=
  match txns w !! t with
  | Some o => txn_is_open o
  | None => false
  end.

(** The open transactions among [l]. *)
Definition open_txns (w : World) (l : list ref) : list ref :=
  filter (fun t => is_open_in w t = true) l.

(** The transaction object [PerfettoTransaction.__init__] builds. *)
Definition fresh_txn (txn_id : Z) (stream : ref) (name : string) (start_time : Z)
    (type_name : option string) (parent : option ref) (track_uuid : Z) :=
  mkTransaction txn_id stream name type_name start_time 0 true parent [] [] track_uuid.

(** The track descriptor packets. *)
Definition stream_descriptor_packet (track_uuid : Z) (name : string) : TracePacket :=
  mkTracePacket 0 (track_descriptor (mkTrackDescriptor track_uuid name None)).

Definition child_descriptor_packet (track_uuid : Z) (name : string) (parent_uuid : Z)
  : TracePacket :=
  mkTracePacket 0
    (track_descriptor (mkTrackDescriptor track_uuid name (Some parent_uuid))).

(** The trace object [PerfettoTrace.__init__] builds, before its first
    packet. *)
Definition fresh_trace (filename name time_units : string) : PerfettoTraceObj :=
  mkTrace filename name time_units true [] [] 1 1 1 1 64.

Definition clock_snapshot_packet : TracePacket :=
  mkTracePacket 0 (clock_snapshot [mkClock 64 0]).

(** ** The three allocators, and programs that call them *)

Inductive allocator := TrackUuid | TransactionId | FlowId.

#[global] Instance allocator_eq_dec : EqDecision allocator.
Proof. solve_decision. Defined.

Definition allocate (k : allocator) (self : ref) : M Z :=
  match k with
  | TrackUuid => _allocate_track_uuid self
  | TransactionId => _allocate_transaction_id self
  | FlowId => _allocate_flow_id self
  end.

Definition counter (k : allocator) (tr : PerfettoTraceObj) : Z :=
  match k with
  | TrackUuid => trace_next_track_uuid tr
  | TransactionId => trace_next_transaction_id tr
  | FlowId => trace_next_flow_id tr
  end.

(** A step of the life of a trace: a call of the public interface (which
    may draw identifiers itself) or a call of one allocator. *)
Inductive action :=
| Call (c : call)
| Allocate (k : allocator) (trace : ref).

(** Runs [acts] and collects, in order, what the calls of allocator [k] of
    trace [r] return. *)
Fixpoint observe (k : allocator) (r : ref) (acts : list action) (w : World)
  : option (list Z * World) :=
  match acts with
  | [] => Some ([], w)
  | Call c :: acts' =>
      match world_after (perform c w) with
      | Some w1 => observe k r acts' w1
      | None => None
      end
  | Allocate k' r' :: acts' =>
      match allocate k' r' w with
      | Ret v w1 =>
          match observe k r acts' w1 with
          | Some (vs, w') =>
              Some (if decide (k' = k /\ r' = r) then v :: vs else vs, w')
          | None => None
          end
      | _ => None
      end
  end.

(** ** A session, for examples

    One trace with the streams [0] ("bus") and [1] ("mon"); on "bus" the
    open root transaction [0] ("RD", from 100, one attribute) and its open
    child [1] ("beat", from 110); on "mon" the transaction [2] ("IRQ", from
    120), closed at 130.  A second trace with the stream [2] and the open
    transaction [3]. *)

Definition session_calls : list call :=
  [ CreateTrace "t.trace" "S" "1ns";
    CreateStream 0 "bus" None None;
    CreateStream 0 "mon" None (Some "monitor");
    BeginTransaction 0 "RD" 100 (Some "read") PyNone;
    AddUint 0 "addr" 16 HEX;
    BeginTransaction 0 "beat" 110 None (PyPerfettoTransaction 0);
    BeginTransaction 1 "IRQ" 120 None PyNone;
    TxnClose 2 130;
    CreateTrace "u.trace" "U" "1ps";
    CreateStream 1 "cpu" None None;
    BeginTransaction 2 "ld" 7 None PyNone ].

Definition session : World :=
  Eval vm_compute in
    match run session_calls empty_world with
    | Some w => w
    | None => empty_world
    end.

(** The slice of a transaction force-closed by its stream: both packets
    carry the start time. *)
Definition zero_duration_slice (w : World) (t : ref) : list TracePacket :=
  match txns w !! t with
  | Some o =>
      [ mkTracePacket (txn_start_time o)
          (track_event
             (mkTrackEvent TYPE_SLICE_BEGIN (txn_track_uuid o) (Some (txn_name o))
                (categories_of (txn_type_name o)) (txn_attributes o)
                (txn_flow_ids o)));
        mkTracePacket (txn_start_time o)
          (track_event
             (mkTrackEvent TYPE_SLICE_END (txn_track_uuid o) None [] []
                (txn_flow_ids o))) ]
  | None => []
  end.

(** The trace after one call of allocator [k]. *)
Definition bump (k : allocator) (tr : PerfettoTraceObj) : PerfettoTraceObj :=
  match k with
  | TrackUuid => set_trace_next_track_uuid (trace_next_track_uuid tr + 1) tr
  | TransactionId =>
      set_trace_next_transaction_id (trace_next_transaction_id tr + 1) tr
  | FlowId => set_trace_next_flow_id (trace_next_flow_id tr + 1) tr
  end.

(** ** Identifiers held by the objects of a store

    What the allocators returned lives on in the objects: transaction
    identifiers, and the tracks of streams and of child transactions.  In
    every store built by calls ([reachable_ids_ok] below) they are at least
    1, below the counter they were drawn from, and pairwise distinct within
    one trace. *)

Record ids_ok (w : World) : Prop := mk_ids_ok {
  ids_counters : forall r tr, traces w !! r = Some tr ->
    1 <= trace_next_track_uuid tr /\
    1 <= trace_next_transaction_id tr /\
    1 <= trace_next_flow_id tr;
  ids_txn : forall t o s tr, txns w !! t = Some o ->
    streams w !! txn_stream o = Some s ->
    traces w !! stream_trace s = Some tr ->
    1 <= txn_id o < trace_next_transaction_id tr;
  ids_txn_inj : forall t1 t2 o1 o2 s1 s2,
    txns w !! t1 = Some o1 -> txns w !! t2 = Some o2 ->
    streams w !! txn_stream o1 = Some s1 ->
    streams w !! txn_stream o2 = Some s2 ->
    stream_trace s1 = stream_trace s2 ->
    txn_id o1 = txn_id o2 -> t1 = t2;
  ids_stream_track : forall s o, streams w !! s = Some o ->
    1 <= stream_track_uuid o;
  ids_stream_track_inj : forall s1 s2 o1 o2,
    streams w !! s1 = Some o1 -> streams w !! s2 = Some o2 ->
    stream_trace o1 = stream_trace o2 ->
    stream_track_uuid o1 = stream_track_uuid o2 -> s1 = s2;
  ids_child_track_inj : forall t1 t2 o1 o2 s1 s2,
    txns w !! t1 = Some o1 -> txns w !! t2 = Some o2 ->
    is_Some (txn_parent o1) -> is_Some (txn_parent o2) ->
    streams w !! txn_stream o1 = Some s1 ->
    streams w !! txn_stream o2 = Some s2 ->
    stream_trace s1 = stream_trace s2 ->
    txn_track_uuid o1 = txn_track_uuid o2 -> t1 = t2;
  ids_child_track_stream : forall t o s s' os',
    txns w !! t = Some o -> is_Some (txn_parent o) ->
    streams w !! txn_stream o = Some s ->
    streams w !! s' = Some os' -> stream_trace os' = stream_trace s ->
    txn_track_uuid o <> stream_track_uuid os' }.

(** The stores [w] and [w'] hold the same objects (in other states). *)
Definition same_objects (w w' : World) : Prop :=
  length (traces w') = length (traces w) /\
  length (streams w') = length (streams w) /\
  length (txns w') = length (txns w).

(** A computation that creates no object. *)
Definition keeps {A} (m : M A) : Prop :=
  forall w w', world_after (m w) = Some w' -> same_objects w w'.

(** The packets that closing the streams [l] writes, in order: for each
    stream the slices of its open transactions. *)
Definition trace_pending (w : World) (l : list ref) : list TracePacket :=
  flat_map
    (fun s =>
       match streams w !! s with
       | Some os => pending_packets w (stream_transactions os)
       | None => []
       end) l.

(** The attribute calls: the transaction an [add_*] call is made on and the
    annotation it records. *)
Definition attribute_of (c : call) : option (ref * DebugAnnotation) :=
  match c with
  | AddInt t n v r =>
      Some (t, mkDebugAnnotation (PerfettoTransaction._format_name n r) (int_value v))
  | AddUint t n v r =>
      Some (t, mkDebugAnnotation (PerfettoTransaction._format_name n r) (uint_value v))
  | AddFloat t n v => Some (t, mkDebugAnnotation n (double_value v))
  | AddString t n v => Some (t, mkDebugAnnotation n (string_value v))
  | AddTime t n v =>
      Some (t, mkDebugAnnotation (PerfettoTransaction._format_name n TIME) (uint_value v))
  | AddBits t n b k r =>
      Some (t, mkDebugAnnotation (PerfettoTransaction._format_name n r)
                 (string_value (PerfettoTransaction._bits_to_string b k r)))
  | AddBlob t n d => Some (t, mkDebugAnnotation n (string_value (bytes_hex d)))
  | _ => None
  end.

Definition attribute_calls_on (t : ref) (cs : list call) : Prop :=
  Forall (fun c => fst <$> attribute_of c = Some t) cs.

Definition attributes_of (cs : list call) : list DebugAnnotation :=
  omap (fun c => snd <$> attribute_of c) cs.

(** ** The shape of a file

    A file is well formed when it starts with the clock snapshot and holds
    no other; every track descriptor declares a track not declared before;
    and every track event is the begin of a slice on a declared track,
    followed at once by the end of the slice on the same track with the
    same flow identifiers. *)

(** The tracks declared by the descriptors of [ps], in order. *)
Definition declared (ps : list TracePacket) : list Z :=
  omap
    (fun p =>
       match packet_data p with
       | track_descriptor d => Some (descriptor_uuid d)
       | _ => None
       end) ps.

Fixpoint body_ok (tracks : list Z) (ps : list TracePacket) : bool :=
  match ps with
  | [] => true
  | p :: ps' =>
      match packet_data p with
      | clock_snapshot _ => false
      | track_descriptor d =>
          bool_decide (descriptor_uuid d ∉ tracks)
          && body_ok (tracks ++ [descriptor_uuid d]) ps'
      | track_event e =>
          match event_type e, ps' with
          | TYPE_SLICE_BEGIN, q :: ps'' =>
              match packet_data q with
              | track_event e' =>
                  match event_type e' with
                  | TYPE_SLICE_END =>
                      bool_decide (event_track_uuid e ∈ tracks)
                      && (event_track_uuid e' =? event_track_uuid e)
                      && bool_decide (event_flow_ids e' = event_flow_ids e)
                      && body_ok tracks ps''
                  | TYPE_SLICE_BEGIN => false
                  end
              | _ => false
              end
          | _, _ => false
          end
      end
  end.

Definition file_ok (ps : list TracePacket) : bool :=
  match ps with
  | p :: ps' =>
      match packet_data p with
      | clock_snapshot _ => body_ok [] ps'
      | _ => false
      end
  | [] => false
  end.

(** The files of a store are well formed, the tracks they declare were
    drawn from the counter of their trace, and the track of every stream
    and of every transaction is declared in the file of its trace. *)
Record files_ok (w : World) : Prop := mk_files_ok {
  fo_file : forall r tr, traces w !! r = Some tr ->
    file_ok (trace_written tr) = true;
  fo_bound : forall r tr u, traces w !! r = Some tr ->
    u ∈ declared (trace_written tr) -> u < trace_next_track_uuid tr;
  fo_stream : forall s os tr, streams w !! s = Some os ->
    traces w !! stream_trace os = Some tr ->
    stream_track_uuid os ∈ declared (trace_written tr);
  fo_txn : forall t o os tr, txns w !! t = Some o ->
    streams w !! txn_stream o = Some os ->
    traces w !! stream_trace os = Some tr ->
    txn_track_uuid o ∈ declared (trace_written tr) }.

(** ** Accounting for the packets of a file

    The trace a transaction belongs to, the number of elements of a list
    that satisfy a test, and the two tests counted: the transactions of a
    trace that are closed, and those that were given a parent. *)
Definition txn_trace (ss : list PerfettoStreamObj) (o : PerfettoTransactionObj)
  : option ref :=
  stream_trace <$> ss !! txn_stream o.

Fixpoint count {A} (p : A -> bool) (l : list A) : nat :=
  match l with
  | [] => 0
  | x :: l' => (if p x then 1 else 0) + count p l'
  end.

Definition closed_on (ss : list PerfettoStreamObj) (r : ref)
    (o : PerfettoTransactionObj) : bool :=
  bool_decide (txn_trace ss o = Some r) && negb (txn_is_open o).

Definition child_on (ss : list PerfettoStreamObj) (r : ref)
    (o : PerfettoTransactionObj) : bool :=
  bool_decide (txn_trace ss o = Some r) && bool_decide (is_Some (txn_parent o)).

(** Every file holds one descriptor per stream and per child transaction of
    its trace, and besides the clock snapshot and the descriptors two
    packets per closed transaction of its trace. *)
Record accounts (w : World) : Prop := mk_accounts {
  acc_descriptors : forall r tr, traces w !! r = Some tr ->
    length (declared (trace_written tr)) =
      (length (trace_streams tr) + count (child_on (streams w) r) (txns w))%nat;
  acc_packets : forall r tr, traces w !! r = Some tr ->
    length (trace_written tr) =
      (1 + length (declared (trace_written tr))
       + 2 * count (closed_on (streams w) r) (txns w))%nat }.

(** A computation that keeps the accounts of a well-formed store. *)
Definition pres {A} (m : M A) : Prop :=
  forall w w', wf w -> accounts w -> world_after (m w) = Some w' -> accounts w'.

(** ** The legacy object model and API (impl/__init__.py)

    The legacy classes [Transaction], [Stream] and [Trace] and the module
    functions over them, with a store of their own.  The four [_emit_*]
    methods of the legacy [Trace] are [pass]; the writer of the trace is
    never called. *)

Module Legacy.

Inductive ObjectState := OPEN | CLOSED | FREED.

#[global] Instance ObjectState_eq_dec : EqDecision ObjectState.
Proof. solve_decision. Defined.

Inductive AttrType :=
| INT8 | INT16 | INT32 | INT64 | UINT8 | UINT16 | UINT32 | UINT64
| ATTR_REAL | DOUBLE | ATTR_STRING | BITSTRING | BLOB.

(** The values the API stores in an annotation. *)
Inductive Any :=
| AnyInt (v : Z)
| AnyFloat (v : spec_float)
| AnyStr (v : string)
| AnyBytes (v : bytes).

Record DebugAnnotation := mkDebugAnnotation {
  attr_name : string;
  attr_type : AttrType;
  attr_value : Any;
  attr_radix : Radix }.

Record Transaction := mkTransaction {
  txn_id : Z;
  txn_stream : ref;
  txn_name : string;
  txn_type_name : string;
  txn_start_time : Z;
  txn_end_time : Z;
  txn_state : ObjectState;
  txn_handle : Z;
  txn_attributes : list DebugAnnotation;
  txn_flow_ids : list Z;
  txn_attributes_batch_mode : bool }.

Record Stream := mkStream {
  stream_trace : ref;
  stream_uuid : Z;
  stream_name : string;
  stream_scope : string;
  stream_type_name : string;
  stream_state : ObjectState;
  stream_handle : Z;
  stream_transactions : list ref }.

(** [trace_output_file] is [None] once the file is closed, and otherwise the
    bytes written to it. *)
Record Trace := mkTrace {
  trace_filename : string;
  trace_name : string;
  trace_time_units : string;
  trace_output_file : option bytes;
  trace_sequence_id : Z;
  trace_clock_id : Z;
  trace_streams : list ref;
  trace_stream_handles : gmap Z ref;
  trace_transaction_handles : gmap Z ref;
  trace_next_stream_handle : Z;
  trace_next_transaction_handle : Z;
  trace_next_track_uuid : Z;
  trace_next_transaction_id : Z;
  trace_next_flow_id : Z }.

Record Store := mkStore {
  traces : list Trace;
  streams : list Stream;
  txns : list Transaction }.

Definition empty_store : Store := mkStore [] [] [].

Inductive exn := ValueError | AttributeError.

(** The result of a call: it returns, raises, or is applied to a reference
    that names no object. *)
Inductive result (A : Type) :=
| Return (a : A) (st : Store)
| Raise (e : exn) (st : Store)
| Invalid.
Arguments Return {A} a st.
Arguments Raise {A} e st.
Arguments Invalid {A}.

Definition with_trace (r : ref) (o : Trace) (st : Store) : Store :=
  mkStore (<[r := o]> (traces st)) (streams st) (txns st).

Definition with_stream (r : ref) (o : Stream) (st : Store) : Store :=
  mkStore (traces st) (<[r := o]> (streams st)) (txns st).

Definition with_txn (r : ref) (o : Transaction) (st : Store) : Store :=
  mkStore (traces st) (streams st) (<[r := o]> (txns st)).

(** [x or <the empty string>] for an optional string. *)
Definition or_empty (x : option string) : string :=
  match x with
  | Some s => s
  | None => EmptyString
  end.

(** class Transaction, class Stream *)

Definition Transaction_is_open (o : Transaction) : bool :=
  bool_decide (txn_state o = OPEN).

Definition Transaction_is_closed (o : Transaction) : bool :=
  bool_decide (txn_state o = CLOSED).

Definition Stream_is_open (o : Stream) : bool :=
  bool_decide (stream_state o = OPEN).

Definition Stream_is_closed (o : Stream) : bool :=
  bool_decide (stream_state o = CLOSED).

(** [Trace.__init__]: the output file is opened and nothing is written,
    [_emit_clock_snapshot] being [pass]. *)
Definition create_trace (filename name time_units : string) (st : Store)
  : result ref :=
  Return (length (traces st))
    (mkStore
       (traces st ++
          [mkTrace filename name time_units (Some []) 1 64 [] ∅ ∅ 1 1 1 1 1])
       (streams st) (txns st)).

Definition close_transaction (txn : option ref) (end_time : Z) (st : Store)
  : result unit :=
  match txn with
  | None => Return tt st
  | Some t =>
      match txns st !! t with
      | None => Invalid
      | Some o =>
          if decide (txn_state o = OPEN) then
            Return tt
              (with_txn t
                 (mkTransaction (txn_id o) (txn_stream o) (txn_name o)
                    (txn_type_name o) (txn_start_time o) end_time CLOSED
                    (txn_handle o) (txn_attributes o) (txn_flow_ids o)
                    (txn_attributes_batch_mode o)) st)
          else Return tt st
      end
  end.

(** The loop of [close_stream]:
    [if txn.is_open(): close_transaction(txn, txn.start_time)]. *)
Fixpoint close_transactions (l : list ref) (st : Store) : result unit :=
  match l with
  | [] => Return tt st
  | t :: l' =>
      match txns st !! t with
      | None => Invalid
      | Some o =>
          if Transaction_is_open o then
            match close_transaction (Some t) (txn_start_time o) st with
            | Return _ st' => close_transactions l' st'
            | Raise e st' => Raise e st'
            | Invalid => Invalid
            end
          else close_transactions l' st
      end
  end.

Definition close_stream (stream : option ref) (st : Store) : result unit :=
  match stream with
  | None => Return tt st
  | Some s =>
      match streams st !! s with
      | None => Invalid
      | Some so =>
          match close_transactions (stream_transactions so) st with
          | Return _ st' =>
              match streams st' !! s with
              | None => Invalid
              | Some so' =>
                  Return tt
                    (with_stream s
                       (mkStream (stream_trace so') (stream_uuid so')
                          (stream_name so') (stream_scope so')
                          (stream_type_name so') CLOSED (stream_handle so')
                          (stream_transactions so')) st')
              end
          | Raise e st' => Raise e st'
          | Invalid => Invalid
          end
      end
  end.

(** The loop of [close_trace]:
    [if stream.is_open(): close_stream(stream)]. *)
Fixpoint close_streams (l : list ref) (st : Store) : result unit :=
  match l with
  | [] => Return tt st
  | s :: l' =>
      match streams st !! s with
      | None => Invalid
      | Some so =>
          if Stream_is_open so then
            match close_stream (Some s) st with
            | Return _ st' => close_streams l' st'
            | Raise e st' => Raise e st'
            | Invalid => Invalid
            end
          else close_streams l' st
      end
  end.

(** [Trace.close]: [if self.output_file: ...close(); self.output_file = None]. *)
Definition Trace_close (tr : Trace) : Trace :=
  match trace_output_file tr with
  | Some _ =>
      mkTrace (trace_filename tr) (trace_name tr) (trace_time_units tr) None
        (trace_sequence_id tr) (trace_clock_id tr) (trace_streams tr)
        (trace_stream_handles tr) (trace_transaction_handles tr)
        (trace_next_stream_handle tr) (trace_next_transaction_handle tr)
        (trace_next_track_uuid tr) (trace_next_transaction_id tr)
        (trace_next_flow_id tr)
  | None => tr
  end.

Definition close_trace (trace : option ref) (st : Store) : result unit :=
  match trace with
  | None => Return tt st
  | Some r =>
      match traces st !! r with
      | None => Invalid
      | Some tr =>
          match close_streams (trace_streams tr) st with
          | Return _ st' =>
              match traces st' !! r with
              | None => Invalid
              | Some tr' => Return tt (with_trace r (Trace_close tr') st')
              end
          | Raise e st' => Raise e st'
          | Invalid => Invalid
          end
      end
  end.

(** [open_stream]: with [None] for the trace, reading
    [trace.next_track_uuid] raises [AttributeError]. *)
Definition open_stream (trace : option ref) (name : string)
    (scope type_name : option string) (st : Store) : result ref :=
  match trace with
  | None => Raise AttributeError st
  | Some r =>
      match traces st !! r with
      | None => Invalid
      | Some tr =>
          let stream := length (streams st) in
          let handle := trace_next_stream_handle tr in
          let so :=
            mkStream r (trace_next_track_uuid tr) name (or_empty scope)
              (or_empty type_name) OPEN handle [] in
          let tr' :=
            mkTrace (trace_filename tr) (trace_name tr) (trace_time_units tr)
              (trace_output_file tr) (trace_sequence_id tr) (trace_clock_id tr)
              (trace_streams tr ++ [stream])
              (<[handle := stream]> (trace_stream_handles tr))
              (trace_transaction_handles tr)
              (trace_next_stream_handle tr + 1) (trace_next_transaction_handle tr)
              (trace_next_track_uuid tr + 1) (trace_next_transaction_id tr)
              (trace_next_flow_id tr) in
          Return stream
            (mkStore (<[r := tr']> (traces st)) (streams st ++ [so]) (txns st))
      end
  end.

(** [open_transaction]: the [parent] argument is not used. *)
Definition open_transaction (stream : option ref) (name : string) (start_time : Z)
    (type_name : option string) (parent : option ref) (st : Store) : result ref :=
  match stream with
  | None => Raise AttributeError st
  | Some s =>
      match streams st !! s with
      | None => Invalid
      | Some so =>
          if decide (stream_state so <> OPEN) then Raise ValueError st
          else
            match traces st !! stream_trace so with
            | None => Invalid
            | Some tr =>
                let txn := length (txns st) in
                let handle := trace_next_transaction_handle tr in
                let o :=
                  mkTransaction (trace_next_transaction_id tr) s name
                    (or_empty type_name) start_time 0 OPEN handle [] [] false in
                let tr' :=
                  mkTrace (trace_filename tr) (trace_name tr) (trace_time_units tr)
                    (trace_output_file tr) (trace_sequence_id tr) (trace_clock_id tr)
                    (trace_streams tr) (trace_stream_handles tr)
                    (<[handle := txn]> (trace_transaction_handles tr))
                    (trace_next_stream_handle tr)
                    (trace_next_transaction_handle tr + 1)
                    (trace_next_track_uuid tr) (trace_next_transaction_id tr + 1)
                    (trace_next_flow_id tr) in
                let so' :=
                  mkStream (stream_trace so) (stream_uuid so) (stream_name so)
                    (stream_scope so) (stream_type_name so) (stream_state so)
                    (stream_handle so) (stream_transactions so ++ [txn]) in
                Return txn
                  (mkStore (<[stream_trace so := tr']> (traces st))
                     (<[s := so']> (streams st)) (txns st ++ [o]))
            end
      end
  end.

(** [txn.attributes.append(attr)] under [if txn:]. *)
Definition append_attr (txn : option ref) (attr : DebugAnnotation) (st : Store)
  : result unit :=
  match txn with
  | None => Return tt st
  | Some t =>
      match txns st !! t with
      | None => Invalid
      | Some o =>
          Return tt
            (with_txn t
               (mkTransaction (txn_id o) (txn_stream o) (txn_name o)
                  (txn_type_name o) (txn_start_time o) (txn_end_time o)
                  (txn_state o) (txn_handle o) (txn_attributes o ++ [attr])
                  (txn_flow_ids o) (txn_attributes_batch_mode o)) st)
      end
  end.

Definition add_attr_int (txn : option ref) (name : string) (value : Z)
    (radix : Radix) : Store -> result unit :=
  append_attr txn
    (mkDebugAnnotation (format_radix_name name radix) INT64 (AnyInt value) radix).

Definition add_attr_uint (txn : option ref) (name : string) (value : Z)
    (radix : Radix) : Store -> result unit :=
  append_attr txn
    (mkDebugAnnotation (format_radix_name name radix) UINT64 (AnyInt value) radix).

Definition add_attr_float (txn : option ref) (name : string) (value : spec_float)
  : Store -> result unit :=
  append_attr txn (mkDebugAnnotation name DOUBLE (AnyFloat value) REAL).

Definition add_attr_string (txn : option ref) (name : string) (value : string)
  : Store -> result unit :=
  append_attr txn (mkDebugAnnotation name ATTR_STRING (AnyStr value) STRING).

Definition add_attr_time (txn : option ref) (name : string) (value : Z)
  : Store -> result unit :=
  add_attr_uint txn name value TIME.

Definition add_attr_bits (txn : option ref) (name : string) (bits : bytes)
    (num_bits : Z) (radix : Radix) : Store -> result unit :=
  append_attr txn
    (mkDebugAnnotation (format_radix_name name radix) BITSTRING
       (AnyStr (bits_to_string bits num_bits radix)) radix).

Definition add_attr_blob (txn : option ref) (name : string) (data : bytes)
  : Store -> result unit :=
  append_attr txn (mkDebugAnnotation name BLOB (AnyBytes data) HEX).

(** [o.flow_ids.append(flow_id)] *)
Definition append_flow_id (t : ref) (flow_id : Z) (st : Store) : option Store :=
  match txns st !! t with
  | None => None
  | Some o =>
      Some
        (with_txn t
           (mkTransaction (txn_id o) (txn_stream o) (txn_name o)
              (txn_type_name o) (txn_start_time o) (txn_end_time o)
              (txn_state o) (txn_handle o) (txn_attributes o)
              (txn_flow_ids o ++ [flow_id]) (txn_attributes_batch_mode o)) st)
  end.

Definition add_link (source target : option ref) (link_type : LinkType)
    (relation_name : option string) (st : Store) : result unit :=
  match source, target with
  | Some a, Some b =>
      match txns st !! a with
      | None => Invalid
      | Some oa =>
          match streams st !! txn_stream oa with
          | None => Invalid
          | Some so =>
              match traces st !! stream_trace so with
              | None => Invalid
              | Some tr =>
                  let flow_id := trace_next_flow_id tr in
                  let tr' :=
                    mkTrace (trace_filename tr) (trace_name tr)
                      (trace_time_units tr) (trace_output_file tr)
                      (trace_sequence_id tr) (trace_clock_id tr)
                      (trace_streams tr) (trace_stream_handles tr)
                      (trace_transaction_handles tr)
                      (trace_next_stream_handle tr)
                      (trace_next_transaction_handle tr)
                      (trace_next_track_uuid tr) (trace_next_transaction_id tr)
                      (trace_next_flow_id tr + 1) in
                  match append_flow_id a flow_id
                          (with_trace (stream_trace so) tr' st) with
                  | None => Invalid
                  | Some st1 =>
                      match append_flow_id b flow_id st1 with
                      | None => Invalid
                      | Some st2 => Return tt st2
                      end
                  end
              end
          end
      end
  | _, _ => Return tt st
  end.

(** Query functions: each answers a default for [None]. *)

Definition get_stream_name (stream : option ref) (st : Store) : option string :=
  match stream with
  | None => Some EmptyString
  | Some s => stream_name <$> streams st !! s
  end.

Definition get_stream_handle (stream : option ref) (st : Store) : option Z :=
  match stream with
  | None => Some 0
  | Some s =>
      (fun so => if decide (stream_state so <> FREED) then stream_handle so else 0)
        <$> streams st !! s
  end.

Definition is_stream_open (stream : option ref) (st : Store) : option bool :=
  match stream with
  | None => Some false
  | Some s => Stream_is_open <$> streams st !! s
  end.

Definition is_stream_closed (stream : option ref) (st : Store) : option bool :=
  match stream with
  | None => Some false
  | Some s => Stream_is_closed <$> streams st !! s
  end.

Definition get_transaction_name (txn : option ref) (st : Store) : option string :=
  match txn with
  | None => Some EmptyString
  | Some t => txn_name <$> txns st !! t
  end.

Definition get_transaction_start_time (txn : option ref) (st : Store) : option Z :=
  match txn with
  | None => Some 0
  | Some t => txn_start_time <$> txns st !! t
  end.

Definition get_transaction_end_time (txn : option ref) (st : Store) : option Z :=
  match txn with
  | None => Some 0
  | Some t => txn_end_time <$> txns st !! t
  end.

Definition is_transaction_open (txn : option ref) (st : Store) : option bool :=
  match txn with
  | None => Some false
  | Some t => Transaction_is_open <$> txns st !! t
  end.

Definition is_transaction_closed (txn : option ref) (st : Store) : option bool :=
  match txn with
  | None => Some false
  | Some t => Transaction_is_closed <$> txns st !! t
  end.

(** Programs over the legacy API. *)

Inductive call :=
| CreateTrace (filename name time_units : string)
| CloseTrace (trace : option ref)
| OpenStream (trace : option ref) (name : string) (scope type_name : option string)
| CloseStream (stream : option ref)
| OpenTransaction (stream : option ref) (name : string) (start_time : Z)
    (type_name : option string) (parent : option ref)
| CloseTransaction (txn : option ref) (end_time : Z)
| AddAttrInt (txn : option ref) (name : string) (value : Z) (radix : Radix)
| AddAttrUint (txn : option ref) (name : string) (value : Z) (radix : Radix)
| AddAttrFloat (txn : option ref) (name : string) (value : spec_float)
| AddAttrString (txn : option ref) (name : string) (value : string)
| AddAttrTime (txn : option ref) (name : string) (value : Z)
| AddAttrBits (txn : option ref) (name : string) (bits : bytes) (num_bits : Z)
    (radix : Radix)
| AddAttrBlob (txn : option ref) (name : string) (data : bytes)
| AddLink (source target : option ref) (link_type : LinkType)
    (relation_name : option string).

Definition store_after {A} (o : result A) : option Store :=
  match o with
  | Return _ st | Raise _ st => Some st
  | Invalid => None
  end.

Definition perform (c : call) (st : Store) : option Store :=
  match c with
  | CreateTrace f n u => store_after (create_trace f n u st)
  | CloseTrace r => store_after (close_trace r st)
  | OpenStream r n sc ty => store_after (open_stream r n sc ty st)
  | CloseStream s => store_after (close_stream s st)
  | OpenTransaction s n t ty p => store_after (open_transaction s n t ty p st)
  | CloseTransaction t e => store_after (close_transaction t e st)
  | AddAttrInt t n v r => store_after (add_attr_int t n v r st)
  | AddAttrUint t n v r => store_after (add_attr_uint t n v r st)
  | AddAttrFloat t n v => store_after (add_attr_float t n v st)
  | AddAttrString t n v => store_after (add_attr_string t n v st)
  | AddAttrTime t n v => store_after (add_attr_time t n v st)
  | AddAttrBits t n b k r => store_after (add_attr_bits t n b k r st)
  | AddAttrBlob t n d => store_after (add_attr_blob t n d st)
  | AddLink a b k rel => store_after (add_link a b k rel st)
  end.

(** The stores a program of calls builds from the empty one; a caller may
    catch an exception and go on. *)
Inductive reachable : Store -> Prop :=
| reachable_empty : reachable empty_store
| reachable_step st c st' :
    reachable st -> perform c st = Some st' -> reachable st'.

Fixpoint run (cs : list call) (st : Store) : option Store :=
  match cs with
  | [] => Some st
  | c :: cs' =>
      match perform c st with
      | Some st' => run cs' st'
      | None => None
      end
  end.

(** What [close_stream] makes of a transaction of the stream, and of the
    stream. *)
Definition force_closed (o : Transaction) : Transaction :=
  if decide (txn_state o = OPEN) then
    mkTransaction (txn_id o) (txn_stream o) (txn_name o) (txn_type_name o)
      (txn_start_time o) (txn_start_time o) CLOSED (txn_handle o)
      (txn_attributes o) (txn_flow_ids o) (txn_attributes_batch_mode o)
  else o.

Definition closed_stream (so : Stream) : Stream :=
  mkStream (stream_trace so) (stream_uuid so) (stream_name so) (stream_scope so)
    (stream_type_name so) CLOSED (stream_handle so) (stream_transactions so).

(** What every legacy store built by calls satisfies. *)
Record wf (st : Store) : Prop := mk_wf {
  wf_txn : forall t o, txns st !! t = Some o ->
    exists so tr,
      streams st !! txn_stream o = Some so /\
      traces st !! stream_trace so = Some tr /\
      t ∈ stream_transactions so /\
      trace_transaction_handles tr !! txn_handle o = Some t /\
      txn_state o <> FREED /\
      (txn_state o = OPEN -> stream_state so = OPEN);
  wf_stream : forall s so, streams st !! s = Some so ->
    exists tr,
      traces st !! stream_trace so = Some tr /\
      s ∈ trace_streams tr /\
      trace_stream_handles tr !! stream_handle so = Some s /\
      stream_state so <> FREED;
  wf_listed_txn : forall s so t, streams st !! s = Some so ->
    t ∈ stream_transactions so ->
    exists o, txns st !! t = Some o /\ txn_stream o = s;
  wf_listed_stream : forall r tr s, traces st !! r = Some tr ->
    s ∈ trace_streams tr ->
    exists so, streams st !! s = Some so /\ stream_trace so = r;
  wf_stream_handles : forall r tr h s, traces st !! r = Some tr ->
    trace_stream_handles tr !! h = Some s ->
    1 <= h < trace_next_stream_handle tr /\
    exists so, streams st !! s = Some so /\ stream_handle so = h /\
               stream_trace so = r;
  wf_transaction_handles : forall r tr h t, traces st !! r = Some tr ->
    trace_transaction_handles tr !! h = Some t ->
    1 <= h < trace_next_transaction_handle tr /\
    exists o so, txns st !! t = Some o /\ txn_handle o = h /\
                 streams st !! txn_stream o = Some so /\ stream_trace so = r;
  wf_output : forall r tr, traces st !! r = Some tr ->
    trace_output_file tr = Some [] \/ trace_output_file tr = None;
  wf_counters : forall r tr, traces st !! r = Some tr ->
    1 <= trace_next_stream_handle tr /\ 1 <= trace_next_transaction_handle tr }.

End Legacy.

(** A session of the legacy API, for the examples: the trace [0] with the
    streams [0] and [1]; on the stream [0] the open transaction [0] (start
    100, one attribute) and the transaction [1] (start 110) closed at 130;
    on the stream [1] the open transaction [2] (start 120).  A second trace
    with the stream [2] and the open transaction [3]. *)
Definition legacy_session_calls : list Legacy.call :=
  [ Legacy.CreateTrace "t.trace" "S" "1ns";
    Legacy.OpenStream (Some 0%nat) "bus" None None;
    Legacy.OpenStream (Some 0%nat) "mon" None (Some "monitor");
    Legacy.OpenTransaction (Some 0%nat) "RD" 100 (Some "read") None;
    Legacy.AddAttrUint (Some 0%nat) "addr" 16 HEX;
    Legacy.OpenTransaction (Some 0%nat) "beat" 110 None (Some 0%nat);
    Legacy.OpenTransaction (Some 1%nat) "IRQ" 120 None None;
    Legacy.CloseTransaction (Some 1%nat) 130;
    Legacy.CreateTrace "u.trace" "U" "1ps";
    Legacy.OpenStream (Some 1%nat) "cpu" None None;
    Legacy.OpenTransaction (Some 2%nat) "ld" 7 None None ].

Definition legacy_session : Legacy.Store :=
  Eval vm_compute in
    match Legacy.run legacy_session_calls Legacy.empty_store with
    | Some st => st
    | None => Legacy.empty_store
    end.

(** ** Tactics for running a computation *)

Ltac unfold_m :=
  unfold bind, ret, raise, get_trace, get_stream, get_txn, put_trace, put_stream,
    put_txn, new_trace, new_stream, new_txn, discard.

Ltac red_w :=
  cbn [traces streams txns with_trace with_stream with_txn push_trace push_stream
       push_txn negb].

(** * Properties *)

(** ** Bytes *)

Lemma Z_of_byte_range (b : byte) : 0 <= Z_of_byte b < 256.
Proof.
  unfold Z_of_byte. pose proof (Byte.to_N_bounded b). lia.
Qed.

Lemma Z_of_byte_of_Z (z : Z) : 0 <= z < 256 -> Z_of_byte (byte_of_Z z) = z.
Proof.
  intros Hz. unfold Z_of_byte, byte_of_Z.
  destruct (Byte.of_N (Z.to_N z)) as [b|] eqn:E.
  - apply Byte.to_of_N in E. rewrite E. lia.
  - apply Byte.of_N_None_iff in E. lia.
Qed.

(** ** The varint writer *)

#[local] Arguments Z.testbit : simpl never.
#[local] Arguments Z.land : simpl never.
#[local] Arguments Z.lor : simpl never.
#[local] Arguments Z.shiftr : simpl never.
#[local] Arguments Z.shiftl : simpl never.
#[local] Arguments Z.mul : simpl never.

Lemma land_0x7F (v : Z) : Z.land v 0x7F = v mod 128.
Proof. change 0x7F with (Z.ones 7). rewrite Z.land_ones by lia. reflexivity. Qed.

Lemma lor_0x80 (x : Z) : 0 <= x < 128 -> Z.lor x 0x80 = x + 128.
Proof.
  intros Hx.
  assert (Hd : Z.land x 0x80 = 0).
  { apply Z.bits_inj'. intros n Hn. rewrite Z.land_spec, Z.bits_0.
    destruct (Z.eq_dec n 7) as [->|Hne].
    - rewrite (Z.bits_above_log2 x 7); [reflexivity | lia |].
      destruct (Z.eq_dec x 0) as [->|]; [simpl; lia|].
      apply Z.log2_lt_pow2; lia.
    - change 0x80 with (2 ^ 7). rewrite Z.pow2_bits_false by lia.
      apply andb_false_r. }
  symmetry. apply Z.add_nocarry_lor, Hd.
Qed.

Lemma _write_varint_loop_fuel (n m : nat) (v : Z) :
  Z.log2 v <= Z.of_nat n -> Z.log2 v <= Z.of_nat m ->
  _write_varint_loop n v = _write_varint_loop m v.
Proof.
  revert m v. induction n as [|n IH]; intros m v Hn Hm.
  - destruct m as [|m]; [reflexivity|]. simpl.
    destruct (Z.leb_spec 0x80 v) as [Hv|Hv]; [|reflexivity].
    assert (7 <= Z.log2 v) by (apply (Z.log2_le_pow2 v 7); lia). lia.
  - simpl. destruct (Z.leb_spec 0x80 v) as [Hv|Hv].
    + assert (7 <= Z.log2 v) by (apply (Z.log2_le_pow2 v 7); lia).
      destruct m as [|m]; [lia|]. simpl.
      destruct (Z.leb_spec 0x80 v); [|lia].
      f_equal. apply IH; rewrite Z.log2_shiftr by lia; lia.
    + destruct m as [|m]; [reflexivity|]. simpl.
      destruct (Z.leb_spec 0x80 v); [lia|reflexivity].
Qed.

(** The defining equation of the [while] loop: the fuel never runs out. *)
Lemma _write_varint_unfold (value : Z) :
  _write_varint value =
    if 0x80 <=? value then
      byte_of_Z (Z.lor (Z.land value 0x7F) 0x80) :: _write_varint (Z.shiftr value 7)
    else [byte_of_Z (Z.land value 0x7F)].
Proof.
  unfold _write_varint at 1.
  destruct (Z.leb_spec 0x80 value) as [Hv|Hv].
  - assert (7 <= Z.log2 value) by (apply (Z.log2_le_pow2 value 7); lia).
    destruct (Z.to_nat (Z.log2 value)) as [|n] eqn:E; [lia|]. simpl.
    destruct (Z.leb_spec 0x80 value); [|lia]. f_equal.
    unfold _write_varint. apply _write_varint_loop_fuel;
      rewrite Z.log2_shiftr by lia; lia.
  - destruct (Z.to_nat (Z.log2 value)) as [|n]; simpl; [reflexivity|].
    destruct (Z.leb_spec 0x80 value); [lia|reflexivity].
Qed.

Example _write_varint_300 : _write_varint 300 = [xac; x02].
Proof. reflexivity. Qed.

Example _write_varint_0 : _write_varint 0 = [x00].
Proof. reflexivity. Qed.

Example _write_varint_max :
  _write_varint (2 ^ 64 - 1) = [xff; xff; xff; xff; xff; xff; xff; xff; xff; x01].
Proof. vm_compute. reflexivity. Qed.

Lemma testbit7_low (x : Z) : 0 <= x < 128 -> Z.testbit x 7 = false.
Proof.
  intros Hx. destruct (Z.eq_dec x 0) as [->|]; [reflexivity|].
  apply Z.bits_above_log2; [lia|]. apply Z.log2_lt_pow2; lia.
Qed.

Lemma testbit7_high (x : Z) : 0 <= x < 128 -> Z.testbit (x + 128) 7 = true.
Proof.
  intros Hx. rewrite Z.testbit_true by lia.
  change (2 ^ 7) with 128. replace (x + 128) with (x + 1 * 128) by lia.
  rewrite Z.div_add, Z.div_small by lia. reflexivity.
Qed.

Lemma _write_varint_length (v : Z) : 0 <= v -> length (_write_varint v) = varint_size v.
Proof.
  intros Hv. pattern v. apply Z_lt_induction; [|exact Hv]. clear v Hv.
  intros v IH. rewrite _write_varint_unfold. unfold varint_size.
  destruct (Z.leb_spec 0x80 v) as [Hv|Hv].
  - assert (7 <= Z.log2 v) by (apply (Z.log2_le_pow2 v 7); lia).
    simpl length. rewrite IH.
    + unfold varint_size. rewrite Z.log2_shiftr by lia.
      replace (Z.log2 v) with ((Z.log2 v - 7) + 1 * 7) at 2 by lia.
      rewrite Z.div_add by lia.
      assert (0 <= (Z.log2 v - 7) / 7) by (apply Z.div_pos; lia).
      replace (0 `max` (Z.log2 v - 7)) with (Z.log2 v - 7) by lia. lia.
    + rewrite Z.shiftr_div_pow2 by lia. change (2 ^ 7) with 128.
      split; [apply Z.div_pos; lia | apply Z.div_lt; lia].
  - simpl. f_equal.
    destruct (Z.le_gt_cases v 0) as [H0|H0].
    + rewrite Z.log2_nonpos by lia. reflexivity.
    + assert (Z.log2 v < 7) by (apply Z.log2_lt_pow2; lia).
      pose proof (Z.log2_nonneg v).
      rewrite Z.div_small by lia. reflexivity.
Qed.

(** Byte [i] carries bits [7i .. 7i+6] of [v], and its high bit tells
    whether another byte follows. *)
Lemma _write_varint_lookup (v : Z) : 0 <= v ->
  forall (i : nat) (b : byte), _write_varint v !! i = Some b ->
    Z.land (Z_of_byte b) 0x7F = Z.land (Z.shiftr v (7 * Z.of_nat i)) 0x7F /\
    Z.testbit (Z_of_byte b) 7 = bool_decide (S i < length (_write_varint v))%nat.
Proof.
  intros Hv. pattern v. apply Z_lt_induction; [|exact Hv]. clear v Hv.
  intros v IH i b. rewrite _write_varint_unfold.
  assert (Hm : 0 <= v mod 128 < 128) by (apply Z.mod_pos_bound; lia).
  destruct (Z.leb_spec 0x80 v) as [Hv|Hv].
  - assert (Hlt : 0 <= Z.shiftr v 7 < v).
    { rewrite Z.shiftr_div_pow2 by lia. change (2 ^ 7) with 128.
      split; [apply Z.div_pos; lia | apply Z.div_lt; lia]. }
    destruct i as [|i]; simpl.
    + intros [= <-]. rewrite (land_0x7F v), lor_0x80 by exact Hm.
      rewrite Z_of_byte_of_Z by lia. split.
      * rewrite !land_0x7F. change (7 * 0) with 0. rewrite Z.shiftr_0_r.
        rewrite <- Z.add_mod_idemp_r, Z.add_0_r, Z.mod_mod by lia. reflexivity.
      * rewrite testbit7_high by exact Hm. symmetry. apply bool_decide_eq_true.
        rewrite _write_varint_length by lia. unfold varint_size. lia.
    + intros Hb. destruct (IH _ Hlt i b Hb) as [H1 H2]. split.
      * rewrite H1, Z.shiftr_shiftr by lia. do 2 f_equal. lia.
      * rewrite H2. apply bool_decide_ext. lia.
  - destruct i as [|i]; simpl; [|intros Hb; rewrite lookup_nil in Hb; discriminate].
    intros [= <-]. rewrite (land_0x7F v). rewrite Z_of_byte_of_Z by lia. split.
    + rewrite !land_0x7F. change (7 * 0) with 0. rewrite Z.shiftr_0_r.
      rewrite Z.mod_mod by lia. reflexivity.
    + rewrite testbit7_low by exact Hm. reflexivity.
Qed.

Lemma uvarint_decode_write (v : Z) (rest : bytes) : 0 <= v ->
  uvarint_decode (_write_varint v ++ rest) = Some (v, rest).
Proof.
  intros Hv. pattern v. apply Zlt_0_ind; [|exact Hv]. clear v Hv.
  intros v IH Hv0. rewrite _write_varint_unfold.
  assert (Hm : 0 <= v mod 128 < 128) by (apply Z.mod_pos_bound; lia).
  destruct (Z.leb_spec 0x80 v) as [Hv|Hv].
  - assert (Hlt : 0 <= Z.shiftr v 7 < v).
    { rewrite Z.shiftr_div_pow2 by lia. change (2 ^ 7) with 128.
      split; [apply Z.div_pos; lia | apply Z.div_lt; lia]. }
    simpl. rewrite (land_0x7F v), lor_0x80 by exact Hm.
    rewrite Z_of_byte_of_Z by lia. rewrite testbit7_high by exact Hm.
    rewrite IH by exact Hlt. do 2 f_equal.
    rewrite land_0x7F.
    rewrite <- Z.add_mod_idemp_r, Z.add_0_r, Z.mod_mod by lia.
    rewrite Z.shiftr_div_pow2, Z.shiftl_mul_pow2 by lia. change (2 ^ 7) with 128.
    pose proof (Z.div_mod v 128). lia.
  - simpl. rewrite land_0x7F.
    rewrite Z.mod_small by lia. rewrite Z_of_byte_of_Z by lia.
    rewrite testbit7_low by lia. reflexivity.
Qed.

Lemma varint_size_u64 (v : Z) : 0 <= v < 2 ^ 64 -> (1 <= varint_size v <= 10)%nat.
Proof.
  intros Hv. unfold varint_size.
  assert (0 <= Z.log2 v / 7 <= 9); [|lia].
  pose proof (Z.log2_nonneg v).
  destruct (Z.eq_dec v 0) as [->|Hne]; [vm_compute; split; discriminate|].
  assert (Z.log2 v < 64) by (apply Z.log2_lt_pow2; lia).
  split; [apply Z.div_pos; lia|].
  apply Z.lt_succ_r. apply Z.div_lt_upper_bound; lia.
Qed.

(** C9: for [0 <= v < 2^64] the varint writer emits [v] seven bits per
    byte, low-order group first (byte [i] carries bits [7i..7i+6]), with the
    high bit set on every byte except the last, on at most ten bytes; and
    reading the emitted bytes back as an unsigned varint gives [v] and stops
    exactly at their end. *)
Theorem write_varint_roundtrip (v : Z) :
  0 <= v < 2 ^ 64 ->
  (forall (i : nat) (b : byte), _write_varint v !! i = Some b ->
     Z.land (Z_of_byte b) 0x7F = Z.land (Z.shiftr v (7 * Z.of_nat i)) 0x7F /\
     Z.testbit (Z_of_byte b) 7 = bool_decide (S i < length (_write_varint v))%nat) /\
  (1 <= length (_write_varint v) <= 10)%nat /\
  forall rest : bytes, uvarint_decode (_write_varint v ++ rest) = Some (v, rest).
Proof.
  intros Hv. split; [|split].
  - apply _write_varint_lookup. lia.
  - rewrite _write_varint_length by lia. apply varint_size_u64, Hv.
  - intros rest. apply uvarint_decode_write. lia.
Qed.

Lemma write_varint_roundtrip_witness :
  0 <= 300 < 2 ^ 64 /\
  forall rest : bytes, uvarint_decode (_write_varint 300 ++ rest) = Some (300, rest).
Proof.
  split; [lia|]. apply (write_varint_roundtrip 300). lia.
Defined.

(** The length prefix [_write_packet] puts before a packet reads back as
    the length of the packet, and the packet follows. *)
Lemma packet_frame_decode (SerializeToString : TracePacket -> bytes)
    (packet : TracePacket) (rest : bytes) :
  uvarint_decode (packet_frame SerializeToString packet ++ rest)
    = Some (Z.of_nat (length (SerializeToString packet)),
            SerializeToString packet ++ rest).
Proof.
  unfold packet_frame. rewrite <- app_assoc. apply uvarint_decode_write. lia.
Qed.

(** ** Bit-vector rendering *)

Lemma oct_digits_loop_fuel (n m : nat) (v : Z) :
  Z.log2 v <= Z.of_nat n -> Z.log2 v <= Z.of_nat m ->
  oct_digits_loop n v = oct_digits_loop m v.
Proof.
  revert m v. induction n as [|n IH]; intros m v Hn Hm.
  - destruct m as [|m]; [reflexivity|]. simpl.
    destruct (Z.ltb_spec v 8) as [Hv|Hv]; [reflexivity|].
    assert (3 <= Z.log2 v) by (apply (Z.log2_le_pow2 v 3); lia). lia.
  - simpl. destruct (Z.ltb_spec v 8) as [Hv|Hv].
    + destruct m as [|m]; [reflexivity|]. simpl.
      destruct (Z.ltb_spec v 8); [reflexivity|lia].
    + assert (3 <= Z.log2 v) by (apply (Z.log2_le_pow2 v 3); lia).
      destruct m as [|m]; [lia|]. simpl.
      destruct (Z.ltb_spec v 8); [lia|].
      assert (Z.log2 (v / 8) = Z.log2 v - 3).
      { change (v / 8) with (v / 2 ^ 3). rewrite <- (Z.shiftr_div_pow2 v 3) by lia.
        rewrite Z.log2_shiftr by lia. lia. }
      f_equal. apply IH; lia.
Qed.

(** The defining equation of the octal rendering. *)
Lemma oct_digits_unfold (value : Z) :
  oct_digits value =
    if value <? 8 then String (oct_digit value) EmptyString
    else oct_digits (value / 8) +:+ String (oct_digit (value mod 8)) EmptyString.
Proof.
  unfold oct_digits at 1.
  destruct (Z.ltb_spec value 8) as [Hv|Hv].
  - destruct (Z.to_nat (Z.log2 value)) as [|n]; simpl; [reflexivity|].
    destruct (Z.ltb_spec value 8); [reflexivity|lia].
  - assert (3 <= Z.log2 value) by (apply (Z.log2_le_pow2 value 3); lia).
    destruct (Z.to_nat (Z.log2 value)) as [|n] eqn:E; [lia|]. simpl.
    destruct (Z.ltb_spec value 8); [lia|]. f_equal.
    assert (Z.log2 (value / 8) = Z.log2 value - 3).
    { change (value / 8) with (value / 2 ^ 3).
      rewrite <- (Z.shiftr_div_pow2 value 3) by lia.
      rewrite Z.log2_shiftr by lia. lia. }
    unfold oct_digits. apply oct_digits_loop_fuel; lia.
Qed.

Lemma string_app_cons (c : ascii) (s1 s2 : string) :
  String c s1 +:+ s2 = String c (s1 +:+ s2).
Proof. reflexivity. Qed.

Lemma string_app_nil_l (s : string) : EmptyString +:+ s = s.
Proof. reflexivity. Qed.

Lemma length_string_app (s1 s2 : string) :
  String.length (s1 +:+ s2) = (String.length s1 + String.length s2)%nat.
Proof.
  induction s1 as [|c s1 IH]; [reflexivity|].
  rewrite string_app_cons. simpl. rewrite IH. reflexivity.
Qed.

Lemma string_app_assoc (s1 s2 s3 : string) : (s1 +:+ s2) +:+ s3 = s1 +:+ (s2 +:+ s3).
Proof.
  induction s1 as [|c s1 IH]; [reflexivity|].
  rewrite !string_app_cons, IH. reflexivity.
Qed.

Lemma string_app_nil_r (s : string) : s +:+ EmptyString = s.
Proof.
  induction s as [|c s IH]; [reflexivity|].
  rewrite string_app_cons, IH. reflexivity.
Qed.

Lemma length_format_08b (b : byte) : String.length (format_08b b) = 8%nat.
Proof. reflexivity. Qed.

Lemma length_bin_digits (bs : bytes) : String.length (bin_digits bs) = (8 * length bs)%nat.
Proof.
  induction bs as [|b bs IH]; [reflexivity|].
  change (bin_digits (b :: bs)) with (format_08b b +:+ bin_digits bs).
  rewrite length_string_app, length_format_08b, IH. simpl length. lia.
Qed.

Lemma bin_digits_app (l1 l2 : bytes) : bin_digits (l1 ++ l2) = bin_digits l1 +:+ bin_digits l2.
Proof.
  induction l1 as [|b l1 IH]; [reflexivity|].
  change (bin_digits ((b :: l1) ++ l2)) with (format_08b b +:+ bin_digits (l1 ++ l2)).
  change (bin_digits (b :: l1)) with (format_08b b +:+ bin_digits l1).
  rewrite IH, string_app_assoc. reflexivity.
Qed.

(** The [for byte in reversed(bits)] loop builds ["0b"] followed by the
    digits of the bytes, last byte first. *)
Lemma bin_loop_digits (l : bytes) (init : string) :
  fold_left (fun result byte => result +:+ format_08b byte) l init = init +:+ bin_digits l.
Proof.
  revert init. induction l as [|b l IH]; intros init; simpl.
  - rewrite string_app_nil_r. reflexivity.
  - rewrite IH, string_app_assoc. reflexivity.
Qed.

Lemma length_substring_0 (n : nat) (s : string) :
  String.length (String.substring 0 n s) = Nat.min n (String.length s).
Proof.
  revert s. induction n as [|n IH]; intros [|c s]; simpl; try reflexivity.
  rewrite IH. reflexivity.
Qed.

Lemma substring_0_all (n : nat) (s : string) :
  (String.length s <= n)%nat -> String.substring 0 n s = s.
Proof.
  revert s. induction n as [|n IH]; intros [|c s]; simpl; intros H;
    try reflexivity; try lia.
  rewrite IH by lia. reflexivity.
Qed.

Lemma substring_0_prefix (n : nat) (s : string) :
  String.prefix (String.substring 0 n s) s = true.
Proof.
  revert s. induction n as [|n IH]; intros [|c s]; simpl; try reflexivity.
  destruct (ascii_dec c c) as [_|Hne]; [apply IH | congruence].
Qed.

Example _bits_to_string_hex :
  PerfettoTransaction._bits_to_string [xde; xad; xbe; xef] 32 HEX = "0xdeadbeef".
Proof. reflexivity. Qed.

Example _bits_to_string_bin :
  PerfettoTransaction._bits_to_string [x01; x02] 12 BIN = "0b000000100000".
Proof. reflexivity. Qed.

Example _bits_to_string_oct :
  PerfettoTransaction._bits_to_string [x00; x01] 16 OCT = "0o400".
Proof. reflexivity. Qed.

Example _bits_to_string_dec :
  PerfettoTransaction._bits_to_string [x00; x01] 16 DEC = "0x0001".
Proof. reflexivity. Qed.

Lemma length_bin_rendering (bits : bytes) :
  String.length ("0b" +:+ bin_digits (rev bits)) = (2 + 8 * length bits)%nat.
Proof. rewrite length_string_app, length_bin_digits, length_rev. reflexivity. Qed.

Lemma _bits_to_string_BIN (bits : bytes) (num_bits : Z) :
  PerfettoTransaction._bits_to_string bits num_bits BIN
    = py_slice_to (2 + num_bits) ("0b" +:+ bin_digits (rev bits)).
Proof.
  unfold PerfettoTransaction._bits_to_string. rewrite bin_loop_digits. reflexivity.
Qed.

Lemma _bits_to_string_BIN_all (bits : bytes) (num_bits : Z) :
  8 * Z.of_nat (length bits) <= num_bits ->
  PerfettoTransaction._bits_to_string bits num_bits BIN
    = "0b" +:+ bin_digits (rev bits).
Proof.
  intros Hn. rewrite _bits_to_string_BIN. unfold py_slice_to.
  destruct (Z.leb_spec 0 (2 + num_bits)); [|lia].
  apply substring_0_all. rewrite length_bin_rendering. lia.
Qed.

(** C5, as stated, fails twice: the OCT radix has a rendering of its own,
    and a [num_bits] beyond the bits available truncates nothing. *)
Lemma bits_to_string_counterexample :
  PerfettoTransaction._bits_to_string [x08] 8 OCT = "0o10" /\
  PerfettoTransaction._bits_to_string [x08] 8 HEX = "0x08" /\
  PerfettoTransaction._bits_to_string [x08] 8 OCT
    <> PerfettoTransaction._bits_to_string [x08] 8 HEX /\
  String.length (PerfettoTransaction._bits_to_string [x01] 9 BIN) = 10%nat /\
  String.length (PerfettoTransaction._bits_to_string [x01] 9 BIN) <> Z.to_nat (2 + 9).
Proof. repeat split; try reflexivity; vm_compute; discriminate. Qed.

(** C5 (amended): HEX gives ["0x"] and the lowercase hex of the bytes; BIN
    gives ["0b"] and the binary digits of the bytes taken last byte first,
    cut by the slice [[:2 + num_bits]], which leaves exactly [2 + num_bits]
    characters when [0 <= num_bits <= 8 * len(bits)] and the whole string
    when [num_bits] is larger; OCT gives ["0o"] and the octal digits of the
    little-endian value; every other radix gives the HEX rendering. *)
Theorem bits_to_string_rendering (bits : bytes) (num_bits : Z) :
  PerfettoTransaction._bits_to_string bits num_bits HEX = "0x" +:+ bytes_hex bits /\
  PerfettoTransaction._bits_to_string bits num_bits BIN
    = py_slice_to (2 + num_bits) ("0b" +:+ bin_digits (rev bits)) /\
  (0 <= num_bits <= 8 * Z.of_nat (length bits) ->
     String.length (PerfettoTransaction._bits_to_string bits num_bits BIN)
       = Z.to_nat (2 + num_bits) /\
     String.prefix (PerfettoTransaction._bits_to_string bits num_bits BIN)
       ("0b" +:+ bin_digits (rev bits)) = true) /\
  (8 * Z.of_nat (length bits) <= num_bits ->
     PerfettoTransaction._bits_to_string bits num_bits BIN
       = "0b" +:+ bin_digits (rev bits)) /\
  PerfettoTransaction._bits_to_string bits num_bits OCT
    = "0o" +:+ oct_digits (int_from_bytes_little bits) /\
  (forall radix : Radix, radix <> HEX -> radix <> BIN -> radix <> OCT ->
     PerfettoTransaction._bits_to_string bits num_bits radix
       = PerfettoTransaction._bits_to_string bits num_bits HEX).
Proof.
  pose proof (length_bin_rendering bits) as Hlen.
  pose proof (_bits_to_string_BIN bits num_bits) as Hbin.
  split; [reflexivity|]. split; [exact Hbin|]. split; [|split; [|split]].
  - intros Hn. rewrite Hbin. unfold py_slice_to.
    destruct (Z.leb_spec 0 (2 + num_bits)); [|lia]. split.
    + rewrite length_substring_0, Hlen. lia.
    + apply substring_0_prefix.
  - apply _bits_to_string_BIN_all.
  - reflexivity.
  - intros radix H1 H2 H3. destruct radix; try reflexivity; congruence.
Qed.

Lemma bits_to_string_rendering_witness :
  0 <= 12 <= 8 * Z.of_nat (length [x01; x02]) /\
  String.length (PerfettoTransaction._bits_to_string [x01; x02] 12 BIN)
    = Z.to_nat (2 + 12) /\
  PerfettoTransaction._bits_to_string [x01; x02] 12 DEC
    = PerfettoTransaction._bits_to_string [x01; x02] 12 HEX.
Proof.
  destruct (bits_to_string_rendering [x01; x02] 12)
    as (_ & _ & Hlen & _ & _ & Hother).
  split; [simpl; lia|]. split.
  - apply Hlen. simpl; lia.
  - apply Hother; discriminate.
Defined.

(** ** The store: how objects evolve *)

Lemma trace_evolves_refl (o : PerfettoTraceObj) : trace_evolves o o.
Proof. constructor; try reflexivity. auto. Qed.

Lemma stream_evolves_refl (o : PerfettoStreamObj) : stream_evolves o o.
Proof. constructor; try reflexivity. auto. Qed.

Lemma txn_evolves_refl (o : PerfettoTransactionObj) : txn_evolves o o.
Proof. constructor; try reflexivity. auto. Qed.

Lemma trace_evolves_trans (a b c : PerfettoTraceObj) :
  trace_evolves a b -> trace_evolves b c -> trace_evolves a c.
Proof.
  intros [] []. constructor; try (etrans; eassumption). auto.
Qed.

Lemma stream_evolves_trans (a b c : PerfettoStreamObj) :
  stream_evolves a b -> stream_evolves b c -> stream_evolves a c.
Proof.
  intros [] []. constructor; try (etrans; eassumption).
  intros Ha. destruct (ev_stream_closed0 Ha) as [Hb Hl].
  destruct (ev_stream_closed1 Hb) as [Hc Hl']. split; congruence.
Qed.

Lemma txn_evolves_trans (a b c : PerfettoTransactionObj) :
  txn_evolves a b -> txn_evolves b c -> txn_evolves a c.
Proof.
  intros [] []. constructor; try (etrans; eassumption).
  intros Ha. destruct (ev_txn_closed0 Ha) as [Hb Hl].
  destruct (ev_txn_closed1 Hb) as [Hc Hl']. split; congruence.
Qed.

Lemma evolves_refl (w : World) : evolves w w.
Proof.
  constructor; intros ? o H; exists o; split; auto using trace_evolves_refl,
    stream_evolves_refl, txn_evolves_refl.
Qed.

Lemma evolves_trans (a b c : World) : evolves a b -> evolves b c -> evolves a c.
Proof.
  intros [Ha1 Ha2 Ha3] [Hb1 Hb2 Hb3]. constructor.
  - intros r o H. destruct (Ha1 r o H) as (o1 & H1 & E1).
    destruct (Hb1 r o1 H1) as (o2 & H2 & E2).
    exists o2. split; [exact H2 | eapply trace_evolves_trans; eassumption].
  - intros r o H. destruct (Ha2 r o H) as (o1 & H1 & E1).
    destruct (Hb2 r o1 H1) as (o2 & H2 & E2).
    exists o2. split; [exact H2 | eapply stream_evolves_trans; eassumption].
  - intros r o H. destruct (Ha3 r o H) as (o1 & H1 & E1).
    destruct (Hb3 r o1 H1) as (o2 & H2 & E2).
    exists o2. split; [exact H2 | eapply txn_evolves_trans; eassumption].
Qed.

(** Looking up in an updated arena. *)
Lemma lookup_insert_cases {A} (l : list A) (i j : nat) (x y : A) :
  <[i := x]> l !! j = Some y ->
  (i = j /\ y = x /\ (j < length l)%nat) \/ (i <> j /\ l !! j = Some y).
Proof.
  intros H. apply list_lookup_insert_Some in H.
  destruct H as [(-> & -> & Hlt)|[Hne H]]; [left | right]; auto.
Qed.

Lemma lookup_insert_same {A} (l : list A) (i : nat) (x y : A) :
  l !! i = Some y -> <[i := x]> l !! i = Some x.
Proof. intros H. apply list_lookup_insert_eq. eapply lookup_lt_Some, H. Qed.

Lemma lookup_push_cases {A} (l : list A) (j : nat) (x y : A) :
  (l ++ [x]) !! j = Some y ->
  (j = length l /\ y = x) \/ l !! j = Some y.
Proof.
  intros H. destruct (decide (j < length l)%nat) as [Hlt|Hge].
  - right. rewrite lookup_app_l in H by exact Hlt. exact H.
  - left. rewrite lookup_app_r in H by lia.
    destruct (j - length l)%nat as [|k] eqn:E; simpl in H; [|discriminate].
    injection H as <-. split; [lia | reflexivity].
Qed.

Lemma lookup_push_old {A} (l : list A) (j : nat) (x y : A) :
  l !! j = Some y -> (l ++ [x]) !! j = Some y.
Proof. intros H. rewrite lookup_app_l by (eapply lookup_lt_Some, H). exact H. Qed.

Lemma lookup_push_new {A} (l : list A) (x : A) : (l ++ [x]) !! length l = Some x.
Proof. rewrite lookup_app_r by lia. rewrite Nat.sub_diag. reflexivity. Qed.

Lemma evolves_with_txn (w : World) (t : ref) (o o' : PerfettoTransactionObj) :
  txns w !! t = Some o -> txn_evolves o o' -> evolves w (with_txn t o' w).
Proof.
  intros Ht He. constructor; cbn [with_txn with_stream with_trace traces streams txns].
  - intros r x H. exists x. auto using trace_evolves_refl.
  - intros r x H. exists x. auto using stream_evolves_refl.
  - intros r x H. destruct (decide (t = r)) as [->|Hne].
    + exists o'. split; [eapply lookup_insert_same, H|].
      congruence.
    + exists x. rewrite list_lookup_insert_ne by exact Hne.
      auto using txn_evolves_refl.
Qed.

Lemma evolves_with_stream (w : World) (s : ref) (o o' : PerfettoStreamObj) :
  streams w !! s = Some o -> stream_evolves o o' -> evolves w (with_stream s o' w).
Proof.
  intros Ht He. constructor; cbn [with_txn with_stream with_trace traces streams txns].
  - intros r x H. exists x. auto using trace_evolves_refl.
  - intros r x H. destruct (decide (s = r)) as [->|Hne].
    + exists o'. split; [eapply lookup_insert_same, H|].
      congruence.
    + exists x. rewrite list_lookup_insert_ne by exact Hne.
      auto using stream_evolves_refl.
  - intros r x H. exists x. auto using txn_evolves_refl.
Qed.

Lemma evolves_with_trace (w : World) (r : ref) (o o' : PerfettoTraceObj) :
  traces w !! r = Some o -> trace_evolves o o' -> evolves w (with_trace r o' w).
Proof.
  intros Ht He. constructor; cbn [with_txn with_stream with_trace traces streams txns].
  - intros r' x H. destruct (decide (r = r')) as [->|Hne].
    + exists o'. split; [eapply lookup_insert_same, H|].
      congruence.
    + exists x. rewrite list_lookup_insert_ne by exact Hne.
      auto using trace_evolves_refl.
  - intros r' x H. exists x. auto using stream_evolves_refl.
  - intros r' x H. exists x. auto using txn_evolves_refl.
Qed.

Lemma evolves_push_txn (w : World) (o : PerfettoTransactionObj) :
  evolves w (push_txn o w).
Proof.
  constructor; cbn [push_txn push_stream push_trace traces streams txns];
    intros r x H; exists x;
    auto using trace_evolves_refl, stream_evolves_refl, txn_evolves_refl,
      lookup_push_old.
Qed.

Lemma evolves_push_stream (w : World) (o : PerfettoStreamObj) :
  evolves w (push_stream o w).
Proof.
  constructor; cbn [push_txn push_stream push_trace traces streams txns];
    intros r x H; exists x;
    auto using trace_evolves_refl, stream_evolves_refl, txn_evolves_refl,
      lookup_push_old.
Qed.

Lemma evolves_push_trace (w : World) (o : PerfettoTraceObj) :
  evolves w (push_trace o w).
Proof.
  constructor; cbn [push_txn push_stream push_trace traces streams txns];
    intros r x H; exists x;
    auto using trace_evolves_refl, stream_evolves_refl, txn_evolves_refl,
      lookup_push_old.
Qed.

(** ** The store: updates that keep the invariant *)

Lemma is_Some_insert {A} (l : list A) (i j : nat) (x : A) :
  is_Some (l !! j) -> is_Some (<[i := x]> l !! j).
Proof.
  intros H. apply lookup_lt_is_Some. rewrite length_insert.
  apply lookup_lt_is_Some, H.
Qed.

Lemma is_Some_push {A} (l : list A) (j : nat) (x : A) :
  is_Some (l !! j) -> is_Some ((l ++ [x]) !! j).
Proof. intros [y H]. exists y. apply lookup_push_old, H. Qed.

Lemma wf_with_txn (w : World) (t : ref) (o o' : PerfettoTransactionObj) :
  wf w -> txns w !! t = Some o ->
  txn_stream o' = txn_stream o -> txn_parent o' = txn_parent o ->
  txn_track_uuid o' = txn_track_uuid o ->
  (txn_is_open o' = true -> txn_is_open o = true) ->
  wf (with_txn t o' w).
Proof.
  intros [H1 H2 H3 H4 H5 H6] Ht Es Ep Etr Eo.
  constructor; cbn [with_txn traces streams txns]; auto.
  - intros t' x H. apply lookup_insert_cases in H as [(-> & -> & _)|[Hne H]].
    + destruct (H1 _ _ Ht) as (s & tr & Hs & Htr & Hin & Hop & Hok & Hlt).
      exists s, tr. unfold track_ok in *. rewrite Es, Ep, Etr. auto 10.
    + apply H1 in H. exact H.
  - intros t' x p H Hp. apply is_Some_insert.
    apply lookup_insert_cases in H as [(-> & -> & _)|[Hne H]].
    + rewrite Ep in Hp. eapply H2; eassumption.
    + eapply H2; eassumption.
  - intros s x t' Hs Hin. destruct (H4 _ _ _ Hs Hin) as (ot & Hot & Est).
    destruct (decide (t = t')) as [->|Hne].
    + exists o'. split; [eapply lookup_insert_same, Hot|]. congruence.
    + exists ot. rewrite list_lookup_insert_ne by exact Hne. auto.
Qed.

Lemma wf_with_trace (w : World) (r : ref) (o o' : PerfettoTraceObj) :
  wf w -> traces w !! r = Some o ->
  trace_streams o' = trace_streams o ->
  (trace_file_open o = true -> trace_file_open o' = true) ->
  trace_next_track_uuid o <= trace_next_track_uuid o' ->
  wf (with_trace r o' w).
Proof.
  intros [H1 H2 H3 H4 H5 H6] Hr Es Ef En.
  constructor; cbn [with_trace traces streams txns]; auto.
  - intros t x H. destruct (H1 _ _ H) as (s & tr & Hs & Htr & Hin & Hop & Hok & Hlt).
    destruct (decide (r = stream_trace s)) as [E|Hne].
    + exists s, o'. rewrite <- E. rewrite <- E in Htr.
      assert (tr = o) by congruence. subst tr.
      split; [exact Hs|]. split; [eapply lookup_insert_same, Hr|].
      repeat split; auto. lia.
    + exists s, tr. rewrite list_lookup_insert_ne by exact Hne. auto 10.
  - intros s x H. destruct (H3 _ _ H) as (tr & Htr & Hin & Hop & Hlt & Hnd).
    destruct (decide (r = stream_trace x)) as [E|Hne].
    + exists o'. rewrite <- E. rewrite <- E in Htr.
      assert (tr = o) by congruence. subst tr.
      split; [eapply lookup_insert_same, Hr|]. rewrite Es.
      repeat split; auto. lia.
    + exists tr. rewrite list_lookup_insert_ne by exact Hne. auto 10.
  - intros r' x H. apply lookup_insert_cases in H as [(-> & -> & _)|[Hne H]].
    + rewrite Es. eapply H5, Hr.
    + eapply H5, H.
  - intros r' x s H Hin. apply lookup_insert_cases in H as [(-> & -> & _)|[Hne H]].
    + rewrite Es in Hin. eapply H6; eassumption.
    + eapply H6; eassumption.
Qed.

(** [self._file = None], once every stream of the trace is closed. *)
Lemma wf_close_file (w : World) (r : ref) (o : PerfettoTraceObj) :
  wf w -> traces w !! r = Some o ->
  (forall s os, s ∈ trace_streams o -> streams w !! s = Some os ->
     stream_is_open os = false) ->
  wf (with_trace r (set_trace_file_open false o) w).
Proof.
  intros [H1 H2 H3 H4 H5 H6] Hr Hall.
  constructor; cbn [with_trace traces streams txns]; auto.
  - intros t x H. destruct (H1 _ _ H) as (s & tr & Hs & Htr & Hin & Hop & Hok & Hlt).
    destruct (decide (r = stream_trace s)) as [E|Hne].
    + exists s, (set_trace_file_open false o). rewrite <- E. rewrite <- E in Htr.
      assert (tr = o) by congruence. subst tr.
      split; [exact Hs|]. split; [eapply lookup_insert_same, Hr|]. auto.
    + exists s, tr. rewrite list_lookup_insert_ne by exact Hne. auto 10.
  - intros s x H. destruct (H3 _ _ H) as (tr & Htr & Hin & Hop & Hlt & Hnd).
    destruct (decide (r = stream_trace x)) as [E|Hne].
    + exists (set_trace_file_open false o). rewrite <- E. rewrite <- E in Htr.
      assert (tr = o) by congruence. subst tr.
      split; [eapply lookup_insert_same, Hr|].
      repeat split; auto. intros Hx. rewrite (Hall s x Hin H) in Hx. discriminate.
    + exists tr. rewrite list_lookup_insert_ne by exact Hne. auto 10.
  - intros r' x H. apply lookup_insert_cases in H as [(-> & -> & _)|[Hne H]].
    + simpl. eapply H5, Hr.
    + eapply H5, H.
  - intros r' x s H Hin. apply lookup_insert_cases in H as [(-> & -> & _)|[Hne H]].
    + simpl in Hin. eapply H6; eassumption.
    + eapply H6; eassumption.
Qed.

(** [self._is_open = False] on a stream whose transactions are closed. *)
Lemma wf_close_stream (w : World) (s : ref) (o : PerfettoStreamObj) :
  wf w -> streams w !! s = Some o ->
  (forall t ot, t ∈ stream_transactions o -> txns w !! t = Some ot ->
     txn_is_open ot = false) ->
  wf (with_stream s (set_stream_is_open false o) w).
Proof.
  intros [H1 H2 H3 H4 H5 H6] Hs Hall.
  constructor; cbn [with_stream traces streams txns]; auto.
  - intros t x H. destruct (H1 _ _ H) as (s' & tr & Hs' & Htr & Hin & Hop & Hok & Hlt).
    destruct (decide (s = txn_stream x)) as [E|Hne].
    + exists (set_stream_is_open false o), tr. rewrite <- E. rewrite <- E in Hs'.
      assert (s' = o) by congruence. subst s'.
      split; [eapply lookup_insert_same, Hs|].
      repeat split; auto. intros Hx. rewrite (Hall t x Hin H) in Hx. discriminate.
    + exists s', tr. rewrite list_lookup_insert_ne by exact Hne. auto 10.
  - intros s' x H. apply lookup_insert_cases in H as [(-> & -> & _)|[Hne H]].
    + destruct (H3 _ _ Hs) as (tr & Htr & Hin & Hop & Hlt & Hnd).
      exists tr. simpl. repeat split; auto. discriminate.
    + eapply H3, H.
  - intros s' x t H Hin. apply lookup_insert_cases in H as [(-> & -> & _)|[Hne H]].
    + simpl in Hin. eapply H4; eassumption.
    + eapply H4; eassumption.
  - intros r x s' H Hin. destruct (H6 _ _ _ H Hin) as (os & Hos & Er).
    destruct (decide (s = s')) as [->|Hne].
    + exists (set_stream_is_open false o).
      split; [eapply lookup_insert_same, Hs|]. cbn. congruence.
    + exists os. rewrite list_lookup_insert_ne by exact Hne. auto.
Qed.

Lemma listed_txn_lt (w : World) (s : ref) (so : PerfettoStreamObj) (t : ref) :
  wf w -> streams w !! s = Some so -> t ∈ stream_transactions so ->
  (t < length (txns w))%nat.
Proof.
  intros Hwf Hs Hin. destruct (wf_listed_txn w Hwf _ _ _ Hs Hin) as (ot & Hot & _).
  eapply lookup_lt_Some, Hot.
Qed.

Lemma listed_stream_lt (w : World) (r : ref) (tr : PerfettoTraceObj) (s : ref) :
  wf w -> traces w !! r = Some tr -> s ∈ trace_streams tr ->
  (s < length (streams w))%nat.
Proof.
  intros Hwf Hr Hin. destruct (wf_listed_stream w Hwf _ _ _ Hr Hin) as (os & Hos & _).
  eapply lookup_lt_Some, Hos.
Qed.

(** A new transaction, appended to the list of its stream. *)
Lemma wf_add_txn (w : World) (s : ref) (so : PerfettoStreamObj)
    (tr : PerfettoTraceObj) (o : PerfettoTransactionObj) :
  wf w -> streams w !! s = Some so -> traces w !! stream_trace so = Some tr ->
  txn_stream o = s ->
  (txn_is_open o = true -> stream_is_open so = true) ->
  track_ok o so ->
  txn_track_uuid o < trace_next_track_uuid tr ->
  (forall p, txn_parent o = Some p -> is_Some (txns w !! p)) ->
  wf (with_stream s
        (set_stream_transactions (stream_transactions so ++ [length (txns w)]) so)
        (push_txn o w)).
Proof.
  intros Hwf Hs Htr Es Hop Hok Hlt Hp.
  pose proof Hwf as [H1 H2 H3 H4 H5 H6].
  set (so' := set_stream_transactions _ so).
  constructor; cbn [with_stream push_txn traces streams txns]; auto.
  - intros t x H. apply lookup_push_cases in H as [[-> ->]|H].
    + exists so', tr. rewrite Es.
      split; [eapply lookup_insert_same, Hs|]. split; [exact Htr|].
      split; [subst so'; simpl; apply elem_of_app; right; apply list_elem_of_singleton; reflexivity|].
      auto.
    + destruct (H1 _ _ H) as (s0 & tr0 & Hs0 & Htr0 & Hin & Hop0 & Hok0 & Hlt0).
      destruct (decide (s = txn_stream x)) as [E|Hne].
      * exists so', tr0. rewrite <- E. rewrite <- E in Hs0.
        assert (s0 = so) by congruence. subst s0.
        split; [eapply lookup_insert_same, Hs|]. split; [exact Htr0|].
        split; [subst so'; simpl; apply elem_of_app; left; exact Hin|]. auto.
      * exists s0, tr0. rewrite list_lookup_insert_ne by exact Hne. auto 10.
  - intros t x p H Hpar. apply is_Some_push.
    apply lookup_push_cases in H as [[-> ->]|H]; [auto | eapply H2; eassumption].
  - intros s' x H. apply lookup_insert_cases in H as [(-> & -> & _)|[Hne H]].
    + destruct (H3 _ _ Hs) as (tr0 & Htr0 & Hin & Hop0 & Hlt0 & Hnd).
      exists tr0. subst so'. simpl. repeat split; auto.
      apply NoDup_app. split; [exact Hnd|]. split; [|apply NoDup_singleton].
      intros t Hin' Hin2. apply list_elem_of_singleton in Hin2. subst t.
      pose proof (listed_txn_lt w _ _ _ Hwf Hs Hin'). lia.
    + eapply H3, H.
  - intros s' x t H Hin. apply lookup_insert_cases in H as [(-> & -> & _)|[Hne H]].
    + subst so'. simpl in Hin. apply elem_of_app in Hin as [Hin|Hin].
      * destruct (H4 _ _ _ Hs Hin) as (ot & Hot & Eot).
        exists ot. split; [apply lookup_push_old, Hot | exact Eot].
      * apply list_elem_of_singleton in Hin. subst t.
        exists o. split; [apply lookup_push_new | exact Es].
    + destruct (H4 _ _ _ H Hin) as (ot & Hot & Eot).
      exists ot. split; [apply lookup_push_old, Hot | exact Eot].
  - intros r x s' H Hin. destruct (H6 _ _ _ H Hin) as (os & Hos & Er).
    destruct (decide (s = s')) as [->|Hne].
    + exists so'. split; [eapply lookup_insert_same, Hs|]. subst so'. simpl. congruence.
    + exists os. rewrite list_lookup_insert_ne by exact Hne. auto.
Qed.

(** A new stream, appended to the list of its trace. *)
Lemma wf_add_stream (w : World) (r : ref) (tr : PerfettoTraceObj)
    (so : PerfettoStreamObj) :
  wf w -> traces w !! r = Some tr ->
  stream_trace so = r ->
  (stream_is_open so = true -> trace_file_open tr = true) ->
  stream_track_uuid so < trace_next_track_uuid tr ->
  stream_transactions so = [] ->
  wf (with_trace r
        (set_trace_streams (trace_streams tr ++ [length (streams w)]) tr)
        (push_stream so w)).
Proof.
  intros Hwf Hr Es Hop Hlt Hnil.
  pose proof Hwf as [H1 H2 H3 H4 H5 H6].
  set (tr' := set_trace_streams _ tr).
  constructor; cbn [with_trace push_stream traces streams txns]; auto.
  - intros t x H. destruct (H1 _ _ H) as (s0 & tr0 & Hs0 & Htr0 & Hin & Hop0 & Hok0 & Hlt0).
    apply lookup_push_old with (x := so) in Hs0.
    destruct (decide (r = stream_trace s0)) as [E|Hne].
    + exists s0, tr'. rewrite <- E. rewrite <- E in Htr0.
      assert (tr0 = tr) by congruence. subst tr0.
      split; [exact Hs0|]. split; [eapply lookup_insert_same, Hr|]. auto.
    + exists s0, tr0. rewrite list_lookup_insert_ne by exact Hne. auto 10.
  - intros s x H. apply lookup_push_cases in H as [[-> ->]|H].
    + exists tr'. rewrite Es. split; [eapply lookup_insert_same, Hr|].
      split; [subst tr'; simpl; apply elem_of_app; right; apply list_elem_of_singleton; reflexivity|].
      rewrite Hnil. repeat split; auto. apply NoDup_nil_2.
    + destruct (H3 _ _ H) as (tr0 & Htr0 & Hin & Hop0 & Hlt0 & Hnd).
      destruct (decide (r = stream_trace x)) as [E|Hne].
      * exists tr'. rewrite <- E. rewrite <- E in Htr0.
        assert (tr0 = tr) by congruence. subst tr0.
        split; [eapply lookup_insert_same, Hr|].
        split; [subst tr'; simpl; apply elem_of_app; left; exact Hin|]. auto.
      * exists tr0. rewrite list_lookup_insert_ne by exact Hne. auto 10.
  - intros s x t H Hin. apply lookup_push_cases in H as [[-> ->]|H].
    + rewrite Hnil in Hin. apply elem_of_nil in Hin. contradiction.
    + eapply H4; eassumption.
  - intros r' x H. apply lookup_insert_cases in H as [(-> & -> & _)|[Hne H]].
    + subst tr'. simpl. apply NoDup_app. split; [eapply H5, Hr|].
      split; [|apply NoDup_singleton].
      intros s Hin' Hin2. apply list_elem_of_singleton in Hin2. subst s.
      pose proof (listed_stream_lt w _ _ _ Hwf Hr Hin'). lia.
    + eapply H5, H.
  - intros r' x s H Hin. apply lookup_insert_cases in H as [(-> & -> & _)|[Hne H]].
    + subst tr'. simpl in Hin. apply elem_of_app in Hin as [Hin|Hin].
      * destruct (H6 _ _ _ Hr Hin) as (os & Hos & Eos).
        exists os. split; [apply lookup_push_old, Hos | exact Eos].
      * apply list_elem_of_singleton in Hin. subst s.
        exists so. split; [apply lookup_push_new | exact Es].
    + destruct (H6 _ _ _ H Hin) as (os & Hos & Eos).
      exists os. split; [apply lookup_push_old, Hos | exact Eos].
Qed.

Lemma wf_add_trace (w : World) (o : PerfettoTraceObj) :
  wf w -> trace_streams o = [] -> wf (push_trace o w).
Proof.
  intros [H1 H2 H3 H4 H5 H6] Hnil.
  constructor; cbn [push_trace traces streams txns]; auto.
  - intros t x H. destruct (H1 _ _ H) as (s0 & tr0 & Hs0 & Htr0 & Hrest).
    exists s0, tr0. split; [exact Hs0|]. split; [apply lookup_push_old, Htr0 | exact Hrest].
  - intros s x H. destruct (H3 _ _ H) as (tr0 & Htr0 & Hrest).
    exists tr0. split; [apply lookup_push_old, Htr0 | exact Hrest].
  - intros r x H. apply lookup_push_cases in H as [[-> ->]|H].
    + rewrite Hnil. apply NoDup_nil_2.
    + eapply H5, H.
  - intros r x s H Hin. apply lookup_push_cases in H as [[-> ->]|H].
    + rewrite Hnil in Hin. apply elem_of_nil in Hin. contradiction.
    + eapply H6; eassumption.
Qed.

Lemma wf_empty : wf empty_world.
Proof.
  constructor; simpl; intros; try rewrite lookup_nil in *; discriminate.
Qed.

(** ** Calls keep the invariant *)

Lemma sound_ret {A} (a : A) : sound (ret a).
Proof. intros w w' Hwf [= <-]. auto using evolves_refl. Qed.

Lemma sound_raise {A} (e : exn) : sound (raise e : M A).
Proof. intros w w' Hwf [= <-]. auto using evolves_refl. Qed.

Lemma sound_bind {A B} (m : M A) (k : A -> M B) :
  sound m -> (forall a, sound (k a)) -> sound (bind m k).
Proof.
  intros Hm Hk w w' Hwf H. unfold bind in H.
  destruct (m w) as [a w1|e w1|] eqn:E; [| |discriminate].
  - destruct (Hm w w1 Hwf) as [Hwf1 He1]; [rewrite E; reflexivity|].
    destruct (Hk a w1 w' Hwf1 H) as [Hwf' He']. eauto using evolves_trans.
  - injection H as <-. apply Hm; [exact Hwf | rewrite E; reflexivity].
Qed.

Lemma sound_for_each {A} (l : list A) (body : A -> M unit) :
  (forall x, sound (body x)) -> sound (for_each l body).
Proof.
  intros Hb. induction l as [|x l IH]; simpl.
  - apply sound_ret.
  - apply sound_bind; auto.
Qed.

Lemma sound_get_trace (r : ref) : sound (get_trace r).
Proof.
  intros w w' Hwf H. unfold get_trace in H.
  destruct (traces w !! r); [|discriminate]. injection H as <-.
  auto using evolves_refl.
Qed.

Lemma sound_get_stream (r : ref) : sound (get_stream r).
Proof.
  intros w w' Hwf H. unfold get_stream in H.
  destruct (streams w !! r); [|discriminate]. injection H as <-.
  auto using evolves_refl.
Qed.

Lemma sound_get_txn (r : ref) : sound (get_txn r).
Proof.
  intros w w' Hwf H. unfold get_txn in H.
  destruct (txns w !! r); [|discriminate]. injection H as <-.
  auto using evolves_refl.
Qed.

(** *** The allocators *)

Lemma _allocate_track_uuid_eq (w : World) (r : ref) (tr : PerfettoTraceObj) :
  traces w !! r = Some tr ->
  _allocate_track_uuid r w =
    Ret (trace_next_track_uuid tr)
      (with_trace r (set_trace_next_track_uuid (trace_next_track_uuid tr + 1) tr) w).
Proof. intros H. unfold _allocate_track_uuid, bind, get_trace. rewrite H. reflexivity. Qed.

Lemma _allocate_transaction_id_eq (w : World) (r : ref) (tr : PerfettoTraceObj) :
  traces w !! r = Some tr ->
  _allocate_transaction_id r w =
    Ret (trace_next_transaction_id tr)
      (with_trace r
         (set_trace_next_transaction_id (trace_next_transaction_id tr + 1) tr) w).
Proof.
  intros H. unfold _allocate_transaction_id, bind, get_trace. rewrite H. reflexivity.
Qed.

Lemma _allocate_flow_id_eq (w : World) (r : ref) (tr : PerfettoTraceObj) :
  traces w !! r = Some tr ->
  _allocate_flow_id r w =
    Ret (trace_next_flow_id tr)
      (with_trace r (set_trace_next_flow_id (trace_next_flow_id tr + 1) tr) w).
Proof. intros H. unfold _allocate_flow_id, bind, get_trace. rewrite H. reflexivity. Qed.

Lemma sound_with_trace (w : World) (r : ref) (o o' : PerfettoTraceObj) :
  wf w -> traces w !! r = Some o ->
  trace_streams o' = trace_streams o ->
  trace_file_open o' = trace_file_open o ->
  trace_evolves o o' ->
  wf (with_trace r o' w) /\ evolves w (with_trace r o' w).
Proof.
  intros Hwf Hr Es Ef He. split.
  - apply (wf_with_trace w r o o' Hwf Hr Es); [congruence | apply He].
  - eapply evolves_with_trace; eauto.
Qed.

Lemma sound__allocate_track_uuid (r : ref) : sound (_allocate_track_uuid r).
Proof.
  intros w w' Hwf H. destruct (traces w !! r) as [tr|] eqn:Hr.
  - rewrite (_allocate_track_uuid_eq _ _ _ Hr) in H. injection H as <-.
    eapply sound_with_trace; eauto.
    constructor; simpl; try reflexivity; auto; lia.
  - unfold _allocate_track_uuid, bind, get_trace in H. rewrite Hr in H. discriminate.
Qed.

Lemma sound__allocate_transaction_id (r : ref) : sound (_allocate_transaction_id r).
Proof.
  intros w w' Hwf H. destruct (traces w !! r) as [tr|] eqn:Hr.
  - rewrite (_allocate_transaction_id_eq _ _ _ Hr) in H. injection H as <-.
    eapply sound_with_trace; eauto.
    constructor; simpl; try reflexivity; auto; lia.
  - unfold _allocate_transaction_id, bind, get_trace in H. rewrite Hr in H.
    discriminate.
Qed.

Lemma sound__allocate_flow_id (r : ref) : sound (_allocate_flow_id r).
Proof.
  intros w w' Hwf H. destruct (traces w !! r) as [tr|] eqn:Hr.
  - rewrite (_allocate_flow_id_eq _ _ _ Hr) in H. injection H as <-.
    eapply sound_with_trace; eauto.
    constructor; simpl; try reflexivity; auto; lia.
  - unfold _allocate_flow_id, bind, get_trace in H. rewrite Hr in H. discriminate.
Qed.

(** *** Writing packets *)

Lemma _write_packet_open (w : World) (r : ref) (tr : PerfettoTraceObj)
    (packet : TracePacket) :
  traces w !! r = Some tr -> trace_file_open tr = true ->
  _write_packet r packet w =
    Ret tt (with_trace r (set_trace_written (trace_written tr ++ [packet]) tr) w).
Proof.
  intros H Ho. unfold _write_packet, bind, get_trace. rewrite H, Ho. reflexivity.
Qed.

Lemma _write_packet_released (w : World) (r : ref) (tr : PerfettoTraceObj)
    (packet : TracePacket) :
  traces w !! r = Some tr -> trace_file_open tr = false ->
  _write_packet r packet w = Raise AttributeError w.
Proof.
  intros H Ho. unfold _write_packet, bind, get_trace. rewrite H, Ho. reflexivity.
Qed.

Lemma sound__write_packet (r : ref) (packet : TracePacket) : sound (_write_packet r packet).
Proof.
  intros w w' Hwf H. destruct (traces w !! r) as [tr|] eqn:Hr.
  - destruct (trace_file_open tr) eqn:Ho.
    + rewrite (_write_packet_open _ _ _ _ Hr Ho) in H. injection H as <-.
      eapply sound_with_trace; eauto.
      constructor; simpl; try reflexivity; auto. apply prefix_app_r. reflexivity.
    + rewrite (_write_packet_released _ _ _ _ Hr Ho) in H. injection H as <-.
      auto using evolves_refl.
  - unfold _write_packet, bind, get_trace in H. rewrite Hr in H. discriminate.
Qed.

Lemma sound__emit_slice_begin (r t : ref) : sound (_emit_slice_begin r t).
Proof.
  apply sound_bind; [apply sound_get_txn | intros; apply sound__write_packet].
Qed.

Lemma sound__emit_slice_end (r t : ref) : sound (_emit_slice_end r t).
Proof.
  apply sound_bind; [apply sound_get_txn | intros; apply sound__write_packet].
Qed.

(** *** Attributes and links *)

Lemma with_txn_sound (w : World) (t : ref) (o o' : PerfettoTransactionObj) :
  wf w -> txns w !! t = Some o ->
  txn_evolves o o' -> txn_is_open o' = txn_is_open o ->
  wf (with_txn t o' w) /\ evolves w (with_txn t o' w).
Proof.
  intros Hwf Ht He Eo. split.
  - apply (wf_with_txn w t o o' Hwf Ht); try apply He. congruence.
  - eapply evolves_with_txn; eauto.
Qed.

Lemma sound_append_attribute (t : ref) (attr : DebugAnnotation) :
  sound (PerfettoTransaction.append_attribute t attr).
Proof.
  intros w w' Hwf H. unfold PerfettoTransaction.append_attribute, bind, get_txn in H.
  destruct (txns w !! t) as [o|] eqn:Ht; [|discriminate]. injection H as <-.
  eapply with_txn_sound; eauto.
  constructor; simpl; try reflexivity; auto. apply prefix_app_r. reflexivity.
Qed.

Lemma sound_append_flow_id (t : ref) (flow_id : Z) :
  sound (PerfettoTransaction.append_flow_id t flow_id).
Proof.
  intros w w' Hwf H. unfold PerfettoTransaction.append_flow_id, bind, get_txn in H.
  destruct (txns w !! t) as [o|] eqn:Ht; [|discriminate]. injection H as <-.
  eapply with_txn_sound; eauto.
  constructor; simpl; try reflexivity; auto. apply prefix_app_r. reflexivity.
Qed.

Lemma sound_add_link (t : ref) (target : py_arg) (link_type : LinkType)
    (relation_name : option string) :
  sound (PerfettoTransaction.add_link t target link_type relation_name).
Proof.
  destruct target as [|g|b]; simpl; try apply sound_raise.
  apply sound_bind; [apply sound_get_txn | intros o].
  apply sound_bind; [apply sound_get_stream | intros s].
  apply sound_bind; [apply sound__allocate_flow_id | intros f].
  apply sound_bind; [apply sound_append_flow_id | intros _].
  apply sound_append_flow_id.
Qed.

(** *** Closing a transaction *)

Lemma with_trace_twice (w : World) (r : ref) (o1 o2 : PerfettoTraceObj) :
  with_trace r o2 (with_trace r o1 w) = with_trace r o2 w.
Proof. unfold with_trace. simpl. f_equal. apply list_insert_insert_eq. Qed.

Lemma close_closed (w : World) (t : ref) (o : PerfettoTransactionObj) (end_time : Z) :
  txns w !! t = Some o -> txn_is_open o = false ->
  PerfettoTransaction.close t end_time w = Ret tt w.
Proof.
  intros Ht Ho. unfold PerfettoTransaction.close. unfold_m.
  rewrite Ht, Ho. reflexivity.
Qed.

Lemma close_open (w : World) (t : ref) (o : PerfettoTransactionObj)
    (s : PerfettoStreamObj) (tr : PerfettoTraceObj) (end_time : Z) :
  txns w !! t = Some o -> txn_is_open o = true ->
  streams w !! txn_stream o = Some s ->
  traces w !! stream_trace s = Some tr -> trace_file_open tr = true ->
  PerfettoTransaction.close t end_time w =
    Ret tt
      (with_trace (stream_trace s)
         (set_trace_written
            (trace_written tr ++ slice_packets (closed_at end_time o)) tr)
         (with_txn t (closed_at end_time o) w)).
Proof.
  intros Ht Ho Hs Htr Hf.
  unfold PerfettoTransaction.close, _emit_slice_begin, _emit_slice_end. unfold_m.
  rewrite Ht, Ho. red_w. rewrite Hs. red_w.
  rewrite (lookup_insert_same _ _ _ _ Ht). red_w.
  rewrite (_write_packet_open _ _ tr) by (red_w; assumption).
  red_w. rewrite (lookup_insert_same _ _ _ _ Ht). red_w.
  erewrite _write_packet_open;
    [| red_w; eapply lookup_insert_same, Htr | exact Hf].
  rewrite with_trace_twice. do 2 f_equal.
  unfold set_trace_written, slice_packets. simpl. rewrite <- app_assoc. reflexivity.
Qed.

Lemma sound_close (t : ref) (end_time : Z) : sound (PerfettoTransaction.close t end_time).
Proof.
  intros w w' Hwf H. unfold PerfettoTransaction.close in H.
  unfold bind at 1 in H. unfold get_txn at 1 in H.
  destruct (txns w !! t) as [o|] eqn:Ht; [|discriminate].
  destruct (txn_is_open o) eqn:Ho; cbn [negb] in H.
  - unfold bind at 1 in H. unfold put_txn at 1 in H.
    assert (wf (with_txn t (closed_at end_time o) w)
            /\ evolves w (with_txn t (closed_at end_time o) w)) as [Hwf1 He1].
    { split.
      - apply (wf_with_txn w t o _ Hwf Ht); try reflexivity.
        simpl. discriminate.
      - apply (evolves_with_txn w t o _ Ht).
        constructor; simpl; try reflexivity. congruence. }
    match type of H with world_after (?m _) = _ =>
      assert (Hs : sound m) end.
    { apply sound_bind; [apply sound_get_stream | intros s].
      apply sound_bind; [apply sound__emit_slice_begin | intros _].
      apply sound__emit_slice_end. }
    destruct (Hs _ _ Hwf1 H) as [Hwf' He']. eauto using evolves_trans.
  - injection H as <-. auto using evolves_refl.
Qed.

(** Whatever [close] does, the transaction is not open afterwards. *)
Lemma close_not_open (w w' : World) (t : ref) (end_time : Z) :
  wf w -> world_after (PerfettoTransaction.close t end_time w) = Some w' ->
  exists o', txns w' !! t = Some o' /\ txn_is_open o' = false.
Proof.
  intros Hwf H. unfold PerfettoTransaction.close in H.
  unfold bind at 1 in H. unfold get_txn at 1 in H.
  destruct (txns w !! t) as [o|] eqn:Ht; [|discriminate].
  destruct (txn_is_open o) eqn:Ho; cbn [negb] in H.
  - unfold bind at 1 in H. unfold put_txn at 1 in H.
    assert (Ht1 : txns (with_txn t (closed_at end_time o) w) !! t
                  = Some (closed_at end_time o))
      by (red_w; eapply lookup_insert_same, Ht).
    assert (Hwf1 : wf (with_txn t (closed_at end_time o) w)).
    { apply (wf_with_txn w t o _ Hwf Ht); try reflexivity. simpl. discriminate. }
    match type of H with world_after (?m _) = _ =>
      assert (Hs : sound m) end.
    { apply sound_bind; [apply sound_get_stream | intros s].
      apply sound_bind; [apply sound__emit_slice_begin | intros _].
      apply sound__emit_slice_end. }
    destruct (Hs _ _ Hwf1 H) as [_ He'].
    destruct (ev_txns _ _ He' _ _ Ht1) as (o' & Ho' & Ev).
    exists o'. split; [exact Ho'|]. apply Ev. reflexivity.
  - injection H as <-. eauto.
Qed.

(** *** Closing a stream *)

Lemma sound_stream_close_if_open (t : ref) : sound (PerfettoStream.close_if_open t).
Proof.
  unfold PerfettoStream.close_if_open, PerfettoTransaction.is_open.
  apply sound_bind.
  - apply sound_bind; [apply sound_get_txn | intros; apply sound_ret].
  - intros [|]; [|apply sound_ret].
    apply sound_bind; [apply sound_get_txn | intros; apply sound_close].
Qed.

Lemma close_if_open_closed (w : World) (t : ref) (o : PerfettoTransactionObj) :
  txns w !! t = Some o -> txn_is_open o = false ->
  PerfettoStream.close_if_open t w = Ret tt w.
Proof.
  intros Ht Ho. unfold PerfettoStream.close_if_open, PerfettoTransaction.is_open.
  unfold_m. rewrite Ht, Ho. reflexivity.
Qed.

Lemma close_if_open_open (w : World) (t : ref) (o : PerfettoTransactionObj) :
  txns w !! t = Some o -> txn_is_open o = true ->
  PerfettoStream.close_if_open t w = PerfettoTransaction.close t (txn_start_time o) w.
Proof.
  intros Ht Ho. unfold PerfettoStream.close_if_open, PerfettoTransaction.is_open.
  unfold bind, get_txn, ret. rewrite Ht, Ho. cbv beta iota. rewrite Ht. reflexivity.
Qed.

Lemma pending_packets_ext (w w' : World) (l : list ref) :
  (forall t, t ∈ l -> txns w' !! t = txns w !! t) ->
  pending_packets w' l = pending_packets w l.
Proof.
  induction l as [|t l IH]; intros H; [reflexivity|].
  unfold pending_packets. simpl. rewrite (H t) by apply list_elem_of_here.
  f_equal. apply IH. intros t' Hin. apply H. apply list_elem_of_further, Hin.
Qed.

(** The loop of [PerfettoStream.close] over a part [l] of the transactions
    of an open stream: it returns, every open transaction of [l] is closed
    at its own start time, and its slice is written; nothing else changes. *)
Lemma force_close_loop (s : ref) (so : PerfettoStreamObj) (l : list ref) :
  forall (w : World) (tr : PerfettoTraceObj),
    wf w -> streams w !! s = Some so -> stream_is_open so = true ->
    traces w !! stream_trace so = Some tr ->
    NoDup l -> (forall t, t ∈ l -> t ∈ stream_transactions so) ->
    exists w1,
      for_each l PerfettoStream.close_if_open w = Ret tt w1 /\
      wf w1 /\ evolves w w1 /\
      streams w1 = streams w /\
      (forall t, t ∉ l -> txns w1 !! t = txns w !! t) /\
      (forall t o, t ∈ l -> txns w !! t = Some o ->
         txns w1 !! t = Some (force_closed o)) /\
      traces w1 =
        <[stream_trace so :=
            set_trace_written (trace_written tr ++ pending_packets w l) tr]>
          (traces w).
Proof.
  induction l as [|t l IH]; intros w tr Hwf Hs Hop Htr Hnd Hsub.
  - exists w. simpl. split; [reflexivity|]. split; [exact Hwf|].
    split; [apply evolves_refl|]. split; [reflexivity|].
    split; [reflexivity|]. split; [intros t o Hin; apply elem_of_nil in Hin; contradiction|].
    unfold pending_packets. simpl. rewrite app_nil_r.
    symmetry. apply list_insert_id.
    rewrite Htr. f_equal. destruct tr; reflexivity.
  - apply NoDup_cons in Hnd as [Hnin Hnd].
    assert (Hin : t ∈ stream_transactions so) by (apply Hsub, list_elem_of_here).
    destruct (wf_listed_txn w Hwf _ _ _ Hs Hin) as (o & Ht & Est).
    assert (Hsub' : forall t', t' ∈ l -> t' ∈ stream_transactions so)
      by (intros t' Ht'; apply Hsub, list_elem_of_further, Ht').
    destruct (txn_is_open o) eqn:Ho.
    + destruct (wf_stream w Hwf _ _ Hs) as (tr0 & Htr0 & _ & Hfile & _).
      assert (tr0 = tr) by congruence. subst tr0. specialize (Hfile Hop).
      rewrite <- Est in Hs.
      pose proof (close_open w t o so tr (txn_start_time o) Ht Ho Hs Htr Hfile) as Hc.
      rewrite Est in Hs.
      set (o' := closed_at (txn_start_time o) o) in *.
      set (tr2 := set_trace_written (trace_written tr ++ slice_packets o') tr) in *.
      set (w2 := with_trace (stream_trace so) tr2 (with_txn t o' w)) in *.
      assert (Hs2 : sound (PerfettoTransaction.close t (txn_start_time o)))
        by apply sound_close.
      destruct (Hs2 w w2 Hwf) as [Hwf2 He2]; [rewrite Hc; reflexivity|].
      assert (Htr2 : traces w2 !! stream_trace so = Some tr2)
        by (subst w2; red_w; eapply lookup_insert_same, Htr).
      destruct (IH w2 tr2 Hwf2 Hs Hop Htr2 Hnd Hsub')
        as (w1 & Hl & Hwf1 & He1 & Hst & Hout & Hinl & Htraces).
      exists w1. simpl. unfold bind.
      rewrite (close_if_open_open _ _ _ Ht Ho), Hc, Hl.
      split; [reflexivity|]. split; [exact Hwf1|].
      split; [eapply evolves_trans; eassumption|]. split; [exact Hst|].
      split; [|split].
      * intros t' Hn. apply not_elem_of_cons in Hn as [Hne Hn].
        rewrite (Hout t' Hn). subst w2. red_w.
        apply list_lookup_insert_ne. congruence.
      * intros t' x Hin' Hx. apply elem_of_cons in Hin' as [->|Hin'].
        -- rewrite (Hout t Hnin). subst w2. red_w.
           rewrite (lookup_insert_same _ _ _ _ Ht).
           assert (x = o) by congruence. subst x.
           unfold force_closed. rewrite Ho. reflexivity.
        -- apply Hinl; [exact Hin'|]. subst w2. red_w.
           rewrite list_lookup_insert_ne; [exact Hx|]. intros ->. contradiction.
      * rewrite Htraces. subst w2. red_w. rewrite list_insert_insert_eq.
        f_equal. unfold pending_packets at 2. simpl. rewrite Ht, Ho.
        fold (pending_packets w l).
        rewrite (pending_packets_ext w (with_trace (stream_trace so) tr2 (with_txn t o' w))).
        -- subst tr2. unfold set_trace_written. simpl. rewrite <- app_assoc. reflexivity.
        -- intros t' Hin'. red_w. apply list_lookup_insert_ne. intros ->. contradiction.
    + destruct (IH w tr Hwf Hs Hop Htr Hnd Hsub')
        as (w1 & Hl & Hwf1 & He1 & Hst & Hout & Hinl & Htraces).
      exists w1. simpl. unfold bind.
      rewrite (close_if_open_closed _ _ _ Ht Ho), Hl.
      split; [reflexivity|]. split; [exact Hwf1|].
      split; [exact He1|]. split; [exact Hst|]. split; [|split].
      * intros t' Hn. apply not_elem_of_cons in Hn as [Hne Hn]. apply Hout, Hn.
      * intros t' x Hin' Hx. apply elem_of_cons in Hin' as [->|Hin'].
        -- rewrite (Hout t Hnin), Hx. assert (x = o) by congruence. subst x.
           unfold force_closed. rewrite Ho. reflexivity.
        -- apply Hinl; assumption.
      * rewrite Htraces. do 2 f_equal. unfold pending_packets at 2. simpl.
        rewrite Ht, Ho. reflexivity.
Qed.

Lemma stream_close_closed (w : World) (s : ref) (so : PerfettoStreamObj) :
  streams w !! s = Some so -> stream_is_open so = false ->
  PerfettoStream.close s w = Ret tt w.
Proof.
  intros Hs Ho. unfold PerfettoStream.close, bind, get_stream. rewrite Hs, Ho.
  reflexivity.
Qed.

Lemma force_closed_not_open (o : PerfettoTransactionObj) :
  txn_is_open (force_closed o) = false.
Proof. unfold force_closed. destruct (txn_is_open o) eqn:E; [reflexivity | exact E]. Qed.

Lemma stream_close_open (w : World) (s : ref) (so : PerfettoStreamObj) :
  wf w -> streams w !! s = Some so -> stream_is_open so = true ->
  exists w1 tr,
    traces w !! stream_trace so = Some tr /\
    trace_file_open tr = true /\
    PerfettoStream.close s w = Ret tt (with_stream s (set_stream_is_open false so) w1) /\
    wf (with_stream s (set_stream_is_open false so) w1) /\
    evolves w (with_stream s (set_stream_is_open false so) w1) /\
    streams w1 = streams w /\
    (forall t, t ∉ stream_transactions so -> txns w1 !! t = txns w !! t) /\
    (forall t o, t ∈ stream_transactions so -> txns w !! t = Some o ->
       txns w1 !! t = Some (force_closed o)) /\
    traces w1 =
      <[stream_trace so :=
          set_trace_written
            (trace_written tr ++ pending_packets w (stream_transactions so)) tr]>
        (traces w).
Proof.
  intros Hwf Hs Hop.
  destruct (wf_stream w Hwf _ _ Hs) as (tr & Htr & _ & Hfile & _ & Hnd).
  destruct (force_close_loop s so (stream_transactions so) w tr Hwf Hs Hop Htr Hnd)
    as (w1 & Hl & Hwf1 & He1 & Hst & Hout & Hinl & Htraces); [auto|].
  assert (Hs1 : streams w1 !! s = Some so) by (rewrite Hst; exact Hs).
  exists w1, tr. split; [exact Htr|]. split; [auto|].
  split; [|split; [|split]]; auto.
  - unfold PerfettoStream.close. unfold bind at 1. unfold get_stream at 1.
    rewrite Hs, Hop. cbn [negb]. unfold bind at 1. rewrite Hl.
    unfold bind, get_stream, put_stream. rewrite Hs1. reflexivity.
  - apply wf_close_stream; auto. intros t ot Hin Hot.
    destruct (wf_listed_txn w Hwf _ _ _ Hs Hin) as (o & Ho & _).
    rewrite (Hinl t o Hin Ho) in Hot. injection Hot as <-.
    apply force_closed_not_open.
  - eapply evolves_trans; [exact He1|].
    apply (evolves_with_stream w1 s so _ Hs1).
    constructor; simpl; try reflexivity. auto.
Qed.

Lemma sound_stream_close (s : ref) : sound (PerfettoStream.close s).
Proof.
  intros w w' Hwf H. destruct (streams w !! s) as [so|] eqn:Hs.
  - destruct (stream_is_open so) eqn:Ho.
    + destruct (stream_close_open w s so Hwf Hs Ho)
        as (w1 & tr & _ & _ & Hc & Hwf' & He' & _).
      rewrite Hc in H. injection H as <-. auto.
    + rewrite (stream_close_closed _ _ _ Hs Ho) in H. injection H as <-.
      auto using evolves_refl.
  - unfold PerfettoStream.close, bind, get_stream in H. rewrite Hs in H. discriminate.
Qed.

(** *** Opening a transaction *)

Lemma begin_transaction_closed (w : World) (s : ref) (so : PerfettoStreamObj)
    (name : string) (start_time : Z) (type_name : option string) (parent : py_arg) :
  streams w !! s = Some so -> stream_is_open so = false ->
  PerfettoStream.begin_transaction s name start_time type_name parent w
    = Raise RuntimeError w.
Proof.
  intros Hs Ho. unfold PerfettoStream.begin_transaction, bind, get_stream, raise.
  rewrite Hs, Ho. reflexivity.
Qed.

(** No parent ([None], or an object that counts as false): the transaction
    takes the track of its stream. *)
Lemma begin_transaction_root (w : World) (s : ref) (so : PerfettoStreamObj)
    (tr : PerfettoTraceObj) (name : string) (start_time : Z)
    (type_name : option string) (parent : py_arg) :
  streams w !! s = Some so -> stream_is_open so = true ->
  traces w !! stream_trace so = Some tr ->
  parent = PyNone \/ parent = PyOther false ->
  PerfettoStream.begin_transaction s name start_time type_name parent w =
    Ret (length (txns w))
      (with_stream s
         (set_stream_transactions (stream_transactions so ++ [length (txns w)]) so)
         (push_txn
            (fresh_txn (trace_next_transaction_id tr) s name start_time type_name
               None (stream_track_uuid so))
            (with_trace (stream_trace so)
               (set_trace_next_transaction_id (trace_next_transaction_id tr + 1) tr)
               w))).
Proof.
  intros Hs Ho Htr Hp.
  unfold PerfettoStream.begin_transaction. unfold bind at 1. unfold get_stream at 1.
  rewrite Hs, Ho. cbn [negb]. unfold bind at 1.
  rewrite (_allocate_transaction_id_eq _ _ _ Htr).
  unfold bind at 1.
  assert (Hk : forall w0,
    match parent with
    | PyPerfettoTransaction p => ret (Some p)
    | PyOther true => raise TypeError
    | _ => ret None
    end w0 = Ret None w0) by (destruct Hp as [-> | ->]; reflexivity).
  rewrite Hk. unfold PerfettoTransaction.__init__. unfold_m. red_w.
  rewrite Hs. red_w. rewrite Hs. reflexivity.
Qed.

(** A parent of a class other than [PerfettoTransaction]: [TypeError],
    after the transaction identifier was drawn. *)
Lemma begin_transaction_foreign (w : World) (s : ref) (so : PerfettoStreamObj)
    (tr : PerfettoTraceObj) (name : string) (start_time : Z)
    (type_name : option string) :
  streams w !! s = Some so -> stream_is_open so = true ->
  traces w !! stream_trace so = Some tr ->
  PerfettoStream.begin_transaction s name start_time type_name (PyOther true) w =
    Raise TypeError
      (with_trace (stream_trace so)
         (set_trace_next_transaction_id (trace_next_transaction_id tr + 1) tr) w).
Proof.
  intros Hs Ho Htr.
  unfold PerfettoStream.begin_transaction. unfold bind at 1. unfold get_stream at 1.
  rewrite Hs, Ho. cbn [negb]. unfold bind at 1.
  rewrite (_allocate_transaction_id_eq _ _ _ Htr). reflexivity.
Qed.

(** A [PerfettoTransaction] parent: a track of its own, announced by a
    descriptor that names the parent's track. *)
Lemma begin_transaction_child (w : World) (s : ref) (so : PerfettoStreamObj)
    (tr : PerfettoTraceObj) (name : string) (start_time : Z)
    (type_name : option string) (p : ref) (po : PerfettoTransactionObj) :
  streams w !! s = Some so -> stream_is_open so = true ->
  traces w !! stream_trace so = Some tr -> trace_file_open tr = true ->
  txns w !! p = Some po ->
  PerfettoStream.begin_transaction s name start_time type_name
    (PyPerfettoTransaction p) w =
    Ret (length (txns w))
      (with_stream s
         (set_stream_transactions (stream_transactions so ++ [length (txns w)]) so)
         (push_txn
            (fresh_txn (trace_next_transaction_id tr) s name start_time type_name
               (Some p) (trace_next_track_uuid tr))
            (with_trace (stream_trace so)
               (set_trace_written
                  (trace_written tr ++
                     [child_descriptor_packet (trace_next_track_uuid tr) name
                        (txn_track_uuid po)])
                  (set_trace_next_track_uuid (trace_next_track_uuid tr + 1)
                     (set_trace_next_transaction_id
                        (trace_next_transaction_id tr + 1) tr)))
               w))).
Proof.
  intros Hs Ho Htr Hf Hp.
  unfold PerfettoStream.begin_transaction. unfold bind at 1. unfold get_stream at 1.
  rewrite Hs, Ho. cbn [negb]. unfold bind at 1.
  rewrite (_allocate_transaction_id_eq _ _ _ Htr).
  unfold bind at 1. unfold ret at 1.
  unfold PerfettoTransaction.__init__.
  unfold bind at 1. unfold bind at 1. unfold get_stream at 1. red_w. rewrite Hs.
  unfold bind at 1.
  erewrite _allocate_track_uuid_eq by (red_w; eapply lookup_insert_same, Htr).
  rewrite with_trace_twice.
  unfold bind at 1. unfold _emit_child_track_descriptor.
  cbn [txn_parent]. unfold bind at 1. unfold bind at 1. unfold get_txn at 1.
  red_w. rewrite Hp. unfold ret at 1.
  erewrite _write_packet_open;
    [| red_w; eapply lookup_insert_same, Htr | exact Hf].
  rewrite with_trace_twice.
  unfold_m. red_w. rewrite Hs. reflexivity.
Qed.

Lemma sound_begin_transaction (s : ref) (name : string) (start_time : Z)
    (type_name : option string) (parent : py_arg) :
  sound (PerfettoStream.begin_transaction s name start_time type_name parent).
Proof.
  intros w w' Hwf H. destruct (streams w !! s) as [so|] eqn:Hs.
  2:{ unfold PerfettoStream.begin_transaction, bind, get_stream in H.
      rewrite Hs in H. discriminate. }
  destruct (stream_is_open so) eqn:Ho.
  2:{ rewrite (begin_transaction_closed _ _ _ _ _ _ _ Hs Ho) in H.
      injection H as <-. auto using evolves_refl. }
  destruct (wf_stream w Hwf _ _ Hs) as (tr & Htr & Hlisted & Hfile & Hlt & Hnd).
  specialize (Hfile Ho).
  assert (Hroot : parent = PyNone \/ parent = PyOther false -> wf w' /\ evolves w w').
  { intros Hp. rewrite (begin_transaction_root _ _ _ _ _ _ _ _ Hs Ho Htr Hp) in H.
    injection H as <-.
    set (tr1 := set_trace_next_transaction_id _ tr).
    destruct (sound_with_trace w (stream_trace so) tr tr1 Hwf Htr) as [Hwf1 He1];
      [reflexivity | reflexivity | constructor; simpl; try reflexivity; auto; lia |].
    split.
    - apply (wf_add_txn (with_trace (stream_trace so) tr1 w) s so tr1);
        [ exact Hwf1 | exact Hs | red_w; eapply lookup_insert_same, Htr
        | reflexivity | auto | reflexivity | simpl; exact Hlt
        | simpl; discriminate ].
    - eapply evolves_trans; [exact He1|].
      eapply evolves_trans; [apply evolves_push_txn|].
      apply (evolves_with_stream _ s so); [exact Hs|].
      constructor; simpl; try reflexivity; [apply prefix_app_r; reflexivity|].
      congruence. }
  destruct parent as [|p|[|]]; auto.
  - destruct (txns w !! p) as [po|] eqn:Hp.
    + rewrite (begin_transaction_child _ _ _ _ _ _ _ _ _ Hs Ho Htr Hfile Hp) in H.
      injection H as <-.
      match goal with |- context [with_trace _ ?x w] => set (tr1 := x) end.
      destruct (sound_with_trace w (stream_trace so) tr tr1 Hwf Htr) as [Hwf1 He1];
        [reflexivity | reflexivity | |].
      { constructor; simpl; try reflexivity; auto; try lia.
        apply prefix_app_r. reflexivity. }
      split.
      * apply (wf_add_txn (with_trace (stream_trace so) tr1 w) s so tr1);
          [ exact Hwf1 | exact Hs | red_w; eapply lookup_insert_same, Htr
          | reflexivity | auto | unfold track_ok; simpl; exact Hlt
          | simpl; lia | simpl; intros p' [= <-]; red_w; eauto ].
      * eapply evolves_trans; [exact He1|].
        eapply evolves_trans; [apply evolves_push_txn|].
        apply (evolves_with_stream _ s so); [exact Hs|].
        constructor; simpl; try reflexivity; [apply prefix_app_r; reflexivity|].
        congruence.
    + exfalso. revert H.
      unfold PerfettoStream.begin_transaction. unfold bind at 1. unfold get_stream at 1.
      rewrite Hs, Ho. cbn [negb]. unfold bind at 1.
      rewrite (_allocate_transaction_id_eq _ _ _ Htr).
      unfold bind at 1. unfold ret at 1.
      unfold PerfettoTransaction.__init__.
      unfold bind at 1. unfold bind at 1. unfold get_stream at 1. red_w. rewrite Hs.
      unfold bind at 1.
      erewrite _allocate_track_uuid_eq by (red_w; eapply lookup_insert_same, Htr).
      unfold bind at 1. unfold _emit_child_track_descriptor.
      cbn [txn_parent]. unfold bind at 1. unfold bind at 1. unfold get_txn at 1.
      red_w. rewrite Hp. discriminate.
  - rewrite (begin_transaction_foreign _ _ _ _ _ _ _ Hs Ho Htr) in H.
    injection H as <-.
    eapply sound_with_trace; eauto.
    constructor; simpl; try reflexivity; auto; lia.
Qed.

(** *** Traces and streams *)

Lemma create_trace_eq (w : World) (filename name time_units : string) :
  create_trace filename name time_units w =
    Ret (length (traces w))
      (with_trace (length (traces w))
         (set_trace_written [clock_snapshot_packet]
            (fresh_trace filename name time_units))
         (push_trace (fresh_trace filename name time_units) w)).
Proof.
  unfold create_trace, PerfettoTrace.__init__, _emit_clock_snapshot.
  unfold bind at 1. unfold new_trace at 1. unfold bind at 1. unfold bind at 1.
  unfold get_trace at 1. red_w. rewrite lookup_push_new.
  rewrite (_write_packet_open _ _ (fresh_trace filename name time_units));
    [reflexivity | red_w; apply lookup_push_new | reflexivity].
Qed.

Lemma sound_create_trace (filename name time_units : string) :
  sound (create_trace filename name time_units).
Proof.
  intros w w' Hwf H. rewrite create_trace_eq in H. injection H as <-.
  assert (Hwf1 : wf (push_trace (fresh_trace filename name time_units) w))
    by (apply wf_add_trace; [exact Hwf | reflexivity]).
  destruct (sound_with_trace _ (length (traces w))
              (fresh_trace filename name time_units)
              (set_trace_written [clock_snapshot_packet]
                 (fresh_trace filename name time_units)) Hwf1) as [Hwf2 He2];
    [ red_w; apply lookup_push_new | reflexivity | reflexivity | |].
  { constructor; simpl; try reflexivity; auto. apply prefix_nil. }
  split; [exact Hwf2|].
  eapply evolves_trans; [apply evolves_push_trace | exact He2].
Qed.

Lemma create_stream_open (w : World) (r : ref) (tr : PerfettoTraceObj)
    (name : string) (scope type_name : option string) :
  traces w !! r = Some tr -> trace_file_open tr = true ->
  let tr2 :=
    set_trace_written
      (trace_written tr ++ [stream_descriptor_packet (trace_next_track_uuid tr) name])
      (set_trace_next_track_uuid (trace_next_track_uuid tr + 1) tr) in
  PerfettoTrace.create_stream r name scope type_name w =
    Ret (length (streams w))
      (with_trace r
         (set_trace_streams (trace_streams tr2 ++ [length (streams w)]) tr2)
         (push_stream
            (mkStream r (trace_next_track_uuid tr) name scope type_name true [])
            (with_trace r tr2 w))).
Proof.
  intros Htr Hf tr2. unfold PerfettoTrace.create_stream. unfold bind at 1.
  rewrite (_allocate_track_uuid_eq _ _ _ Htr).
  unfold PerfettoStream.__init__, _emit_track_descriptor.
  unfold bind at 1. unfold bind at 1.
  erewrite _write_packet_open;
    [| red_w; eapply lookup_insert_same, Htr | exact Hf].
  rewrite with_trace_twice. unfold_m. red_w.
  rewrite (lookup_insert_same _ _ _ _ Htr). reflexivity.
Qed.

Lemma create_stream_released (w : World) (r : ref) (tr : PerfettoTraceObj)
    (name : string) (scope type_name : option string) :
  traces w !! r = Some tr -> trace_file_open tr = false ->
  PerfettoTrace.create_stream r name scope type_name w =
    Raise AttributeError
      (with_trace r (set_trace_next_track_uuid (trace_next_track_uuid tr + 1) tr) w).
Proof.
  intros Htr Hf. unfold PerfettoTrace.create_stream. unfold bind at 1.
  rewrite (_allocate_track_uuid_eq _ _ _ Htr).
  unfold PerfettoStream.__init__, _emit_track_descriptor.
  unfold bind at 1. unfold bind at 1.
  erewrite _write_packet_released;
    [reflexivity | red_w; eapply lookup_insert_same, Htr | exact Hf].
Qed.

Lemma sound_create_stream (r : ref) (name : string) (scope type_name : option string) :
  sound (PerfettoTrace.create_stream r name scope type_name).
Proof.
  intros w w' Hwf H. destruct (traces w !! r) as [tr|] eqn:Htr.
  2:{ unfold PerfettoTrace.create_stream, bind, _allocate_track_uuid, bind, get_trace in H.
      rewrite Htr in H. discriminate. }
  destruct (trace_file_open tr) eqn:Hf.
  - rewrite (create_stream_open _ _ _ _ _ _ Htr Hf) in H. cbv zeta in H.
    injection H as <-.
    match goal with |- context [with_trace r ?x w] => set (tr2 := x) end.
    destruct (sound_with_trace w r tr tr2 Hwf Htr) as [Hwf1 He1];
      [reflexivity | reflexivity | |].
    { constructor; simpl; try reflexivity; auto; try lia. apply prefix_app_r. reflexivity. }
    assert (Htr2 : traces (with_trace r tr2 w) !! r = Some tr2)
      by (red_w; eapply lookup_insert_same, Htr).
    split.
    + apply (wf_add_stream (with_trace r tr2 w) r tr2);
        [ exact Hwf1 | exact Htr2 | reflexivity | intros _; exact Hf
        | simpl; lia | reflexivity ].
    + eapply evolves_trans; [exact He1|].
      eapply evolves_trans; [apply evolves_push_stream|].
      apply (evolves_with_trace _ r tr2);
        [ red_w; eapply lookup_insert_same, Htr |].
      constructor; simpl; try reflexivity; auto. apply prefix_app_r. reflexivity.
  - rewrite (create_stream_released _ _ _ _ _ _ Htr Hf) in H. injection H as <-.
    eapply sound_with_trace; eauto.
    constructor; simpl; try reflexivity; auto; lia.
Qed.

Lemma sound_trace_close_if_open (s : ref) : sound (PerfettoTrace.close_if_open s).
Proof.
  unfold PerfettoTrace.close_if_open, PerfettoStream.is_open.
  apply sound_bind.
  - apply sound_bind; [apply sound_get_stream | intros; apply sound_ret].
  - intros [|]; [apply sound_stream_close | apply sound_ret].
Qed.

(** The loop of [PerfettoTrace.close] over a part [l] of the streams of a
    trace: it returns, with every stream of [l] closed, and the trace keeps
    its list of streams and its file. *)
Lemma close_streams_loop (r : ref) (l : list ref) :
  forall (w : World) (tr : PerfettoTraceObj),
    wf w -> traces w !! r = Some tr ->
    (forall s, s ∈ l -> s ∈ trace_streams tr) ->
    exists w1 tr1,
      for_each l PerfettoTrace.close_if_open w = Ret tt w1 /\
      wf w1 /\ evolves w w1 /\
      traces w1 !! r = Some tr1 /\
      trace_streams tr1 = trace_streams tr /\
      trace_file_open tr1 = trace_file_open tr /\
      (forall s, s ∈ l ->
         exists os, streams w1 !! s = Some os /\ stream_is_open os = false).
Proof.
  induction l as [|s l IH]; intros w tr Hwf Htr Hsub.
  - exists w, tr. simpl. split; [reflexivity|]. split; [exact Hwf|].
    split; [apply evolves_refl|]. split; [exact Htr|].
    split; [reflexivity|]. split; [reflexivity|].
    intros s Hin. apply elem_of_nil in Hin. contradiction.
  - assert (Hin : s ∈ trace_streams tr) by (apply Hsub, list_elem_of_here).
    destruct (wf_listed_stream w Hwf _ _ _ Htr Hin) as (os & Hos & Er).
    assert (Hsub' : forall s', s' ∈ l -> s' ∈ trace_streams tr)
      by (intros s' Hs'; apply Hsub, list_elem_of_further, Hs').
    assert (Hstep : exists w2 tr2 os2,
      PerfettoTrace.close_if_open s w = Ret tt w2 /\ wf w2 /\ evolves w w2 /\
      traces w2 !! r = Some tr2 /\ trace_streams tr2 = trace_streams tr /\
      trace_file_open tr2 = trace_file_open tr /\
      streams w2 !! s = Some os2 /\ stream_is_open os2 = false).
    { unfold PerfettoTrace.close_if_open, PerfettoStream.is_open.
      unfold bind at 1. unfold bind at 1. unfold get_stream at 1. rewrite Hos.
      unfold ret at 1. destruct (stream_is_open os) eqn:Hop.
      - destruct (stream_close_open w s os Hwf Hos Hop)
          as (w1 & tr0 & Htr0 & Hf0 & Hc & Hwf' & He' & Hst & _ & _ & Htraces).
        rewrite Er in Htr0, Htraces. assert (tr0 = tr) by congruence. subst tr0.
        eexists _, _, _. split; [exact Hc|]. split; [exact Hwf'|].
        split; [exact He'|]. red_w. rewrite Htraces, Hst.
        split; [eapply lookup_insert_same, Htr|].
        split; [reflexivity|]. split; [reflexivity|].
        split; [eapply lookup_insert_same, Hos | reflexivity].
      - exists w, tr, os. unfold ret. split; [reflexivity|]. split; [exact Hwf|].
        split; [apply evolves_refl|]. auto 10. }
    destruct Hstep as (w2 & tr2 & os2 & Hc & Hwf2 & He2 & Htr2 & Es2 & Ef2 & Hos2 & Hcl2).
    destruct (IH w2 tr2 Hwf2 Htr2) as (w1 & tr1 & Hl & Hwf1 & He1 & Htr1 & Es1 & Ef1 & Hall).
    { intros s' Hs'. rewrite Es2. apply Hsub', Hs'. }
    exists w1, tr1. simpl. unfold bind. rewrite Hc, Hl.
    split; [reflexivity|]. split; [exact Hwf1|].
    split; [eapply evolves_trans; eassumption|]. split; [exact Htr1|].
    split; [congruence|]. split; [congruence|].
    intros s' Hs'. apply elem_of_cons in Hs' as [->|Hs']; [|apply Hall, Hs'].
    destruct (ev_streams_of _ _ He1 _ _ Hos2) as (os1 & Hos1 & Ev).
    exists os1. split; [exact Hos1|]. apply Ev, Hcl2.
Qed.

Lemma sound_trace_close (r : ref) : sound (PerfettoTrace.close r).
Proof.
  intros w w' Hwf H. destruct (traces w !! r) as [tr|] eqn:Htr.
  2:{ unfold PerfettoTrace.close, bind, get_trace in H. rewrite Htr in H. discriminate. }
  destruct (close_streams_loop r (trace_streams tr) w tr Hwf Htr)
    as (w1 & tr1 & Hl & Hwf1 & He1 & Htr1 & Es1 & Ef1 & Hall); [auto|].
  revert H. unfold PerfettoTrace.close. unfold bind at 1. unfold get_trace at 1.
  rewrite Htr. unfold bind at 1. rewrite Hl. unfold bind, get_trace. rewrite Htr1.
  destruct (trace_file_open tr1) eqn:Hf1.
  - unfold put_trace. intros [= <-]. split.
    + apply wf_close_file; auto. intros s os Hin Hos. rewrite Es1 in Hin.
      destruct (Hall s Hin) as (os' & Hos' & Hcl). congruence.
    + eapply evolves_trans; [exact He1|].
      apply (evolves_with_trace _ r tr1 _ Htr1).
      constructor; simpl; try reflexivity; auto.
  - intros [= <-]. auto.
Qed.

(** *** Every call *)

Lemma sound_discard {A} (m : M A) : sound m -> sound (discard m).
Proof. intros H. apply sound_bind; [exact H | intros; apply sound_ret]. Qed.

Theorem perform_sound (c : call) : sound (perform c).
Proof.
  destruct c; simpl.
  - apply sound_discard, sound_create_trace.
  - apply sound_discard, sound_create_stream.
  - apply sound_trace_close.
  - apply sound_discard, sound_begin_transaction.
  - apply sound_stream_close.
  - apply sound_close.
  - apply sound_append_attribute.
  - apply sound_append_attribute.
  - apply sound_append_attribute.
  - apply sound_append_attribute.
  - apply sound_append_attribute.
  - apply sound_append_attribute.
  - apply sound_append_attribute.
  - apply sound_add_link.
Qed.

(** Every store a program builds satisfies the invariant. *)
Theorem reachable_wf (w : World) : reachable w -> wf w.
Proof.
  induction 1 as [|w c w' _ IH H]; [apply wf_empty|].
  eapply perform_sound; eassumption.
Qed.

Lemma run_reachable (cs : list call) (w w' : World) :
  reachable w -> run cs w = Some w' -> reachable w'.
Proof.
  revert w. induction cs as [|c cs IH]; intros w Hr H; simpl in H.
  - injection H as <-. exact Hr.
  - destruct (world_after (perform c w)) as [w1|] eqn:E; [|discriminate].
    eapply IH; [|exact H]. eapply reachable_step; eassumption.
Qed.

Lemma run_evolves (cs : list call) (w w' : World) :
  wf w -> run cs w = Some w' -> wf w' /\ evolves w w'.
Proof.
  revert w. induction cs as [|c cs IH]; intros w Hwf H; simpl in H.
  - injection H as <-. auto using evolves_refl.
  - destruct (world_after (perform c w)) as [w1|] eqn:E; [|discriminate].
    destruct (perform_sound c w w1 Hwf E) as [Hwf1 He1].
    destruct (IH w1 Hwf1 H) as [Hwf' He']. eauto using evolves_trans.
Qed.

(** ** Identifiers held by the objects *)

Lemma same_objects_refl (w : World) : same_objects w w.
Proof. repeat split. Qed.

Lemma same_objects_trans (a b c : World) :
  same_objects a b -> same_objects b c -> same_objects a c.
Proof. intros (?&?&?) (?&?&?). repeat split; congruence. Qed.

Lemma keeps_ret {A} (a : A) : keeps (ret a).
Proof. intros w w' [= <-]. apply same_objects_refl. Qed.

Lemma keeps_raise {A} (e : exn) : keeps (raise e : M A).
Proof. intros w w' [= <-]. apply same_objects_refl. Qed.

Lemma keeps_bind {A B} (m : M A) (k : A -> M B) :
  keeps m -> (forall a, keeps (k a)) -> keeps (bind m k).
Proof.
  intros Hm Hk w w' H. unfold bind in H.
  destruct (m w) as [a w1|e w1|] eqn:E; [| |discriminate].
  - eapply same_objects_trans; [apply Hm; rewrite E; reflexivity|].
    eapply Hk, H.
  - injection H as <-. apply Hm. rewrite E. reflexivity.
Qed.

Lemma keeps_for_each {A} (l : list A) (body : A -> M unit) :
  (forall x, keeps (body x)) -> keeps (for_each l body).
Proof.
  intros Hb. induction l as [|x l IH]; simpl;
    [apply keeps_ret | apply keeps_bind; auto].
Qed.

Lemma keeps_get_trace (r : ref) : keeps (get_trace r).
Proof.
  intros w w' H. unfold get_trace in H. destruct (traces w !! r); [|discriminate].
  injection H as <-. apply same_objects_refl.
Qed.

Lemma keeps_get_stream (r : ref) : keeps (get_stream r).
Proof.
  intros w w' H. unfold get_stream in H. destruct (streams w !! r); [|discriminate].
  injection H as <-. apply same_objects_refl.
Qed.

Lemma keeps_get_txn (r : ref) : keeps (get_txn r).
Proof.
  intros w w' H. unfold get_txn in H. destruct (txns w !! r); [|discriminate].
  injection H as <-. apply same_objects_refl.
Qed.

Lemma keeps_put_trace (r : ref) (o : PerfettoTraceObj) : keeps (put_trace r o).
Proof.
  intros w w' [= <-]. unfold same_objects, with_trace. simpl.
  rewrite length_insert. auto.
Qed.

Lemma keeps_put_stream (r : ref) (o : PerfettoStreamObj) : keeps (put_stream r o).
Proof.
  intros w w' [= <-]. unfold same_objects, with_stream. simpl.
  rewrite length_insert. auto.
Qed.

Lemma keeps_put_txn (r : ref) (o : PerfettoTransactionObj) : keeps (put_txn r o).
Proof.
  intros w w' [= <-]. unfold same_objects, with_txn. simpl.
  rewrite length_insert. auto.
Qed.

(** Follows the shape of a computation made of reads, assignments, tests
    and loops. *)
Ltac solve_keeps :=
  repeat first
    [ apply keeps_ret | apply keeps_raise
    | apply keeps_get_trace | apply keeps_get_stream | apply keeps_get_txn
    | apply keeps_put_trace | apply keeps_put_stream | apply keeps_put_txn
    | apply keeps_for_each; intros
    | apply keeps_bind; [|intros]
    | match goal with
      | |- keeps (if ?b then _ else _) => destruct b
      | |- keeps (match ?x with _ => _ end) => destruct x
      end ].

Lemma keeps__write_packet (r : ref) (packet : TracePacket) : keeps (_write_packet r packet).
Proof. unfold _write_packet. solve_keeps. Qed.

Lemma keeps_close (t : ref) (end_time : Z) : keeps (PerfettoTransaction.close t end_time).
Proof.
  unfold PerfettoTransaction.close, _emit_slice_begin, _emit_slice_end.
  solve_keeps; apply keeps__write_packet.
Qed.

Lemma keeps_stream_close (s : ref) : keeps (PerfettoStream.close s).
Proof.
  unfold PerfettoStream.close, PerfettoStream.close_if_open,
    PerfettoTransaction.is_open.
  solve_keeps; apply keeps_close.
Qed.

Lemma keeps_trace_close (r : ref) : keeps (PerfettoTrace.close r).
Proof.
  unfold PerfettoTrace.close, PerfettoTrace.close_if_open, PerfettoStream.is_open.
  solve_keeps; apply keeps_stream_close.
Qed.

Lemma keeps_append_attribute (t : ref) (attr : DebugAnnotation) :
  keeps (PerfettoTransaction.append_attribute t attr).
Proof. unfold PerfettoTransaction.append_attribute. solve_keeps. Qed.

Lemma keeps_add_link (t : ref) (target : py_arg) (link_type : LinkType)
    (relation_name : option string) :
  keeps (PerfettoTransaction.add_link t target link_type relation_name).
Proof.
  unfold PerfettoTransaction.add_link, PerfettoTransaction.append_flow_id,
    _allocate_flow_id.
  solve_keeps.
Qed.

Lemma keeps_allocate (k : allocator) (r : ref) : keeps (allocate k r).
Proof.
  destruct k; simpl;
    unfold _allocate_track_uuid, _allocate_transaction_id, _allocate_flow_id;
    solve_keeps.
Qed.

Lemma back_txn (w w' : World) (t : ref) (o' : PerfettoTransactionObj) :
  evolves w w' -> same_objects w w' -> txns w' !! t = Some o' ->
  exists o, txns w !! t = Some o /\ txn_evolves o o'.
Proof.
  intros He (_ & _ & Hl) H.
  assert (Hlt : (t < length (txns w))%nat)
    by (rewrite <- Hl; eapply lookup_lt_Some, H).
  apply lookup_lt_is_Some in Hlt as [o Ho].
  destruct (ev_txns _ _ He _ _ Ho) as (o'' & Ho'' & Ev).
  exists o. split; [exact Ho | congruence].
Qed.

Lemma back_stream (w w' : World) (s : ref) (o' : PerfettoStreamObj) :
  evolves w w' -> same_objects w w' -> streams w' !! s = Some o' ->
  exists o, streams w !! s = Some o /\ stream_evolves o o'.
Proof.
  intros He (_ & Hl & _) H.
  assert (Hlt : (s < length (streams w))%nat)
    by (rewrite <- Hl; eapply lookup_lt_Some, H).
  apply lookup_lt_is_Some in Hlt as [o Ho].
  destruct (ev_streams_of _ _ He _ _ Ho) as (o'' & Ho'' & Ev).
  exists o. split; [exact Ho | congruence].
Qed.

Lemma back_trace (w w' : World) (r : ref) (o' : PerfettoTraceObj) :
  evolves w w' -> same_objects w w' -> traces w' !! r = Some o' ->
  exists o, traces w !! r = Some o /\ trace_evolves o o'.
Proof.
  intros He (Hl & _ & _) H.
  assert (Hlt : (r < length (traces w))%nat)
    by (rewrite <- Hl; eapply lookup_lt_Some, H).
  apply lookup_lt_is_Some in Hlt as [o Ho].
  destruct (ev_traces _ _ He _ _ Ho) as (o'' & Ho'' & Ev).
  exists o. split; [exact Ho | congruence].
Qed.

(** A transaction of the later store, seen in the earlier one together
    with its stream. *)
Lemma back_txn_stream (w w' : World) (t : ref) (o' : PerfettoTransactionObj)
    (s' : PerfettoStreamObj) :
  evolves w w' -> same_objects w w' ->
  txns w' !! t = Some o' -> streams w' !! txn_stream o' = Some s' ->
  exists o s,
    txns w !! t = Some o /\ streams w !! txn_stream o = Some s /\
    txn_id o = txn_id o' /\ txn_parent o = txn_parent o' /\
    txn_track_uuid o = txn_track_uuid o' /\
    stream_trace s = stream_trace s' /\
    stream_track_uuid s = stream_track_uuid s'.
Proof.
  intros He Hs Ht Hst.
  destruct (back_txn _ _ _ _ He Hs Ht) as (o & Ho & Eo).
  destruct Eo as [E1 E2 _ _ _ E3 E4 _ _ _]. rewrite E2 in Hst.
  destruct (back_stream _ _ _ _ He Hs Hst) as (s & Hso & [F1 F2 _ _ _]).
  exists o, s. auto 10.
Qed.

(** Calls that create no object keep the identifiers in order. *)
Lemma ids_ok_stable (w w' : World) :
  ids_ok w -> evolves w w' -> same_objects w w' -> ids_ok w'.
Proof.
  intros [I1 I2 I3 I4 I5 I6 I7] He Hs. constructor.
  - intros r tr' Hr. destruct (back_trace _ _ _ _ He Hs Hr) as (tr & Htr & []).
    destruct (I1 _ _ Htr) as (?&?&?). lia.
  - intros t o' s' tr' Ht Hst Htr.
    destruct (back_txn_stream _ _ _ _ _ He Hs Ht Hst)
      as (o & s & Ho & Hso & E1 & _ & _ & E2 & _).
    rewrite <- E2 in Htr.
    destruct (back_trace _ _ _ _ He Hs Htr) as (tr & Htr0 & []).
    pose proof (I2 _ _ _ _ Ho Hso Htr0). lia.
  - intros t1 t2 o1' o2' s1' s2' Ht1 Ht2 Hs1 Hs2 Etr Eid.
    destruct (back_txn_stream _ _ _ _ _ He Hs Ht1 Hs1)
      as (o1 & s1 & Ho1 & Hso1 & E1 & _ & _ & F1 & _).
    destruct (back_txn_stream _ _ _ _ _ He Hs Ht2 Hs2)
      as (o2 & s2 & Ho2 & Hso2 & E2 & _ & _ & F2 & _).
    apply (I3 t1 t2 o1 o2 s1 s2); congruence.
  - intros s o' Hso. destruct (back_stream _ _ _ _ He Hs Hso) as (o & Ho & []).
    pose proof (I4 _ _ Ho). lia.
  - intros s1 s2 o1' o2' H1 H2 Etr Etk.
    destruct (back_stream _ _ _ _ He Hs H1) as (o1 & Ho1 & []).
    destruct (back_stream _ _ _ _ He Hs H2) as (o2 & Ho2 & []).
    apply (I5 s1 s2 o1 o2); congruence.
  - intros t1 t2 o1' o2' s1' s2' Ht1 Ht2 Hp1 Hp2 Hs1 Hs2 Etr Etk.
    destruct (back_txn_stream _ _ _ _ _ He Hs Ht1 Hs1)
      as (o1 & s1 & Ho1 & Hso1 & _ & P1 & T1 & F1 & _).
    destruct (back_txn_stream _ _ _ _ _ He Hs Ht2 Hs2)
      as (o2 & s2 & Ho2 & Hso2 & _ & P2 & T2 & F2 & _).
    apply (I6 t1 t2 o1 o2 s1 s2); try congruence.
  - intros t o' s1' s2 os2' Ht Hp Hs1 Hs2 Etr.
    destruct (back_txn_stream _ _ _ _ _ He Hs Ht Hs1)
      as (o & s1 & Ho & Hso1 & _ & P1 & T1 & F1 & _).
    destruct (back_stream _ _ _ _ He Hs Hs2) as (os2 & Hos2 & [G1 G2 _ _ _]).
    pose proof (I7 t o s1 s2 os2 Ho) as Hne.
    rewrite <- T1, G2. apply Hne; congruence.
Qed.

Lemma same_objects_with_trace (w : World) (r : ref) (o : PerfettoTraceObj) :
  same_objects w (with_trace r o w).
Proof. unfold same_objects, with_trace. simpl. rewrite length_insert. auto. Qed.

Lemma same_objects_with_stream (w : World) (r : ref) (o : PerfettoStreamObj) :
  same_objects w (with_stream r o w).
Proof. unfold same_objects, with_stream. simpl. rewrite length_insert. auto. Qed.

Lemma ids_ok_with_trace (w : World) (r : ref) (o o' : PerfettoTraceObj) :
  ids_ok w -> traces w !! r = Some o -> trace_evolves o o' ->
  ids_ok (with_trace r o' w).
Proof.
  intros Hi Hr He. apply (ids_ok_stable w); [exact Hi | |].
  - apply (evolves_with_trace w r o o' Hr He).
  - apply same_objects_with_trace.
Qed.

Lemma ids_ok_with_stream (w : World) (s : ref) (o o' : PerfettoStreamObj) :
  ids_ok w -> streams w !! s = Some o -> stream_evolves o o' ->
  ids_ok (with_stream s o' w).
Proof.
  intros Hi Hs He. apply (ids_ok_stable w); [exact Hi | |].
  - apply (evolves_with_stream w s o o' Hs He).
  - apply same_objects_with_stream.
Qed.

Lemma ids_ok_empty : ids_ok empty_world.
Proof.
  constructor; simpl; intros; try rewrite lookup_nil in *; discriminate.
Qed.

(** A new trace: no stream refers to it yet. *)
Lemma ids_ok_push_trace (w : World) (o : PerfettoTraceObj) :
  wf w -> ids_ok w ->
  1 <= trace_next_track_uuid o -> 1 <= trace_next_transaction_id o ->
  1 <= trace_next_flow_id o ->
  ids_ok (push_trace o w).
Proof.
  intros Hwf [I1 I2 I3 I4 I5 I6 I7] H1 H2 H3.
  constructor; cbn [push_trace traces streams txns]; auto.
  - intros r tr H. apply lookup_push_cases in H as [[-> ->]|H]; eauto.
  - intros t x s tr Ht Hs Htr.
    destruct (wf_stream w Hwf _ _ Hs) as (tr0 & Htr0 & _).
    rewrite (lookup_push_old _ _ o _ Htr0) in Htr. injection Htr as <-.
    eapply I2; eassumption.
Qed.

(** A new stream, whose track is above every track of its trace. *)
Lemma ids_ok_push_stream (w : World) (so : PerfettoStreamObj) :
  wf w -> ids_ok w ->
  1 <= stream_track_uuid so ->
  (forall s os, streams w !! s = Some os -> stream_trace os = stream_trace so ->
     stream_track_uuid os < stream_track_uuid so) ->
  (forall t o s, txns w !! t = Some o -> streams w !! txn_stream o = Some s ->
     stream_trace s = stream_trace so -> txn_track_uuid o < stream_track_uuid so) ->
  ids_ok (push_stream so w).
Proof.
  intros Hwf [I1 I2 I3 I4 I5 I6 I7] H1 Hst Htx.
  assert (Hold : forall t x s, txns w !! t = Some x ->
            (streams w ++ [so]) !! txn_stream x = Some s ->
            streams w !! txn_stream x = Some s).
  { intros t x s Ht Hs.
    destruct (wf_txn w Hwf _ _ Ht) as (s0 & _ & Hs0 & _).
    rewrite (lookup_push_old _ _ so _ Hs0) in Hs. congruence. }
  constructor; cbn [push_stream traces streams txns]; auto.
  - intros t x s tr Ht Hs Htr. eapply I2; eauto.
  - intros t1 t2 o1 o2 s1 s2 Ht1 Ht2 Hs1 Hs2. eapply I3; eauto.
  - intros s x H. apply lookup_push_cases in H as [[-> ->]|H]; eauto.
  - intros s1 s2 o1 o2 Hs1 Hs2 Etr Etk.
    apply lookup_push_cases in Hs1 as [[-> ->]|Hs1];
      apply lookup_push_cases in Hs2 as [[-> ->]|Hs2]; auto.
    + pose proof (Hst _ _ Hs2 (eq_sym Etr)). lia.
    + pose proof (Hst _ _ Hs1 Etr). lia.
    + eapply I5; eassumption.
  - intros t1 t2 o1 o2 s1 s2 Ht1 Ht2 Hp1 Hp2 Hs1 Hs2. eapply I6; eauto.
  - intros t x s s' os' Ht Hp Hs Hs' Etr.
    apply Hold with (t := t) in Hs; [|exact Ht].
    apply lookup_push_cases in Hs' as [[-> ->]|Hs'].
    + pose proof (Htx _ _ _ Ht Hs (eq_sym Etr)). lia.
    + eapply I7; eassumption.
Qed.

(** A new transaction, whose identifier (and whose track, for a child) is
    above every one of its trace. *)
Lemma ids_ok_push_txn (w : World) (o : PerfettoTransactionObj)
    (so : PerfettoStreamObj) (tr : PerfettoTraceObj) :
  wf w -> ids_ok w ->
  streams w !! txn_stream o = Some so ->
  traces w !! stream_trace so = Some tr ->
  1 <= txn_id o < trace_next_transaction_id tr ->
  (forall t x s, txns w !! t = Some x -> streams w !! txn_stream x = Some s ->
     stream_trace s = stream_trace so -> txn_id x < txn_id o) ->
  (is_Some (txn_parent o) ->
     (forall t x s, txns w !! t = Some x -> streams w !! txn_stream x = Some s ->
        stream_trace s = stream_trace so -> txn_track_uuid x < txn_track_uuid o) /\
     (forall s os, streams w !! s = Some os -> stream_trace os = stream_trace so ->
        stream_track_uuid os < txn_track_uuid o)) ->
  ids_ok (push_txn o w).
Proof.
  intros Hwf [I1 I2 I3 I4 I5 I6 I7] Hso Htr Hid Hids Hchild.
  constructor; cbn [push_txn traces streams txns]; auto.
  - intros t x s tr0 Ht Hs Htr0. apply lookup_push_cases in Ht as [[-> ->]|Ht].
    + assert (s = so) by congruence. subst s.
      assert (tr0 = tr) by congruence. subst tr0. exact Hid.
    + eapply I2; eassumption.
  - intros t1 t2 o1 o2 s1 s2 Ht1 Ht2 Hs1 Hs2 Etr Eid.
    apply lookup_push_cases in Ht1 as [[-> ->]|Ht1];
      apply lookup_push_cases in Ht2 as [[-> ->]|Ht2]; auto.
    + assert (s1 = so) by congruence. subst s1.
      pose proof (Hids _ _ _ Ht2 Hs2 (eq_sym Etr)). lia.
    + assert (s2 = so) by congruence. subst s2.
      pose proof (Hids _ _ _ Ht1 Hs1 Etr). lia.
    + eapply I3; eassumption.
  - intros t1 t2 o1 o2 s1 s2 Ht1 Ht2 Hp1 Hp2 Hs1 Hs2 Etr Etk.
    apply lookup_push_cases in Ht1 as [[-> ->]|Ht1];
      apply lookup_push_cases in Ht2 as [[-> ->]|Ht2]; auto.
    + assert (s1 = so) by congruence. subst s1.
      destruct (Hchild Hp1) as [Htk _].
      pose proof (Htk _ _ _ Ht2 Hs2 (eq_sym Etr)). lia.
    + assert (s2 = so) by congruence. subst s2.
      destruct (Hchild Hp2) as [Htk _].
      pose proof (Htk _ _ _ Ht1 Hs1 Etr). lia.
    + eapply I6; eassumption.
  - intros t x s s' os' Ht Hp Hs Hs' Etr.
    apply lookup_push_cases in Ht as [[-> ->]|Ht].
    + assert (s = so) by congruence. subst s.
      destruct (Hchild Hp) as [_ Hst].
      pose proof (Hst _ _ Hs' Etr). lia.
    + eapply I7; eassumption.
Qed.

Lemma begin_transaction_dangling (w : World) (s : ref) (so : PerfettoStreamObj)
    (tr : PerfettoTraceObj) (name : string) (start_time : Z)
    (type_name : option string) (p : ref) :
  streams w !! s = Some so -> stream_is_open so = true ->
  traces w !! stream_trace so = Some tr -> txns w !! p = None ->
  PerfettoStream.begin_transaction s name start_time type_name
    (PyPerfettoTransaction p) w = Invalid.
Proof.
  intros Hs Ho Htr Hp.
  unfold PerfettoStream.begin_transaction. unfold bind at 1. unfold get_stream at 1.
  rewrite Hs, Ho. cbn [negb]. unfold bind at 1.
  rewrite (_allocate_transaction_id_eq _ _ _ Htr).
  unfold bind at 1. unfold ret at 1.
  unfold PerfettoTransaction.__init__.
  unfold bind at 1. unfold bind at 1. unfold get_stream at 1. red_w. rewrite Hs.
  unfold bind at 1.
  erewrite _allocate_track_uuid_eq by (red_w; eapply lookup_insert_same, Htr).
  unfold bind at 1. unfold _emit_child_track_descriptor.
  cbn [txn_parent]. unfold bind at 1. unfold bind at 1. unfold get_txn at 1.
  red_w. rewrite Hp. reflexivity.
Qed.

Lemma ids_ok_create_trace (w w' : World) (filename name time_units : string) :
  wf w -> ids_ok w ->
  world_after (create_trace filename name time_units w) = Some w' -> ids_ok w'.
Proof.
  intros Hwf Hi H. rewrite create_trace_eq in H. injection H as <-.
  apply (ids_ok_with_trace _ _ (fresh_trace filename name time_units)).
  - apply ids_ok_push_trace; auto; simpl; lia.
  - cbn [push_trace traces]. apply lookup_push_new.
  - constructor; simpl; try reflexivity; auto. apply prefix_nil.
Qed.

Lemma ids_ok_create_stream (w w' : World) (r : ref) (name : string)
    (scope type_name : option string) :
  wf w -> ids_ok w ->
  world_after (PerfettoTrace.create_stream r name scope type_name w) = Some w' ->
  ids_ok w'.
Proof.
  intros Hwf Hi H. destruct (traces w !! r) as [tr|] eqn:Htr.
  2:{ unfold PerfettoTrace.create_stream, bind, _allocate_track_uuid, bind, get_trace in H.
      rewrite Htr in H. discriminate. }
  destruct (trace_file_open tr) eqn:Hf.
  - rewrite (create_stream_open _ _ _ _ _ _ Htr Hf) in H. cbv zeta in H.
    injection H as <-.
    match goal with |- context [with_trace r ?x w] => set (tr2 := x) end.
    assert (Hev : trace_evolves tr tr2).
    { constructor; simpl; try reflexivity; auto; try lia. apply prefix_app_r. reflexivity. }
    destruct (sound_with_trace w r tr tr2 Hwf Htr) as [Hwf2 _];
      [reflexivity | reflexivity | exact Hev |].
    pose proof (ids_ok_with_trace w r tr tr2 Hi Htr Hev) as Hi2.
    destruct (ids_counters w Hi _ _ Htr) as (Hc & _ & _).
    apply (ids_ok_with_trace _ r tr2).
    + apply ids_ok_push_stream; auto.
      * intros s os Hs Etr. cbn [with_trace streams stream_trace] in Hs, Etr.
        destruct (wf_stream w Hwf _ _ Hs) as (tr0 & Htr0 & _ & _ & Hlt & _).
        rewrite Etr in Htr0. simpl. assert (tr0 = tr) by congruence. subst tr0. lia.
      * intros t o s Ht Hs Etr. cbn [with_trace streams txns stream_trace] in Ht, Hs, Etr.
        destruct (wf_txn w Hwf _ _ Ht) as (s0 & tr0 & Hs0 & Htr0 & _ & _ & _ & Hlt).
        assert (s0 = s) by congruence. subst s0.
        rewrite Etr in Htr0. simpl. assert (tr0 = tr) by congruence. subst tr0. lia.
    + cbn [push_stream with_trace traces]. eapply lookup_insert_same, Htr.
    + constructor; simpl; try reflexivity; auto. apply prefix_app_r. reflexivity.
  - rewrite (create_stream_released _ _ _ _ _ _ Htr Hf) in H. injection H as <-.
    apply (ids_ok_with_trace w r tr); auto.
    constructor; simpl; try reflexivity; auto; lia.
Qed.

Lemma ids_ok_begin_transaction (w w' : World) (s : ref) (name : string)
    (start_time : Z) (type_name : option string) (parent : py_arg) :
  wf w -> ids_ok w ->
  world_after (PerfettoStream.begin_transaction s name start_time type_name parent w)
    = Some w' ->
  ids_ok w'.
Proof.
  intros Hwf Hi H. destruct (streams w !! s) as [so|] eqn:Hs.
  2:{ unfold PerfettoStream.begin_transaction, bind, get_stream in H.
      rewrite Hs in H. discriminate. }
  destruct (stream_is_open so) eqn:Ho.
  2:{ rewrite (begin_transaction_closed _ _ _ _ _ _ _ Hs Ho) in H.
      injection H as <-. exact Hi. }
  destruct (wf_stream w Hwf _ _ Hs) as (tr & Htr & _ & Hfile & Hlt & _).
  specialize (Hfile Ho).
  destruct (ids_counters w Hi _ _ Htr) as (_ & Hc & _).
  assert (Hids : forall t x s0, txns w !! t = Some x ->
            streams w !! txn_stream x = Some s0 ->
            stream_trace s0 = stream_trace so ->
            txn_id x < trace_next_transaction_id tr).
  { intros t x s0 Ht Hs0 Etr. rewrite <- Etr in Htr.
    apply (ids_txn w Hi _ _ _ _ Ht Hs0 Htr). }
  assert (Hlisted : stream_evolves so
            (set_stream_transactions (stream_transactions so ++ [length (txns w)]) so)).
  { constructor; simpl; try reflexivity; [apply prefix_app_r; reflexivity|].
    congruence. }
  assert (Hroot : parent = PyNone \/ parent = PyOther false -> ids_ok w').
  { intros Hp. rewrite (begin_transaction_root _ _ _ _ _ _ _ _ Hs Ho Htr Hp) in H.
    injection H as <-.
    set (tr1 := set_trace_next_transaction_id _ tr).
    assert (Hev : trace_evolves tr tr1)
      by (constructor; simpl; try reflexivity; auto; lia).
    destruct (sound_with_trace w (stream_trace so) tr tr1 Hwf Htr) as [Hwf1 _];
      [reflexivity | reflexivity | exact Hev |].
    apply (ids_ok_with_stream _ s so); [| exact Hs | exact Hlisted].
    apply (ids_ok_push_txn _ _ so tr1); auto.
    - apply (ids_ok_with_trace w _ tr); auto.
    - cbn [with_trace traces]. eapply lookup_insert_same, Htr.
    - simpl. lia.
    - simpl. intros [q Hq]. discriminate. }
  destruct parent as [|p|[|]]; auto.
  - destruct (txns w !! p) as [po|] eqn:Hp.
    + rewrite (begin_transaction_child _ _ _ _ _ _ _ _ _ Hs Ho Htr Hfile Hp) in H.
      injection H as <-.
      match goal with |- context [with_trace _ ?x w] => set (tr1 := x) end.
      assert (Hev : trace_evolves tr tr1).
      { constructor; simpl; try reflexivity; auto; try lia.
        apply prefix_app_r. reflexivity. }
      destruct (sound_with_trace w (stream_trace so) tr tr1 Hwf Htr) as [Hwf1 _];
        [reflexivity | reflexivity | exact Hev |].
      apply (ids_ok_with_stream _ s so); [| exact Hs | exact Hlisted].
      apply (ids_ok_push_txn _ _ so tr1); auto.
      * apply (ids_ok_with_trace w _ tr); auto.
      * cbn [with_trace traces]. eapply lookup_insert_same, Htr.
      * simpl. lia.
      * intros _. simpl. split.
        -- intros t x s0 Ht Hs0 Etr.
           destruct (wf_txn w Hwf _ _ Ht) as (s1 & tr0 & Hs1 & Htr0 & _ & _ & _ & Hb).
           assert (s1 = s0) by congruence. subst s1.
           rewrite Etr in Htr0. assert (tr0 = tr) by congruence. subst tr0. exact Hb.
        -- intros s0 os Hs0 Etr.
           destruct (wf_stream w Hwf _ _ Hs0) as (tr0 & Htr0 & _ & _ & Hb & _).
           rewrite Etr in Htr0. assert (tr0 = tr) by congruence. subst tr0. exact Hb.
    + rewrite (begin_transaction_dangling _ _ _ _ _ _ _ _ Hs Ho Htr Hp) in H.
      discriminate.
  - rewrite (begin_transaction_foreign _ _ _ _ _ _ _ Hs Ho Htr) in H.
    injection H as <-.
    apply (ids_ok_with_trace w _ tr); auto.
    constructor; simpl; try reflexivity; auto; lia.
Qed.

Theorem perform_ids_ok (c : call) (w w' : World) :
  wf w -> ids_ok w -> world_after (perform c w) = Some w' -> ids_ok w'.
Proof.
  intros Hwf Hi H.
  assert (Hstable : keeps (perform c) -> ids_ok w').
  { intros Hk. destruct (perform_sound c w w' Hwf H) as [_ He].
    apply (ids_ok_stable w w' Hi He). apply Hk, H. }
  destruct c; simpl in *.
  - unfold discard, bind in H.
    destruct (create_trace filename name time_units w) as [a w1|e w1|] eqn:E;
      try discriminate; injection H as <-;
      apply (ids_ok_create_trace w _ filename name time_units Hwf Hi);
      rewrite E; reflexivity.
  - unfold discard, bind in H.
    destruct (PerfettoTrace.create_stream trace name scope type_name w)
      as [a w1|e w1|] eqn:E;
      try discriminate; injection H as <-;
      apply (ids_ok_create_stream w _ trace name scope type_name Hwf Hi);
      rewrite E; reflexivity.
  - apply Hstable, keeps_trace_close.
  - unfold discard, bind in H.
    destruct (PerfettoStream.begin_transaction stream name start_time type_name
                parent w) as [a w1|e w1|] eqn:E;
      try discriminate; injection H as <-;
      apply (ids_ok_begin_transaction w _ stream name start_time type_name parent
               Hwf Hi);
      rewrite E; reflexivity.
  - apply Hstable, keeps_stream_close.
  - apply Hstable, keeps_close.
  - apply Hstable, keeps_append_attribute.
  - apply Hstable, keeps_append_attribute.
  - apply Hstable, keeps_append_attribute.
  - apply Hstable, keeps_append_attribute.
  - apply Hstable, keeps_append_attribute.
  - apply Hstable, keeps_append_attribute.
  - apply Hstable, keeps_append_attribute.
  - apply Hstable, keeps_add_link.
Qed.

(** In every store a program builds, the identifiers held by the objects of
    one trace are at least 1, below their counter, and pairwise distinct. *)
Theorem reachable_ids_ok (w : World) : reachable w -> ids_ok w.
Proof.
  induction 1 as [|w c w' Hr IH H]; [apply ids_ok_empty|].
  eapply perform_ids_ok; [apply reachable_wf, Hr | exact IH | exact H].
Qed.

(** ** The example session *)

Lemma session_run : run session_calls empty_world = Some session.
Proof. vm_compute. reflexivity. Qed.

Lemma session_reachable : reachable session.
Proof. eapply run_reachable; [apply reachable_empty | apply session_run]. Qed.

Lemma session_wf : wf session.
Proof. apply reachable_wf, session_reachable. Qed.

Example session_written :
  (trace_written <$> traces session !! 0%nat) =
    Some
      [ clock_snapshot_packet;
        stream_descriptor_packet 1 "bus";
        stream_descriptor_packet 2 "mon";
        child_descriptor_packet 3 "beat" 1;
        mkTracePacket 120
          (track_event (mkTrackEvent TYPE_SLICE_BEGIN 2 (Some "IRQ") [] [] []));
        mkTracePacket 130
          (track_event (mkTrackEvent TYPE_SLICE_END 2 None [] [] [])) ].
Proof. reflexivity. Qed.

(** The scenario of the specification: one stream, one transaction with
    one attribute, closed at 200, then the stream and the trace closed. *)
Example scenario_read :
  (fun w => (trace_file_open <$> traces w !! 0%nat,
             trace_written <$> traces w !! 0%nat))
    <$> run
          [ CreateTrace "t.trace" "S" "1ns";
            CreateStream 0 "bus" None None;
            BeginTransaction 0 "RD" 100 None PyNone;
            AddUint 0 "addr" 16 HEX;
            TxnClose 0 200;
            StreamClose 0;
            TraceClose 0 ] empty_world
  = Some
      (Some false,
       Some
         [ clock_snapshot_packet;
           stream_descriptor_packet 1 "bus";
           mkTracePacket 100
             (track_event
                (mkTrackEvent TYPE_SLICE_BEGIN 1 (Some "RD") []
                   [mkDebugAnnotation "addr[hex]" (uint_value 16)] []));
           mkTracePacket 200
             (track_event (mkTrackEvent TYPE_SLICE_END 1 None [] [] [])) ]).
Proof. reflexivity. Qed.

(** After [Trace.close] the file is released: a new stream cannot be
    announced, but its track was drawn. *)
Example create_stream_after_close :
  match run [CreateTrace "t.trace" "S" "1ns"; TraceClose 0] empty_world with
  | Some w =>
      match PerfettoTrace.create_stream 0 "late" None None w with
      | Raise AttributeError w' =>
          (trace_next_track_uuid <$> traces w' !! 0%nat) = Some 2
          /\ streams w' = []
      | _ => False
      end
  | None => False
  end.
Proof. simpl. split; reflexivity. Qed.

(** ** Closing a transaction (C1, C10) *)



Lemma is_closed_eq (w : World) (self : ref) (t : PerfettoTransactionObj) :
  txns w !! self = Some t ->
  PerfettoTransaction.is_closed self w
    = Ret (negb (txn_is_open t) && (0 <? txn_end_time t)) w.
Proof.
  intros Ht. unfold PerfettoTransaction.is_closed, bind, get_txn, ret.
  rewrite Ht. reflexivity.
Qed.

Lemma is_open_eq (w : World) (self : ref) (t : PerfettoTransactionObj) :
  txns w !! self = Some t ->
  PerfettoTransaction.is_open self w = Ret (txn_is_open t) w.
Proof.
  intros Ht. unfold PerfettoTransaction.is_open, bind, get_txn, ret.
  rewrite Ht. reflexivity.
Qed.



(** ** Links (C8) *)

Lemma append_flow_id_eq (w : World) (t : ref) (o : PerfettoTransactionObj) (f : Z) :
  txns w !! t = Some o ->
  PerfettoTransaction.append_flow_id t f w
    = Ret tt (with_txn t (set_txn_flow_ids (txn_flow_ids o ++ [f]) o) w).
Proof.
  intros Ht. unfold PerfettoTransaction.append_flow_id, bind, get_txn, put_txn.
  rewrite Ht. reflexivity.
Qed.



(** ** Bit-vector attributes (C6) *)

Lemma add_bits_eq (w : World) (self : ref) (t : PerfettoTransactionObj)
    (name : string) (bits : bytes) (num_bits : Z) (radix : Radix) :
  txns w !! self = Some t ->
  PerfettoTransaction.add_bits self name bits num_bits radix w =
    Ret tt
      (with_txn self
         (set_txn_attributes
            (txn_attributes t ++
               [mkDebugAnnotation (PerfettoTransaction._format_name name radix)
                  (string_value
                     (PerfettoTransaction._bits_to_string bits num_bits radix))])
            t) w).
Proof.
  intros Ht.
  unfold PerfettoTransaction.add_bits, PerfettoTransaction.append_attribute,
    bind, get_txn, put_txn.
  rewrite Ht. reflexivity.
Qed.

(** C6, as stated, fails: with nine bits asked of one byte, [add_bits]
    returns normally and stores the eight digits it has. *)
Lemma add_bits_excess_counterexample :
  8 * Z.of_nat (length [x01]) < 9 /\
  exists w',
    PerfettoTransaction.add_bits 0 "data" [x01] 9 BIN session = Ret tt w' /\
    (last <$> (txn_attributes <$> txns w' !! 0%nat)) =
      Some (Some (mkDebugAnnotation "data[bin]" (string_value "0b00000001"))).
Proof.
  split; [simpl; lia|]. eexists. split; reflexivity.
Qed.

(** C6 (amended): [add_bits] checks nothing.  On any transaction and for
    any [num_bits] it returns normally, appending the one attribute that
    [_format_name] and [_bits_to_string] give; a [num_bits] above
    [8 * len(bits)] yields the same string as [8 * len(bits)] itself (for
    BIN, all the digits; for the other radices [num_bits] plays no part). *)
Theorem add_bits_never_fails (w : World) (self : ref) (t : PerfettoTransactionObj)
    (name : string) (bits : bytes) (num_bits : Z) (radix : Radix) :
  txns w !! self = Some t ->
  PerfettoTransaction.add_bits self name bits num_bits radix w =
    Ret tt
      (with_txn self
         (set_txn_attributes
            (txn_attributes t ++
               [mkDebugAnnotation (PerfettoTransaction._format_name name radix)
                  (string_value
                     (PerfettoTransaction._bits_to_string bits num_bits radix))])
            t) w) /\
  (8 * Z.of_nat (length bits) < num_bits ->
     PerfettoTransaction._bits_to_string bits num_bits radix
       = PerfettoTransaction._bits_to_string bits (8 * Z.of_nat (length bits)) radix).
Proof.
  intros Ht. split; [apply add_bits_eq, Ht|].
  intros Hn. destruct radix; try reflexivity.
  rewrite !_bits_to_string_BIN_all by lia. reflexivity.
Qed.

Lemma add_bits_never_fails_witness :
  (exists t, txns session !! 0%nat = Some t) /\
  8 * Z.of_nat (length [x01]) < 9 /\
  (exists w', PerfettoTransaction.add_bits 0 "data" [x01] 9 BIN session = Ret tt w') /\
  PerfettoTransaction._bits_to_string [x01] 9 BIN
    = PerfettoTransaction._bits_to_string [x01] (8 * Z.of_nat (length [x01])) BIN.
Proof.
  split; [eexists; reflexivity|]. split; [simpl; lia|].
  destruct (add_bits_never_fails session 0 _ "data" [x01] 9 BIN eq_refl) as [Hc Hs].
  split; [eexists; exact Hc|]. apply Hs. simpl. lia.
Defined.

(** ** Opening a transaction (C3, C7) *)




(** C3: on an open stream, [begin_transaction] without a parent gives the
    new transaction the track of the stream; the track counter is left
    alone and nothing is written.  With a parent it draws a new track (the
    next of the trace, which no stream or transaction of that trace has),
    gives it to the new transaction, and writes at once one track descriptor
    for it whose parent is the track of the parent transaction; and the track
    of a transaction is the track of its own stream exactly when that
    transaction has no parent. *)
Theorem begin_transaction_track (w : World) (s : ref) (so : PerfettoStreamObj)
    (name : string) (start_time : Z) (type_name : option string) :
  wf w -> streams w !! s = Some so -> stream_is_open so = true ->
  exists tr,
    traces w !! stream_trace so = Some tr /\
    let listed :=
      set_stream_transactions (stream_transactions so ++ [length (txns w)]) so in
    let counted :=
      set_trace_next_transaction_id (trace_next_transaction_id tr + 1) tr in
    PerfettoStream.begin_transaction s name start_time type_name PyNone w =
      Ret (length (txns w))
        (with_stream s listed
           (push_txn
              (fresh_txn (trace_next_transaction_id tr) s name start_time type_name
                 None (stream_track_uuid so))
              (with_trace (stream_trace so) counted w))) /\
    (forall (p : ref) (po : PerfettoTransactionObj),
       txns w !! p = Some po ->
       PerfettoStream.begin_transaction s name start_time type_name
         (PyPerfettoTransaction p) w =
         Ret (length (txns w))
           (with_stream s listed
              (push_txn
                 (fresh_txn (trace_next_transaction_id tr) s name start_time
                    type_name (Some p) (trace_next_track_uuid tr))
                 (with_trace (stream_trace so)
                    (set_trace_written
                       (trace_written tr ++
                          [mkTracePacket 0
                             (track_descriptor
                                (mkTrackDescriptor (trace_next_track_uuid tr) name
                                   (Some (txn_track_uuid po))))])
                       (set_trace_next_track_uuid (trace_next_track_uuid tr + 1)
                          counted))
                    w)))) /\
    (forall s' so', streams w !! s' = Some so' ->
       stream_trace so' = stream_trace so ->
       stream_track_uuid so' <> trace_next_track_uuid tr) /\
    (forall t' o' so', txns w !! t' = Some o' ->
       streams w !! txn_stream o' = Some so' ->
       stream_trace so' = stream_trace so ->
       txn_track_uuid o' <> trace_next_track_uuid tr) /\
    (forall p po ps, txns w !! p = Some po ->
       streams w !! txn_stream po = Some ps ->
       (txn_track_uuid po = stream_track_uuid ps <-> txn_parent po = None)).
Proof.
  intros Hwf Hs Ho.
  destruct (wf_stream w Hwf _ _ Hs) as (tr & Htr & _ & Hf & _).
  specialize (Hf Ho). exists tr. split; [exact Htr|]. cbv zeta.
  split; [apply (begin_transaction_root w s so tr); auto|].
  split; [|split; [|split]].
  - intros p po Hp. apply (begin_transaction_child w s so tr _ _ _ p po); auto.
  - intros s' so' Hs' Etr.
    destruct (wf_stream w Hwf _ _ Hs') as (tr' & Htr' & _ & _ & Hlt & _).
    rewrite Etr in Htr'. assert (tr' = tr) by congruence. subst tr'. lia.
  - intros t' o' so' Ht' Hs' Etr.
    destruct (wf_txn w Hwf _ _ Ht') as (s0 & tr' & Hs0 & Htr' & _ & _ & _ & Hlt).
    assert (s0 = so') by congruence. subst s0.
    rewrite Etr in Htr'. assert (tr' = tr) by congruence. subst tr'. lia.
  - intros p po ps Hp Hps.
    destruct (wf_txn w Hwf _ _ Hp) as (s0 & tr' & Hs0 & _ & _ & _ & Hok & _).
    assert (s0 = ps) by congruence. subst s0.
    unfold track_ok in Hok. destruct (txn_parent po) as [q|].
    + split; [lia | discriminate].
    + split; auto.
Qed.

Lemma begin_transaction_track_witness :
  wf session /\
  (exists so, streams session !! 0%nat = Some so /\ stream_is_open so = true) /\
  (exists w',
     PerfettoStream.begin_transaction 0 "WR" 140 None PyNone session = Ret 4%nat w' /\
     (txn_track_uuid <$> txns w' !! 4%nat) = Some 1 /\
     (trace_next_track_uuid <$> traces w' !! 0%nat) = Some 4 /\
     (trace_written <$> traces w' !! 0%nat)
       = (trace_written <$> traces session !! 0%nat)) /\
  (exists w',
     PerfettoStream.begin_transaction 0 "resp" 140 None (PyPerfettoTransaction 1)
       session = Ret 4%nat w' /\
     (txn_track_uuid <$> txns w' !! 4%nat) = Some 4 /\
     (trace_next_track_uuid <$> traces w' !! 0%nat) = Some 5 /\
     (trace_written <$> traces w' !! 0%nat)
       = (fun l => l ++ [child_descriptor_packet 4 "resp" 3])
           <$> (trace_written <$> traces session !! 0%nat)).
Proof.
  split; [apply session_wf|].
  split; [eexists; split; reflexivity|].
  destruct (begin_transaction_track session 0 _ "WR" 140 None session_wf eq_refl eq_refl)
    as (tr & Htr & Hroot & _).
  destruct (begin_transaction_track session 0 _ "resp" 140 None session_wf eq_refl
              eq_refl) as (tr' & Htr' & _ & Hchild & _).
  injection Htr as <-. injection Htr' as <-.
  split.
  - eexists. split; [exact Hroot|]. repeat split.
  - eexists. split; [apply (Hchild 1%nat); reflexivity|]. repeat split.
Defined.

(** ** Closing a stream (C4) *)

Lemma pending_packets_cons (w : World) (t : ref) (l : list ref) :
  pending_packets w (t :: l) =
    (if is_open_in w t then zero_duration_slice w t else []) ++ pending_packets w l.
Proof.
  unfold pending_packets, is_open_in, zero_duration_slice. simpl.
  destruct (txns w !! t) as [o|]; [destruct (txn_is_open o)|]; reflexivity.
Qed.

Lemma open_txns_cons (w : World) (t : ref) (l : list ref) :
  open_txns w (t :: l) =
    if is_open_in w t then t :: open_txns w l else open_txns w l.
Proof.
  unfold open_txns. rewrite filter_cons.
  case_decide as H; destruct (is_open_in w t); congruence.
Qed.

Lemma pending_packets_open_txns (w : World) (l : list ref) :
  pending_packets w l = flat_map (zero_duration_slice w) (open_txns w l).
Proof.
  induction l as [|t l IH]; [reflexivity|].
  rewrite pending_packets_cons, open_txns_cons, IH.
  destruct (is_open_in w t); reflexivity.
Qed.

Lemma length_zero_duration_slice (w : World) (t : ref) :
  is_open_in w t = true -> length (zero_duration_slice w t) = 2%nat.
Proof.
  unfold is_open_in, zero_duration_slice.
  destruct (txns w !! t); [reflexivity | discriminate].
Qed.

Lemma length_pending_packets (w : World) (l : list ref) :
  length (pending_packets w l) = (2 * length (open_txns w l))%nat.
Proof.
  induction l as [|t l IH]; [reflexivity|].
  rewrite pending_packets_cons, open_txns_cons, length_app, IH.
  destruct (is_open_in w t) eqn:E.
  - rewrite (length_zero_duration_slice w t E). simpl. lia.
  - reflexivity.
Qed.

Lemma open_txns_owned (w : World) (s : ref) (so : PerfettoStreamObj) (t : ref) :
  wf w -> streams w !! s = Some so ->
  (t ∈ open_txns w (stream_transactions so) <->
   exists o, txns w !! t = Some o /\ txn_stream o = s /\ txn_is_open o = true).
Proof.
  intros Hwf Hs. unfold open_txns. rewrite list_elem_of_filter. unfold is_open_in.
  split.
  - intros [Hopen Hin].
    destruct (wf_listed_txn w Hwf _ _ _ Hs Hin) as (o & Ho & Es).
    rewrite Ho in Hopen. eauto.
  - intros (o & Ho & Es & Hopen). rewrite Ho. split; [exact Hopen|].
    destruct (wf_txn w Hwf _ _ Ho) as (s0 & tr & Hs0 & _ & Hin & _).
    rewrite Es in Hs0. assert (s0 = so) by congruence. subst s0. exact Hin.
Qed.



(** ** Identifier allocation (C2) *)

Lemma allocate_eq (k : allocator) (w : World) (r : ref) (tr : PerfettoTraceObj) :
  traces w !! r = Some tr ->
  allocate k r w = Ret (counter k tr) (with_trace r (bump k tr) w).
Proof.
  intros Htr. destruct k; simpl.
  - apply _allocate_track_uuid_eq, Htr.
  - apply _allocate_transaction_id_eq, Htr.
  - apply _allocate_flow_id_eq, Htr.
Qed.

Lemma allocate_invalid (k : allocator) (w : World) (r : ref) :
  traces w !! r = None -> allocate k r w = Invalid.
Proof.
  intros Htr.
  destruct k; simpl;
    unfold _allocate_track_uuid, _allocate_transaction_id, _allocate_flow_id,
      bind, get_trace; rewrite Htr; reflexivity.
Qed.

Lemma sound_allocate (k : allocator) (r : ref) : sound (allocate k r).
Proof.
  destruct k; simpl.
  - apply sound__allocate_track_uuid.
  - apply sound__allocate_transaction_id.
  - apply sound__allocate_flow_id.
Qed.

Lemma counter_bump (k : allocator) (tr : PerfettoTraceObj) :
  counter k (bump k tr) = counter k tr + 1.
Proof. destruct k; reflexivity. Qed.

Lemma counter_bump_other (k k' : allocator) (tr : PerfettoTraceObj) :
  k' <> k -> counter k' (bump k tr) = counter k' tr.
Proof. destruct k, k'; intros H; try reflexivity; contradiction. Qed.

Lemma counter_evolves (k : allocator) (o o' : PerfettoTraceObj) :
  trace_evolves o o' -> counter k o <= counter k o'.
Proof. intros []. destruct k; assumption. Qed.

Lemma StronglySorted_lt_NoDup (vs : list Z) : StronglySorted Z.lt vs -> NoDup vs.
Proof.
  induction 1 as [|v vs Hs IH Hall]; constructor; [|exact IH].
  intros Hin. rewrite Forall_forall in Hall. specialize (Hall v Hin). lia.
Qed.

(** Whatever else is called in between, what one allocator of one trace
    returns goes strictly up, within the bounds of its counter. *)
Lemma observe_increasing (k : allocator) (r : ref) (acts : list action) :
  forall (w : World) (tr : PerfettoTraceObj) (vs : list Z) (w' : World),
    wf w -> traces w !! r = Some tr -> observe k r acts w = Some (vs, w') ->
    exists tr',
      traces w' !! r = Some tr' /\
      counter k tr <= counter k tr' /\
      StronglySorted Z.lt vs /\
      Forall (fun v => counter k tr <= v < counter k tr') vs.
Proof.
  induction acts as [|[c|k' r'] acts IH]; intros w tr vs w' Hwf Htr H; simpl in H.
  - injection H as <- <-. exists tr. split; [exact Htr|]. split; [lia|].
    split; constructor.
  - destruct (world_after (perform c w)) as [w1|] eqn:E; [|discriminate].
    destruct (perform_sound c w w1 Hwf E) as [Hwf1 He1].
    destruct (ev_traces _ _ He1 _ _ Htr) as (tr1 & Htr1 & Ev).
    pose proof (counter_evolves k _ _ Ev) as Hle.
    destruct (IH w1 tr1 vs w' Hwf1 Htr1 H) as (tr' & Htr' & Hle' & Hs & Hall).
    exists tr'. split; [exact Htr'|]. split; [lia|]. split; [exact Hs|].
    eapply Forall_impl; [exact Hall|]. simpl. intros v Hv. lia.
  - destruct (traces w !! r') as [trr|] eqn:Hr'.
    2:{ rewrite (allocate_invalid _ _ _ Hr') in H. discriminate. }
    rewrite (allocate_eq k' w r' trr Hr') in H.
    destruct (observe k r acts (with_trace r' (bump k' trr) w))
      as [[vs1 w1]|] eqn:E; [|discriminate].
    injection H as <- <-.
    destruct (sound_allocate k' r' w (with_trace r' (bump k' trr) w) Hwf)
      as [Hwf1 He1]; [rewrite (allocate_eq k' w r' trr Hr'); reflexivity|].
    destruct (ev_traces _ _ He1 _ _ Htr) as (tr1 & Htr1 & Ev).
    pose proof (counter_evolves k _ _ Ev) as Hle.
    destruct (IH _ tr1 vs1 w1 Hwf1 Htr1 E) as (tr' & Htr' & Hle' & Hs & Hall).
    exists tr'. split; [exact Htr'|]. split; [lia|].
    destruct (decide (k' = k /\ r' = r)) as [[-> ->]|Hne].
    + assert (trr = tr) by congruence. subst trr.
      assert (tr1 = bump k tr).
      { cbn [with_trace traces] in Htr1.
        rewrite (lookup_insert_same _ _ _ _ Htr) in Htr1. congruence. }
      subst tr1. rewrite counter_bump in *.
      split.
      * constructor; [exact Hs|].
        eapply Forall_impl; [exact Hall|]. simpl. intros v Hv. lia.
      * constructor; [lia|].
        eapply Forall_impl; [exact Hall|]. simpl. intros v Hv. lia.
    + split; [exact Hs|].
      eapply Forall_impl; [exact Hall|]. simpl. intros v Hv. lia.
Qed.

Lemma observe_replicate (k : allocator) (r : ref) (n : nat) :
  forall (w : World) (tr : PerfettoTraceObj),
    traces w !! r = Some tr ->
    exists w',
      observe k r (replicate n (Allocate k r)) w =
        Some (map (fun i => counter k tr + Z.of_nat i) (seq 0 n), w').
Proof.
  induction n as [|n IH]; intros w tr Htr.
  - eexists. reflexivity.
  - cbn [replicate observe]. rewrite (allocate_eq k w r tr Htr).
    destruct (IH (with_trace r (bump k tr) w) (bump k tr)) as (w' & Hw').
    { cbn [with_trace traces]. eapply lookup_insert_same, Htr. }
    exists w'. rewrite Hw'. rewrite decide_True by auto.
    change (seq 0 (S n)) with (0%nat :: seq 1 n). cbn [map].
    rewrite <- seq_shift, map_map.
    replace (counter k tr + Z.of_nat 0) with (counter k tr) by lia.
    f_equal. f_equal. f_equal. apply map_ext. intros i.
    rewrite counter_bump. lia.
Qed.

(** C2: each of the three allocators of a trace returns 1 on its first call
    after the trace is created; a call returns the counter and adds one to
    it, leaving the other two counters alone, so that [n] calls in a row
    from a counter at [c] return [c, c+1, ..., c+n-1]; and in every program
    of interface calls and allocator calls, what one allocator of one trace
    returns is strictly increasing, hence without repetition, and lies
    between the counter before and the counter after. *)
Theorem allocators_strictly_increasing (k : allocator) :
  (forall (w : World) (filename name time_units : string),
     exists w0 w1,
       create_trace filename name time_units w = Ret (length (traces w)) w0 /\
       allocate k (length (traces w)) w0 = Ret 1 w1) /\
  (forall (w : World) (r : ref) (tr : PerfettoTraceObj),
     traces w !! r = Some tr ->
     allocate k r w = Ret (counter k tr) (with_trace r (bump k tr) w) /\
     counter k (bump k tr) = counter k tr + 1 /\
     (forall k', k' <> k -> counter k' (bump k tr) = counter k' tr)) /\
  (forall (n : nat) (w : World) (r : ref) (tr : PerfettoTraceObj),
     traces w !! r = Some tr ->
     exists w',
       observe k r (replicate n (Allocate k r)) w =
         Some (map (fun i => counter k tr + Z.of_nat i) (seq 0 n), w')) /\
  (forall (acts : list action) (w w' : World) (r : ref) (tr : PerfettoTraceObj)
          (vs : list Z),
     wf w -> traces w !! r = Some tr -> observe k r acts w = Some (vs, w') ->
     StronglySorted Z.lt vs /\ NoDup vs /\
     exists tr',
       traces w' !! r = Some tr' /\
       Forall (fun v => counter k tr <= v < counter k tr') vs).
Proof.
  split; [|split; [|split]].
  - intros w filename name time_units. eexists _, _.
    split; [apply create_trace_eq|].
    erewrite allocate_eq
      by (cbn [with_trace traces push_trace];
          eapply lookup_insert_same, lookup_push_new).
    destruct k; reflexivity.
  - intros w r tr Htr. split; [apply allocate_eq, Htr|].
    split; [apply counter_bump|]. intros k'. apply counter_bump_other.
  - intros n w r tr. apply observe_replicate.
  - intros acts w w' r tr vs Hwf Htr H.
    destruct (observe_increasing k r acts w tr vs w' Hwf Htr H)
      as (tr' & Htr' & _ & Hs & Hall).
    split; [exact Hs|]. split; [apply StronglySorted_lt_NoDup, Hs|]. eauto.
Qed.

Lemma allocators_strictly_increasing_witness :
  wf session /\
  (exists tr, traces session !! 0%nat = Some tr) /\
  (fst <$>
     observe TrackUuid 0
       [ Allocate TrackUuid 0; Call (CreateStream 0 "dma" None None);
         Allocate TrackUuid 0; Allocate FlowId 0;
         Call (BeginTransaction 0 "burst" 150 None (PyPerfettoTransaction 0));
         Allocate TrackUuid 1; Allocate TrackUuid 0 ] session)
    = Some [4; 6; 8] /\
  StronglySorted Z.lt [4; 6; 8] /\ NoDup [4; 6; 8].
Proof.
  split; [apply session_wf|]. split; [eexists; reflexivity|].
  split; [vm_compute; reflexivity|].
  destruct (allocators_strictly_increasing TrackUuid) as (_ & _ & _ & Hany).
  assert (Hobs : exists w',
    observe TrackUuid 0
      [ Allocate TrackUuid 0; Call (CreateStream 0 "dma" None None);
        Allocate TrackUuid 0; Allocate FlowId 0;
        Call (BeginTransaction 0 "burst" 150 None (PyPerfettoTransaction 0));
        Allocate TrackUuid 1; Allocate TrackUuid 0 ] session
      = Some ([4; 6; 8], w')) by (eexists; lazy; reflexivity).
  destruct Hobs as [w' Hobs].
  destruct (Hany _ session w' 0%nat _ [4; 6; 8] session_wf eq_refl Hobs)
    as (Hs & Hnd & _).
  split; assumption.
Defined.

(** * Further properties *)

(** ** What every reachable store satisfies *)

(** X1: in every store built by calls, a transaction is listed, once, by
    its stream, and the stream by its trace; and an open transaction sits on
    an open stream of a trace whose file is still open. *)
Theorem reachable_open_chain (w : World) (t : ref) (o : PerfettoTransactionObj) :
  reachable w -> txns w !! t = Some o ->
  exists s tr,
    streams w !! txn_stream o = Some s /\
    traces w !! stream_trace s = Some tr /\
    t ∈ stream_transactions s /\ NoDup (stream_transactions s) /\
    txn_stream o ∈ trace_streams tr /\ NoDup (trace_streams tr) /\
    (txn_is_open o = true ->
       stream_is_open s = true /\ trace_file_open tr = true).
Proof.
  intros Hr Ht. pose proof (reachable_wf w Hr) as Hwf.
  destruct (wf_txn w Hwf _ _ Ht) as (s & tr & Hs & Htr & Hin & Hop & _).
  destruct (wf_stream w Hwf _ _ Hs) as (tr0 & Htr0 & Hl & Hf & _ & Hnd).
  assert (tr0 = tr) by congruence. subst tr0.
  exists s, tr. split; [exact Hs|]. split; [exact Htr|]. split; [exact Hin|].
  split; [exact Hnd|]. split; [exact Hl|].
  split; [apply (wf_trace w Hwf _ _ Htr)|].
  intros Ho. split; [apply Hop, Ho | apply Hf, Hop, Ho].
Qed.

Lemma reachable_open_chain_witness :
  reachable session /\
  exists o s tr,
    txns session !! 1%nat = Some o /\ txn_is_open o = true /\
    streams session !! txn_stream o = Some s /\
    traces session !! stream_trace s = Some tr /\
    stream_is_open s = true /\ trace_file_open tr = true.
Proof.
  split; [apply session_reachable|].
  destruct (reachable_open_chain session 1 _ session_reachable eq_refl)
    as (s & tr & Hs & Htr & _ & _ & _ & _ & Hopen).
  destruct (Hopen eq_refl) as [Hso Hf].
  eexists _, s, tr. split; [reflexivity|]. auto.
Defined.

(** X2: in every store built by calls, two different transactions of one
    trace have different identifiers, each at least 1 and below the
    counter of the trace. *)
Theorem reachable_transaction_ids_distinct (w : World) (t1 t2 : ref)
    (o1 o2 : PerfettoTransactionObj) (s1 s2 : PerfettoStreamObj)
    (tr : PerfettoTraceObj) :
  reachable w ->
  txns w !! t1 = Some o1 -> txns w !! t2 = Some o2 ->
  streams w !! txn_stream o1 = Some s1 -> streams w !! txn_stream o2 = Some s2 ->
  stream_trace s1 = stream_trace s2 ->
  traces w !! stream_trace s1 = Some tr ->
  1 <= txn_id o1 < trace_next_transaction_id tr /\
  (t1 <> t2 -> txn_id o1 <> txn_id o2).
Proof.
  intros Hr H1 H2 Hs1 Hs2 Etr Htr.
  pose proof (reachable_ids_ok w Hr) as Hi. split.
  - apply (ids_txn w Hi _ _ _ _ H1 Hs1 Htr).
  - intros Hne Eid. apply Hne.
    apply (ids_txn_inj w Hi t1 t2 o1 o2 s1 s2); assumption.
Qed.

Lemma reachable_transaction_ids_distinct_witness :
  reachable session /\
  (txn_id <$> txns session !! 0%nat) = Some 1 /\
  (txn_id <$> txns session !! 1%nat) = Some 2 /\
  1 <> 2.
Proof.
  split; [apply session_reachable|].
  split; [reflexivity|]. split; [reflexivity|].
  destruct (reachable_transaction_ids_distinct session 0 1 _ _ _ _ _
              session_reachable eq_refl eq_refl eq_refl eq_refl eq_refl eq_refl)
    as [_ Hne].
  apply Hne. discriminate.
Defined.

(** X3: in every store built by calls, the tracks of one trace are all
    different: two streams never share a track, two child transactions never
    share a track, and the track of a child transaction is the track of no
    stream; all of them are at least 1 and below the counter of the trace. *)
Theorem reachable_tracks_distinct (w : World) :
  reachable w ->
  (forall s1 s2 o1 o2,
     streams w !! s1 = Some o1 -> streams w !! s2 = Some o2 ->
     stream_trace o1 = stream_trace o2 -> s1 <> s2 ->
     stream_track_uuid o1 <> stream_track_uuid o2) /\
  (forall t1 t2 o1 o2 s1 s2,
     txns w !! t1 = Some o1 -> txns w !! t2 = Some o2 ->
     is_Some (txn_parent o1) -> is_Some (txn_parent o2) ->
     streams w !! txn_stream o1 = Some s1 -> streams w !! txn_stream o2 = Some s2 ->
     stream_trace s1 = stream_trace s2 -> t1 <> t2 ->
     txn_track_uuid o1 <> txn_track_uuid o2) /\
  (forall t o s s' os',
     txns w !! t = Some o -> is_Some (txn_parent o) ->
     streams w !! txn_stream o = Some s ->
     streams w !! s' = Some os' -> stream_trace os' = stream_trace s ->
     txn_track_uuid o <> stream_track_uuid os') /\
  (forall s o tr, streams w !! s = Some o ->
     traces w !! stream_trace o = Some tr ->
     1 <= stream_track_uuid o < trace_next_track_uuid tr) /\
  (forall t o s tr, txns w !! t = Some o ->
     streams w !! txn_stream o = Some s ->
     traces w !! stream_trace s = Some tr ->
     1 <= txn_track_uuid o < trace_next_track_uuid tr).
Proof.
  intros Hr. pose proof (reachable_ids_ok w Hr) as Hi.
  pose proof (reachable_wf w Hr) as Hwf.
  split; [|split; [|split; [|split]]].
  - intros s1 s2 o1 o2 H1 H2 Etr Hne Etk. apply Hne.
    apply (ids_stream_track_inj w Hi s1 s2 o1 o2); assumption.
  - intros t1 t2 o1 o2 s1 s2 H1 H2 P1 P2 Hs1 Hs2 Etr Hne Etk. apply Hne.
    apply (ids_child_track_inj w Hi t1 t2 o1 o2 s1 s2); assumption.
  - apply (ids_child_track_stream w Hi).
  - intros s o tr Hs Htr. split; [apply (ids_stream_track w Hi _ _ Hs)|].
    destruct (wf_stream w Hwf _ _ Hs) as (tr0 & Htr0 & _ & _ & Hlt & _).
    assert (tr0 = tr) by congruence. subst tr0. exact Hlt.
  - intros t o s tr Ht Hs Htr.
    destruct (wf_txn w Hwf _ _ Ht) as (s0 & tr0 & Hs0 & Htr0 & _ & _ & Hok & Hlt).
    assert (s0 = s) by congruence. subst s0.
    assert (tr0 = tr) by congruence. subst tr0. split; [|exact Hlt].
    pose proof (ids_stream_track w Hi _ _ Hs) as H1.
    unfold track_ok in Hok. destruct (txn_parent o); lia.
Qed.

Lemma reachable_tracks_distinct_witness :
  reachable session /\
  (stream_track_uuid <$> streams session !! 0%nat) = Some 1 /\
  (stream_track_uuid <$> streams session !! 1%nat) = Some 2 /\
  (txn_track_uuid <$> txns session !! 1%nat) = Some 3 /\
  1 <> 2.
Proof.
  split; [apply session_reachable|].
  split; [reflexivity|]. split; [reflexivity|]. split; [reflexivity|].
  destruct (reachable_tracks_distinct session session_reachable) as (Hs & _).
  apply (Hs 0%nat 1%nat _ _ eq_refl eq_refl eq_refl). discriminate.
Defined.

(** ** What no program undoes *)

(** X4: whatever program runs, the packets a file held before are a prefix
    of those it holds after (nothing written is changed, removed or
    reordered), a released file stays released, and no counter goes down. *)
Theorem program_only_appends (cs : list call) (w w' : World) (r : ref)
    (tr : PerfettoTraceObj) :
  wf w -> run cs w = Some w' -> traces w !! r = Some tr ->
  exists tr',
    traces w' !! r = Some tr' /\
    trace_written tr `prefix_of` trace_written tr' /\
    trace_streams tr `prefix_of` trace_streams tr' /\
    (trace_file_open tr = false -> trace_file_open tr' = false) /\
    trace_next_track_uuid tr <= trace_next_track_uuid tr' /\
    trace_next_transaction_id tr <= trace_next_transaction_id tr' /\
    trace_next_flow_id tr <= trace_next_flow_id tr'.
Proof.
  intros Hwf Hrun Htr.
  destruct (run_evolves cs w w' Hwf Hrun) as [_ He].
  destruct (ev_traces _ _ He _ _ Htr) as (tr' & Htr' & [E1 E2 E3 E4 E5 E6]).
  exists tr'. auto 10.
Qed.

Lemma program_only_appends_witness :
  wf session /\
  exists w' tr tr',
    run [TxnClose 0 200; StreamClose 0; CreateStream 0 "late" None None] session
      = Some w' /\
    traces session !! 0%nat = Some tr /\ traces w' !! 0%nat = Some tr' /\
    trace_written tr `prefix_of` trace_written tr'.
Proof.
  split; [apply session_wf|].
  assert (Hrun : exists w',
    run [TxnClose 0 200; StreamClose 0; CreateStream 0 "late" None None] session
      = Some w') by (eexists; lazy; reflexivity).
  destruct Hrun as [w' Hrun].
  destruct (program_only_appends _ session w' 0%nat _ session_wf Hrun eq_refl)
    as (tr' & Htr' & Hp & _).
  eexists w', _, tr'. split; [exact Hrun|]. split; [reflexivity|]. auto.
Defined.

(** X5: a closed transaction is final.  Whatever program runs afterwards
    (another [close] with another time, the close of its stream or of its
    trace), it stays closed with the end time it had, and its identifier,
    name, start time, parent and track never change; attributes and flow ids
    can only be appended. *)
Theorem closed_transaction_is_final (cs : list call) (w w' : World) (t : ref)
    (o : PerfettoTransactionObj) :
  wf w -> run cs w = Some w' -> txns w !! t = Some o ->
  exists o',
    txns w' !! t = Some o' /\
    txn_id o' = txn_id o /\ txn_stream o' = txn_stream o /\
    txn_name o' = txn_name o /\ txn_start_time o' = txn_start_time o /\
    txn_parent o' = txn_parent o /\ txn_track_uuid o' = txn_track_uuid o /\
    txn_attributes o `prefix_of` txn_attributes o' /\
    txn_flow_ids o `prefix_of` txn_flow_ids o' /\
    (txn_is_open o = false ->
       txn_is_open o' = false /\ txn_end_time o' = txn_end_time o).
Proof.
  intros Hwf Hrun Ht.
  destruct (run_evolves cs w w' Hwf Hrun) as [_ He].
  destruct (ev_txns _ _ He _ _ Ht) as (o' & Ho' & []).
  exists o'. auto 12.
Qed.

Lemma closed_transaction_is_final_witness :
  wf session /\
  exists w' o o',
    run [TxnClose 2 999; AddString 2 "late" "x"; StreamClose 1; TraceClose 0] session
      = Some w' /\
    txns session !! 2%nat = Some o /\ txn_is_open o = false /\
    txns w' !! 2%nat = Some o' /\
    txn_is_open o' = false /\ txn_end_time o' = txn_end_time o.
Proof.
  split; [apply session_wf|].
  assert (Hrun : exists w',
    run [TxnClose 2 999; AddString 2 "late" "x"; StreamClose 1; TraceClose 0] session
      = Some w') by (eexists; lazy; reflexivity).
  destruct Hrun as [w' Hrun].
  destruct (closed_transaction_is_final _ session w' 2%nat _ session_wf Hrun eq_refl)
    as (o' & Ho' & _ & _ & _ & _ & _ & _ & _ & _ & Hfin).
  destruct (Hfin eq_refl) as [Hc He].
  eexists w', _, o'. split; [exact Hrun|]. split; [reflexivity|].
  split; [reflexivity|]. auto.
Defined.

(** X6: a closed stream is final.  Whatever program runs afterwards, it
    stays closed and its list of transactions is exactly what it was: no
    transaction is ever added to a closed stream; its trace, track and name
    never change. *)
Theorem closed_stream_is_final (cs : list call) (w w' : World) (s : ref)
    (o : PerfettoStreamObj) :
  wf w -> run cs w = Some w' -> streams w !! s = Some o ->
  exists o',
    streams w' !! s = Some o' /\
    stream_trace o' = stream_trace o /\
    stream_track_uuid o' = stream_track_uuid o /\
    stream_name o' = stream_name o /\
    stream_transactions o `prefix_of` stream_transactions o' /\
    (stream_is_open o = false ->
       stream_is_open o' = false /\
       stream_transactions o' = stream_transactions o).
Proof.
  intros Hwf Hrun Hs.
  destruct (run_evolves cs w w' Hwf Hrun) as [_ He].
  destruct (ev_streams_of _ _ He _ _ Hs) as (o' & Ho' & []).
  exists o'. auto 10.
Qed.

Lemma closed_stream_is_final_witness :
  wf session /\
  exists w0 w' o o',
    run [StreamClose 1] session = Some w0 /\
    run [BeginTransaction 1 "x" 5 None PyNone; StreamClose 1; TxnClose 2 7] w0
      = Some w' /\
    streams w0 !! 1%nat = Some o /\ stream_is_open o = false /\
    streams w' !! 1%nat = Some o' /\
    stream_is_open o' = false /\ stream_transactions o' = stream_transactions o.
Proof.
  split; [apply session_wf|].
  assert (Hrun0 : exists w0, run [StreamClose 1] session = Some w0)
    by (eexists; lazy; reflexivity).
  destruct Hrun0 as [w0 Hrun0].
  destruct (run_evolves _ _ _ session_wf Hrun0) as [Hwf0 _].
  assert (Hs0 : exists o, streams w0 !! 1%nat = Some o /\ stream_is_open o = false).
  { revert Hrun0. lazy. intros [= <-]. eexists. split; reflexivity. }
  destruct Hs0 as (o & Ho & Hc).
  assert (Hrun : exists w',
    run [BeginTransaction 1 "x" 5 None PyNone; StreamClose 1; TxnClose 2 7] w0
      = Some w').
  { revert Hrun0. lazy. intros [= <-]. eexists. reflexivity. }
  destruct Hrun as [w' Hrun].
  destruct (closed_stream_is_final _ w0 w' 1%nat o Hwf0 Hrun Ho)
    as (o' & Ho' & _ & _ & _ & _ & Hfin).
  destruct (Hfin Hc) as [Hc' Hl].
  exists w0, w', o, o'. auto 10.
Defined.

(** ** Closing a trace *)

Lemma set_stream_is_open_closed (os : PerfettoStreamObj) :
  stream_is_open os = false -> set_stream_is_open false os = os.
Proof. destruct os. simpl. intros ->. reflexivity. Qed.

Lemma set_stream_is_open_twice (os : PerfettoStreamObj) :
  set_stream_is_open false (set_stream_is_open false os) = set_stream_is_open false os.
Proof. reflexivity. Qed.

Lemma force_closed_closed (o : PerfettoTransactionObj) :
  txn_is_open o = false -> force_closed o = o.
Proof. unfold force_closed. intros ->. reflexivity. Qed.

Lemma force_closed_twice (o : PerfettoTransactionObj) :
  force_closed (force_closed o) = force_closed o.
Proof. apply force_closed_closed, force_closed_not_open. Qed.

Lemma txn_stream_force_closed (o : PerfettoTransactionObj) :
  txn_stream (force_closed o) = txn_stream o.
Proof. unfold force_closed. destruct (txn_is_open o); reflexivity. Qed.

Lemma pending_packets_closed (w : World) (l : list ref) :
  (forall t o, t ∈ l -> txns w !! t = Some o -> txn_is_open o = false) ->
  pending_packets w l = [].
Proof.
  induction l as [|t l IH]; intros H; [reflexivity|].
  unfold pending_packets in *. simpl.
  rewrite IH by (intros t' o Hin; apply H, list_elem_of_further, Hin).
  destruct (txns w !! t) as [o|] eqn:Ht; [|reflexivity].
  rewrite (H t o (list_elem_of_here _ _) Ht). reflexivity.
Qed.

Lemma trace_close_if_open_closed (w : World) (s : ref) (os : PerfettoStreamObj) :
  streams w !! s = Some os -> stream_is_open os = false ->
  PerfettoTrace.close_if_open s w = Ret tt w.
Proof.
  intros Hs Ho. unfold PerfettoTrace.close_if_open, PerfettoStream.is_open.
  unfold bind, get_stream, ret. rewrite Hs, Ho. reflexivity.
Qed.

Lemma trace_close_if_open_open (w : World) (s : ref) (os : PerfettoStreamObj) :
  streams w !! s = Some os -> stream_is_open os = true ->
  PerfettoTrace.close_if_open s w = PerfettoStream.close s w.
Proof.
  intros Hs Ho. unfold PerfettoTrace.close_if_open, PerfettoStream.is_open.
  unfold bind, get_stream, ret. rewrite Hs, Ho. reflexivity.
Qed.

Lemma trace_pending_ext (w w' : World) (l : list ref) :
  (forall s, s ∈ l ->
     exists os, streams w !! s = Some os /\ streams w' !! s = Some os /\
       forall t, t ∈ stream_transactions os -> txns w' !! t = txns w !! t) ->
  trace_pending w' l = trace_pending w l.
Proof.
  induction l as [|s l IH]; intros H; [reflexivity|].
  unfold trace_pending. simpl.
  destruct (H s (list_elem_of_here _ _)) as (os & Hs & Hs' & Ht).
  rewrite Hs, Hs'. f_equal; [apply pending_packets_ext, Ht|].
  apply IH. intros s' Hin. apply H, list_elem_of_further, Hin.
Qed.

(** The loop of [PerfettoTrace.close], exactly: the streams of [l] are
    closed, their open transactions are closed at their start times, their
    slices are written stream by stream, and nothing else changes. *)
Lemma close_streams_loop_exact (r : ref) (l : list ref) :
  forall (w : World) (tr : PerfettoTraceObj),
    wf w -> traces w !! r = Some tr -> NoDup l ->
    (forall s, s ∈ l -> s ∈ trace_streams tr) ->
    exists w1,
      for_each l PerfettoTrace.close_if_open w = Ret tt w1 /\
      wf w1 /\
      traces w1 =
        <[r := set_trace_written (trace_written tr ++ trace_pending w l) tr]>
          (traces w) /\
      (forall s os, streams w !! s = Some os ->
         streams w1 !! s =
           Some (if decide (s ∈ l) then set_stream_is_open false os else os)) /\
      (forall t o, txns w !! t = Some o ->
         txns w1 !! t =
           Some (if decide (txn_stream o ∈ l) then force_closed o else o)) /\
      length (streams w1) = length (streams w) /\
      length (txns w1) = length (txns w).
Proof.
  induction l as [|s l IH]; intros w tr Hwf Htr Hnd Hsub.
  - exists w. simpl. split; [reflexivity|]. split; [exact Hwf|]. split.
    { unfold trace_pending. simpl. rewrite app_nil_r. symmetry.
      apply list_insert_id. rewrite Htr. f_equal. destruct tr; reflexivity. }
    split.
    { intros s os Hs.
      destruct (decide (s ∈ [])) as [H%not_elem_of_nil|]; [contradiction|exact Hs]. }
    split.
    { intros t o Ht.
      destruct (decide (txn_stream o ∈ [])) as [H%not_elem_of_nil|];
        [contradiction|exact Ht]. }
    auto.
  - apply NoDup_cons in Hnd as [Hnin Hnd].
    assert (Hin : s ∈ trace_streams tr) by (apply Hsub, list_elem_of_here).
    destruct (wf_listed_stream w Hwf _ _ _ Htr Hin) as (os & Hos & Er).
    assert (Hsub' : forall s', s' ∈ l -> s' ∈ trace_streams tr)
      by (intros s' Hs'; apply Hsub, list_elem_of_further, Hs').
    (* one step *)
    assert (Hstep : exists w2,
      PerfettoTrace.close_if_open s w = Ret tt w2 /\ wf w2 /\
      traces w2 =
        <[r := set_trace_written
                 (trace_written tr ++ pending_packets w (stream_transactions os)) tr]>
          (traces w) /\
      (forall s' os', streams w !! s' = Some os' ->
         streams w2 !! s' =
           Some (if decide (s' = s) then set_stream_is_open false os' else os')) /\
      (forall t o, txns w !! t = Some o ->
         txns w2 !! t =
           Some (if decide (txn_stream o = s) then force_closed o else o)) /\
      length (streams w2) = length (streams w) /\
      length (txns w2) = length (txns w)).
    { destruct (stream_is_open os) eqn:Hop.
      - destruct (stream_close_open w s os Hwf Hos Hop)
          as (w1 & tr0 & Htr0 & Hf0 & Hc & Hwf' & He' & Hst & Hout & Hinl & Htraces).
        rewrite Er in Htr0, Htraces. assert (tr0 = tr) by congruence. subst tr0.
        exists (with_stream s (set_stream_is_open false os) w1).
        rewrite (trace_close_if_open_open _ _ _ Hos Hop).
        split; [exact Hc|]. split; [exact Hwf'|].
        cbn [with_stream traces streams txns]. split; [exact Htraces|].
        split; [|split; [|split]].
        + intros s' os' Hs'. rewrite Hst. destruct (decide (s' = s)) as [->|Hne].
          * assert (os' = os) by congruence. subst os'.
            eapply lookup_insert_same, Hos.
          * rewrite list_lookup_insert_ne by congruence. exact Hs'.
        + intros t o Ht. destruct (decide (txn_stream o = s)) as [Es|Hne].
          * destruct (wf_txn w Hwf _ _ Ht) as (s0 & _ & Hs0 & _ & Hl & _).
            rewrite Es in Hs0. assert (s0 = os) by congruence. subst s0.
            apply (Hinl t o Hl Ht).
          * rewrite Hout; [exact Ht|]. intros Hl.
            destruct (wf_listed_txn w Hwf _ _ _ Hos Hl) as (o' & Ho' & Es).
            congruence.
        + rewrite length_insert, Hst. reflexivity.
        + destruct (keeps_stream_close s w _ ltac:(rewrite Hc; reflexivity))
            as (_ & _ & Hlen). exact Hlen.
      - exists w. rewrite (trace_close_if_open_closed _ _ _ Hos Hop).
        split; [reflexivity|]. split; [exact Hwf|]. split.
        { rewrite pending_packets_closed.
          - rewrite app_nil_r. symmetry. apply list_insert_id.
            rewrite Htr. f_equal. destruct tr; reflexivity.
          - intros t o Hl Ht.
            destruct (wf_listed_txn w Hwf _ _ _ Hos Hl) as (o' & Ho' & Es).
            assert (o' = o) by congruence. subst o'.
            destruct (wf_txn w Hwf _ _ Ht) as (s0 & _ & Hs0 & _ & _ & Hopn & _).
            rewrite Es in Hs0. assert (s0 = os) by congruence. subst s0.
            destruct (txn_is_open o); [|reflexivity].
            rewrite Hopn in Hop by reflexivity. discriminate. }
        split; [|split; [|auto]].
        + intros s' os' Hs'. destruct (decide (s' = s)) as [->|Hne]; [|exact Hs'].
          assert (os' = os) by congruence. subst os'.
          rewrite set_stream_is_open_closed by exact Hop. exact Hs'.
        + intros t o Ht. destruct (decide (txn_stream o = s)) as [Es|Hne]; [|exact Ht].
          rewrite force_closed_closed; [exact Ht|].
          destruct (wf_txn w Hwf _ _ Ht) as (s0 & _ & Hs0 & _ & _ & Hopn & _).
          rewrite Es in Hs0. assert (s0 = os) by congruence. subst s0.
          destruct (txn_is_open o); [|reflexivity].
          rewrite Hopn in Hop by reflexivity. discriminate. }
    destruct Hstep as (w2 & Hc & Hwf2 & Htr2 & Hst2 & Htx2 & Hls2 & Hlt2).
    set (tr2 := set_trace_written
                  (trace_written tr ++ pending_packets w (stream_transactions os)) tr)
      in *.
    assert (Htr2' : traces w2 !! r = Some tr2)
      by (rewrite Htr2; eapply lookup_insert_same, Htr).
    destruct (IH w2 tr2 Hwf2 Htr2' Hnd Hsub')
      as (w1 & Hl & Hwf1 & Htr1 & Hst1 & Htx1 & Hls1 & Hlt1).
    exists w1. simpl. unfold bind. rewrite Hc, Hl.
    split; [reflexivity|]. split; [exact Hwf1|].
    split; [|split; [|split; [|split; congruence]]].
    + rewrite Htr1, Htr2, list_insert_insert_eq. f_equal.
      subst tr2. unfold set_trace_written. simpl. f_equal.
      rewrite <- app_assoc. f_equal.
      unfold trace_pending at 2. simpl. rewrite Hos. f_equal.
      apply trace_pending_ext. intros s' Hs'.
      assert (Hne : s' <> s) by (intros ->; contradiction).
      destruct (wf_listed_stream w Hwf _ _ _ Htr (Hsub' s' Hs')) as (os' & Hos' & _).
      exists os'. split; [exact Hos'|]. split.
      * rewrite (Hst2 s' os' Hos'). rewrite decide_False by exact Hne. reflexivity.
      * intros t Ht.
        destruct (wf_listed_txn w Hwf _ _ _ Hos' Ht) as (o' & Ho' & Es).
        rewrite (Htx2 t o' Ho'). rewrite decide_False by congruence.
        symmetry. exact Ho'.
    + intros s' os' Hs'. rewrite (Hst1 s' _ (Hst2 s' os' Hs')).
      f_equal. destruct (decide (s' = s)) as [->|Hne].
      * rewrite (decide_True (P := s ∈ s :: l)) by apply list_elem_of_here.
        destruct (decide (s ∈ l)); reflexivity.
      * destruct (decide (s' ∈ l)) as [Hi|Hi].
        -- rewrite decide_True by (apply list_elem_of_further, Hi). reflexivity.
        -- rewrite decide_False; [reflexivity|].
           intros H. apply elem_of_cons in H as [?|?]; contradiction.
    + intros t o Ht. rewrite (Htx1 t _ (Htx2 t o Ht)). f_equal.
      assert (Est : txn_stream (if decide (txn_stream o = s) then force_closed o else o)
                    = txn_stream o)
        by (destruct (decide (txn_stream o = s)); [apply txn_stream_force_closed | reflexivity]).
      rewrite Est. destruct (decide (txn_stream o = s)) as [Es|Hne].
      * rewrite (decide_True (P := txn_stream o ∈ s :: l))
          by (rewrite Es; apply list_elem_of_here).
        destruct (decide (txn_stream o ∈ l)); [apply force_closed_twice | reflexivity].
      * destruct (decide (txn_stream o ∈ l)) as [Hi|Hi].
        -- rewrite decide_True by (apply list_elem_of_further, Hi). reflexivity.
        -- rewrite decide_False; [reflexivity|].
           intros H. apply elem_of_cons in H as [?|?]; contradiction.
Qed.

(** [PerfettoTrace.close] as one update of the store. *)
Lemma trace_close_exact (w : World) (r : ref) (tr : PerfettoTraceObj) :
  wf w -> traces w !! r = Some tr ->
  exists w',
    PerfettoTrace.close r w = Ret tt w' /\
    wf w' /\
    traces w' =
      <[r := set_trace_file_open false
               (set_trace_written
                  (trace_written tr ++ trace_pending w (trace_streams tr)) tr)]>
        (traces w) /\
    length (streams w') = length (streams w) /\
    length (txns w') = length (txns w) /\
    (forall s os, streams w !! s = Some os ->
       streams w' !! s =
         Some (if decide (stream_trace os = r)
               then set_stream_is_open false os else os)) /\
    (forall t o os, txns w !! t = Some o -> streams w !! txn_stream o = Some os ->
       txns w' !! t =
         Some (if decide (stream_trace os = r) then force_closed o else o)).
Proof.
  intros Hwf Htr.
  destruct (close_streams_loop_exact r (trace_streams tr) w tr Hwf Htr
              (wf_trace w Hwf _ _ Htr) (fun s H => H))
    as (w1 & Hl & Hwf1 & Htr1 & Hst1 & Htx1 & Hls1 & Hlt1).
  set (tr1 := set_trace_written
                (trace_written tr ++ trace_pending w (trace_streams tr)) tr) in *.
  assert (Htr1' : traces w1 !! r = Some tr1)
    by (rewrite Htr1; eapply lookup_insert_same, Htr).
  assert (Hstreams : forall s os, streams w !! s = Some os ->
            (s ∈ trace_streams tr <-> stream_trace os = r)).
  { intros s os Hs. split.
    - intros Hin. destruct (wf_listed_stream w Hwf _ _ _ Htr Hin) as (os' & Hos' & E).
      congruence.
    - intros E. destruct (wf_stream w Hwf _ _ Hs) as (tr' & Htr' & Hin & _).
      rewrite E in Htr'. congruence. }
  assert (Hmid :
    (forall s os, streams w !! s = Some os ->
       streams w1 !! s =
         Some (if decide (stream_trace os = r)
               then set_stream_is_open false os else os)) /\
    (forall t o os, txns w !! t = Some o -> streams w !! txn_stream o = Some os ->
       txns w1 !! t =
         Some (if decide (stream_trace os = r) then force_closed o else o))).
  { split.
    - intros s os Hs. rewrite (Hst1 s os Hs). f_equal.
      pose proof (Hstreams s os Hs) as Hiff.
      destruct (decide (s ∈ trace_streams tr)) as [Hi|Hi];
        destruct (decide (stream_trace os = r)) as [E|E]; try reflexivity;
        exfalso; tauto.
    - intros t o os Ht Hs. rewrite (Htx1 t o Ht). f_equal.
      pose proof (Hstreams _ os Hs) as Hiff.
      destruct (decide (txn_stream o ∈ trace_streams tr)) as [Hi|Hi];
        destruct (decide (stream_trace os = r)) as [E|E]; try reflexivity;
        exfalso; tauto. }
  destruct Hmid as [Hst Htx].
  unfold PerfettoTrace.close. unfold bind at 1. unfold get_trace at 1.
  rewrite Htr. cbn iota beta. unfold bind at 1. rewrite Hl. cbn iota beta.
  unfold bind at 1. unfold get_trace at 1. rewrite Htr1'. cbn iota beta.
  destruct (trace_file_open tr1) eqn:Hf.
  - exists (with_trace r (set_trace_file_open false tr1) w1).
    split; [reflexivity|].
    split.
    { apply (wf_close_file w1 r tr1 Hwf1 Htr1'). intros s os1 Hin Hs1.
      destruct (wf_listed_stream w Hwf _ _ _ Htr Hin) as (os & Hos & E).
      rewrite (Hst s os Hos), decide_True in Hs1 by exact E.
      injection Hs1 as <-. reflexivity. }
    cbn [with_trace traces streams txns].
    split; [rewrite Htr1, list_insert_insert_eq; reflexivity|].
    split; [exact Hls1|]. split; [exact Hlt1|]. split; assumption.
  - exists w1. split; [reflexivity|]. split; [exact Hwf1|].
    split.
    { rewrite Htr1. f_equal. destruct tr1. simpl in Hf. subst. reflexivity. }
    split; [exact Hls1|]. split; [exact Hlt1|]. split; assumption.
Qed.

Lemma for_each_close_if_open_noop (w : World) (l : list ref) :
  (forall s, s ∈ l -> exists os, streams w !! s = Some os /\ stream_is_open os = false) ->
  for_each l PerfettoTrace.close_if_open w = Ret tt w.
Proof.
  induction l as [|s l IH]; intros H; [reflexivity|].
  destruct (H s (list_elem_of_here _ _)) as (os & Hs & Hc).
  simpl. unfold bind. rewrite (trace_close_if_open_closed _ _ _ Hs Hc).
  apply IH. intros s' Hin. apply H, list_elem_of_further, Hin.
Qed.

(** On a trace whose file was released [PerfettoTrace.close] does nothing. *)
Lemma trace_close_released (w : World) (r : ref) (tr : PerfettoTraceObj) :
  wf w -> traces w !! r = Some tr -> trace_file_open tr = false ->
  PerfettoTrace.close r w = Ret tt w.
Proof.
  intros Hwf Htr Hf. unfold PerfettoTrace.close.
  unfold bind at 1. unfold get_trace at 1. rewrite Htr. cbn iota beta.
  unfold bind at 1. rewrite for_each_close_if_open_noop.
  - cbn iota beta. unfold bind, get_trace. rewrite Htr, Hf. reflexivity.
  - intros s Hin. destruct (wf_listed_stream w Hwf _ _ _ Htr Hin) as (os & Hos & E).
    exists os. split; [exact Hos|].
    destruct (wf_stream w Hwf _ _ Hos) as (tr' & Htr' & _ & Hop & _).
    rewrite E in Htr'. assert (tr' = tr) by congruence. subst tr'.
    destruct (stream_is_open os); [|reflexivity].
    rewrite Hop in Hf by reflexivity. discriminate.
Qed.





(** ** The trace as a context manager *)



(** ** Streams on a released file, and identifiers that are lost *)

(** X10: [create_stream] on a trace whose file is open returns a new open
    stream on the next track of the trace, registers it last in the list of
    the trace and writes one descriptor packet.  On a trace that was closed
    it raises [AttributeError] (the file is [None]): no stream is created or
    registered and nothing is written, yet the track identifier was already
    drawn and is lost. *)
Theorem create_stream_effect (w : World) (r : ref) (tr : PerfettoTraceObj)
    (name : string) (scope type_name : option string) :
  traces w !! r = Some tr ->
  exists w' tr',
    traces w' = <[r := tr']> (traces w) /\
    txns w' = txns w /\
    trace_next_track_uuid tr' = trace_next_track_uuid tr + 1 /\
    trace_next_transaction_id tr' = trace_next_transaction_id tr /\
    trace_next_flow_id tr' = trace_next_flow_id tr /\
    trace_file_open tr' = trace_file_open tr /\
    if trace_file_open tr then
      PerfettoTrace.create_stream r name scope type_name w
        = Ret (length (streams w)) w' /\
      streams w' =
        streams w ++ [mkStream r (trace_next_track_uuid tr) name scope type_name true []] /\
      trace_streams tr' = trace_streams tr ++ [length (streams w)] /\
      trace_written tr' =
        trace_written tr ++ [stream_descriptor_packet (trace_next_track_uuid tr) name]
    else
      PerfettoTrace.create_stream r name scope type_name w = Raise AttributeError w' /\
      streams w' = streams w /\
      trace_streams tr' = trace_streams tr /\
      trace_written tr' = trace_written tr.
Proof.
  intros Htr. destruct (trace_file_open tr) eqn:Hf.
  - pose proof (create_stream_open _ _ _ name scope type_name Htr Hf) as Hc.
    cbv zeta in Hc.
    match type of Hc with
    | _ = Ret _ (with_trace _ ?x ?y) => exists (with_trace r x y), x
    end.
    cbn [with_trace push_stream traces streams txns].
    split; [apply list_insert_insert_eq|]. split; [reflexivity|].
    split; [reflexivity|]. split; [reflexivity|]. split; [reflexivity|].
    split; [simpl; exact Hf|]. split; [exact Hc|]. split; [reflexivity|].
    split; reflexivity.
  - pose proof (create_stream_released _ _ _ name scope type_name Htr Hf) as Hc.
    match type of Hc with
    | _ = Raise _ (with_trace _ ?x ?y) => exists (with_trace r x y), x
    end.
    cbn [with_trace traces streams txns].
    split; [reflexivity|]. split; [reflexivity|].
    split; [reflexivity|]. split; [reflexivity|]. split; [reflexivity|].
    split; [simpl; exact Hf|]. split; [exact Hc|]. split; [reflexivity|].
    split; reflexivity.
Qed.

Lemma create_stream_effect_witness :
  exists w0 w' tr',
    run [TraceClose 0] session = Some w0 /\
    PerfettoTrace.create_stream 0 "late" None None w0 = Raise AttributeError w' /\
    streams w' = streams w0 /\
    traces w' !! 0%nat = Some tr' /\
    trace_next_track_uuid tr' = 5.
Proof.
  assert (Hrun : exists w0, run [TraceClose 0] session = Some w0)
    by (eexists; vm_compute; reflexivity).
  destruct Hrun as [w0 Hrun].
  assert (Htr : exists tr, traces w0 !! 0%nat = Some tr /\
                  trace_file_open tr = false /\ trace_next_track_uuid tr = 4).
  { revert Hrun. vm_compute. intros [= <-]. eexists. repeat split. }
  destruct Htr as (tr & Htr & Hf & Hn).
  destruct (create_stream_effect w0 0 tr "late" None None Htr)
    as (w' & tr' & Htraces & _ & Hnext & _ & _ & _ & Hcase).
  rewrite Hf in Hcase. destruct Hcase as (Hc & Hst & _).
  exists w0, w', tr'. split; [exact Hrun|]. split; [exact Hc|].
  split; [exact Hst|].
  split; [rewrite Htraces; eapply lookup_insert_same, Htr|]. lia.
Defined.

(** X11: a [begin_transaction] that fails on its parent argument has already
    drawn a transaction identifier, which is never handed out again: the
    next transaction of the trace gets the identifier after it, so the
    identifiers of a trace can have gaps. *)
Theorem failed_begin_transaction_loses_id (w : World) (s : ref)
    (so : PerfettoStreamObj) (tr : PerfettoTraceObj)
    (name name' : string) (start_time start_time' : Z)
    (type_name type_name' : option string) :
  reachable w ->
  streams w !! s = Some so -> stream_is_open so = true ->
  traces w !! stream_trace so = Some tr ->
  exists w1 w2 o,
    PerfettoStream.begin_transaction s name start_time type_name (PyOther true) w
      = Raise TypeError w1 /\
    txns w1 = txns w /\ streams w1 = streams w /\
    PerfettoStream.begin_transaction s name' start_time' type_name' PyNone w1
      = Ret (length (txns w)) w2 /\
    txns w2 = txns w ++ [o] /\
    txn_id o = trace_next_transaction_id tr + 1 /\
    (forall t' o' s', txns w2 !! t' = Some o' ->
       streams w2 !! txn_stream o' = Some s' -> stream_trace s' = stream_trace so ->
       txn_id o' <> trace_next_transaction_id tr).
Proof.
  intros Hre Hs Ho Htr. pose proof (reachable_ids_ok w Hre) as Hi.
  rewrite (begin_transaction_foreign w s so tr _ _ _ Hs Ho Htr).
  set (tr1 := set_trace_next_transaction_id (trace_next_transaction_id tr + 1) tr).
  set (w1 := with_trace (stream_trace so) tr1 w).
  assert (Htr1 : traces w1 !! stream_trace so = Some tr1)
    by (subst w1; cbn [with_trace traces]; eapply lookup_insert_same, Htr).
  assert (Hs1 : streams w1 !! s = Some so) by exact Hs.
  pose proof (begin_transaction_root w1 s so tr1 name' start_time' type_name' PyNone
                Hs1 Ho Htr1 (or_introl eq_refl)) as Hc.
  exists w1.
  match type of Hc with
  | _ = Ret _ (with_stream _ ?a (push_txn ?o ?b)) =>
      exists (with_stream s a (push_txn o b)), o
  end.
  split; [reflexivity|]. split; [reflexivity|]. split; [reflexivity|].
  split; [exact Hc|].
  cbn [with_stream push_txn with_trace traces streams txns w1].
  split; [reflexivity|]. split; [reflexivity|].
  intros t' o' s' Ht' Hs' Etr.
  apply lookup_app_Some in Ht' as [Ht'|[_ Ht']].
  - destruct (decide (txn_stream o' = s)) as [E|Hne].
    + rewrite E in Hs'. rewrite (lookup_insert_same _ _ _ _ Hs) in Hs'.
      pose proof (ids_txn w Hi t' o' so tr Ht') as Hb.
      rewrite E in Hb. specialize (Hb Hs Htr). lia.
    + rewrite list_lookup_insert_ne in Hs' by congruence.
      pose proof (ids_txn w Hi t' o' s' tr Ht' Hs') as Hb.
      rewrite Etr in Hb. specialize (Hb Htr). lia.
  - apply list_lookup_singleton_Some in Ht' as [_ <-]. simpl. lia.
Qed.

Lemma failed_begin_transaction_loses_id_witness :
  reachable session /\
  exists w1 w2 o,
    PerfettoStream.begin_transaction 1 "bad" 1 None (PyOther true) session
      = Raise TypeError w1 /\
    PerfettoStream.begin_transaction 1 "good" 2 None PyNone w1 = Ret 4%nat w2 /\
    txns w2 !! 4%nat = Some o /\ txn_id o = 5.
Proof.
  split; [apply session_reachable|].
  destruct (failed_begin_transaction_loses_id session 1 _ _ "bad" "good" 1 2 None None
              session_reachable eq_refl eq_refl eq_refl)
    as (w1 & w2 & o & H1 & _ & _ & H2 & Ht & Hid & _).
  exists w1, w2, o. split; [exact H1|]. split; [exact H2|].
  split; [rewrite Ht; reflexivity | exact Hid].
Defined.

(** ** Attributes *)

Lemma with_txn_same (w : World) (t : ref) (o : PerfettoTransactionObj) :
  txns w !! t = Some o -> with_txn t o w = w.
Proof.
  intros Ht. destruct w as [a b c]. unfold with_txn. simpl in *.
  f_equal. apply list_insert_id, Ht.
Qed.

Lemma with_txn_twice (w : World) (t : ref) (o1 o2 : PerfettoTransactionObj) :
  with_txn t o2 (with_txn t o1 w) = with_txn t o2 w.
Proof. unfold with_txn. simpl. f_equal. apply list_insert_insert_eq. Qed.

Lemma append_attribute_eq (w : World) (t : ref) (o : PerfettoTransactionObj)
    (a : DebugAnnotation) :
  txns w !! t = Some o ->
  PerfettoTransaction.append_attribute t a w
    = Ret tt (with_txn t (set_txn_attributes (txn_attributes o ++ [a]) o) w).
Proof.
  intros Ht. unfold PerfettoTransaction.append_attribute, bind, get_txn, put_txn.
  rewrite Ht. reflexivity.
Qed.

(** An attribute call is [append_attribute] of its annotation. *)
Lemma perform_attribute (c : call) (t : ref) (a : DebugAnnotation) :
  attribute_of c = Some (t, a) ->
  perform c = PerfettoTransaction.append_attribute t a.
Proof. destruct c; intros [= <- <-]; reflexivity. Qed.

(** A run of attribute calls on one transaction appends their annotations,
    in the order of the calls, and changes nothing else. *)
Lemma attribute_calls_eq (t : ref) (cs : list call) :
  forall (w : World) (o : PerfettoTransactionObj),
    txns w !! t = Some o -> attribute_calls_on t cs ->
    for_each cs perform w =
      Ret tt
        (with_txn t
           (set_txn_attributes (txn_attributes o ++ attributes_of cs) o) w).
Proof.
  induction cs as [|c cs IH]; intros w o Ht Hall.
  - simpl. unfold ret. f_equal. symmetry. apply with_txn_same.
    rewrite Ht. f_equal. unfold attributes_of. simpl. rewrite app_nil_r.
    destruct o; reflexivity.
  - apply Forall_cons in Hall as [Hc Hall].
    destruct (attribute_of c) as [[t' a]|] eqn:Ea; [|discriminate].
    injection Hc as ->.
    simpl. unfold bind. rewrite (perform_attribute c t a Ea).
    rewrite (append_attribute_eq w t o a Ht).
    rewrite (IH _ (set_txn_attributes (txn_attributes o ++ [a]) o));
      [| cbn [with_txn txns]; eapply lookup_insert_same, Ht | exact Hall].
    rewrite with_txn_twice. do 2 f_equal.
    unfold attributes_of. cbn [omap]. rewrite Ea. cbn [fmap option_fmap option_map snd].
    unfold set_txn_attributes. simpl. rewrite <- app_assoc. reflexivity.
Qed.





(** ** The file as a sequence of frames *)

Lemma _write_varint_nonempty (v : Z) : _write_varint v <> [].
Proof. rewrite _write_varint_unfold. destruct (0x80 <=? v); discriminate. Qed.

Lemma read_frames_written (SerializeToString : TracePacket -> bytes)
    (ps : list TracePacket) :
  forall fuel : nat,
    (length ps <= fuel)%nat ->
    read_frames fuel (concat (map (packet_frame SerializeToString) ps))
      = Some (map SerializeToString ps).
Proof.
  induction ps as [|p ps IH]; intros fuel Hfuel.
  - destruct fuel; reflexivity.
  - destruct fuel as [|fuel]; [simpl in Hfuel; lia|].
    cbn [map concat].
    destruct (packet_frame SerializeToString p
                ++ concat (map (packet_frame SerializeToString) ps)) as [|b bs] eqn:E.
    { apply app_eq_nil in E as [E _]. unfold packet_frame in E.
      apply app_eq_nil in E as [E _]. destruct (_write_varint_nonempty _ E). }
    rewrite <- E. clear E b bs.
    assert (Hstep : forall bs : bytes, bs <> [] ->
              read_frames (S fuel) bs =
                match uvarint_decode bs with
                | Some (n, rest) =>
                    if (Z.to_nat n <=? length rest)%nat then
                      match read_frames fuel (drop (Z.to_nat n) rest) with
                      | Some frames => Some (take (Z.to_nat n) rest :: frames)
                      | None => None
                      end
                    else None
                | None => None
                end)
      by (intros [|? ?] Hne; [contradiction | reflexivity]).
    rewrite Hstep.
    2:{ intros E. apply app_eq_nil in E as [E _]. unfold packet_frame in E.
        apply app_eq_nil in E as [E _]. destruct (_write_varint_nonempty _ E). }
    rewrite packet_frame_decode. rewrite Nat2Z.id.
    rewrite length_app.
    destruct (Nat.leb_spec (length (SerializeToString p))
                (length (SerializeToString p) +
                 length (concat (map (packet_frame SerializeToString) ps))));
      [|lia].
    rewrite drop_app_length, take_app_length.
    rewrite IH by (simpl in Hfuel; lia). reflexivity.
Qed.

Lemma length_concat_frames (SerializeToString : TracePacket -> bytes)
    (ps : list TracePacket) :
  (length ps <= length (concat (map (packet_frame SerializeToString) ps)))%nat.
Proof.
  induction ps as [|p ps IH]; [reflexivity|].
  cbn [map concat]. rewrite length_app. unfold packet_frame at 1.
  rewrite length_app.
  pose proof (_write_varint_nonempty
                (Z.of_nat (length (SerializeToString p)))) as Hne.
  destruct (_write_varint (Z.of_nat (length (SerializeToString p)))) as [|b l];
    [contradiction|].
  simpl. simpl in IH. lia.
Qed.

(** X14: the file can be read back.  Whatever the serializer of the
    protobuf runtime, reading the contents of a file as frames of a varint
    length followed by that many bytes gives exactly the serialized packets
    written, in order, and nothing else. *)
Theorem file_reads_back (SerializeToString : TracePacket -> bytes)
    (tr : PerfettoTraceObj) :
  read_file (file_contents SerializeToString tr)
    = Some (map SerializeToString (trace_written tr)).
Proof.
  unfold read_file, file_contents.
  apply read_frames_written, length_concat_frames.
Qed.

(** ** The varint writer beyond its round trip *)

(** X15: the varint encoding is prefix free.  If the encodings of two
    natural numbers, each followed by arbitrary bytes, give the same byte
    string, then the numbers are equal and so are the bytes that follow; in
    particular the encoding is injective. *)
Theorem write_varint_prefix_free (a b : Z) (r1 r2 : bytes) :
  0 <= a -> 0 <= b ->
  _write_varint a ++ r1 = _write_varint b ++ r2 ->
  a = b /\ r1 = r2.
Proof.
  intros Ha Hb E.
  pose proof (uvarint_decode_write a r1 Ha) as H1.
  rewrite E, (uvarint_decode_write b r2 Hb) in H1.
  injection H1 as -> ->. split; reflexivity.
Qed.

Lemma write_varint_prefix_free_witness :
  300 = 300 /\ [x07] = [x07].
Proof.
  apply (write_varint_prefix_free 300 300 [x07] [x07]); [lia | lia | reflexivity].
Defined.

Lemma uvarint_decode_bound (bs : bytes) :
  forall (v : Z) (rest : bytes),
    uvarint_decode bs = Some (v, rest) ->
    (length rest < length bs)%nat /\
    0 <= v < 2 ^ (7 * Z.of_nat (length bs - length rest)).
Proof.
  induction bs as [|b bs IH]; intros v rest H; [discriminate|].
  cbn [uvarint_decode] in H.
  pose proof (Z_of_byte_range b) as Hb.
  destruct (Z.testbit (Z_of_byte b) 7) eqn:Hbit.
  - destruct (uvarint_decode bs) as [[hi rest']|] eqn:Hd; [|discriminate].
    injection H as <- <-. destruct (IH _ _ eq_refl) as [Hlen Hhi].
    split; [simpl; lia|].
    replace (length (b :: bs) - length rest')%nat
      with (S (length bs - length rest'))%nat by (simpl; lia).
    rewrite Nat2Z.inj_succ.
    replace (7 * Z.succ (Z.of_nat (length bs - length rest')))
      with (7 + 7 * Z.of_nat (length bs - length rest')) by lia.
    rewrite Z.pow_add_r by lia.
    rewrite Z.shiftl_mul_pow2 by lia.
    assert (Hl : 0 <= Z.land (Z_of_byte b) 0x7F < 2 ^ 7).
    { change 0x7F with (Z.ones 7). rewrite Z.land_ones by lia.
      apply Z.mod_pos_bound. lia. }
    nia.
  - injection H as <- <-. split; [simpl; lia|].
    replace (length (b :: bs) - length bs)%nat with 1%nat by (simpl; lia).
    assert (Z_of_byte b < 128); [|change (2 ^ (7 * Z.of_nat 1)) with 128; lia].
    destruct (Z.ltb_spec (Z_of_byte b) 128) as [|Hge]; [assumption|].
    exfalso.
    assert (Hbit' : Z.testbit (Z_of_byte b) 7 = true); [|congruence].
    rewrite Z.testbit_true by lia. change (2 ^ 7) with 128.
    assert (Hq : Z_of_byte b / 128 = 1)
      by (symmetry; apply Z.div_unique with (r := Z_of_byte b - 128); lia).
    rewrite Hq. reflexivity.
Qed.

(** X16: the varint encoding is the shortest one.  Any byte string that
    reads as the natural number [v] uses at least as many bytes as the
    writer emits for [v]. *)
Theorem write_varint_shortest (v : Z) (bs rest : bytes) :
  uvarint_decode bs = Some (v, rest) ->
  0 <= v /\
  (length (_write_varint v) <= length bs - length rest)%nat.
Proof.
  intros H. destruct (uvarint_decode_bound bs v rest H) as [Hlen [Hv0 Hv]].
  split; [exact Hv0|].
  rewrite _write_varint_length by exact Hv0. unfold varint_size.
  set (k := (length bs - length rest)%nat) in *.
  assert (Hk : (1 <= k)%nat) by (subst k; lia).
  destruct (Z.eq_dec v 0) as [->|Hne];
    [change (Z.log2 0 / 7) with 0; change (Z.to_nat 0) with 0%nat; lia|].
  assert (Hlog : Z.log2 v < 7 * Z.of_nat k) by (apply Z.log2_lt_pow2; lia).
  assert (Z.log2 v / 7 < Z.of_nat k) by (apply Z.div_lt_upper_bound; lia).
  pose proof (Z.log2_nonneg v).
  assert (0 <= Z.log2 v / 7) by (apply Z.div_pos; lia).
  lia.
Qed.

Lemma write_varint_shortest_witness :
  0 <= 1 /\ (length (_write_varint 1) <= length [x81; x80; x00] - length ([] : bytes))%nat.
Proof.
  apply (write_varint_shortest 1 [x81; x80; x00] []). reflexivity.
Defined.

(** X17: the varint writer does not refuse a negative number: the loop is
    not entered and it emits the single byte [value & 0x7F], which is the
    encoding of [value mod 128]; reading it back gives that number, not
    [value]. *)
Theorem write_varint_negative (v : Z) (rest : bytes) :
  v < 0 ->
  _write_varint v = _write_varint (v mod 128) /\
  length (_write_varint v) = 1%nat /\
  uvarint_decode (_write_varint v ++ rest) = Some (v mod 128, rest) /\
  v mod 128 <> v.
Proof.
  intros Hv.
  assert (Hm : 0 <= v mod 128 < 128) by (apply Z.mod_pos_bound; lia).
  assert (E : _write_varint v = _write_varint (v mod 128)).
  { rewrite (_write_varint_unfold v), (_write_varint_unfold (v mod 128)).
    destruct (Z.leb_spec 0x80 v); [lia|].
    destruct (Z.leb_spec 0x80 (v mod 128)); [lia|].
    do 2 f_equal. change 0x7F with (Z.ones 7). rewrite !Z.land_ones by lia.
    change (2 ^ 7) with 128. rewrite Z.mod_mod by lia. reflexivity. }
  split; [exact E|]. split; [|split].
  - rewrite E, _write_varint_unfold.
    destruct (Z.leb_spec 0x80 (v mod 128)); [lia | reflexivity].
  - rewrite E. apply uvarint_decode_write. lia.
  - lia.
Qed.

Lemma write_varint_negative_witness :
  _write_varint (-1) = _write_varint 127 /\
  uvarint_decode (_write_varint (-1) ++ []) = Some (127, []).
Proof.
  destruct (write_varint_negative (-1) []) as (H1 & _ & H2 & _); [lia|].
  split; [exact H1 | exact H2].
Defined.

(** ** The legacy protobuf writer *)

Lemma tag_split (field_number wire_type : Z) :
  0 <= field_number -> 0 <= wire_type < 8 ->
  let tag := Z.lor (Z.shiftl field_number 3) wire_type in
  0 <= tag /\ Z.shiftr tag 3 = field_number /\ Z.land tag 7 = wire_type.
Proof.
  intros Hf Hw. cbv zeta.
  assert (E : Z.lor (Z.shiftl field_number 3) wire_type = field_number * 8 + wire_type).
  { rewrite Z.shiftl_mul_pow2 by lia. change (2 ^ 3) with 8.
    assert (Hland : Z.land (field_number * 8) wire_type = 0).
    { apply Z.bits_inj'. intros n Hn. rewrite Z.land_spec, Z.bits_0.
      destruct (Z.ltb_spec n 3).
      - change 8 with (2 ^ 3). rewrite Z.mul_pow2_bits_low by lia. reflexivity.
      - rewrite (Z.bits_above_log2 wire_type n); [apply andb_false_r | lia |].
        destruct (Z.eq_dec wire_type 0) as [->|]; [simpl; lia|].
        assert (Z.log2 wire_type < 3) by (apply Z.log2_lt_pow2; lia). lia. }
    pose proof (Z.add_lor_land (field_number * 8) wire_type). lia. }
  rewrite E. split; [lia|]. split.
  - rewrite Z.shiftr_div_pow2 by lia. change (2 ^ 3) with 8.
    symmetry. apply Z.div_unique with (r := wire_type); lia.
  - change 7 with (Z.ones 3). rewrite Z.land_ones by lia. change (2 ^ 3) with 8.
    symmetry. apply Z.mod_unique with (q := field_number); lia.
Qed.

Lemma protobuf_uint64_read (field_number value : Z) (rest : bytes) :
  0 <= field_number -> 0 <= value ->
  read_field (ProtobufWriter.write_uint64_field field_number value [] ++ rest)
    = Some (field_number, varint_field value, rest).
Proof.
  intros Hf Hv.
  unfold ProtobufWriter.write_uint64_field, ProtobufWriter.write_tag,
    ProtobufWriter.write_varint.
  cbv zeta. rewrite !app_nil_l.
  destruct (tag_split field_number ProtobufWriter.VARINT Hf) as (Ht0 & Hs0 & Hl0);
    [unfold ProtobufWriter.VARINT; lia|].
  unfold read_field. rewrite <- app_assoc.
  rewrite uvarint_decode_write by exact Ht0. rewrite Hs0, Hl0.
  unfold ProtobufWriter.VARINT. rewrite uvarint_decode_write by exact Hv.
  reflexivity.
Qed.

(** X18: the fields the legacy [ProtobufWriter] writes are read back.  Each
    method appends to the output and leaves what was written before; for a
    field number that is not negative, reading an unsigned field gives the
    field number and the value, and reading a length-delimited field (or a
    nested message) gives the field number and exactly the data, and both
    leave the bytes that follow. *)
Theorem protobuf_fields_read_back (field_number value : Z) (data output rest : bytes) :
  0 <= field_number -> 0 <= value ->
  ProtobufWriter.write_uint64_field field_number value output
    = output ++ ProtobufWriter.write_uint64_field field_number value [] /\
  ProtobufWriter.write_length_delimited field_number data output
    = output ++ ProtobufWriter.write_length_delimited field_number data [] /\
  read_field (ProtobufWriter.write_uint64_field field_number value [] ++ rest)
    = Some (field_number, varint_field value, rest) /\
  read_field (ProtobufWriter.write_length_delimited field_number data [] ++ rest)
    = Some (field_number, bytes_field data, rest) /\
  read_field (ProtobufWriter.write_message field_number data [] ++ rest)
    = Some (field_number, bytes_field data, rest).
Proof.
  intros Hf Hv.
  unfold ProtobufWriter.write_message, ProtobufWriter.write_uint64_field,
    ProtobufWriter.write_length_delimited, ProtobufWriter.write_tag,
    ProtobufWriter.write_varint.
  cbv zeta. rewrite !app_nil_l.
  split; [rewrite app_assoc; reflexivity|].
  split; [rewrite !app_assoc; reflexivity|].
  destruct (tag_split field_number ProtobufWriter.VARINT Hf) as (Ht0 & Hs0 & Hl0);
    [unfold ProtobufWriter.VARINT; lia|].
  destruct (tag_split field_number ProtobufWriter.LENGTH_DELIMITED Hf)
    as (Ht2 & Hs2 & Hl2); [unfold ProtobufWriter.LENGTH_DELIMITED; lia|].
  assert (Hlen : read_field
            ((_write_varint
                (Z.lor (Z.shiftl field_number 3) ProtobufWriter.LENGTH_DELIMITED)
              ++ _write_varint (Z.of_nat (length data))) ++ data ++ rest)
          = Some (field_number, bytes_field data, rest)).
  { unfold read_field. rewrite <- app_assoc.
    rewrite uvarint_decode_write by exact Ht2. rewrite Hs2, Hl2.
    unfold ProtobufWriter.LENGTH_DELIMITED.
    rewrite uvarint_decode_write by lia. rewrite Nat2Z.id, length_app.
    destruct (Nat.leb_spec (length data) (length data + length rest)); [|lia].
    rewrite take_app_length, drop_app_length. reflexivity. }
  split; [|split].
  - apply (protobuf_uint64_read field_number value rest Hf Hv).
  - rewrite <- app_assoc. exact Hlen.
  - rewrite <- app_assoc. exact Hlen.
Qed.

Lemma protobuf_fields_read_back_witness :
  ProtobufWriter.write_uint64_field 3 300 [] = [x18; xac; x02] /\
  read_field (ProtobufWriter.write_uint64_field 3 300 [] ++ [xff])
    = Some (3, varint_field 300, [xff]) /\
  read_field (ProtobufWriter.write_length_delimited 3 [x01; x02] [] ++ [xff])
    = Some (3, bytes_field [x01; x02], [xff]).
Proof.
  split; [reflexivity|].
  destruct (protobuf_fields_read_back 3 300 [x01; x02] [] [xff])
    as (_ & _ & H1 & H2 & _); [lia | lia |].
  split; [exact H1 | exact H2].
Defined.

Lemma zigzag_value (value : Z) :
  Z.lxor (Z.shiftl value 1) (Z.shiftr value 63) =
    if value <? 0 then
      if - 2 ^ 63 <=? value then - 2 * value - 1
      else Z.lxor (2 * value) (Z.shiftr value 63)
    else if value <? 2 ^ 63 then 2 * value
    else Z.lxor (2 * value) (Z.shiftr value 63).
Proof.
  rewrite Z.shiftl_mul_pow2 by lia. change (2 ^ 1) with 2.
  rewrite (Z.mul_comm value 2).
  destruct (Z.ltb_spec value 0) as [Hn|Hn].
  - destruct (Z.leb_spec (- 2 ^ 63) value) as [Hlo|Hlo]; [|reflexivity].
    assert (E : Z.shiftr value 63 = -1).
    { rewrite Z.shiftr_div_pow2 by lia.
      symmetry. apply Z.div_unique with (r := value + 2 ^ 63); lia. }
    rewrite E, Z.lxor_m1_r. unfold Z.lnot. lia.
  - destruct (Z.ltb_spec value (2 ^ 63)) as [Hhi|Hhi]; [|reflexivity].
    assert (E : Z.shiftr value 63 = 0).
    { rewrite Z.shiftr_div_pow2 by lia. apply Z.div_small. lia. }
    rewrite E, Z.lxor_0_r. reflexivity.
Qed.

(** X19: the zigzag map of [write_int64_field] is invertible on the 64-bit
    signed range.  For [-2^63 <= value < 2^63] the number written is
    [2 * value] when [value] is not negative and [-2 * value - 1] when it
    is, hence below [2^64]; reading the field back and undoing the zigzag
    gives [value]. *)
Theorem write_int64_field_roundtrip (field_number value : Z) (rest : bytes) :
  0 <= field_number -> - 2 ^ 63 <= value < 2 ^ 63 ->
  exists n,
    read_field (ProtobufWriter.write_int64_field field_number value [] ++ rest)
      = Some (field_number, varint_field n, rest) /\
    n = (if value <? 0 then - 2 * value - 1 else 2 * value) /\
    0 <= n < 2 ^ 64 /\
    zigzag_decode n = value.
Proof.
  intros Hf Hv.
  exists (if value <? 0 then - 2 * value - 1 else 2 * value).
  assert (E : Z.lxor (Z.shiftl value 1) (Z.shiftr value 63)
              = (if value <? 0 then - 2 * value - 1 else 2 * value)).
  { rewrite zigzag_value.
    destruct (Z.ltb_spec value 0).
    - destruct (Z.leb_spec (- 2 ^ 63) value); [reflexivity | lia].
    - destruct (Z.ltb_spec value (2 ^ 63)); [reflexivity | lia]. }
  assert (Hn : 0 <= (if value <? 0 then - 2 * value - 1 else 2 * value) < 2 ^ 64)
    by (destruct (Z.ltb_spec value 0); lia).
  split.
  { unfold ProtobufWriter.write_int64_field. cbv zeta. rewrite E.
    apply (protobuf_uint64_read field_number _ rest Hf (proj1 Hn)). }
  split; [reflexivity|]. split; [exact Hn|].
  unfold zigzag_decode. destruct (Z.ltb_spec value 0) as [Hneg|Hpos].
  - replace (- 2 * value - 1) with (1 + 2 * (- value - 1)) by lia.
    assert (E1 : Z.shiftr (1 + 2 * (- value - 1)) 1 = - value - 1).
    { rewrite Z.shiftr_div_pow2 by lia. change (2 ^ 1) with 2.
      symmetry. apply Z.div_unique with (r := 1); lia. }
    assert (E2 : Z.land (1 + 2 * (- value - 1)) 1 = 1).
    { change 1 with (Z.ones 1) at 3. rewrite Z.land_ones by lia. change (2 ^ 1) with 2.
      symmetry. apply Z.mod_unique with (q := - value - 1); lia. }
    rewrite E1, E2. change (- (1)) with (-1). rewrite Z.lxor_m1_r.
    unfold Z.lnot. lia.
  - assert (E1 : Z.shiftr (2 * value) 1 = value).
    { rewrite Z.shiftr_div_pow2 by lia. change (2 ^ 1) with 2.
      symmetry. apply Z.div_unique with (r := 0); lia. }
    assert (E2 : Z.land (2 * value) 1 = 0).
    { change 1 with (Z.ones 1). rewrite Z.land_ones by lia. change (2 ^ 1) with 2.
      symmetry. apply Z.mod_unique with (q := value); lia. }
    rewrite E1, E2. change (- 0) with 0. apply Z.lxor_0_r.
Qed.

Lemma write_int64_field_roundtrip_witness :
  - 2 ^ 63 <= -3 < 2 ^ 63 /\
  ProtobufWriter.write_int64_field 2 (-3) [] = [x10; x05] /\
  exists n,
    read_field (ProtobufWriter.write_int64_field 2 (-3) [] ++ [])
      = Some (2, varint_field n, []) /\
    n = 5 /\ zigzag_decode n = -3.
Proof.
  split; [lia|]. split; [reflexivity|].
  destruct (write_int64_field_roundtrip 2 (-3) []) as (n & H1 & H2 & _ & H3);
    [lia | lia |].
  exists n. split; [exact H1|]. split; [exact H2 | exact H3].
Defined.

(** ** Attribute names *)

Lemma string_app_inj_l (s a b : string) : s +:+ a = s +:+ b -> a = b.
Proof.
  induction s as [|c s IH]; [auto|].
  rewrite !string_app_cons. intros [= H]. auto.
Qed.

Lemma string_app_inj_r (s : string) : forall a b : string, a +:+ s = b +:+ s -> a = b.
Proof.
  intros a. induction a as [|c a IH]; intros [|d b] H.
  - reflexivity.
  - exfalso. apply (f_equal String.length) in H.
    rewrite string_app_nil_l, string_app_cons in H. simpl in H.
    rewrite length_string_app in H. lia.
  - exfalso. apply (f_equal String.length) in H.
    rewrite string_app_nil_l, string_app_cons in H. simpl in H.
    rewrite length_string_app in H. lia.
  - rewrite !string_app_cons in H. injection H as -> H. f_equal. apply IH, H.
Qed.

Lemma prefix_string_app (s1 s2 : string) : String.prefix s1 (s1 +:+ s2) = true.
Proof.
  induction s1 as [|c s1 IH]; [destruct s2; reflexivity|].
  rewrite string_app_cons. simpl.
  destruct (ascii_dec c c) as [_|Hne]; [exact IH | congruence].
Qed.

(** X20: [_format_name] appends a suffix that tells the radix: the name
    given is a prefix of the result, and is the whole result exactly for
    STRING and REAL.  With the radix fixed the result determines the name;
    with the name fixed it determines the radix, save that STRING and REAL
    cannot be told apart.  Name and radix together are not determined: a
    name that ends in a suffix collides with the shorter name. *)
Theorem format_name_properties (name name' : string) (radix radix' : Radix) :
  String.prefix name (PerfettoTransaction._format_name name radix) = true /\
  (PerfettoTransaction._format_name name radix = name
     <-> radix = STRING \/ radix = REAL) /\
  (PerfettoTransaction._format_name name radix
     = PerfettoTransaction._format_name name' radix -> name = name') /\
  (PerfettoTransaction._format_name name radix
     = PerfettoTransaction._format_name name radix' ->
   radix = radix' \/
   ((radix = STRING \/ radix = REAL) /\ (radix' = STRING \/ radix' = REAL))) /\
  PerfettoTransaction._format_name (name +:+ "[hex]") STRING
    = PerfettoTransaction._format_name name HEX.
Proof.
  unfold PerfettoTransaction._format_name.
  split; [apply prefix_string_app|]. split; [|split; [|split]].
  - split.
    + intros H. rewrite <- (string_app_nil_r name) in H at 2.
      apply string_app_inj_l in H.
      destruct radix; try discriminate; auto.
    + intros [-> | ->]; apply string_app_nil_r.
  - apply string_app_inj_r.
  - intros H. apply string_app_inj_l in H.
    destruct radix, radix'; try discriminate; auto 6.
  - apply string_app_nil_r.
Qed.

(** X21: the two copies of the formatting functions.  The legacy
    [format_radix_name] is [_format_name]; the legacy [bits_to_string] gives
    what [_bits_to_string] gives for every radix but OCT, where it has no
    branch and falls back to the hex rendering, so that the two never agree
    there. *)
Theorem legacy_formatters_agree (name : string) (bits : bytes) (num_bits : Z)
    (radix : Radix) :
  format_radix_name name radix = PerfettoTransaction._format_name name radix /\
  (radix <> OCT ->
     bits_to_string bits num_bits radix
       = PerfettoTransaction._bits_to_string bits num_bits radix) /\
  bits_to_string bits num_bits OCT = "0x" +:+ bytes_hex bits /\
  bits_to_string bits num_bits OCT
    <> PerfettoTransaction._bits_to_string bits num_bits OCT.
Proof.
  split; [destruct radix; reflexivity|].
  split; [intros Hne; destruct radix; try reflexivity; congruence|].
  split; [reflexivity|].
  unfold bits_to_string, PerfettoTransaction._bits_to_string.
  change ("0x" +:+ bytes_hex bits) with (String "0" (String "x" (bytes_hex bits))).
  change ("0o" +:+ oct_digits (int_from_bytes_little bits))
    with (String "0" (String "o" (oct_digits (int_from_bytes_little bits)))).
  intros [= H]. 
Qed.

Lemma legacy_formatters_agree_witness :
  BIN <> OCT /\
  bits_to_string [x05] 3 BIN = PerfettoTransaction._bits_to_string [x05] 3 BIN /\
  bits_to_string [x08] 8 OCT = "0x08" /\
  PerfettoTransaction._bits_to_string [x08] 8 OCT = "0o10".
Proof.
  split; [discriminate|].
  destruct (legacy_formatters_agree "a" [x05] 3 BIN) as (_ & H & _).
  split; [apply H; discriminate|]. split; reflexivity.
Defined.

(** ** What the renderings of a bit vector denote *)

Lemma digits_value_app (base : Z) (s1 s2 : string) :
  forall acc : Z,
    digits_value base acc (s1 +:+ s2) =
      match digits_value base acc s1 with
      | Some v => digits_value base v s2
      | None => None
      end.
Proof.
  induction s1 as [|c s1 IH]; intros acc; [reflexivity|].
  rewrite string_app_cons. cbn [digits_value].
  destruct (digit_value c) as [d|]; [|reflexivity].
  destruct (d <? base); [apply IH | reflexivity].
Qed.

Lemma digits_value_acc (base : Z) (s : string) :
  forall acc : Z,
    digits_value base acc s =
      match digits_value base 0 s with
      | Some v => Some (base ^ Z.of_nat (String.length s) * acc + v)
      | None => None
      end.
Proof.
  induction s as [|c s IH]; intros acc.
  - simpl. f_equal. lia.
  - cbn [digits_value String.length].
    destruct (digit_value c) as [d|]; [|reflexivity].
    destruct (d <? base); [|reflexivity].
    rewrite (IH (base * acc + d)), (IH (base * 0 + d)).
    destruct (digits_value base 0 s) as [v|]; [|reflexivity].
    f_equal. rewrite Nat2Z.inj_succ, Z.pow_succ_r by lia. ring.
Qed.

Lemma digits_value_format_08b (b : byte) (acc : Z) :
  digits_value 2 acc (format_08b b) = Some (256 * acc + Z_of_byte b).
Proof.
  rewrite digits_value_acc, length_format_08b.
  assert (E : digits_value 2 0 (format_08b b) = Some (Z_of_byte b))
    by (destruct b; reflexivity).
  rewrite E. reflexivity.
Qed.

Lemma digits_value_hex_byte (b : byte) (acc : Z) (s : string) :
  digits_value 16 acc
    (String (hex_digit (Byte.to_N b / 16)) (String (hex_digit (Byte.to_N b mod 16)) s))
  = digits_value 16 (256 * acc + Z_of_byte b) s.
Proof.
  change (String (hex_digit (Byte.to_N b / 16))
            (String (hex_digit (Byte.to_N b mod 16)) s))
    with (String (hex_digit (Byte.to_N b / 16))
            (String (hex_digit (Byte.to_N b mod 16)) EmptyString) +:+ s).
  rewrite digits_value_app, digits_value_acc.
  assert (E : digits_value 16 0
                (String (hex_digit (Byte.to_N b / 16))
                   (String (hex_digit (Byte.to_N b mod 16)) EmptyString))
              = Some (Z_of_byte b))
    by (destruct b; reflexivity).
  rewrite E. reflexivity.
Qed.

Lemma digits_value_bin_digits (l : bytes) :
  forall acc : Z,
    digits_value 2 acc (bin_digits l)
      = Some (fold_left (fun acc b => 256 * acc + Z_of_byte b) l acc).
Proof.
  induction l as [|b l IH]; intros acc; [reflexivity|].
  change (bin_digits (b :: l)) with (format_08b b +:+ bin_digits l).
  rewrite digits_value_app, digits_value_format_08b. apply IH.
Qed.

Lemma digits_value_bytes_hex (l : bytes) :
  forall acc : Z,
    digits_value 16 acc (bytes_hex l)
      = Some (fold_left (fun acc b => 256 * acc + Z_of_byte b) l acc).
Proof.
  induction l as [|b l IH]; intros acc; [reflexivity|].
  cbn [bytes_hex fold_left]. rewrite digits_value_hex_byte. apply IH.
Qed.

Lemma int_from_bytes_big_rev (bits : bytes) :
  int_from_bytes_big (rev bits) = int_from_bytes_little bits.
Proof.
  unfold int_from_bytes_big. induction bits as [|b bits IH]; [reflexivity|].
  simpl rev. rewrite fold_left_app. cbn [fold_left int_from_bytes_little].
  rewrite IH. lia.
Qed.

Lemma digit_value_oct_digit (v : Z) : 0 <= v < 8 -> digit_value (oct_digit v) = Some v.
Proof.
  intros Hv.
  assert (H : v = 0 \/ v = 1 \/ v = 2 \/ v = 3 \/ v = 4 \/ v = 5 \/ v = 6 \/ v = 7)
    by lia.
  repeat (destruct H as [-> | H]; [reflexivity|]). subst v. reflexivity.
Qed.

Lemma digits_value_oct_digits (v : Z) :
  0 <= v -> digits_value 8 0 (oct_digits v) = Some v.
Proof.
  intros Hv. pattern v. apply Zlt_0_ind; [|exact Hv]. clear v Hv.
  intros v IH Hv. rewrite oct_digits_unfold.
  destruct (Z.ltb_spec v 8) as [Hlt|Hge].
  - cbn [digits_value]. rewrite digit_value_oct_digit by lia.
    destruct (Z.ltb_spec v 8); [|lia]. f_equal; lia.
  - rewrite digits_value_app.
    assert (0 <= v / 8 < v)
      by (split; [apply Z.div_pos; lia | apply Z.div_lt; lia]).
    rewrite IH by lia. cbn [digits_value].
    assert (Hm : 0 <= v mod 8 < 8) by (apply Z.mod_pos_bound; lia).
    rewrite digit_value_oct_digit by exact Hm.
    destruct (Z.ltb_spec (v mod 8) 8); [|lia].
    f_equal. rewrite (Z.div_mod v 8) at 3 by lia. reflexivity.
Qed.

(** The value of the first [k] digits of a digit string: the value of the
    whole divided by the weight of the digits left out. *)
Lemma digits_value_range (base : Z) (s : string) :
  0 < base ->
  forall acc v : Z,
    digits_value base acc s = Some v ->
    base ^ Z.of_nat (String.length s) * acc <= v
      < base ^ Z.of_nat (String.length s) * acc + base ^ Z.of_nat (String.length s).
Proof.
  intros Hb. induction s as [|c s IH]; intros acc v H.
  - injection H as <-. simpl. lia.
  - cbn [digits_value] in H.
    destruct (digit_value c) as [d|] eqn:Ed; [|discriminate].
    destruct (Z.ltb_spec d base) as [Hd|Hd]; [|discriminate].
    assert (Hd0 : 0 <= d).
    { unfold digit_value in Ed.
      destruct ((48 <=? Z.of_N (N_of_ascii c)) && (Z.of_N (N_of_ascii c) <=? 57)) eqn:E1.
      - injection Ed as <-. apply andb_true_iff in E1 as [E1 _]. lia.
      - destruct ((97 <=? Z.of_N (N_of_ascii c)) && (Z.of_N (N_of_ascii c) <=? 102)) eqn:E2;
          [|discriminate].
        injection Ed as <-. apply andb_true_iff in E2 as [E2 _]. lia. }
    specialize (IH _ _ H). cbn [String.length].
    rewrite Nat2Z.inj_succ, Z.pow_succ_r by lia.
    assert (0 < base ^ Z.of_nat (String.length s)) by (apply Z.pow_pos_nonneg; lia).
    nia.
Qed.

Lemma digits_value_substring (base : Z) (s : string) :
  0 < base ->
  forall (k : nat) (acc v : Z),
    digits_value base acc s = Some v -> (k <= String.length s)%nat ->
    digits_value base acc (String.substring 0 k s)
      = Some (v / base ^ Z.of_nat (String.length s - k)).
Proof.
  intros Hb. induction s as [|c s IH]; intros k acc v H Hk.
  - simpl in Hk. assert (k = 0%nat) by lia. subst k. injection H as <-.
    simpl. rewrite Z.div_1_r. reflexivity.
  - destruct k as [|k].
    + cbn [String.substring]. rewrite Nat.sub_0_r.
      pose proof (digits_value_range base (String c s) Hb acc v H) as Hr.
      assert (0 < base ^ Z.of_nat (String.length (String c s)))
        by (apply Z.pow_pos_nonneg; lia).
      cbn [digits_value]. f_equal. apply Z.div_unique
        with (r := v - base ^ Z.of_nat (String.length (String c s)) * acc); lia.
    + cbn [String.substring digits_value] in *.
      destruct (digit_value c) as [d|]; [|discriminate].
      destruct (d <? base); [|discriminate].
      cbn [String.length] in *. rewrite Nat.sub_succ.
      apply IH; [exact H | lia].
Qed.

Lemma bytes_fromhex_hex (bs : bytes) : bytes_fromhex (bytes_hex bs) = Some bs.
Proof.
  induction bs as [|b bs IH]; [reflexivity|].
  cbn [bytes_hex bytes_fromhex]. rewrite IH.
  assert (E : match digit_value (hex_digit (Byte.to_N b / 16)),
                    digit_value (hex_digit (Byte.to_N b mod 16)) with
              | Some h, Some l => Some (byte_of_Z (16 * h + l))
              | _, _ => None
              end = Some b) by (destruct b; reflexivity).
  destruct (digit_value (hex_digit (Byte.to_N b / 16))) as [h|]; [|discriminate].
  destruct (digit_value (hex_digit (Byte.to_N b mod 16))) as [l|]; [|discriminate].
  injection E as ->. reflexivity.
Qed.

(** X22: what the renderings of a bit vector denote.  Read as integer
    literals, the OCT rendering denotes the little-endian value of the
    bytes, the HEX rendering (and that of every radix without a branch of
    its own) denotes their big-endian value, and the BIN rendering of
    [num_bits] bits, [0 <= num_bits <= 8 * len(bits)], denotes the
    little-endian value shifted right by the [8 * len(bits) - num_bits] bits
    the slice cut off: the slice keeps the most significant digits, so a
    vector narrower than its bytes loses its low bits, not its high ones. *)
Theorem bit_renderings_denote (bits : bytes) (num_bits : Z) :
  int_literal (PerfettoTransaction._bits_to_string bits num_bits HEX)
    = Some (int_from_bytes_big bits) /\
  int_literal (PerfettoTransaction._bits_to_string bits num_bits OCT)
    = Some (int_from_bytes_little bits) /\
  (0 <= num_bits <= 8 * Z.of_nat (length bits) ->
   int_literal (PerfettoTransaction._bits_to_string bits num_bits BIN)
     = Some (Z.shiftr (int_from_bytes_little bits)
               (8 * Z.of_nat (length bits) - num_bits))) /\
  int_from_bytes_big bits = int_from_bytes_little (rev bits) /\
  0 <= int_from_bytes_little bits < 2 ^ (8 * Z.of_nat (length bits)).
Proof.
  assert (Hbin : digits_value 2 0 (bin_digits (rev bits))
                 = Some (int_from_bytes_little bits)).
  { rewrite digits_value_bin_digits. f_equal. apply int_from_bytes_big_rev. }
  assert (Hrange : 0 <= int_from_bytes_little bits < 2 ^ (8 * Z.of_nat (length bits))).
  { pose proof (digits_value_range 2 (bin_digits (rev bits)) ltac:(lia) 0 _ Hbin) as H.
    rewrite length_bin_digits, length_rev in H.
    replace (Z.of_nat (8 * length bits)) with (8 * Z.of_nat (length bits)) in H by lia.
    lia. }
  split; [|split; [|split; [|split]]].
  - change (PerfettoTransaction._bits_to_string bits num_bits HEX)
      with (String "0" (String "x" (bytes_hex bits))).
    cbn [int_literal]. apply digits_value_bytes_hex.
  - change (PerfettoTransaction._bits_to_string bits num_bits OCT)
      with (String "0" (String "o" (oct_digits (int_from_bytes_little bits)))).
    cbn [int_literal]. apply digits_value_oct_digits. lia.
  - intros Hn. rewrite _bits_to_string_BIN. unfold py_slice_to.
    destruct (Z.leb_spec 0 (2 + num_bits)); [|lia].
    replace (Z.to_nat (2 + num_bits)) with (S (S (Z.to_nat num_bits))) by lia.
    change ("0b" +:+ bin_digits (rev bits))
      with (String "0" (String "b" (bin_digits (rev bits)))).
    cbn [String.substring int_literal].
    rewrite (digits_value_substring 2 _ ltac:(lia) _ 0 _ Hbin)
      by (rewrite length_bin_digits, length_rev; lia).
    f_equal. rewrite length_bin_digits, length_rev.
    rewrite Z.shiftr_div_pow2 by lia. do 2 f_equal. lia.
  - rewrite <- (rev_involutive bits) at 1. apply int_from_bytes_big_rev.
  - exact Hrange.
Qed.

Lemma bit_renderings_denote_witness :
  0 <= 12 <= 8 * Z.of_nat (length [x34; x02]) /\
  int_from_bytes_little [x34; x02] = 564 /\
  PerfettoTransaction._bits_to_string [x34; x02] 12 BIN = "0b000000100011" /\
  int_literal (PerfettoTransaction._bits_to_string [x34; x02] 12 BIN) = Some 35 /\
  int_literal (PerfettoTransaction._bits_to_string [x34; x02] 12 HEX) = Some 13314.
Proof.
  split; [simpl; lia|]. split; [reflexivity|]. split; [reflexivity|].
  destruct (bit_renderings_denote [x34; x02] 12) as (H1 & _ & H2 & _).
  split; [rewrite H2 by (simpl; lia); reflexivity | exact H1].
Defined.

(** X23: a blob is recorded without loss.  [add_blob] on any transaction
    returns normally and appends one string annotation under the name
    given, two lowercase hex digits per byte; decoding the digits gives the
    bytes back. *)
Theorem add_blob_roundtrip (w : World) (self : ref) (t : PerfettoTransactionObj)
    (name : string) (data : bytes) :
  txns w !! self = Some t ->
  PerfettoTransaction.add_blob self name data w =
    Ret tt
      (with_txn self
         (set_txn_attributes
            (txn_attributes t ++ [mkDebugAnnotation name (string_value (bytes_hex data))])
            t) w) /\
  String.length (bytes_hex data) = (2 * length data)%nat /\
  bytes_fromhex (bytes_hex data) = Some data.
Proof.
  intros Ht. split; [apply (append_attribute_eq w self t _ Ht)|].
  split; [|apply bytes_fromhex_hex].
  induction data as [|b data IH]; [reflexivity|].
  cbn [bytes_hex String.length length]. rewrite IH. lia.
Qed.

Lemma add_blob_roundtrip_witness :
  exists o w',
    txns session !! 0%nat = Some o /\
    PerfettoTransaction.add_blob 0 "payload" [xde; xad; xbe; xef] session = Ret tt w' /\
    bytes_hex [xde; xad; xbe; xef] = "deadbeef" /\
    bytes_fromhex "deadbeef" = Some [xde; xad; xbe; xef].
Proof.
  destruct (add_blob_roundtrip session 0 _ "payload" [xde; xad; xbe; xef] eq_refl)
    as (H1 & _ & H2).
  eexists _, _. split; [reflexivity|]. split; [exact H1|].
  split; [reflexivity | exact H2].
Defined.

(** ** The shape of the files *)

Lemma declared_app (ps qs : list TracePacket) :
  declared (ps ++ qs) = declared ps ++ declared qs.
Proof. apply omap_app. Qed.

Lemma body_ok_app_aux (n : nat) :
  forall (ps qs : list TracePacket) (tracks : list Z),
    (length ps <= n)%nat ->
    body_ok tracks ps = true ->
    body_ok tracks (ps ++ qs) = body_ok (tracks ++ declared ps) qs.
Proof.
  induction n as [|n IH]; intros ps qs tracks Hlen Hok.
  - destruct ps; [|simpl in Hlen; lia]. simpl. rewrite app_nil_r. reflexivity.
  - destruct ps as [|p ps]; [simpl; rewrite app_nil_r; reflexivity|].
    simpl in Hlen. change (declared (p :: ps)) with
      (match (match packet_data p with
              | track_descriptor d => Some (descriptor_uuid d)
              | _ => None
              end) with
       | Some u => u :: declared ps
       | None => declared ps
       end).
    cbn [app body_ok] in *.
    destruct (packet_data p) as [cl|d|e]; [discriminate| |].
    + apply andb_true_iff in Hok as [H1 H2]. rewrite H1. cbn [andb].
      rewrite (IH ps qs _ ltac:(lia) H2), <- app_assoc. reflexivity.
    + destruct (event_type e); [|discriminate].
      destruct ps as [|q ps]; [discriminate|]. cbn [app].
      change (declared (q :: ps)) with
        (match (match packet_data q with
                | track_descriptor d => Some (descriptor_uuid d)
                | _ => None
                end) with
         | Some u => u :: declared ps
         | None => declared ps
         end).
      destruct (packet_data q) as [cl|d|e']; [discriminate|discriminate|].
      destruct (event_type e'); [discriminate|].
      apply andb_true_iff in Hok as [H1 H2]. rewrite H1. cbn [andb].
      simpl in Hlen. apply (IH ps qs _ ltac:(lia) H2).
Qed.

Lemma body_ok_app (ps qs : list TracePacket) (tracks : list Z) :
  body_ok tracks ps = true ->
  body_ok tracks (ps ++ qs) = body_ok (tracks ++ declared ps) qs.
Proof. apply (body_ok_app_aux (length ps)). reflexivity. Qed.

Lemma file_ok_app (ps qs : list TracePacket) :
  file_ok ps = true -> file_ok (ps ++ qs) = body_ok (declared ps) qs.
Proof.
  destruct ps as [|p ps]; [discriminate|]. cbn [app file_ok].
  change (declared (p :: ps)) with
    (match (match packet_data p with
            | track_descriptor d => Some (descriptor_uuid d)
            | _ => None
            end) with
     | Some u => u :: declared ps
     | None => declared ps
     end).
  destruct (packet_data p); try discriminate.
  intros H. rewrite (body_ok_app _ _ _ H). reflexivity.
Qed.

Lemma body_ok_slice (tracks : list Z) (o : PerfettoTransactionObj)
    (qs : list TracePacket) :
  txn_track_uuid o ∈ tracks ->
  body_ok tracks (slice_packets o ++ qs) = body_ok tracks qs.
Proof.
  intros Hin. unfold slice_packets, slice_begin_packet, slice_end_packet.
  cbn [app body_ok packet_data event_type event_track_uuid event_flow_ids].
  rewrite bool_decide_eq_true_2 by exact Hin.
  rewrite Z.eqb_refl, bool_decide_eq_true_2 by reflexivity. reflexivity.
Qed.

Lemma track_closed_at (e : Z) (o : PerfettoTransactionObj) :
  txn_track_uuid (closed_at e o) = txn_track_uuid o.
Proof. reflexivity. Qed.

Lemma pending_packets_ok (w : World) (tracks : list Z) (l : list ref) :
  (forall t o, t ∈ l -> txns w !! t = Some o -> txn_is_open o = true ->
     txn_track_uuid o ∈ tracks) ->
  forall qs, body_ok tracks (pending_packets w l ++ qs) = body_ok tracks qs.
Proof.
  induction l as [|t l IH]; intros H qs; [reflexivity|].
  unfold pending_packets in *. cbn [flat_map]. rewrite <- app_assoc.
  assert (IH' := IH (fun t' o Hin => H t' o (list_elem_of_further _ _ _ Hin)) qs).
  destruct (txns w !! t) as [o|] eqn:Ht; [|exact IH'].
  destruct (txn_is_open o) eqn:Ho; [|exact IH'].
  rewrite body_ok_slice; [exact IH'|].
  rewrite track_closed_at. apply (H t o (list_elem_of_here _ _) Ht Ho).
Qed.

Lemma declared_pending_packets (w : World) (l : list ref) :
  declared (pending_packets w l) = [].
Proof.
  induction l as [|t l IH]; [reflexivity|].
  unfold pending_packets in *. cbn [flat_map]. rewrite declared_app, IH.
  destruct (txns w !! t) as [o|]; [|reflexivity].
  destruct (txn_is_open o); reflexivity.
Qed.

Lemma trace_pending_ok (w : World) (tracks : list Z) (l : list ref) :
  (forall s os t o, s ∈ l -> streams w !! s = Some os ->
     t ∈ stream_transactions os -> txns w !! t = Some o -> txn_is_open o = true ->
     txn_track_uuid o ∈ tracks) ->
  body_ok tracks (trace_pending w l) = true /\ declared (trace_pending w l) = [].
Proof.
  induction l as [|s l IH]; intros H; [split; reflexivity|].
  unfold trace_pending in *. cbn [flat_map].
  destruct (IH (fun s' os t o Hin => H s' os t o (list_elem_of_further _ _ _ Hin)))
    as [IH1 IH2].
  rewrite declared_app, IH2, app_nil_r.
  destruct (streams w !! s) as [os|] eqn:Hs; [|split; [exact IH1 | reflexivity]].
  split; [|apply declared_pending_packets].
  rewrite pending_packets_ok; [exact IH1|].
  intros t o Hin Ht Ho. apply (H s os t o (list_elem_of_here _ _) Hs Hin Ht Ho).
Qed.

(** One step: the stores [w] and [w'], both well formed and the second
    evolved from the first, where every old file was appended well-formed
    packets, every new file holds the clock snapshot, and the tracks of the
    new objects are declared. *)
Lemma files_ok_step (w w' : World) :
  wf w -> evolves w w' -> files_ok w ->
  (forall r tr', traces w' !! r = Some tr' ->
     match traces w !! r with
     | Some tr =>
         exists qs,
           trace_written tr' = trace_written tr ++ qs /\
           body_ok (declared (trace_written tr)) qs = true /\
           (forall u, u ∈ declared qs -> u < trace_next_track_uuid tr')
     | None => trace_written tr' = [clock_snapshot_packet]
     end) ->
  (forall s os' tr', streams w' !! s = Some os' -> streams w !! s = None ->
     traces w' !! stream_trace os' = Some tr' ->
     stream_track_uuid os' ∈ declared (trace_written tr')) ->
  (forall t o' os' tr', txns w' !! t = Some o' -> txns w !! t = None ->
     streams w' !! txn_stream o' = Some os' ->
     traces w' !! stream_trace os' = Some tr' ->
     txn_track_uuid o' ∈ declared (trace_written tr')) ->
  files_ok w'.
Proof.
  intros Hwf He [F1 F2 F3 F4] Htr Hst Htx.
  assert (Hold : forall r tr tr' u, traces w !! r = Some tr ->
            traces w' !! r = Some tr' ->
            u ∈ declared (trace_written tr) -> u ∈ declared (trace_written tr')).
  { intros r tr tr' u H H' Hu. specialize (Htr r tr' H'). rewrite H in Htr.
    destruct Htr as (qs & -> & _). rewrite declared_app. apply elem_of_app. auto. }
  assert (Hstream : forall s os' tr', streams w' !! s = Some os' ->
            traces w' !! stream_trace os' = Some tr' ->
            stream_track_uuid os' ∈ declared (trace_written tr')).
  { intros s os' tr' Hs' Htr'.
    destruct (streams w !! s) as [os|] eqn:Hs; [|apply (Hst s os' tr'); auto].
    destruct (ev_streams_of _ _ He _ _ Hs) as (os2 & Hos2 & [E1 E2 _ _ _]).
    assert (os2 = os') by congruence. subst os2.
    destruct (wf_stream w Hwf _ _ Hs) as (tr & Htr0 & _).
    rewrite E2. rewrite E1 in Htr'.
    apply (Hold _ tr tr' _ Htr0 Htr'). apply (F3 s os tr Hs Htr0). }
  constructor.
  - intros r tr' H'. specialize (Htr r tr' H').
    destruct (traces w !! r) as [tr|] eqn:H.
    + destruct Htr as (qs & -> & Hok & _).
      rewrite (file_ok_app _ _ (F1 r tr H)). exact Hok.
    + rewrite Htr. reflexivity.
  - intros r tr' u H' Hu. specialize (Htr r tr' H').
    destruct (traces w !! r) as [tr|] eqn:H.
    + destruct Htr as (qs & E & _ & Hb).
      rewrite E, declared_app in Hu. apply elem_of_app in Hu as [Hu|Hu].
      * destruct (ev_traces _ _ He _ _ H) as (tr2 & Htr2 & [E1 _ _ _ _ _]).
        assert (tr2 = tr') by congruence. subst tr2.
        pose proof (F2 r tr u H Hu). lia.
      * apply Hb, Hu.
    + rewrite Htr in Hu. simpl in Hu. apply elem_of_nil in Hu. contradiction.
  - exact Hstream.
  - intros t o' os' tr' Ht' Hs' Htr'.
    destruct (txns w !! t) as [o|] eqn:Ht; [|apply (Htx t o' os' tr'); auto].
    destruct (ev_txns _ _ He _ _ Ht) as (o2 & Ho2 & [_ E2 _ _ _ _ E7 _ _ _]).
    assert (o2 = o') by congruence. subst o2.
    destruct (wf_txn w Hwf _ _ Ht) as (os & tr & Hs & Htr0 & _).
    destruct (ev_streams_of _ _ He _ _ Hs) as (os2 & Hos2 & [E1 _ _ _ _]).
    rewrite E2 in Hs'. assert (os2 = os') by congruence. subst os2.
    rewrite E1 in Htr'. rewrite E7.
    apply (Hold _ tr tr' _ Htr0 Htr'). apply (F4 t o os tr Ht Hs Htr0).
Qed.

(** A step that creates no object and appends to one file at most. *)
Lemma files_ok_update (w w' : World) (r0 : ref) (tr0 tr0' : PerfettoTraceObj)
    (qs : list TracePacket) :
  wf w -> evolves w w' -> files_ok w ->
  traces w !! r0 = Some tr0 ->
  traces w' = <[r0 := tr0']> (traces w) ->
  trace_written tr0' = trace_written tr0 ++ qs ->
  body_ok (declared (trace_written tr0)) qs = true ->
  declared qs = [] ->
  length (streams w') = length (streams w) ->
  length (txns w') = length (txns w) ->
  files_ok w'.
Proof.
  intros Hwf He Hf H0 Htraces Hw Hok Hd Hls Hlt.
  apply (files_ok_step w w' Hwf He Hf).
  - intros r tr' H'. rewrite Htraces in H'.
    destruct (decide (r = r0)) as [->|Hne].
    + rewrite H0. rewrite (lookup_insert_same _ _ _ _ H0) in H'. injection H' as <-.
      exists qs. split; [exact Hw|]. split; [exact Hok|].
      intros u Hu. rewrite Hd in Hu. apply elem_of_nil in Hu. contradiction.
    + rewrite list_lookup_insert_ne in H' by congruence. rewrite H'.
      exists []. rewrite app_nil_r. split; [reflexivity|]. split; [reflexivity|].
      intros u Hu. apply elem_of_nil in Hu. contradiction.
  - intros s os' tr' Hs' Hs. exfalso.
    apply lookup_lt_Some in Hs'. apply lookup_ge_None in Hs. lia.
  - intros t o' os' tr' Ht' Ht. exfalso.
    apply lookup_lt_Some in Ht'. apply lookup_ge_None in Ht. lia.
Qed.

Lemma files_ok_same_traces (w w' : World) :
  wf w -> evolves w w' -> files_ok w ->
  traces w' = traces w ->
  length (streams w') = length (streams w) ->
  length (txns w') = length (txns w) ->
  files_ok w'.
Proof.
  intros Hwf He Hf Htraces Hls Hlt.
  apply (files_ok_step w w' Hwf He Hf).
  - intros r tr' H'. rewrite Htraces in H'. rewrite H'.
    exists []. rewrite app_nil_r. split; [reflexivity|]. split; [reflexivity|].
    intros u Hu. apply elem_of_nil in Hu. contradiction.
  - intros s os' tr' Hs' Hs. exfalso.
    apply lookup_lt_Some in Hs'. apply lookup_ge_None in Hs. lia.
  - intros t o' os' tr' Ht' Ht. exfalso.
    apply lookup_lt_Some in Ht'. apply lookup_ge_None in Ht. lia.
Qed.

Lemma world_after_discard {A} (m : M A) (w : World) :
  world_after (discard m w) = world_after (m w).
Proof. unfold discard, bind, ret. destruct (m w); reflexivity. Qed.

Lemma files_ok_close (t : ref) (end_time : Z) (w w' : World) :
  wf w -> files_ok w ->
  world_after (PerfettoTransaction.close t end_time w) = Some w' -> files_ok w'.
Proof.
  intros Hwf Hf H. destruct (sound_close t end_time w w' Hwf H) as [Hwf' He].
  destruct (txns w !! t) as [o|] eqn:Ht.
  2:{ unfold PerfettoTransaction.close, bind, get_txn in H. rewrite Ht in H.
      discriminate. }
  destruct (txn_is_open o) eqn:Ho.
  - destruct (wf_txn w Hwf _ _ Ht) as (s & tr & Hs & Htr & _ & Hop & _).
    destruct (wf_stream w Hwf _ _ Hs) as (tr0 & Htr0 & _ & Hfo & _).
    assert (tr0 = tr) by congruence. subst tr0.
    rewrite (close_open w t o s tr end_time Ht Ho Hs Htr (Hfo (Hop Ho))) in H.
    injection H as <-.
    apply (files_ok_update w _ (stream_trace s) tr
             (set_trace_written
                (trace_written tr ++ slice_packets (closed_at end_time o)) tr)
             (slice_packets (closed_at end_time o)) Hwf He Hf Htr);
      try reflexivity.
    + rewrite <- (app_nil_r (slice_packets _)). rewrite body_ok_slice; [reflexivity|].
      apply (fo_txn w Hf t o s tr Ht Hs Htr).
    + cbn [with_trace with_txn txns]. apply length_insert.
  - rewrite (close_closed w t o end_time Ht Ho) in H. injection H as <-. exact Hf.
Qed.

Lemma files_ok_stream_close (s : ref) (w w' : World) :
  wf w -> files_ok w ->
  world_after (PerfettoStream.close s w) = Some w' -> files_ok w'.
Proof.
  intros Hwf Hf H.
  destruct (streams w !! s) as [so|] eqn:Hs.
  2:{ unfold PerfettoStream.close, bind, get_stream in H. rewrite Hs in H.
      discriminate. }
  destruct (stream_is_open so) eqn:Ho.
  - destruct (stream_close_open w s so Hwf Hs Ho)
      as (w1 & tr & Htr & _ & Hc & Hwf' & He & Hst & _ & _ & Htraces).
    rewrite Hc in H. injection H as <-.
    apply (files_ok_update w _ (stream_trace so) tr
             (set_trace_written
                (trace_written tr ++ pending_packets w (stream_transactions so)) tr)
             (pending_packets w (stream_transactions so)) Hwf He Hf Htr);
      try reflexivity.
    + exact Htraces.
    + rewrite <- (app_nil_r (pending_packets _ _)).
      rewrite pending_packets_ok; [reflexivity|].
      intros t o Hin Ht _.
      destruct (wf_listed_txn w Hwf _ _ _ Hs Hin) as (o' & Ho' & Es).
      assert (o' = o) by congruence. subst o'.
      apply (fo_txn w Hf t o so tr Ht); [rewrite Es; exact Hs | exact Htr].
    + apply declared_pending_packets.
    + cbn [with_stream streams]. rewrite length_insert, Hst. reflexivity.
    + destruct (keeps_stream_close s w _ ltac:(rewrite Hc; reflexivity))
        as (_ & _ & Hlen). exact Hlen.
  - rewrite (stream_close_closed w s so Hs Ho) in H. injection H as <-. exact Hf.
Qed.

Lemma files_ok_trace_close (r : ref) (w w' : World) :
  wf w -> files_ok w ->
  world_after (PerfettoTrace.close r w) = Some w' -> files_ok w'.
Proof.
  intros Hwf Hf H. destruct (sound_trace_close r w w' Hwf H) as [Hwf' He].
  destruct (traces w !! r) as [tr|] eqn:Htr.
  2:{ unfold PerfettoTrace.close, bind, get_trace in H. rewrite Htr in H.
      discriminate. }
  destruct (trace_close_exact w r tr Hwf Htr)
    as (w1 & Hc & _ & Htraces & Hls & Hlt & _).
  rewrite Hc in H. injection H as <-.
  destruct (trace_pending_ok w (declared (trace_written tr)) (trace_streams tr))
    as [Hok Hd].
  { intros s os t o Hin Hs Hl Ht _.
    destruct (wf_listed_stream w Hwf _ _ _ Htr Hin) as (os' & Hos' & Er).
    assert (os' = os) by congruence. subst os'.
    destruct (wf_listed_txn w Hwf _ _ _ Hs Hl) as (o' & Ho' & Es).
    assert (o' = o) by congruence. subst o'.
    apply (fo_txn w Hf t o os tr Ht); [rewrite Es; exact Hs | rewrite Er; exact Htr]. }
  apply (files_ok_update w _ r tr
           (set_trace_file_open false
              (set_trace_written
                 (trace_written tr ++ trace_pending w (trace_streams tr)) tr))
           (trace_pending w (trace_streams tr))
           Hwf He Hf Htr Htraces); auto.
Qed.

Lemma files_ok_append_attribute (t : ref) (a : DebugAnnotation) (w w' : World) :
  wf w -> files_ok w ->
  world_after (PerfettoTransaction.append_attribute t a w) = Some w' -> files_ok w'.
Proof.
  intros Hwf Hf H. destruct (sound_append_attribute t a w w' Hwf H) as [Hwf' He].
  destruct (txns w !! t) as [o|] eqn:Ht.
  2:{ unfold PerfettoTransaction.append_attribute, bind, get_txn in H.
      rewrite Ht in H. discriminate. }
  rewrite (append_attribute_eq w t o a Ht) in H. injection H as <-.
  apply (files_ok_same_traces w _ Hwf He Hf); try reflexivity.
  cbn [with_txn txns]. apply length_insert.
Qed.

Lemma files_ok_add_link (t : ref) (target : py_arg) (link_type : LinkType)
    (relation_name : option string) (w w' : World) :
  wf w -> files_ok w ->
  world_after (PerfettoTransaction.add_link t target link_type relation_name w)
    = Some w' ->
  files_ok w'.
Proof.
  intros Hwf Hf H.
  destruct (sound_add_link t target link_type relation_name w w' Hwf H) as [Hwf' He].
  destruct target as [|g|b]; try (injection H as <-; exact Hf).
  unfold PerfettoTransaction.add_link in H.
  unfold bind at 1 in H. unfold get_txn at 1 in H.
  destruct (txns w !! t) as [o|] eqn:Ht; [|discriminate].
  unfold bind at 1 in H. unfold get_stream at 1 in H.
  destruct (streams w !! txn_stream o) as [s|] eqn:Hs; [|discriminate].
  destruct (wf_stream w Hwf _ _ Hs) as (tr & Htr & _).
  unfold bind at 1 in H. rewrite (_allocate_flow_id_eq w _ tr Htr) in H.
  unfold bind at 1 in H.
  rewrite (append_flow_id_eq _ t o) in H by exact Ht.
  unfold PerfettoTransaction.append_flow_id, bind, get_txn, put_txn in H.
  match type of H with
  | context [txns ?x !! g] => destruct (txns x !! g) as [og|] eqn:Hg
  end; [|discriminate].
  injection H as <-.
  apply (files_ok_update w _ (stream_trace s) tr
           (set_trace_next_flow_id (trace_next_flow_id tr + 1) tr) [] Hwf He Hf Htr);
    try reflexivity.
  - simpl. rewrite app_nil_r. reflexivity.
  - cbn [with_txn with_trace txns]. rewrite !length_insert. reflexivity.
Qed.

Lemma files_ok_create_trace (filename name time_units : string) (w w' : World) :
  wf w -> files_ok w ->
  world_after (create_trace filename name time_units w) = Some w' -> files_ok w'.
Proof.
  intros Hwf Hf H.
  destruct (sound_create_trace filename name time_units w w' Hwf H) as [Hwf' He].
  rewrite create_trace_eq in H. injection H as <-.
  apply (files_ok_step w _ Hwf He Hf); cbn [with_trace push_trace traces streams txns].
  - intros r tr' H'.
    destruct (traces w !! r) as [tr|] eqn:Hr.
    + assert (r <> length (traces w))
        by (apply lookup_lt_Some in Hr; lia).
      rewrite list_lookup_insert_ne in H' by congruence.
      rewrite (lookup_app_l_Some _ _ _ _ Hr) in H'. injection H' as <-.
      exists []. rewrite app_nil_r. split; [reflexivity|]. split; [reflexivity|].
      intros u Hu. apply elem_of_nil in Hu. contradiction.
    + apply lookup_ge_None in Hr.
      destruct (decide (r = length (traces w))) as [->|Hne].
      * rewrite list_lookup_insert_eq in H' by (rewrite length_app; simpl; lia).
        injection H' as <-. reflexivity.
      * rewrite list_lookup_insert_ne in H' by congruence.
        apply lookup_lt_Some in H'. rewrite length_app in H'. simpl in H'. lia.
  - intros s os' tr' Hs' Hs. congruence.
  - intros t o' os' tr' Ht' Ht. congruence.
Qed.

Lemma body_ok_descriptor (tracks : list Z) (p : TracePacket) (d : TrackDescriptor) :
  packet_data p = track_descriptor d -> descriptor_uuid d ∉ tracks ->
  body_ok tracks [p] = true /\ declared [p] = [descriptor_uuid d].
Proof.
  intros Hp Hn. split.
  - cbn [body_ok]. rewrite Hp. rewrite bool_decide_eq_true_2 by exact Hn. reflexivity.
  - unfold declared. simpl. rewrite Hp. reflexivity.
Qed.

Lemma files_ok_fresh_track (w : World) (r : ref) (tr : PerfettoTraceObj) :
  files_ok w -> traces w !! r = Some tr ->
  trace_next_track_uuid tr ∉ declared (trace_written tr).
Proof.
  intros Hf Htr Hin. pose proof (fo_bound w Hf r tr _ Htr Hin). lia.
Qed.

Lemma files_ok_create_stream (r : ref) (name : string) (scope type_name : option string)
    (w w' : World) :
  wf w -> files_ok w ->
  world_after (PerfettoTrace.create_stream r name scope type_name w) = Some w' ->
  files_ok w'.
Proof.
  intros Hwf Hf H.
  destruct (sound_create_stream r name scope type_name w w' Hwf H) as [Hwf' He].
  destruct (traces w !! r) as [tr|] eqn:Htr.
  2:{ unfold PerfettoTrace.create_stream, bind, _allocate_track_uuid, bind, get_trace in H.
      rewrite Htr in H. discriminate. }
  destruct (trace_file_open tr) eqn:Hfo.
  - rewrite (create_stream_open _ _ _ _ _ _ Htr Hfo) in H. cbv zeta in H.
    injection H as <-.
    destruct (body_ok_descriptor (declared (trace_written tr))
                (stream_descriptor_packet (trace_next_track_uuid tr) name) _ eq_refl
                (files_ok_fresh_track w r tr Hf Htr)) as [Hok Hd].
    apply (files_ok_step w _ Hwf He Hf);
      cbn [with_trace push_stream traces streams txns].
    + intros r' tr' H'. rewrite list_insert_insert_eq in H'.
      destruct (decide (r' = r)) as [->|Hne].
      * rewrite Htr. rewrite (lookup_insert_same _ _ _ _ Htr) in H'.
        injection H' as <-.
        exists [stream_descriptor_packet (trace_next_track_uuid tr) name].
        split; [reflexivity|]. split; [exact Hok|].
        intros u Hu. rewrite Hd in Hu. apply list_elem_of_singleton in Hu.
        subst u. simpl. lia.
      * rewrite list_lookup_insert_ne in H' by congruence. rewrite H'.
        exists []. rewrite app_nil_r. split; [reflexivity|]. split; [reflexivity|].
        intros u Hu. apply elem_of_nil in Hu. contradiction.
    + intros s os' tr' Hs' Hs Htr'.
      apply lookup_ge_None in Hs.
      apply lookup_app_Some in Hs' as [Hs'|[_ Hs']];
        [apply lookup_lt_Some in Hs'; lia|].
      apply list_lookup_singleton_Some in Hs' as [_ <-].
      cbn [stream_trace stream_track_uuid] in *.
      rewrite list_insert_insert_eq, (lookup_insert_same _ _ _ _ Htr) in Htr'.
      injection Htr' as <-. cbn [trace_written set_trace_streams set_trace_written].
      rewrite declared_app, Hd. apply elem_of_app. right. apply list_elem_of_here.
    + intros t o' os' tr' Ht' Ht. congruence.
  - rewrite (create_stream_released _ _ _ _ _ _ Htr Hfo) in H. injection H as <-.
    apply (files_ok_update w _ r tr
             (set_trace_next_track_uuid (trace_next_track_uuid tr + 1) tr) []
             Hwf He Hf Htr); try reflexivity.
    simpl. rewrite app_nil_r. reflexivity.
Qed.

Lemma files_ok_begin_transaction (s : ref) (name : string) (start_time : Z)
    (type_name : option string) (parent : py_arg) (w w' : World) :
  wf w -> files_ok w ->
  world_after (PerfettoStream.begin_transaction s name start_time type_name parent w)
    = Some w' ->
  files_ok w'.
Proof.
  intros Hwf Hf H.
  destruct (sound_begin_transaction s name start_time type_name parent w w' Hwf H)
    as [Hwf' He].
  destruct (streams w !! s) as [so|] eqn:Hs.
  2:{ unfold PerfettoStream.begin_transaction, bind, get_stream in H.
      rewrite Hs in H. discriminate. }
  destruct (stream_is_open so) eqn:Ho.
  2:{ rewrite (begin_transaction_closed w s so _ _ _ _ Hs Ho) in H.
      injection H as <-. exact Hf. }
  destruct (wf_stream w Hwf _ _ Hs) as (tr & Htr & _ & Hfo & _).
  specialize (Hfo Ho).
  assert (Hroot : parent = PyNone \/ parent = PyOther false -> files_ok w').
  { intros Hp.
    rewrite (begin_transaction_root w s so tr _ _ _ _ Hs Ho Htr Hp) in H.
    injection H as <-.
    apply (files_ok_step w _ Hwf He Hf);
      cbn [with_stream push_txn with_trace traces streams txns].
    - intros r' tr' H'. destruct (decide (r' = stream_trace so)) as [->|Hne].
      + rewrite Htr. rewrite (lookup_insert_same _ _ _ _ Htr) in H'.
        injection H' as <-. exists []. simpl. rewrite app_nil_r.
        split; [reflexivity|]. split; [reflexivity|].
        intros u Hu. apply elem_of_nil in Hu. contradiction.
      + rewrite list_lookup_insert_ne in H' by congruence. rewrite H'.
        exists []. rewrite app_nil_r. split; [reflexivity|]. split; [reflexivity|].
        intros u Hu. apply elem_of_nil in Hu. contradiction.
    - intros s' os' tr' Hs' Hs0. exfalso.
      apply lookup_lt_Some in Hs'. rewrite length_insert in Hs'.
      apply lookup_ge_None in Hs0. lia.
    - intros t o' os' tr' Ht' Ht Hs' Htr'.
      apply lookup_ge_None in Ht.
      apply lookup_app_Some in Ht' as [Ht'|[_ Ht']];
        [apply lookup_lt_Some in Ht'; lia|].
      apply list_lookup_singleton_Some in Ht' as [_ <-].
      cbn [fresh_txn txn_stream txn_track_uuid] in *.
      rewrite (lookup_insert_same _ _ _ _ Hs) in Hs'. injection Hs' as <-.
      cbn [set_stream_transactions stream_trace] in Htr'.
      rewrite (lookup_insert_same _ _ _ _ Htr) in Htr'. injection Htr' as <-.
      cbn [set_trace_next_transaction_id trace_written].
      apply (fo_stream w Hf s so tr Hs Htr). }
  destruct parent as [|p|[|]]; [apply Hroot; auto | | | apply Hroot; auto].
  - destruct (txns w !! p) as [po|] eqn:Hp.
    2:{ exfalso. unfold PerfettoStream.begin_transaction in H.
        unfold bind at 1 in H. unfold get_stream at 1 in H. rewrite Hs, Ho in H.
        cbn [negb] in H. unfold bind at 1 in H.
        rewrite (_allocate_transaction_id_eq _ _ _ Htr) in H.
        unfold bind at 1 in H. unfold ret at 1 in H.
        unfold PerfettoTransaction.__init__ in H.
        unfold bind at 1 in H. unfold bind at 1 in H. unfold get_stream at 1 in H.
        cbn [with_trace streams] in H. rewrite Hs in H.
        unfold bind at 1 in H.
        erewrite _allocate_track_uuid_eq in H
          by (cbn [with_trace traces]; eapply lookup_insert_same, Htr).
        unfold bind at 1 in H. unfold _emit_child_track_descriptor in H.
        unfold bind at 1 in H. cbn [txn_parent] in H.
        unfold bind at 1 in H. unfold get_txn at 1 in H.
        cbn [with_trace txns] in H. rewrite Hp in H. discriminate. }
    rewrite (begin_transaction_child w s so tr _ _ _ p po Hs Ho Htr Hfo Hp) in H.
    injection H as <-.
    destruct (body_ok_descriptor (declared (trace_written tr))
                (child_descriptor_packet (trace_next_track_uuid tr) name
                   (txn_track_uuid po)) _ eq_refl
                (files_ok_fresh_track w _ tr Hf Htr)) as [Hok Hd].
    apply (files_ok_step w _ Hwf He Hf);
      cbn [with_stream push_txn with_trace traces streams txns].
    + intros r' tr' H'. destruct (decide (r' = stream_trace so)) as [->|Hne].
      * rewrite Htr. rewrite (lookup_insert_same _ _ _ _ Htr) in H'.
        injection H' as <-.
        exists [child_descriptor_packet (trace_next_track_uuid tr) name
                  (txn_track_uuid po)].
        split; [reflexivity|]. split; [exact Hok|].
        intros u Hu. rewrite Hd in Hu. apply list_elem_of_singleton in Hu.
        subst u. simpl. lia.
      * rewrite list_lookup_insert_ne in H' by congruence. rewrite H'.
        exists []. rewrite app_nil_r. split; [reflexivity|]. split; [reflexivity|].
        intros u Hu. apply elem_of_nil in Hu. contradiction.
    + intros s' os' tr' Hs' Hs0. exfalso.
      apply lookup_lt_Some in Hs'. rewrite length_insert in Hs'.
      apply lookup_ge_None in Hs0. lia.
    + intros t o' os' tr' Ht' Ht Hs' Htr'.
      apply lookup_ge_None in Ht.
      apply lookup_app_Some in Ht' as [Ht'|[_ Ht']];
        [apply lookup_lt_Some in Ht'; lia|].
      apply list_lookup_singleton_Some in Ht' as [_ <-].
      cbn [fresh_txn txn_stream txn_track_uuid] in *.
      rewrite (lookup_insert_same _ _ _ _ Hs) in Hs'. injection Hs' as <-.
      cbn [set_stream_transactions stream_trace] in Htr'.
      rewrite (lookup_insert_same _ _ _ _ Htr) in Htr'. injection Htr' as <-.
      cbn [set_trace_written trace_written].
      rewrite declared_app, Hd. apply elem_of_app. right. apply list_elem_of_here.
  - rewrite (begin_transaction_foreign w s so tr _ _ _ Hs Ho Htr) in H.
    injection H as <-.
    apply (files_ok_update w _ (stream_trace so) tr
             (set_trace_next_transaction_id (trace_next_transaction_id tr + 1) tr) []
             Hwf He Hf Htr); try reflexivity.
    simpl. rewrite app_nil_r. reflexivity.
Qed.

Lemma perform_files_ok (c : call) (w w' : World) :
  wf w -> files_ok w -> world_after (perform c w) = Some w' -> files_ok w'.
Proof.
  intros Hwf Hf H.
  destruct (attribute_of c) as [[t a]|] eqn:Ea.
  { rewrite (perform_attribute c t a Ea) in H.
    apply (files_ok_append_attribute t a w w' Hwf Hf H). }
  destruct c; try discriminate; cbn [perform] in H;
    rewrite ?world_after_discard in H.
  - apply (files_ok_create_trace _ _ _ w w' Hwf Hf H).
  - apply (files_ok_create_stream _ _ _ _ w w' Hwf Hf H).
  - apply (files_ok_trace_close _ w w' Hwf Hf H).
  - apply (files_ok_begin_transaction _ _ _ _ _ w w' Hwf Hf H).
  - apply (files_ok_stream_close _ w w' Hwf Hf H).
  - apply (files_ok_close _ _ w w' Hwf Hf H).
  - apply (files_ok_add_link _ _ _ _ w w' Hwf Hf H).
Qed.

Lemma files_ok_empty : files_ok empty_world.
Proof. constructor; intros *; simpl; intros H; discriminate. Qed.

Lemma reachable_files_ok (w : World) : reachable w -> files_ok w.
Proof.
  induction 1 as [|w c w' Hr IH Hstep]; [apply files_ok_empty|].
  apply (perform_files_ok c w w' (reachable_wf w Hr) IH Hstep).
Qed.

Lemma body_ok_NoDup (n : nat) :
  forall (ps : list TracePacket) (tracks : list Z),
    (length ps <= n)%nat -> body_ok tracks ps = true -> NoDup tracks ->
    NoDup (tracks ++ declared ps).
Proof.
  induction n as [|n IH]; intros ps tracks Hlen Hok Hnd.
  - destruct ps; [|simpl in Hlen; lia]. simpl. rewrite app_nil_r. exact Hnd.
  - destruct ps as [|p ps]; [simpl; rewrite app_nil_r; exact Hnd|].
    simpl in Hlen. change (declared (p :: ps)) with
      (match (match packet_data p with
              | track_descriptor d => Some (descriptor_uuid d)
              | _ => None
              end) with
       | Some u => u :: declared ps
       | None => declared ps
       end).
    cbn [body_ok] in Hok.
    destruct (packet_data p) as [cl|d|e]; [discriminate| |].
    + apply andb_true_iff in Hok as [H1 H2]. apply bool_decide_eq_true_1 in H1.
      rewrite (cons_middle (descriptor_uuid d)), app_assoc.
      apply (IH ps _ ltac:(lia) H2).
      apply NoDup_app. split; [exact Hnd|]. split; [|apply NoDup_singleton].
      intros x Hx Hx'. apply list_elem_of_singleton in Hx'. subst x. contradiction.
    + destruct (event_type e); [|discriminate].
      destruct ps as [|q ps]; [discriminate|].
      change (declared (q :: ps)) with
        (match (match packet_data q with
                | track_descriptor d => Some (descriptor_uuid d)
                | _ => None
                end) with
         | Some u => u :: declared ps
         | None => declared ps
         end).
      destruct (packet_data q) as [cl|d|e']; [discriminate|discriminate|].
      destruct (event_type e'); [discriminate|].
      apply andb_true_iff in Hok as [_ H2].
      simpl in Hlen. apply (IH ps _ ltac:(lia) H2 Hnd).
Qed.



(** ** Accounting for the packets of a file *)

Lemma count_app {A} (p : A -> bool) (l1 l2 : list A) :
  count p (l1 ++ l2) = (count p l1 + count p l2)%nat.
Proof. induction l1 as [|x l1 IH]; simpl; [reflexivity | rewrite IH; lia]. Qed.

Lemma count_ext {A} (p q : A -> bool) (l : list A) :
  (forall x, x ∈ l -> p x = q x) -> count p l = count q l.
Proof.
  induction l as [|x l IH]; intros H; [reflexivity|]. simpl.
  rewrite (H x (list_elem_of_here _ _)), IH; [reflexivity|].
  intros y Hy. apply H, list_elem_of_further, Hy.
Qed.

Lemma count_zero {A} (p : A -> bool) (l : list A) :
  (forall x, x ∈ l -> p x = false) -> count p l = 0%nat.
Proof.
  induction l as [|x l IH]; intros H; [reflexivity|]. simpl.
  rewrite (H x (list_elem_of_here _ _)), IH; [reflexivity|].
  intros y Hy. apply H, list_elem_of_further, Hy.
Qed.

Lemma count_insert {A} (p : A -> bool) (l : list A) (i : nat) (x y : A) :
  l !! i = Some x ->
  (count p (<[i := y]> l) + (if p x then 1 else 0)
   = count p l + (if p y then 1 else 0))%nat.
Proof.
  revert i. induction l as [|z l IH]; intros [|i] H; try discriminate.
  - injection H as ->. simpl. lia.
  - simpl in *. specialize (IH i H). lia.
Qed.

Lemma count_insert_same {A} (p : A -> bool) (l : list A) (i : nat) (x y : A) :
  l !! i = Some x -> p y = p x -> count p (<[i := y]> l) = count p l.
Proof.
  intros H E. pose proof (count_insert p l i x y H) as Hc. rewrite E in Hc. lia.
Qed.

Lemma txn_trace_with_stream (ss : list PerfettoStreamObj) (s : ref)
    (so so' : PerfettoStreamObj) (o : PerfettoTransactionObj) :
  ss !! s = Some so -> stream_trace so' = stream_trace so ->
  txn_trace (<[s := so']> ss) o = txn_trace ss o.
Proof.
  intros Hs E. unfold txn_trace.
  destruct (decide (txn_stream o = s)) as [->|Hne].
  - rewrite (lookup_insert_same _ _ _ _ Hs), Hs. simpl. rewrite E. reflexivity.
  - rewrite list_lookup_insert_ne by congruence. reflexivity.
Qed.

Lemma txn_trace_push_stream (ss : list PerfettoStreamObj) (so' : PerfettoStreamObj)
    (o : PerfettoTransactionObj) :
  is_Some (ss !! txn_stream o) -> txn_trace (ss ++ [so']) o = txn_trace ss o.
Proof.
  intros [so Hs]. unfold txn_trace. rewrite (lookup_app_l_Some _ _ _ _ Hs), Hs.
  reflexivity.
Qed.

(** The accounts speak of the files, the stream lists, the traces of the
    streams, and the state, parent and stream of the transactions only. *)
Lemma accounts_update (w w' : World) (r0 : ref) (tr0 tr0' : PerfettoTraceObj)
    (dd dc dk : nat) :
  accounts w -> traces w !! r0 = Some tr0 ->
  traces w' = <[r0 := tr0']> (traces w) ->
  (forall r, count (child_on (streams w') r) (txns w')
             = (count (child_on (streams w) r) (txns w)
                + if decide (r = r0) then dc else 0)%nat) ->
  (forall r, count (closed_on (streams w') r) (txns w')
             = (count (closed_on (streams w) r) (txns w)
                + if decide (r = r0) then dk else 0)%nat) ->
  length (declared (trace_written tr0'))
    = (length (declared (trace_written tr0)) + dd)%nat ->
  (length (trace_streams tr0') + dc = length (trace_streams tr0) + dd)%nat ->
  length (trace_written tr0') = (length (trace_written tr0) + dd + 2 * dk)%nat ->
  accounts w'.
Proof.
  intros [A1 A2] H0 Htraces Hc Hk Hd Hs Hw.
  constructor; intros r tr' H'; rewrite Htraces in H'.
  - rewrite Hc. destruct (decide (r = r0)) as [->|Hne].
    + rewrite (lookup_insert_same _ _ _ _ H0) in H'. injection H' as <-.
      pose proof (A1 r0 tr0 H0). lia.
    + rewrite list_lookup_insert_ne in H' by congruence.
      pose proof (A1 r tr' H'). lia.
  - rewrite Hk. destruct (decide (r = r0)) as [->|Hne].
    + rewrite (lookup_insert_same _ _ _ _ H0) in H'. injection H' as <-.
      pose proof (A2 r0 tr0 H0). lia.
    + rewrite list_lookup_insert_ne in H' by congruence.
      pose proof (A2 r tr' H'). lia.
Qed.

Lemma accounts_same (w w' : World) :
  accounts w -> traces w' = traces w ->
  (forall r, count (child_on (streams w') r) (txns w')
             = count (child_on (streams w) r) (txns w)) ->
  (forall r, count (closed_on (streams w') r) (txns w')
             = count (closed_on (streams w) r) (txns w)) ->
  accounts w'.
Proof.
  intros [A1 A2] Htraces Hc Hk.
  constructor; intros r tr' H'; rewrite Htraces in H'; rewrite ?Hc, ?Hk; auto.
Qed.

Lemma pres_ret {A} (a : A) : pres (ret a).
Proof. intros w w' _ Ha [= <-]. exact Ha. Qed.

Lemma pres_bind {A B} (m : M A) (k : A -> M B) :
  sound m -> pres m -> (forall a, pres (k a)) -> pres (bind m k).
Proof.
  intros Hs Hm Hk w w' Hwf Ha H. unfold bind in H.
  destruct (m w) as [a w1|e w1|] eqn:E; [| |discriminate].
  - destruct (Hs w w1 Hwf) as [Hwf1 _]; [rewrite E; reflexivity|].
    apply (Hk a w1 w' Hwf1); [|exact H].
    apply (Hm w w1 Hwf Ha). rewrite E. reflexivity.
  - injection H as <-. apply (Hm w w1 Hwf Ha). rewrite E. reflexivity.
Qed.

Lemma pres_for_each {A} (l : list A) (body : A -> M unit) :
  (forall x, sound (body x)) -> (forall x, pres (body x)) ->
  pres (for_each l body).
Proof.
  intros Hs Hb. induction l as [|x l IH]; simpl.
  - apply pres_ret.
  - apply pres_bind; auto.
Qed.

Lemma pres_discard {A} (m : M A) : pres m -> pres (discard m).
Proof.
  intros Hm w w' Hwf Ha H. rewrite world_after_discard in H.
  apply (Hm w w' Hwf Ha H).
Qed.

Lemma pres_close (t : ref) (end_time : Z) : pres (PerfettoTransaction.close t end_time).
Proof.
  intros w w' Hwf Ha H.
  destruct (txns w !! t) as [o|] eqn:Ht.
  2:{ unfold PerfettoTransaction.close, bind, get_txn in H. rewrite Ht in H.
      discriminate. }
  destruct (txn_is_open o) eqn:Ho.
  - destruct (wf_txn w Hwf _ _ Ht) as (s & tr & Hs & Htr & _ & Hop & _).
    destruct (wf_stream w Hwf _ _ Hs) as (tr0 & Htr0 & _ & Hfo & _).
    assert (tr0 = tr) by congruence. subst tr0.
    rewrite (close_open w t o s tr end_time Ht Ho Hs Htr (Hfo (Hop Ho))) in H.
    injection H as <-.
    apply (accounts_update w _ (stream_trace s) tr
             (set_trace_written
                (trace_written tr ++ slice_packets (closed_at end_time o)) tr)
             0 0 1 Ha Htr); cbn [with_trace with_txn traces streams txns].
    + reflexivity.
    + intros r. rewrite (count_insert_same _ _ _ o) by (exact Ht || reflexivity).
      destruct (decide (r = stream_trace s)); lia.
    + intros r.
      pose proof (count_insert (closed_on (streams w) r) (txns w) t o
                    (closed_at end_time o) Ht) as Hc.
      assert (Ex : closed_on (streams w) r o = false)
        by (unfold closed_on; rewrite Ho; apply andb_false_r).
      assert (Ey : closed_on (streams w) r (closed_at end_time o)
                   = bool_decide (Some (stream_trace s) = Some r)).
      { unfold closed_on, txn_trace.
        cbn [closed_at set_txn_is_open set_txn_end_time txn_stream txn_is_open].
        rewrite Hs. cbn [fmap option_fmap option_map negb]. apply andb_true_r. }
      rewrite Ex, Ey in Hc.
      destruct (decide (r = stream_trace s)) as [->|Hne].
      * rewrite bool_decide_eq_true_2 in Hc by reflexivity. lia.
      * rewrite bool_decide_eq_false_2 in Hc by congruence. lia.
    + simpl. rewrite declared_app. unfold declared at 2. simpl.
      rewrite app_nil_r. lia.
    + reflexivity.
    + simpl. rewrite length_app. simpl. lia.
  - rewrite (close_closed w t o end_time Ht Ho) in H. injection H as <-. exact Ha.
Qed.

Lemma pres_stream_close_if_open (t : ref) : pres (PerfettoStream.close_if_open t).
Proof.
  intros w w' Hwf Ha H.
  destruct (txns w !! t) as [o|] eqn:Ht.
  2:{ unfold PerfettoStream.close_if_open, PerfettoTransaction.is_open, bind, get_txn in H.
      rewrite Ht in H. discriminate. }
  destruct (txn_is_open o) eqn:Ho.
  - rewrite (close_if_open_open w t o Ht Ho) in H.
    apply (pres_close t _ w w' Hwf Ha H).
  - rewrite (close_if_open_closed w t o Ht Ho) in H. injection H as <-. exact Ha.
Qed.

Lemma accounts_with_stream (w : World) (s : ref) (so so' : PerfettoStreamObj) :
  accounts w -> streams w !! s = Some so -> stream_trace so' = stream_trace so ->
  accounts (with_stream s so' w).
Proof.
  intros Ha Hs E.
  apply (accounts_same w _ Ha); cbn [with_stream traces streams txns];
    [reflexivity | |];
    intros r; apply count_ext; intros o _; unfold child_on, closed_on;
    rewrite (txn_trace_with_stream _ _ _ _ _ Hs E); reflexivity.
Qed.

Lemma pres_stream_close (s : ref) : pres (PerfettoStream.close s).
Proof.
  intros w w' Hwf Ha H. unfold PerfettoStream.close in H.
  unfold bind at 1 in H. unfold get_stream at 1 in H.
  destruct (streams w !! s) as [so|] eqn:Hs; [|discriminate].
  destruct (stream_is_open so); cbn [negb] in H; [|injection H as <-; exact Ha].
  revert H. apply pres_bind; [| |intros []|exact Hwf|exact Ha].
  - apply sound_for_each. intros t. apply sound_stream_close_if_open.
  - apply pres_for_each; intros t;
      [apply sound_stream_close_if_open | apply pres_stream_close_if_open].
  - intros w1 w2 Hwf1 Ha1 H. unfold bind, get_stream, put_stream in H.
    destruct (streams w1 !! s) as [s1|] eqn:Hs1; [|discriminate].
    injection H as <-. apply (accounts_with_stream w1 s s1 _ Ha1 Hs1). reflexivity.
Qed.

Lemma pres_trace_close_if_open (s : ref) : pres (PerfettoTrace.close_if_open s).
Proof.
  intros w w' Hwf Ha H. unfold PerfettoTrace.close_if_open in H.
  unfold bind at 1 in H. unfold PerfettoStream.is_open, bind, get_stream, ret in H.
  destruct (streams w !! s) as [so|] eqn:Hs; [|discriminate].
  destruct (stream_is_open so).
  - apply (pres_stream_close s w w' Hwf Ha H).
  - injection H as <-. exact Ha.
Qed.

Lemma pres_trace_close (r : ref) : pres (PerfettoTrace.close r).
Proof.
  intros w w' Hwf Ha H. unfold PerfettoTrace.close in H.
  unfold bind at 1 in H. unfold get_trace at 1 in H.
  destruct (traces w !! r) as [tr|] eqn:Htr; [|discriminate].
  revert H. apply pres_bind; [| |intros []|exact Hwf|exact Ha].
  - apply sound_for_each. intros s. apply sound_trace_close_if_open.
  - apply pres_for_each; intros s;
      [apply sound_trace_close_if_open | apply pres_trace_close_if_open].
  - intros w1 w2 Hwf1 Ha1 H. unfold bind, get_trace in H.
    destruct (traces w1 !! r) as [tr1|] eqn:Htr1; [|discriminate].
    destruct (trace_file_open tr1); [|injection H as <-; exact Ha1].
    injection H as <-.
    apply (accounts_update w1 _ r tr1 (set_trace_file_open false tr1) 0 0 0 Ha1 Htr1);
      cbn [with_trace traces streams txns]; try reflexivity;
      try (intros r'; destruct (decide (r' = r)); lia); simpl; lia.
Qed.

Lemma pres_append_attribute (t : ref) (a : DebugAnnotation) :
  pres (PerfettoTransaction.append_attribute t a).
Proof.
  intros w w' Hwf Ha H.
  destruct (txns w !! t) as [o|] eqn:Ht.
  2:{ unfold PerfettoTransaction.append_attribute, bind, get_txn in H.
      rewrite Ht in H. discriminate. }
  rewrite (append_attribute_eq w t o a Ht) in H. injection H as <-.
  apply (accounts_same w _ Ha); cbn [with_txn traces streams txns];
    [reflexivity | |]; intros r; apply (count_insert_same _ _ _ o _ Ht); reflexivity.
Qed.

Lemma pres_add_link (t : ref) (target : py_arg) (link_type : LinkType)
    (relation_name : option string) :
  pres (PerfettoTransaction.add_link t target link_type relation_name).
Proof.
  intros w w' Hwf Ha H.
  destruct target as [|g|b]; try (injection H as <-; exact Ha).
  unfold PerfettoTransaction.add_link in H.
  unfold bind at 1 in H. unfold get_txn at 1 in H.
  destruct (txns w !! t) as [o|] eqn:Ht; [|discriminate].
  unfold bind at 1 in H. unfold get_stream at 1 in H.
  destruct (streams w !! txn_stream o) as [s|] eqn:Hs; [|discriminate].
  destruct (wf_stream w Hwf _ _ Hs) as (tr & Htr & _).
  unfold bind at 1 in H. rewrite (_allocate_flow_id_eq w _ tr Htr) in H.
  unfold bind at 1 in H.
  rewrite (append_flow_id_eq _ t o) in H by exact Ht.
  unfold PerfettoTransaction.append_flow_id, bind, get_txn, put_txn in H.
  match type of H with
  | context [txns ?x !! g] => destruct (txns x !! g) as [og|] eqn:Hg
  end; [|discriminate].
  injection H as <-.
  cbn [with_txn with_trace txns] in Hg.
  apply (accounts_update w _ (stream_trace s) tr
           (set_trace_next_flow_id (trace_next_flow_id tr + 1) tr) 0 0 0 Ha Htr);
    cbn [with_trace with_txn traces streams txns]; try reflexivity;
    try (simpl; lia).
  - intros r. rewrite (count_insert_same _ _ _ og _ Hg) by reflexivity.
    rewrite (count_insert_same _ _ _ o _ Ht) by reflexivity.
    destruct (decide (r = stream_trace s)); lia.
  - intros r. rewrite (count_insert_same _ _ _ og _ Hg) by reflexivity.
    rewrite (count_insert_same _ _ _ o _ Ht) by reflexivity.
    destruct (decide (r = stream_trace s)); lia.
Qed.

Lemma txn_trace_lt (w : World) (o : PerfettoTransactionObj) (r : ref) :
  wf w -> o ∈ txns w -> txn_trace (streams w) o = Some r ->
  (r < length (traces w))%nat.
Proof.
  intros Hwf Hin E. apply list_elem_of_lookup in Hin as [t Ht].
  destruct (wf_txn w Hwf _ _ Ht) as (s & tr & Hs & Htr & _).
  unfold txn_trace in E. rewrite Hs in E. injection E as <-.
  apply lookup_lt_Some in Htr. exact Htr.
Qed.

Lemma txn_stream_valid (w : World) (o : PerfettoTransactionObj) :
  wf w -> o ∈ txns w -> is_Some (streams w !! txn_stream o).
Proof.
  intros Hwf Hin. apply list_elem_of_lookup in Hin as [t Ht].
  destruct (wf_txn w Hwf _ _ Ht) as (s & tr & Hs & _). eauto.
Qed.

Lemma pres_create_trace (filename name time_units : string) :
  pres (create_trace filename name time_units).
Proof.
  intros w w' Hwf [A1 A2] H. rewrite create_trace_eq in H. injection H as <-.
  assert (Hzero : forall p : list PerfettoStreamObj -> ref -> PerfettoTransactionObj -> bool,
            (forall o, p (streams w) (length (traces w)) o = true ->
               txn_trace (streams w) o = Some (length (traces w))) ->
            count (p (streams w) (length (traces w))) (txns w) = 0%nat).
  { intros p Hp. apply count_zero. intros o Hin.
    destruct (p (streams w) (length (traces w)) o) eqn:E; [|reflexivity].
    pose proof (txn_trace_lt w o _ Hwf Hin (Hp o E)). lia. }
  assert (Hlook : forall r tr',
            <[length (traces w) :=
                set_trace_written [clock_snapshot_packet]
                  (fresh_trace filename name time_units)]>
              (traces w ++ [fresh_trace filename name time_units]) !! r = Some tr' ->
            traces w !! r = Some tr' \/
            (r = length (traces w) /\
             tr' = set_trace_written [clock_snapshot_packet]
                     (fresh_trace filename name time_units))).
  { intros r tr' H'. destruct (decide (r = length (traces w))) as [->|Hne].
    - right. rewrite list_lookup_insert_eq in H' by (rewrite length_app; simpl; lia).
      injection H' as <-. auto.
    - left. rewrite list_lookup_insert_ne in H' by congruence.
      apply lookup_app_Some in H' as [H'|[Hge H']]; [exact H'|].
      apply lookup_lt_Some in H'. simpl in H'. lia. }
  constructor; cbn [with_trace push_trace traces streams txns]; intros r tr' H';
    destruct (Hlook r tr' H') as [Hold|[-> ->]]; auto.
  - rewrite (Hzero child_on); [reflexivity|].
    intros o E. unfold child_on in E. apply andb_true_iff in E as [E _].
    apply bool_decide_eq_true_1 in E. exact E.
  - rewrite (Hzero closed_on); [reflexivity|].
    intros o E. unfold closed_on in E. apply andb_true_iff in E as [E _].
    apply bool_decide_eq_true_1 in E. exact E.
Qed.

Lemma count_push_stream (w : World) (so' : PerfettoStreamObj)
    (p : list PerfettoStreamObj -> ref -> PerfettoTransactionObj -> bool) (r : ref) :
  wf w ->
  (forall ss ss' o, txn_trace ss' o = txn_trace ss o -> p ss' r o = p ss r o) ->
  count (p (streams w ++ [so']) r) (txns w) = count (p (streams w) r) (txns w).
Proof.
  intros Hwf Hp. apply count_ext. intros o Hin. apply Hp.
  apply txn_trace_push_stream, (txn_stream_valid w o Hwf Hin).
Qed.

Lemma child_on_txn_trace (r : ref) (ss ss' : list PerfettoStreamObj)
    (o : PerfettoTransactionObj) :
  txn_trace ss' o = txn_trace ss o -> child_on ss' r o = child_on ss r o.
Proof. intros E. unfold child_on. rewrite E. reflexivity. Qed.

Lemma closed_on_txn_trace (r : ref) (ss ss' : list PerfettoStreamObj)
    (o : PerfettoTransactionObj) :
  txn_trace ss' o = txn_trace ss o -> closed_on ss' r o = closed_on ss r o.
Proof. intros E. unfold closed_on. rewrite E. reflexivity. Qed.

Lemma pres_create_stream (r : ref) (name : string) (scope type_name : option string) :
  pres (PerfettoTrace.create_stream r name scope type_name).
Proof.
  intros w w' Hwf Ha H.
  destruct (traces w !! r) as [tr|] eqn:Htr.
  2:{ unfold PerfettoTrace.create_stream, bind, _allocate_track_uuid, bind, get_trace in H.
      rewrite Htr in H. discriminate. }
  destruct (trace_file_open tr) eqn:Hfo.
  - rewrite (create_stream_open _ _ _ _ _ _ Htr Hfo) in H. cbv zeta in H.
    injection H as <-.
    match goal with
    | |- accounts (with_trace r ?x _) =>
        apply (accounts_update w _ r tr x 1 0 0 Ha Htr)
    end; cbn [with_trace push_stream traces streams txns].
    + apply list_insert_insert_eq.
    + intros r'. rewrite (count_push_stream w _ child_on r' Hwf (child_on_txn_trace r')).
      destruct (decide (r' = r)); lia.
    + intros r'. rewrite (count_push_stream w _ closed_on r' Hwf (closed_on_txn_trace r')).
      destruct (decide (r' = r)); lia.
    + simpl. rewrite declared_app, length_app. reflexivity.
    + simpl. rewrite length_app. simpl. lia.
    + simpl. rewrite length_app. simpl. lia.
  - rewrite (create_stream_released _ _ _ _ _ _ Htr Hfo) in H. injection H as <-.
    apply (accounts_update w _ r tr
             (set_trace_next_track_uuid (trace_next_track_uuid tr + 1) tr) 0 0 0 Ha Htr);
      cbn [with_trace traces streams txns]; try reflexivity;
      try (intros r'; destruct (decide (r' = r)); lia); simpl; lia.
Qed.

Lemma count_begin (w : World) (s : ref) (so so' : PerfettoStreamObj)
    (o' : PerfettoTransactionObj)
    (p : list PerfettoStreamObj -> ref -> PerfettoTransactionObj -> bool) (r : ref) :
  streams w !! s = Some so -> stream_trace so' = stream_trace so ->
  (forall ss ss' o, txn_trace ss' o = txn_trace ss o -> p ss' r o = p ss r o) ->
  count (p (<[s := so']> (streams w)) r) (txns w ++ [o'])
  = (count (p (streams w) r) (txns w)
     + if p (<[s := so']> (streams w)) r o' then 1 else 0)%nat.
Proof.
  intros Hs E Hp. rewrite count_app. simpl. rewrite Nat.add_0_r. f_equal.
  apply count_ext. intros o _. apply Hp. apply (txn_trace_with_stream _ _ _ _ _ Hs E).
Qed.

Lemma pres_begin_transaction (s : ref) (name : string) (start_time : Z)
    (type_name : option string) (parent : py_arg) :
  pres (PerfettoStream.begin_transaction s name start_time type_name parent).
Proof.
  intros w w' Hwf Ha H.
  destruct (streams w !! s) as [so|] eqn:Hs.
  2:{ unfold PerfettoStream.begin_transaction, bind, get_stream in H.
      rewrite Hs in H. discriminate. }
  destruct (stream_is_open so) eqn:Ho.
  2:{ rewrite (begin_transaction_closed w s so _ _ _ _ Hs Ho) in H.
      injection H as <-. exact Ha. }
  destruct (wf_stream w Hwf _ _ Hs) as (tr & Htr & _ & Hfo & _).
  specialize (Hfo Ho).
  assert (Hroot : parent = PyNone \/ parent = PyOther false -> accounts w').
  { intros Hp.
    rewrite (begin_transaction_root w s so tr _ _ _ _ Hs Ho Htr Hp) in H.
    injection H as <-.
    apply (accounts_update w _ (stream_trace so) tr
             (set_trace_next_transaction_id (trace_next_transaction_id tr + 1) tr)
             0 0 0 Ha Htr);
      cbn [with_stream push_txn with_trace traces streams txns]; try reflexivity;
      try (simpl; lia).
    - intros r. rewrite (count_begin w s so
                  (set_stream_transactions (stream_transactions so ++ [length (txns w)]) so)
                  _ child_on r Hs eq_refl
                           (child_on_txn_trace r)).
      unfold child_on at 2. cbn [fresh_txn txn_parent].
      rewrite (bool_decide_eq_false_2 (is_Some None)) by (intros [? ?]; discriminate).
      rewrite andb_false_r. destruct (decide (r = stream_trace so)); lia.
    - intros r. rewrite (count_begin w s so
                  (set_stream_transactions (stream_transactions so ++ [length (txns w)]) so)
                  _ closed_on r Hs eq_refl
                           (closed_on_txn_trace r)).
      unfold closed_on at 2. cbn [fresh_txn txn_is_open negb].
      rewrite andb_false_r. destruct (decide (r = stream_trace so)); lia. }
  destruct parent as [|p|[|]]; [apply Hroot; auto | | | apply Hroot; auto].
  - destruct (txns w !! p) as [po|] eqn:Hp.
    2:{ exfalso. unfold PerfettoStream.begin_transaction in H.
        unfold bind at 1 in H. unfold get_stream at 1 in H. rewrite Hs, Ho in H.
        cbn [negb] in H. unfold bind at 1 in H.
        rewrite (_allocate_transaction_id_eq _ _ _ Htr) in H.
        unfold bind at 1 in H. unfold ret at 1 in H.
        unfold PerfettoTransaction.__init__ in H.
        unfold bind at 1 in H. unfold bind at 1 in H. unfold get_stream at 1 in H.
        cbn [with_trace streams] in H. rewrite Hs in H.
        unfold bind at 1 in H.
        erewrite _allocate_track_uuid_eq in H
          by (cbn [with_trace traces]; eapply lookup_insert_same, Htr).
        unfold bind at 1 in H. unfold _emit_child_track_descriptor in H.
        unfold bind at 1 in H. cbn [txn_parent] in H.
        unfold bind at 1 in H. unfold get_txn at 1 in H.
        cbn [with_trace txns] in H. rewrite Hp in H. discriminate. }
    rewrite (begin_transaction_child w s so tr _ _ _ p po Hs Ho Htr Hfo Hp) in H.
    injection H as <-.
    match goal with
    | |- accounts (with_stream _ _ (push_txn _ (with_trace _ ?x _))) =>
        apply (accounts_update w _ (stream_trace so) tr x 1 1 0 Ha Htr)
    end; cbn [with_stream push_txn with_trace traces streams txns]; try reflexivity.
    + intros r. rewrite (count_begin w s so
                  (set_stream_transactions (stream_transactions so ++ [length (txns w)]) so)
                  _ child_on r Hs eq_refl
                           (child_on_txn_trace r)).
      unfold child_on at 2. unfold txn_trace. cbn [fresh_txn txn_parent txn_stream].
      rewrite (lookup_insert_same _ _ _ _ Hs).
      cbn [fmap option_fmap option_map set_stream_transactions stream_trace].
      rewrite (bool_decide_eq_true_2 (is_Some (Some p))) by eauto.
      rewrite andb_true_r.
      destruct (decide (r = stream_trace so)) as [->|Hne].
      * rewrite bool_decide_eq_true_2 by reflexivity. reflexivity.
      * rewrite bool_decide_eq_false_2 by congruence. reflexivity.
    + intros r. rewrite (count_begin w s so
                  (set_stream_transactions (stream_transactions so ++ [length (txns w)]) so)
                  _ closed_on r Hs eq_refl
                           (closed_on_txn_trace r)).
      unfold closed_on at 2. cbn [fresh_txn txn_is_open negb].
      rewrite andb_false_r. destruct (decide (r = stream_trace so)); lia.
    + simpl. rewrite declared_app, length_app. reflexivity.
    + simpl. rewrite length_app. simpl. lia.
  - rewrite (begin_transaction_foreign w s so tr _ _ _ Hs Ho Htr) in H.
    injection H as <-.
    apply (accounts_update w _ (stream_trace so) tr
             (set_trace_next_transaction_id (trace_next_transaction_id tr + 1) tr)
             0 0 0 Ha Htr);
      cbn [with_trace traces streams txns]; try reflexivity;
      try (intros r; destruct (decide (r = stream_trace so)); lia); simpl; lia.
Qed.

Lemma perform_pres (c : call) : pres (perform c).
Proof.
  destruct (attribute_of c) as [[t a]|] eqn:Ea.
  { rewrite (perform_attribute c t a Ea). apply pres_append_attribute. }
  destruct c; try discriminate; cbn [perform].
  - apply pres_discard, pres_create_trace.
  - apply pres_discard, pres_create_stream.
  - apply pres_trace_close.
  - apply pres_discard, pres_begin_transaction.
  - apply pres_stream_close.
  - apply pres_close.
  - apply pres_add_link.
Qed.

Lemma accounts_empty : accounts empty_world.
Proof. constructor; intros *; simpl; intros H; discriminate. Qed.

Lemma reachable_accounts (w : World) : reachable w -> accounts w.
Proof.
  induction 1 as [|w c w' Hr IH Hstep]; [apply accounts_empty|].
  apply (perform_pres c w w' (reachable_wf w Hr) IH Hstep).
Qed.



(** * The legacy implementation *)

(** ** The invariant of the legacy store *)

Lemma legacy_wf_empty : Legacy.wf Legacy.empty_store.
Proof. constructor; intros *; simpl; intros H; discriminate. Qed.

(** Assignments that keep what the invariant speaks of. *)
Lemma legacy_wf_with_txn (st : Legacy.Store) (t : ref) (o o' : Legacy.Transaction) :
  Legacy.wf st -> Legacy.txns st !! t = Some o ->
  Legacy.txn_stream o' = Legacy.txn_stream o ->
  Legacy.txn_handle o' = Legacy.txn_handle o ->
  Legacy.txn_state o' <> Legacy.FREED ->
  (Legacy.txn_state o' = Legacy.OPEN -> Legacy.txn_state o = Legacy.OPEN) ->
  Legacy.wf (Legacy.with_txn t o' st).
Proof.
  intros [W1 W2 W3 W4 W5 W6 W7 W8] Ht Es Eh Hf Ho.
  constructor; cbn [Legacy.with_txn Legacy.traces Legacy.streams Legacy.txns]; auto.
  - intros t' x H. destruct (lookup_insert_cases _ _ _ _ _ H) as [(-> & <- & _)|[_ H']].
    + destruct (W1 _ _ Ht) as (so & tr & Hs & Htr & Hin & Hh & _ & Hop).
      exists so, tr. rewrite Es, Eh. auto 8.
    + apply (W1 _ _ H').
  - intros s so t' Hs Hin. destruct (W3 s so t' Hs Hin) as (x & Hx & E).
    destruct (decide (t' = t)) as [->|Hne].
    + exists o'. split; [eapply lookup_insert_same, Ht|]. congruence.
    + exists x. rewrite list_lookup_insert_ne by congruence. auto.
  - intros r tr h t' Htr Hh. destruct (W6 r tr h t' Htr Hh) as (Hb & x & so & Hx & E1 & Hs & E2).
    split; [exact Hb|]. destruct (decide (t' = t)) as [->|Hne].
    + exists o', so. assert (x = o) by congruence. subst x.
      split; [eapply lookup_insert_same, Ht|]. rewrite Eh, Es. auto.
    + exists x, so. rewrite list_lookup_insert_ne by congruence. auto.
Qed.

Lemma legacy_wf_with_stream (st : Legacy.Store) (s : ref) (so so' : Legacy.Stream) :
  Legacy.wf st -> Legacy.streams st !! s = Some so ->
  Legacy.stream_trace so' = Legacy.stream_trace so ->
  Legacy.stream_handle so' = Legacy.stream_handle so ->
  Legacy.stream_transactions so' = Legacy.stream_transactions so ->
  Legacy.stream_state so' <> Legacy.FREED ->
  (Legacy.stream_state so' <> Legacy.OPEN ->
   forall t o, t ∈ Legacy.stream_transactions so -> Legacy.txns st !! t = Some o ->
     Legacy.txn_state o <> Legacy.OPEN) ->
  Legacy.wf (Legacy.with_stream s so' st).
Proof.
  intros [W1 W2 W3 W4 W5 W6 W7 W8] Hs Et Eh El Hf Hop.
  constructor; cbn [Legacy.with_stream Legacy.traces Legacy.streams Legacy.txns]; auto.
  - intros t o Ht. destruct (W1 _ _ Ht) as (x & tr & Hx & Htr & Hin & Hh & Hfr & Ho).
    destruct (decide (Legacy.txn_stream o = s)) as [E|Hne].
    + rewrite E in Hx. assert (x = so) by congruence. subst x.
      exists so', tr. rewrite E, (lookup_insert_same _ _ _ _ Hs), Et, El.
      split; [reflexivity|]. split; [exact Htr|]. split; [exact Hin|].
      split; [exact Hh|]. split; [exact Hfr|].
      intros Hopen. destruct (decide (Legacy.stream_state so' = Legacy.OPEN)) as [|Hn];
        [assumption|].
      destruct (Hop Hn t o Hin Ht Hopen).
    + exists x, tr. rewrite list_lookup_insert_ne by congruence. auto 8.
  - intros s' x H. destruct (lookup_insert_cases _ _ _ _ _ H) as [(-> & -> & _)|[_ H']].
    + destruct (W2 _ _ Hs) as (tr & Htr & Hin & Hh & _).
      exists tr. rewrite Et, Eh. auto.
    + apply (W2 _ _ H').
  - intros s' x t H Hin. destruct (lookup_insert_cases _ _ _ _ _ H) as [(-> & -> & _)|[_ H']].
    + rewrite El in Hin. apply (W3 _ _ _ Hs Hin).
    + apply (W3 _ _ _ H' Hin).
  - intros r tr s' Htr Hin. destruct (W4 r tr s' Htr Hin) as (x & Hx & E).
    destruct (decide (s' = s)) as [->|Hne].
    + exists so'. split; [eapply lookup_insert_same, Hs|]. congruence.
    + exists x. rewrite list_lookup_insert_ne by congruence. auto.
  - intros r tr h s' Htr Hh. destruct (W5 r tr h s' Htr Hh) as (Hb & x & Hx & E1 & E2).
    split; [exact Hb|]. destruct (decide (s' = s)) as [->|Hne].
    + exists so'. split; [eapply lookup_insert_same, Hs|]. split; congruence.
    + exists x. rewrite list_lookup_insert_ne by congruence. auto.
  - intros r tr h t Htr Hh.
    destruct (W6 r tr h t Htr Hh) as (Hb & o & x & Ho & E1 & Hx & E2).
    split; [exact Hb|]. destruct (decide (Legacy.txn_stream o = s)) as [E|Hne].
    + exists o, so'. rewrite E in Hx |- *. assert (x = so) by congruence. subst x.
      rewrite (lookup_insert_same _ _ _ _ Hs). split; [exact Ho|]. split; [exact E1|].
      split; [reflexivity | congruence].
    + exists o, x. rewrite list_lookup_insert_ne by congruence. auto.
Qed.

Lemma legacy_wf_with_trace (st : Legacy.Store) (r : ref) (tr tr' : Legacy.Trace) :
  Legacy.wf st -> Legacy.traces st !! r = Some tr ->
  Legacy.trace_streams tr' = Legacy.trace_streams tr ->
  Legacy.trace_stream_handles tr' = Legacy.trace_stream_handles tr ->
  Legacy.trace_transaction_handles tr' = Legacy.trace_transaction_handles tr ->
  Legacy.trace_next_stream_handle tr' = Legacy.trace_next_stream_handle tr ->
  Legacy.trace_next_transaction_handle tr' = Legacy.trace_next_transaction_handle tr ->
  (Legacy.trace_output_file tr' = Some [] \/ Legacy.trace_output_file tr' = None) ->
  Legacy.wf (Legacy.with_trace r tr' st).
Proof.
  intros [W1 W2 W3 W4 W5 W6 W7 W8] Hr E1 E2 E3 E4 E5 Hout.
  constructor; cbn [Legacy.with_trace Legacy.traces Legacy.streams Legacy.txns]; auto.
  - intros t o Ht. destruct (W1 _ _ Ht) as (so & x & Hs & Hx & Hin & Hh & Hrest).
    destruct (decide (Legacy.stream_trace so = r)) as [E|Hne].
    + rewrite E in Hx. assert (x = tr) by congruence. subst x.
      exists so, tr'. rewrite E, (lookup_insert_same _ _ _ _ Hr), E3. auto.
    + exists so, x. rewrite list_lookup_insert_ne by congruence. auto.
  - intros s so Hs. destruct (W2 _ _ Hs) as (x & Hx & Hin & Hh & Hrest).
    destruct (decide (Legacy.stream_trace so = r)) as [E|Hne].
    + rewrite E in Hx. assert (x = tr) by congruence. subst x.
      exists tr'. rewrite E, (lookup_insert_same _ _ _ _ Hr), E1, E2. auto.
    + exists x. rewrite list_lookup_insert_ne by congruence. auto.
  - intros r' x s H Hin.
    destruct (lookup_insert_cases _ _ _ _ _ H) as [(-> & -> & _)|[_ H']].
    + rewrite E1 in Hin. apply (W4 _ _ _ Hr Hin).
    + apply (W4 _ _ _ H' Hin).
  - intros r' x h s H Hh.
    destruct (lookup_insert_cases _ _ _ _ _ H) as [(-> & -> & _)|[_ H']].
    + rewrite E2 in Hh. rewrite E4. apply (W5 _ _ _ _ Hr Hh).
    + apply (W5 _ _ _ _ H' Hh).
  - intros r' x h t H Hh.
    destruct (lookup_insert_cases _ _ _ _ _ H) as [(-> & -> & _)|[_ H']].
    + rewrite E3 in Hh. rewrite E5. apply (W6 _ _ _ _ Hr Hh).
    + apply (W6 _ _ _ _ H' Hh).
  - intros r' x H.
    destruct (lookup_insert_cases _ _ _ _ _ H) as [(-> & -> & _)|[_ H']].
    + exact Hout.
    + apply (W7 _ _ H').
  - intros r' x H.
    destruct (lookup_insert_cases _ _ _ _ _ H) as [(-> & -> & _)|[_ H']].
    + rewrite E4, E5. apply (W8 _ _ Hr).
    + apply (W8 _ _ H').
Qed.

Lemma legacy_create_trace_wf (filename name time_units : string) (st st' : Legacy.Store) :
  Legacy.wf st ->
  Legacy.store_after (Legacy.create_trace filename name time_units st) = Some st' ->
  Legacy.wf st'.
Proof.
  intros [W1 W2 W3 W4 W5 W6 W7 W8] [= <-].
  constructor; cbn [Legacy.traces Legacy.streams Legacy.txns]; auto.
  - intros t o Ht. destruct (W1 _ _ Ht) as (so & tr & Hs & Htr & Hrest).
    exists so, tr. rewrite (lookup_app_l_Some _ _ _ _ Htr). auto.
  - intros s so Hs. destruct (W2 _ _ Hs) as (tr & Htr & Hrest).
    exists tr. rewrite (lookup_app_l_Some _ _ _ _ Htr). auto.
  - intros r tr s H Hin. apply lookup_app_Some in H as [H|[_ H]].
    + apply (W4 _ _ _ H Hin).
    + apply list_lookup_singleton_Some in H as [_ <-]. simpl in Hin.
      apply elem_of_nil in Hin. contradiction.
  - intros r tr h s H Hh. apply lookup_app_Some in H as [H|[_ H]].
    + apply (W5 _ _ _ _ H Hh).
    + apply list_lookup_singleton_Some in H as [_ <-]. simpl in Hh.
      rewrite lookup_empty in Hh. discriminate.
  - intros r tr h t H Hh. apply lookup_app_Some in H as [H|[_ H]].
    + apply (W6 _ _ _ _ H Hh).
    + apply list_lookup_singleton_Some in H as [_ <-]. simpl in Hh.
      rewrite lookup_empty in Hh. discriminate.
  - intros r tr H. apply lookup_app_Some in H as [H|[_ H]].
    + apply (W7 _ _ H).
    + apply list_lookup_singleton_Some in H as [_ <-]. left. reflexivity.
  - intros r tr H. apply lookup_app_Some in H as [H|[_ H]].
    + apply (W8 _ _ H).
    + apply list_lookup_singleton_Some in H as [_ <-]. simpl. lia.
Qed.

Lemma legacy_close_transaction_wf (txn : option ref) (end_time : Z)
    (st st' : Legacy.Store) :
  Legacy.wf st ->
  Legacy.store_after (Legacy.close_transaction txn end_time st) = Some st' ->
  Legacy.wf st'.
Proof.
  intros Hwf H. destruct txn as [t|]; [|injection H as <-; exact Hwf].
  unfold Legacy.close_transaction in H.
  destruct (Legacy.txns st !! t) as [o|] eqn:Ht; [|discriminate].
  destruct (decide (Legacy.txn_state o = Legacy.OPEN)) as [Ho|Ho];
    injection H as <-; [|exact Hwf].
  apply (legacy_wf_with_txn st t o _ Hwf Ht); try reflexivity; [discriminate|].
  simpl. discriminate.
Qed.

Lemma legacy_close_transactions_wf (l : list ref) :
  forall (st : Legacy.Store) (r : Legacy.result unit),
    Legacy.wf st -> Legacy.close_transactions l st = r ->
    forall st', Legacy.store_after r = Some st' -> Legacy.wf st'.
Proof.
  induction l as [|t l IH]; intros st r Hwf <- st' H.
  - injection H as <-. exact Hwf.
  - cbn [Legacy.close_transactions] in H.
    destruct (Legacy.txns st !! t) as [o|] eqn:Ht; [|discriminate].
    destruct (Legacy.Transaction_is_open o); [|apply (IH st _ Hwf eq_refl st' H)].
    destruct (Legacy.close_transaction (Some t) (Legacy.txn_start_time o) st)
      as [[] st1|e st1|] eqn:Hc; [| |discriminate].
    + assert (Hwf1 : Legacy.wf st1).
      { apply (legacy_close_transaction_wf (Some t) (Legacy.txn_start_time o) st st1 Hwf).
        rewrite Hc. reflexivity. }
      apply (IH st1 _ Hwf1 eq_refl st' H).
    + injection H as <-.
      apply (legacy_close_transaction_wf (Some t) (Legacy.txn_start_time o) st st1 Hwf).
      rewrite Hc. reflexivity.
Qed.

(** ** Closing, in the legacy implementation *)

Lemma legacy_force_closed_not_open (o : Legacy.Transaction) :
  Legacy.txn_state (Legacy.force_closed o) <> Legacy.OPEN.
Proof.
  unfold Legacy.force_closed.
  destruct (decide (Legacy.txn_state o = Legacy.OPEN)); [discriminate | assumption].
Qed.

Lemma legacy_force_closed_id (o : Legacy.Transaction) :
  Legacy.txn_state o <> Legacy.OPEN -> Legacy.force_closed o = o.
Proof.
  intros H. unfold Legacy.force_closed.
  destruct (decide (Legacy.txn_state o = Legacy.OPEN)); [contradiction | reflexivity].
Qed.

Lemma legacy_force_closed_twice (o : Legacy.Transaction) :
  Legacy.force_closed (Legacy.force_closed o) = Legacy.force_closed o.
Proof. apply legacy_force_closed_id, legacy_force_closed_not_open. Qed.

Lemma legacy_is_open_spec (o : Legacy.Transaction) :
  Legacy.Transaction_is_open o = true <-> Legacy.txn_state o = Legacy.OPEN.
Proof. unfold Legacy.Transaction_is_open. apply bool_decide_eq_true. Qed.

(** The loop of [close_stream], exactly. *)
Lemma legacy_close_transactions_exact (l : list ref) :
  forall st : Legacy.Store,
    (forall t, t ∈ l -> is_Some (Legacy.txns st !! t)) ->
    exists st',
      Legacy.close_transactions l st = Legacy.Return tt st' /\
      Legacy.traces st' = Legacy.traces st /\
      Legacy.streams st' = Legacy.streams st /\
      length (Legacy.txns st') = length (Legacy.txns st) /\
      forall t o, Legacy.txns st !! t = Some o ->
        Legacy.txns st' !! t =
          Some (if decide (t ∈ l) then Legacy.force_closed o else o).
Proof.
  induction l as [|t l IH]; intros st Hl.
  - exists st. simpl. repeat (split; [reflexivity|]). intros t o Ht.
    destruct (decide (t ∈ [])) as [H%elem_of_nil|]; [contradiction | exact Ht].
  - destruct (Hl t (list_elem_of_here _ _)) as [o Ht].
    cbn [Legacy.close_transactions]. rewrite Ht.
    assert (Hl' : forall st1 : Legacy.Store,
              length (Legacy.txns st1) = length (Legacy.txns st) ->
              forall t', t' ∈ l -> is_Some (Legacy.txns st1 !! t')).
    { intros st1 Hlen t' Hin.
      destruct (Hl t' (list_elem_of_further _ _ _ Hin)) as [x Hx].
      apply lookup_lt_is_Some. rewrite Hlen. eapply lookup_lt_Some, Hx. }
    destruct (Legacy.Transaction_is_open o) eqn:Hopen.
    + apply legacy_is_open_spec in Hopen.
      unfold Legacy.close_transaction. rewrite Ht.
      destruct (decide (Legacy.txn_state o = Legacy.OPEN)) as [_|Hn]; [|contradiction].
      match goal with
      | |- context [Legacy.with_txn t ?x st] => set (o1 := x)
      end.
      assert (Eo1 : o1 = Legacy.force_closed o).
      { unfold Legacy.force_closed.
        destruct (decide (Legacy.txn_state o = Legacy.OPEN)); [reflexivity | contradiction]. }
      destruct (IH (Legacy.with_txn t o1 st))
        as (st' & Hc & Htr & Hst & Hlen & Htx).
      { apply Hl'. cbn [Legacy.with_txn Legacy.txns]. apply length_insert. }
      exists st'. split; [exact Hc|]. split; [exact Htr|]. split; [exact Hst|].
      split; [rewrite Hlen; cbn [Legacy.with_txn Legacy.txns]; apply length_insert|].
      intros t' o' Ht'. cbn [Legacy.with_txn Legacy.txns] in Htx.
      destruct (decide (t' = t)) as [->|Hne].
      * assert (o' = o) by congruence. subst o'.
        rewrite (Htx t o1 (lookup_insert_same _ _ _ _ Ht)).
        rewrite (decide_True (P := t ∈ t :: l)) by apply list_elem_of_here.
        rewrite Eo1. destruct (decide (t ∈ l));
          [rewrite legacy_force_closed_twice|]; reflexivity.
      * rewrite (Htx t' o') by (rewrite list_lookup_insert_ne by congruence; exact Ht').
        f_equal. destruct (decide (t' ∈ l)) as [Hi|Hi].
        -- rewrite decide_True by (apply list_elem_of_further, Hi). reflexivity.
        -- rewrite decide_False; [reflexivity|].
           intros H. apply elem_of_cons in H as [?|?]; contradiction.
    + assert (Hn : Legacy.txn_state o <> Legacy.OPEN).
      { intros E. apply legacy_is_open_spec in E. congruence. }
      destruct (IH st (Hl' st eq_refl)) as (st' & Hc & Htr & Hst & Hlen & Htx).
      exists st'. split; [exact Hc|]. split; [exact Htr|]. split; [exact Hst|].
      split; [exact Hlen|].
      intros t' o' Ht'. rewrite (Htx t' o' Ht'). f_equal.
      destruct (decide (t' = t)) as [->|Hne].
      * assert (o' = o) by congruence. subst o'.
        rewrite (decide_True (P := t ∈ t :: l)) by apply list_elem_of_here.
        rewrite (legacy_force_closed_id o Hn). destruct (decide (t ∈ l)); reflexivity.
      * destruct (decide (t' ∈ l)) as [Hi|Hi].
        -- rewrite decide_True by (apply list_elem_of_further, Hi). reflexivity.
        -- rewrite decide_False; [reflexivity|].
           intros H. apply elem_of_cons in H as [?|?]; contradiction.
Qed.

(** [close_stream] as one update of the store. *)
Lemma legacy_close_stream_exact (st : Legacy.Store) (s : ref) (so : Legacy.Stream) :
  Legacy.wf st -> Legacy.streams st !! s = Some so ->
  exists st',
    Legacy.close_stream (Some s) st = Legacy.Return tt st' /\
    Legacy.wf st' /\
    Legacy.traces st' = Legacy.traces st /\
    Legacy.streams st' = <[s := Legacy.closed_stream so]> (Legacy.streams st) /\
    length (Legacy.txns st') = length (Legacy.txns st) /\
    forall t o, Legacy.txns st !! t = Some o ->
      Legacy.txns st' !! t =
        Some (if decide (Legacy.txn_stream o = s) then Legacy.force_closed o else o).
Proof.
  intros Hwf Hs.
  destruct (legacy_close_transactions_exact (Legacy.stream_transactions so) st)
    as (st1 & Hc & Htr & Hst & Hlen & Htx).
  { intros t Hin. destruct (Legacy.wf_listed_txn st Hwf _ _ _ Hs Hin) as (o & Ho & _).
    eauto. }
  assert (Hwf1 : Legacy.wf st1).
  { apply (legacy_close_transactions_wf _ st _ Hwf Hc). reflexivity. }
  assert (Hs1 : Legacy.streams st1 !! s = Some so) by (rewrite Hst; exact Hs).
  assert (Htx' : forall t o, Legacy.txns st !! t = Some o ->
            Legacy.txns st1 !! t =
              Some (if decide (Legacy.txn_stream o = s)
                    then Legacy.force_closed o else o)).
  { intros t o Ht. rewrite (Htx t o Ht). f_equal.
    destruct (decide (t ∈ Legacy.stream_transactions so)) as [Hi|Hi];
      destruct (decide (Legacy.txn_stream o = s)) as [E|E]; try reflexivity; exfalso.
    - destruct (Legacy.wf_listed_txn st Hwf _ _ _ Hs Hi) as (o' & Ho' & E').
      congruence.
    - destruct (Legacy.wf_txn st Hwf _ _ Ht) as (so' & _ & Hso' & _ & Hin & _).
      rewrite E in Hso'. assert (so' = so) by congruence. subst so'. contradiction. }
  exists (Legacy.with_stream s (Legacy.closed_stream so) st1).
  split; [unfold Legacy.close_stream; rewrite Hs, Hc, Hs1; reflexivity|].
  split.
  { apply (legacy_wf_with_stream st1 s so _ Hwf1 Hs1); try reflexivity; [discriminate|].
    intros _ t o1 Hin Ht1.
    destruct (Legacy.wf_listed_txn st Hwf _ _ _ Hs Hin) as (o & Ho & E).
    rewrite (Htx' t o Ho), decide_True in Ht1 by exact E. injection Ht1 as <-.
    apply legacy_force_closed_not_open. }
  cbn [Legacy.with_stream Legacy.traces Legacy.streams Legacy.txns].
  split; [exact Htr|]. split; [rewrite Hst; reflexivity|]. split; [exact Hlen|].
  exact Htx'.
Qed.

Lemma legacy_close_stream_wf (stream : option ref) (st st' : Legacy.Store) :
  Legacy.wf st ->
  Legacy.store_after (Legacy.close_stream stream st) = Some st' ->
  Legacy.wf st'.
Proof.
  intros Hwf H. destruct stream as [s|]; [|injection H as <-; exact Hwf].
  destruct (Legacy.streams st !! s) as [so|] eqn:Hs.
  - destruct (legacy_close_stream_exact st s so Hwf Hs) as (st1 & Hc & Hwf1 & _).
    rewrite Hc in H. injection H as <-. exact Hwf1.
  - unfold Legacy.close_stream in H. rewrite Hs in H. discriminate.
Qed.

Lemma legacy_closed_stream_id (so : Legacy.Stream) :
  Legacy.stream_state so = Legacy.CLOSED -> Legacy.closed_stream so = so.
Proof. destruct so. simpl. intros ->. reflexivity. Qed.

Lemma legacy_stream_is_open_spec (so : Legacy.Stream) :
  Legacy.Stream_is_open so = true <-> Legacy.stream_state so = Legacy.OPEN.
Proof. unfold Legacy.Stream_is_open. apply bool_decide_eq_true. Qed.

(** The loop of [close_trace], exactly. *)
Lemma legacy_close_streams_exact (l : list ref) :
  forall st : Legacy.Store,
    Legacy.wf st ->
    (forall s, s ∈ l -> is_Some (Legacy.streams st !! s)) ->
    exists st',
      Legacy.close_streams l st = Legacy.Return tt st' /\
      Legacy.wf st' /\
      Legacy.traces st' = Legacy.traces st /\
      length (Legacy.streams st') = length (Legacy.streams st) /\
      length (Legacy.txns st') = length (Legacy.txns st) /\
      (forall s so, Legacy.streams st !! s = Some so ->
         Legacy.streams st' !! s =
           Some (if decide (s ∈ l) then Legacy.closed_stream so else so)) /\
      (forall t o, Legacy.txns st !! t = Some o ->
         Legacy.txns st' !! t =
           Some (if decide (Legacy.txn_stream o ∈ l)
                 then Legacy.force_closed o else o)).
Proof.
  induction l as [|s l IH]; intros st Hwf Hl.
  - exists st. simpl. split; [reflexivity|]. split; [exact Hwf|].
    repeat (split; [reflexivity|]). split.
    + intros s so Hs.
      destruct (decide (s ∈ [])) as [H%elem_of_nil|]; [contradiction | exact Hs].
    + intros t o Ht.
      destruct (decide (Legacy.txn_stream o ∈ [])) as [H%elem_of_nil|];
        [contradiction | exact Ht].
  - destruct (Hl s (list_elem_of_here _ _)) as [so Hs].
    assert (Hstep : exists st1,
      (if Legacy.Stream_is_open so
       then Legacy.close_stream (Some s) st else Legacy.Return tt st)
        = Legacy.Return tt st1 /\
      Legacy.wf st1 /\
      Legacy.traces st1 = Legacy.traces st /\
      length (Legacy.streams st1) = length (Legacy.streams st) /\
      length (Legacy.txns st1) = length (Legacy.txns st) /\
      (forall s' so', Legacy.streams st !! s' = Some so' ->
         Legacy.streams st1 !! s' =
           Some (if decide (s' = s) then Legacy.closed_stream so' else so')) /\
      (forall t o, Legacy.txns st !! t = Some o ->
         Legacy.txns st1 !! t =
           Some (if decide (Legacy.txn_stream o = s)
                 then Legacy.force_closed o else o))).
    { destruct (Legacy.Stream_is_open so) eqn:Hopen.
      - destruct (legacy_close_stream_exact st s so Hwf Hs)
          as (st1 & Hc & Hwf1 & Htr & Hst & Hlen & Htx).
        exists st1. split; [exact Hc|]. split; [exact Hwf1|]. split; [exact Htr|].
        split; [rewrite Hst; apply length_insert|]. split; [exact Hlen|].
        split; [|exact Htx].
        intros s' so' Hs'. rewrite Hst. destruct (decide (s' = s)) as [->|Hne].
        + assert (so' = so) by congruence. subst so'. eapply lookup_insert_same, Hs.
        + rewrite list_lookup_insert_ne by congruence. exact Hs'.
      - assert (Hn : Legacy.stream_state so <> Legacy.OPEN).
        { intros E. apply legacy_stream_is_open_spec in E. congruence. }
        destruct (Legacy.wf_stream st Hwf _ _ Hs) as (_ & _ & _ & _ & Hfr).
        assert (Hcl : Legacy.stream_state so = Legacy.CLOSED)
          by (destruct (Legacy.stream_state so); congruence).
        exists st. split; [reflexivity|]. split; [exact Hwf|].
        repeat (split; [reflexivity|]). split.
        + intros s' so' Hs'. destruct (decide (s' = s)) as [->|Hne]; [|exact Hs'].
          assert (so' = so) by congruence. subst so'.
          rewrite (legacy_closed_stream_id so Hcl). exact Hs'.
        + intros t o Ht.
          destruct (decide (Legacy.txn_stream o = s)) as [E|Hne]; [|exact Ht].
          rewrite legacy_force_closed_id; [exact Ht|].
          destruct (Legacy.wf_txn st Hwf _ _ Ht) as (so' & _ & Hso' & _ & _ & _ & _ & Hop).
          rewrite E in Hso'. assert (so' = so) by congruence. subst so'.
          intros Ho. apply Hn, Hop, Ho. }
    destruct Hstep as (st1 & Hc & Hwf1 & Htr1 & Hls1 & Hlt1 & Hst1 & Htx1).
    destruct (IH st1 Hwf1) as (st' & Hc' & Hwf' & Htr' & Hls' & Hlt' & Hst' & Htx').
    { intros s' Hin. destruct (Hl s' (list_elem_of_further _ _ _ Hin)) as [x Hx].
      rewrite (Hst1 s' x Hx). eauto. }
    exists st'. split.
    { cbn [Legacy.close_streams]. rewrite Hs.
      destruct (Legacy.Stream_is_open so); [rewrite Hc; exact Hc'|].
      injection Hc as ->. exact Hc'. }
    split; [exact Hwf'|]. split; [congruence|]. split; [congruence|].
    split; [congruence|]. split.
    + intros s' so' Hs'. rewrite (Hst' s' _ (Hst1 s' so' Hs')). f_equal.
      destruct (decide (s' = s)) as [->|Hne].
      * rewrite (decide_True (P := s ∈ s :: l)) by apply list_elem_of_here.
        destruct (decide (s ∈ l)); reflexivity.
      * destruct (decide (s' ∈ l)) as [Hi|Hi].
        -- rewrite decide_True by (apply list_elem_of_further, Hi). reflexivity.
        -- rewrite decide_False; [reflexivity|].
           intros H. apply elem_of_cons in H as [?|?]; contradiction.
    + intros t o Ht. rewrite (Htx' t _ (Htx1 t o Ht)). f_equal.
      assert (Est : Legacy.txn_stream
                      (if decide (Legacy.txn_stream o = s)
                       then Legacy.force_closed o else o) = Legacy.txn_stream o).
      { destruct (decide (Legacy.txn_stream o = s)); [|reflexivity].
        unfold Legacy.force_closed.
        destruct (decide (Legacy.txn_state o = Legacy.OPEN)); reflexivity. }
      rewrite Est. destruct (decide (Legacy.txn_stream o = s)) as [E|Hne].
      * rewrite (decide_True (P := Legacy.txn_stream o ∈ s :: l))
          by (rewrite E; apply list_elem_of_here).
        destruct (decide (Legacy.txn_stream o ∈ l));
          [apply legacy_force_closed_twice | reflexivity].
      * destruct (decide (Legacy.txn_stream o ∈ l)) as [Hi|Hi].
        -- rewrite decide_True by (apply list_elem_of_further, Hi). reflexivity.
        -- rewrite decide_False; [reflexivity|].
           intros H. apply elem_of_cons in H as [?|?]; contradiction.
Qed.

(** [close_trace] as one update of the store. *)
Lemma legacy_close_trace_exact (st : Legacy.Store) (r : ref) (tr : Legacy.Trace) :
  Legacy.wf st -> Legacy.traces st !! r = Some tr ->
  exists st',
    Legacy.close_trace (Some r) st = Legacy.Return tt st' /\
    Legacy.wf st' /\
    Legacy.traces st' = <[r := Legacy.Trace_close tr]> (Legacy.traces st) /\
    length (Legacy.streams st') = length (Legacy.streams st) /\
    length (Legacy.txns st') = length (Legacy.txns st) /\
    (forall s so, Legacy.streams st !! s = Some so ->
       Legacy.streams st' !! s =
         Some (if decide (Legacy.stream_trace so = r)
               then Legacy.closed_stream so else so)) /\
    (forall t o so, Legacy.txns st !! t = Some o ->
       Legacy.streams st !! Legacy.txn_stream o = Some so ->
       Legacy.txns st' !! t =
         Some (if decide (Legacy.stream_trace so = r)
               then Legacy.force_closed o else o)).
Proof.
  intros Hwf Htr.
  destruct (legacy_close_streams_exact (Legacy.trace_streams tr) st Hwf)
    as (st1 & Hc & Hwf1 & Htr1 & Hls & Hlt & Hst & Htx).
  { intros s Hin. destruct (Legacy.wf_listed_stream st Hwf _ _ _ Htr Hin) as (so & Hso & _).
    eauto. }
  assert (Hiff : forall s so, Legacy.streams st !! s = Some so ->
            (s ∈ Legacy.trace_streams tr <-> Legacy.stream_trace so = r)).
  { intros s so Hs. split.
    - intros Hin. destruct (Legacy.wf_listed_stream st Hwf _ _ _ Htr Hin) as (x & Hx & E).
      congruence.
    - intros E. destruct (Legacy.wf_stream st Hwf _ _ Hs) as (x & Hx & Hin & _).
      rewrite E in Hx. congruence. }
  assert (Htr1' : Legacy.traces st1 !! r = Some tr) by (rewrite Htr1; exact Htr).
  exists (Legacy.with_trace r (Legacy.Trace_close tr) st1).
  split; [unfold Legacy.close_trace; rewrite Htr, Hc, Htr1'; reflexivity|].
  split.
  { apply (legacy_wf_with_trace st1 r tr _ Hwf1 Htr1');
      unfold Legacy.Trace_close; destruct (Legacy.trace_output_file tr) eqn:E;
      try reflexivity; auto. }
  cbn [Legacy.with_trace Legacy.traces Legacy.streams Legacy.txns].
  split; [rewrite Htr1; reflexivity|]. split; [exact Hls|]. split; [exact Hlt|].
  split.
  - intros s so Hs. rewrite (Hst s so Hs). f_equal.
    pose proof (Hiff s so Hs).
    destruct (decide (s ∈ Legacy.trace_streams tr));
      destruct (decide (Legacy.stream_trace so = r)); try reflexivity; exfalso; tauto.
  - intros t o so Ht Hs. rewrite (Htx t o Ht). f_equal.
    pose proof (Hiff _ so Hs).
    destruct (decide (Legacy.txn_stream o ∈ Legacy.trace_streams tr));
      destruct (decide (Legacy.stream_trace so = r)); try reflexivity; exfalso; tauto.
Qed.

Lemma legacy_close_trace_wf (trace : option ref) (st st' : Legacy.Store) :
  Legacy.wf st ->
  Legacy.store_after (Legacy.close_trace trace st) = Some st' ->
  Legacy.wf st'.
Proof.
  intros Hwf H. destruct trace as [r|]; [|injection H as <-; exact Hwf].
  destruct (Legacy.traces st !! r) as [tr|] eqn:Htr.
  - destruct (legacy_close_trace_exact st r tr Hwf Htr) as (st1 & Hc & Hwf1 & _).
    rewrite Hc in H. injection H as <-. exact Hwf1.
  - unfold Legacy.close_trace in H. rewrite Htr in H. discriminate.
Qed.

Lemma legacy_open_stream_wf (trace : option ref) (name : string)
    (scope type_name : option string) (st st' : Legacy.Store) :
  Legacy.wf st ->
  Legacy.store_after (Legacy.open_stream trace name scope type_name st) = Some st' ->
  Legacy.wf st'.
Proof.
  intros Hwf H. destruct trace as [r|]; [|injection H as <-; exact Hwf].
  unfold Legacy.open_stream in H.
  destruct (Legacy.traces st !! r) as [tr|] eqn:Htr; [|discriminate].
  cbv zeta in H. injection H as <-.
  destruct Hwf as [W1 W2 W3 W4 W5 W6 W7 W8].
  destruct (W8 _ _ Htr) as [Hc1 Hc2].
  constructor; cbn [Legacy.traces Legacy.streams Legacy.txns].
  - intros t o Ht. destruct (W1 _ _ Ht) as (so & x & Hs & Hx & Hrest).
    rewrite (lookup_app_l_Some _ _ _ _ Hs).
    destruct (decide (Legacy.stream_trace so = r)) as [E|Hne].
    + rewrite E in Hx. assert (x = tr) by congruence. subst x.
      eexists so, _. rewrite E, (lookup_insert_same _ _ _ _ Htr).
      split; [reflexivity|]. split; [reflexivity|]. exact Hrest.
    + exists so, x. rewrite list_lookup_insert_ne by congruence. auto.
  - intros s so Hs. apply lookup_app_Some in Hs as [Hs|[Hge Hs]].
    + destruct (W2 _ _ Hs) as (x & Hx & Hin & Hh & Hfr).
      destruct (decide (Legacy.stream_trace so = r)) as [E|Hne].
      * rewrite E in Hx. assert (x = tr) by congruence. subst x.
        eexists. rewrite E, (lookup_insert_same _ _ _ _ Htr).
        split; [reflexivity|]. cbn [Legacy.trace_streams Legacy.trace_stream_handles].
        split; [apply elem_of_app; auto|]. split; [|exact Hfr].
        destruct (W5 _ _ _ _ Htr Hh) as [Hb _].
        rewrite lookup_insert_ne by lia. exact Hh.
      * exists x. rewrite list_lookup_insert_ne by congruence. auto.
    + apply list_lookup_singleton_Some in Hs as [Hi <-].
      assert (s = length (Legacy.streams st)) by lia. subst s.
      eexists. cbn [Legacy.stream_trace Legacy.stream_handle Legacy.stream_state].
      rewrite (lookup_insert_same _ _ _ _ Htr).
      split; [reflexivity|]. cbn [Legacy.trace_streams Legacy.trace_stream_handles].
      split; [apply elem_of_app; right; apply list_elem_of_here|].
      split; [apply lookup_insert_eq | discriminate].
  - intros s so t Hs Hin. apply lookup_app_Some in Hs as [Hs|[_ Hs]].
    + apply (W3 _ _ _ Hs Hin).
    + apply list_lookup_singleton_Some in Hs as [_ <-]. simpl in Hin.
      apply elem_of_nil in Hin. contradiction.
  - intros r' x s H Hin.
    destruct (lookup_insert_cases _ _ _ _ _ H) as [(-> & -> & _)|[_ H']].
    + cbn [Legacy.trace_streams] in Hin. apply elem_of_app in Hin as [Hin|Hin].
      * destruct (W4 _ _ _ Htr Hin) as (so & Hso & E). exists so.
        rewrite (lookup_app_l_Some _ _ _ _ Hso). auto.
      * apply list_elem_of_singleton in Hin. subst s. eexists.
        rewrite lookup_app_r by lia. rewrite Nat.sub_diag. split; reflexivity.
    + destruct (W4 _ _ _ H' Hin) as (so & Hso & E). exists so.
      rewrite (lookup_app_l_Some _ _ _ _ Hso). auto.
  - intros r' x h s H Hh.
    destruct (lookup_insert_cases _ _ _ _ _ H) as [(-> & -> & _)|[_ H']].
    + cbn [Legacy.trace_stream_handles Legacy.trace_next_stream_handle] in *.
      destruct (decide (h = Legacy.trace_next_stream_handle tr)) as [->|Hne].
      * rewrite lookup_insert_eq in Hh. injection Hh as <-.
        split; [lia|]. eexists. rewrite lookup_app_r by lia. rewrite Nat.sub_diag.
        split; [reflexivity|]. split; reflexivity.
      * rewrite lookup_insert_ne in Hh by congruence.
        destruct (W5 _ _ _ _ Htr Hh) as (Hb & so & Hso & E1 & E2).
        split; [lia|]. exists so. rewrite (lookup_app_l_Some _ _ _ _ Hso). auto.
    + destruct (W5 _ _ _ _ H' Hh) as (Hb & so & Hso & E1 & E2).
      split; [exact Hb|]. exists so. rewrite (lookup_app_l_Some _ _ _ _ Hso). auto.
  - intros r' x h t H Hh.
    destruct (lookup_insert_cases _ _ _ _ _ H) as [(-> & -> & _)|[_ H']].
    + cbn [Legacy.trace_transaction_handles Legacy.trace_next_transaction_handle] in *.
      destruct (W6 _ _ _ _ Htr Hh) as (Hb & o & so & Ho & E1 & Hso & E2).
      split; [exact Hb|]. exists o, so. rewrite (lookup_app_l_Some _ _ _ _ Hso). auto.
    + destruct (W6 _ _ _ _ H' Hh) as (Hb & o & so & Ho & E1 & Hso & E2).
      split; [exact Hb|]. exists o, so. rewrite (lookup_app_l_Some _ _ _ _ Hso). auto.
  - intros r' x H.
    destruct (lookup_insert_cases _ _ _ _ _ H) as [(-> & -> & _)|[_ H']].
    + apply (W7 _ _ Htr).
    + apply (W7 _ _ H').
  - intros r' x H.
    destruct (lookup_insert_cases _ _ _ _ _ H) as [(-> & -> & _)|[_ H']].
    + simpl. lia.
    + apply (W8 _ _ H').
Qed.

Lemma legacy_open_transaction_wf (stream : option ref) (name : string)
    (start_time : Z) (type_name : option string) (parent : option ref)
    (st st' : Legacy.Store) :
  Legacy.wf st ->
  Legacy.store_after
    (Legacy.open_transaction stream name start_time type_name parent st) = Some st' ->
  Legacy.wf st'.
Proof.
  intros Hwf H. destruct stream as [s|]; [|injection H as <-; exact Hwf].
  unfold Legacy.open_transaction in H.
  destruct (Legacy.streams st !! s) as [so|] eqn:Hs; [|discriminate].
  destruct (decide (Legacy.stream_state so <> Legacy.OPEN)) as [Hn|Hopen];
    [injection H as <-; exact Hwf|].
  assert (Hstate : Legacy.stream_state so = Legacy.OPEN)
    by (destruct (decide (Legacy.stream_state so = Legacy.OPEN));
        [assumption | contradiction]).
  destruct (Legacy.traces st !! Legacy.stream_trace so) as [tr|] eqn:Htr; [|discriminate].
  cbv zeta in H. injection H as <-.
  destruct Hwf as [W1 W2 W3 W4 W5 W6 W7 W8].
  destruct (W8 _ _ Htr) as [Hc1 Hc2].
  set (n := length (Legacy.txns st)).
  set (h := Legacy.trace_next_transaction_handle tr).
  match goal with
  | |- Legacy.wf (Legacy.mkStore (<[_ := ?a]> _) (<[_ := ?b]> _) (_ ++ [?c])) =>
      set (tr' := a); set (so' := b); set (o := c)
  end.
  (* the streams after the call *)
  assert (HS : forall s0 x, Legacy.streams st !! s0 = Some x ->
            exists x', <[s := so']> (Legacy.streams st) !! s0 = Some x' /\
              Legacy.stream_trace x' = Legacy.stream_trace x /\
              Legacy.stream_handle x' = Legacy.stream_handle x /\
              Legacy.stream_state x' = Legacy.stream_state x /\
              (forall t, t ∈ Legacy.stream_transactions x ->
                 t ∈ Legacy.stream_transactions x')).
  { intros s0 x Hx. destruct (decide (s0 = s)) as [->|Hne].
    - assert (x = so) by congruence. subst x. exists so'.
      rewrite (lookup_insert_same _ _ _ _ Hs). repeat (split; [reflexivity|]).
      intros t Hin. subst so'. simpl. apply elem_of_app. auto.
    - exists x. rewrite list_lookup_insert_ne by congruence. auto. }
  (* the traces after the call *)
  assert (HT : forall r0 x, Legacy.traces st !! r0 = Some x ->
            exists x', <[Legacy.stream_trace so := tr']> (Legacy.traces st) !! r0 = Some x' /\
              Legacy.trace_streams x' = Legacy.trace_streams x /\
              Legacy.trace_stream_handles x' = Legacy.trace_stream_handles x /\
              Legacy.trace_next_stream_handle x' = Legacy.trace_next_stream_handle x /\
              Legacy.trace_output_file x' = Legacy.trace_output_file x /\
              (forall k t, k < Legacy.trace_next_transaction_handle x ->
                 Legacy.trace_transaction_handles x !! k = Some t ->
                 Legacy.trace_transaction_handles x' !! k = Some t)).
  { intros r0 x Hx. destruct (decide (r0 = Legacy.stream_trace so)) as [->|Hne].
    - assert (x = tr) by congruence. subst x. exists tr'.
      rewrite (lookup_insert_same _ _ _ _ Htr). repeat (split; [reflexivity|]).
      intros k t Hk Hkt. subst tr'. simpl. rewrite lookup_insert_ne by (subst h; lia).
      exact Hkt.
    - exists x. rewrite list_lookup_insert_ne by congruence. auto 8. }
  constructor; cbn [Legacy.traces Legacy.streams Legacy.txns].
  - intros t x Ht. apply lookup_app_Some in Ht as [Ht|[Hge Ht]].
    + destruct (W1 _ _ Ht) as (so0 & tr0 & Hs0 & Htr0 & Hin & Hh & Hfr & Hop).
      destruct (HS _ _ Hs0) as (so1 & Hs1 & E1 & _ & E3 & Hsub).
      destruct (HT _ _ Htr0) as (tr1 & Htr1 & _ & _ & _ & _ & Hk).
      exists so1, tr1. rewrite E1, E3. split; [exact Hs1|]. split; [exact Htr1|].
      split; [apply Hsub, Hin|]. split; [|auto].
      apply Hk; [|exact Hh]. destruct (W6 _ _ _ _ Htr0 Hh) as [Hb _]. lia.
    + apply list_lookup_singleton_Some in Ht as [Hi <-].
      assert (t = n) by (subst n; lia). subst t.
      exists so', tr'. subst o. cbn [Legacy.txn_stream Legacy.txn_handle Legacy.txn_state].
      rewrite (lookup_insert_same _ _ _ _ Hs).
      split; [reflexivity|]. subst so'. cbn [Legacy.stream_trace Legacy.stream_transactions
        Legacy.stream_state].
      rewrite (lookup_insert_same _ _ _ _ Htr).
      split; [reflexivity|].
      split; [apply elem_of_app; right; apply list_elem_of_here|].
      split; [subst tr'; simpl; apply lookup_insert_eq|].
      split; [discriminate | intros _; exact Hstate].
  - intros s0 x' Hx'.
    assert (Hold : exists x, Legacy.streams st !! s0 = Some x /\
              Legacy.stream_trace x' = Legacy.stream_trace x /\
              Legacy.stream_handle x' = Legacy.stream_handle x /\
              Legacy.stream_state x' = Legacy.stream_state x).
    { destruct (lookup_insert_cases _ _ _ _ _ Hx') as [(<- & -> & _)|[_ H']].
      - exists so. auto.
      - exists x'. auto. }
    destruct Hold as (x & Hx & E1 & E2 & E3).
    destruct (W2 _ _ Hx) as (tr0 & Htr0 & Hin & Hh & Hfr).
    destruct (HT _ _ Htr0) as (tr1 & Htr1 & F1 & F2 & _).
    exists tr1. rewrite E1, E2, E3, F1, F2. auto.
  - intros s0 x' t Hx' Hin.
    destruct (lookup_insert_cases _ _ _ _ _ Hx') as [(<- & -> & _)|[_ H']].
    + subst so'. cbn [Legacy.stream_transactions] in Hin.
      apply elem_of_app in Hin as [Hin|Hin].
      * destruct (W3 _ _ _ Hs Hin) as (x & Hx & E). exists x.
        rewrite (lookup_app_l_Some _ _ _ _ Hx). auto.
      * apply list_elem_of_singleton in Hin. subst t. exists o.
        rewrite lookup_app_r by (subst n; lia). subst n. rewrite Nat.sub_diag.
        split; reflexivity.
    + destruct (W3 _ _ _ H' Hin) as (x & Hx & E). exists x.
      rewrite (lookup_app_l_Some _ _ _ _ Hx). auto.
  - intros r0 x' s0 Hx' Hin.
    assert (Hold : exists x, Legacy.traces st !! r0 = Some x /\
              Legacy.trace_streams x' = Legacy.trace_streams x).
    { destruct (lookup_insert_cases _ _ _ _ _ Hx') as [(<- & -> & _)|[_ H']].
      - exists tr. auto.
      - exists x'. auto. }
    destruct Hold as (x & Hx & E). rewrite E in Hin.
    destruct (W4 _ _ _ Hx Hin) as (so0 & Hs0 & E0).
    destruct (HS _ _ Hs0) as (so1 & Hs1 & E1 & _). exists so1. split; congruence.
  - intros r0 x' k s0 Hx' Hk.
    assert (Hold : exists x, Legacy.traces st !! r0 = Some x /\
              Legacy.trace_stream_handles x' = Legacy.trace_stream_handles x /\
              Legacy.trace_next_stream_handle x' = Legacy.trace_next_stream_handle x).
    { destruct (lookup_insert_cases _ _ _ _ _ Hx') as [(<- & -> & _)|[_ H']].
      - exists tr. auto.
      - exists x'. auto. }
    destruct Hold as (x & Hx & E1 & E2). rewrite E1 in Hk. rewrite E2.
    destruct (W5 _ _ _ _ Hx Hk) as (Hb & so0 & Hs0 & F1 & F2).
    split; [exact Hb|].
    destruct (HS _ _ Hs0) as (so1 & Hs1 & G1 & G2 & _). exists so1.
    split; [exact Hs1|]. split; congruence.
  - intros r0 x' k t Hx' Hk.
    assert (Hcases :
      (r0 = Legacy.stream_trace so /\ k = h /\ t = n) \/
      (exists x, Legacy.traces st !! r0 = Some x /\
         Legacy.trace_transaction_handles x !! k = Some t /\
         Legacy.trace_next_transaction_handle x
           <= Legacy.trace_next_transaction_handle x')).
    { destruct (lookup_insert_cases _ _ _ _ _ Hx') as [(<- & -> & _)|[_ H']].
      - subst tr'. cbn [Legacy.trace_transaction_handles
          Legacy.trace_next_transaction_handle] in *.
        destruct (decide (k = h)) as [->|Hne].
        + rewrite lookup_insert_eq in Hk. injection Hk as <-. left. auto.
        + rewrite lookup_insert_ne in Hk by congruence. right. exists tr.
          split; [exact Htr|]. split; [exact Hk | lia].
      - right. exists x'. split; [exact H'|]. split; [exact Hk | lia]. }
    destruct Hcases as [(-> & -> & ->)|(x & Hx & Hkx & Hle)].
    + rewrite (lookup_insert_same _ _ _ _ Htr) in Hx'. injection Hx' as <-.
      split; [subst tr' h; simpl; lia|].
      exists o, so'. rewrite lookup_app_r by (subst n; lia). subst n.
      rewrite Nat.sub_diag. split; [reflexivity|]. split; [reflexivity|].
      subst o. cbn [Legacy.txn_stream]. rewrite (lookup_insert_same _ _ _ _ Hs).
      split; reflexivity.
    + destruct (W6 _ _ _ _ Hx Hkx) as (Hb & o0 & so0 & Ho0 & F1 & Hs0 & F2).
      split; [lia|].
      destruct (HS _ _ Hs0) as (so1 & Hs1 & G1 & _). exists o0, so1.
      rewrite (lookup_app_l_Some _ _ _ _ Ho0). split; [reflexivity|].
      split; [exact F1|]. split; [exact Hs1 | congruence].
  - intros r0 x' Hx'.
    destruct (lookup_insert_cases _ _ _ _ _ Hx') as [(<- & -> & _)|[_ H']].
    + apply (W7 _ _ Htr).
    + apply (W7 _ _ H').
  - intros r0 x' Hx'.
    destruct (lookup_insert_cases _ _ _ _ _ Hx') as [(<- & -> & _)|[_ H']].
    + subst tr'. simpl. lia.
    + apply (W8 _ _ H').
Qed.

Lemma legacy_append_attr_wf (txn : option ref) (attr : Legacy.DebugAnnotation)
    (st st' : Legacy.Store) :
  Legacy.wf st ->
  Legacy.store_after (Legacy.append_attr txn attr st) = Some st' ->
  Legacy.wf st'.
Proof.
  intros Hwf H. destruct txn as [t|]; [|injection H as <-; exact Hwf].
  unfold Legacy.append_attr in H.
  destruct (Legacy.txns st !! t) as [o|] eqn:Ht; [|discriminate].
  injection H as <-.
  apply (legacy_wf_with_txn st t o _ Hwf Ht); try reflexivity; [|auto].
  simpl. destruct (Legacy.wf_txn st Hwf _ _ Ht) as (_ & _ & _ & _ & _ & _ & Hfr & _).
  exact Hfr.
Qed.

Lemma legacy_append_flow_id_wf (t : ref) (flow_id : Z) (st st' : Legacy.Store) :
  Legacy.wf st -> Legacy.append_flow_id t flow_id st = Some st' -> Legacy.wf st'.
Proof.
  intros Hwf H. unfold Legacy.append_flow_id in H.
  destruct (Legacy.txns st !! t) as [o|] eqn:Ht; [|discriminate].
  injection H as <-.
  apply (legacy_wf_with_txn st t o _ Hwf Ht); try reflexivity; [|auto].
  simpl. destruct (Legacy.wf_txn st Hwf _ _ Ht) as (_ & _ & _ & _ & _ & _ & Hfr & _).
  exact Hfr.
Qed.

Lemma legacy_add_link_wf (source target : option ref) (link_type : LinkType)
    (relation_name : option string) (st st' : Legacy.Store) :
  Legacy.wf st ->
  Legacy.store_after (Legacy.add_link source target link_type relation_name st)
    = Some st' ->
  Legacy.wf st'.
Proof.
  intros Hwf H. unfold Legacy.add_link in H.
  destruct source as [a|]; [|injection H as <-; exact Hwf].
  destruct target as [b|]; [|injection H as <-; exact Hwf].
  destruct (Legacy.txns st !! a) as [oa|]; [|discriminate].
  destruct (Legacy.streams st !! Legacy.txn_stream oa) as [so|]; [|discriminate].
  destruct (Legacy.traces st !! Legacy.stream_trace so) as [tr|] eqn:Htr; [|discriminate].
  cbv zeta in H.
  match type of H with
  | context [Legacy.with_trace ?r ?x st] =>
      assert (Hwf1 : Legacy.wf (Legacy.with_trace r x st))
        by (apply (legacy_wf_with_trace st r tr x Hwf Htr); try reflexivity;
            apply (Legacy.wf_output st Hwf _ _ Htr));
      destruct (Legacy.append_flow_id a (Legacy.trace_next_flow_id tr)
                  (Legacy.with_trace r x st)) as [st1|] eqn:E1; [|discriminate]
  end.
  pose proof (legacy_append_flow_id_wf _ _ _ _ Hwf1 E1) as Hwf2.
  destruct (Legacy.append_flow_id b (Legacy.trace_next_flow_id tr) st1) as [st2|] eqn:E2;
    [|discriminate].
  injection H as <-. apply (legacy_append_flow_id_wf _ _ _ _ Hwf2 E2).
Qed.

Lemma legacy_perform_wf (c : Legacy.call) (st st' : Legacy.Store) :
  Legacy.wf st -> Legacy.perform c st = Some st' -> Legacy.wf st'.
Proof.
  intros Hwf H. destruct c; cbn [Legacy.perform] in H.
  - apply (legacy_create_trace_wf _ _ _ st st' Hwf H).
  - apply (legacy_close_trace_wf _ st st' Hwf H).
  - apply (legacy_open_stream_wf _ _ _ _ st st' Hwf H).
  - apply (legacy_close_stream_wf _ st st' Hwf H).
  - apply (legacy_open_transaction_wf _ _ _ _ _ st st' Hwf H).
  - apply (legacy_close_transaction_wf _ _ st st' Hwf H).
  - apply (legacy_append_attr_wf _ _ st st' Hwf H).
  - apply (legacy_append_attr_wf _ _ st st' Hwf H).
  - apply (legacy_append_attr_wf _ _ st st' Hwf H).
  - apply (legacy_append_attr_wf _ _ st st' Hwf H).
  - apply (legacy_append_attr_wf _ _ st st' Hwf H).
  - apply (legacy_append_attr_wf _ _ st st' Hwf H).
  - apply (legacy_append_attr_wf _ _ st st' Hwf H).
  - apply (legacy_add_link_wf _ _ _ _ st st' Hwf H).
Qed.

Lemma legacy_reachable_wf (st : Legacy.Store) : Legacy.reachable st -> Legacy.wf st.
Proof.
  induction 1 as [|st c st' Hr IH Hstep]; [apply legacy_wf_empty|].
  apply (legacy_perform_wf c st st' IH Hstep).
Qed.

Lemma legacy_run_reachable (cs : list Legacy.call) :
  forall st st', Legacy.reachable st -> Legacy.run cs st = Some st' ->
    Legacy.reachable st'.
Proof.
  induction cs as [|c cs IH]; intros st st' Hr H; simpl in H.
  - injection H as <-. exact Hr.
  - destruct (Legacy.perform c st) as [st1|] eqn:E; [|discriminate].
    apply (IH st1 st'); [|exact H]. apply (Legacy.reachable_step st c st1 Hr E).
Qed.

(** ** The legacy session *)

Lemma legacy_session_run :
  Legacy.run legacy_session_calls Legacy.empty_store = Some legacy_session.
Proof. vm_compute. reflexivity. Qed.

Lemma legacy_session_reachable : Legacy.reachable legacy_session.
Proof.
  eapply legacy_run_reachable; [apply Legacy.reachable_empty | apply legacy_session_run].
Qed.

(** ** Properties of the legacy implementation *)

(** X26: the handle tables of a legacy trace are exact.  In every legacy
    store built by calls, the handle of a stream is at least 1 and below
    the handle counter of its trace, and the table of the trace maps it to
    that very stream; conversely every entry of the table is the handle of
    the stream it gives, a stream of that trace; and likewise for
    transactions.  So two streams, or two transactions, of one trace never
    share a handle. *)
Theorem legacy_handles_exact (st : Legacy.Store) :
  Legacy.reachable st ->
  (forall s so tr, Legacy.streams st !! s = Some so ->
     Legacy.traces st !! Legacy.stream_trace so = Some tr ->
     1 <= Legacy.stream_handle so < Legacy.trace_next_stream_handle tr /\
     Legacy.trace_stream_handles tr !! Legacy.stream_handle so = Some s) /\
  (forall r tr h s, Legacy.traces st !! r = Some tr ->
     Legacy.trace_stream_handles tr !! h = Some s ->
     exists so, Legacy.streams st !! s = Some so /\
       Legacy.stream_handle so = h /\ Legacy.stream_trace so = r) /\
  (forall t o so tr, Legacy.txns st !! t = Some o ->
     Legacy.streams st !! Legacy.txn_stream o = Some so ->
     Legacy.traces st !! Legacy.stream_trace so = Some tr ->
     1 <= Legacy.txn_handle o < Legacy.trace_next_transaction_handle tr /\
     Legacy.trace_transaction_handles tr !! Legacy.txn_handle o = Some t) /\
  (forall r tr h t, Legacy.traces st !! r = Some tr ->
     Legacy.trace_transaction_handles tr !! h = Some t ->
     exists o so, Legacy.txns st !! t = Some o /\ Legacy.txn_handle o = h /\
       Legacy.streams st !! Legacy.txn_stream o = Some so /\
       Legacy.stream_trace so = r) /\
  (forall s1 s2 o1 o2, Legacy.streams st !! s1 = Some o1 ->
     Legacy.streams st !! s2 = Some o2 ->
     Legacy.stream_trace o1 = Legacy.stream_trace o2 ->
     Legacy.stream_handle o1 = Legacy.stream_handle o2 -> s1 = s2) /\
  (forall t1 t2 o1 o2 so1 so2, Legacy.txns st !! t1 = Some o1 ->
     Legacy.txns st !! t2 = Some o2 ->
     Legacy.streams st !! Legacy.txn_stream o1 = Some so1 ->
     Legacy.streams st !! Legacy.txn_stream o2 = Some so2 ->
     Legacy.stream_trace so1 = Legacy.stream_trace so2 ->
     Legacy.txn_handle o1 = Legacy.txn_handle o2 -> t1 = t2).
Proof.
  intros Hre. pose proof (legacy_reachable_wf st Hre) as Hwf.
  assert (HS : forall s so tr, Legacy.streams st !! s = Some so ->
     Legacy.traces st !! Legacy.stream_trace so = Some tr ->
     1 <= Legacy.stream_handle so < Legacy.trace_next_stream_handle tr /\
     Legacy.trace_stream_handles tr !! Legacy.stream_handle so = Some s).
  { intros s so tr Hs Htr.
    destruct (Legacy.wf_stream st Hwf _ _ Hs) as (x & Hx & _ & Hh & _).
    assert (x = tr) by congruence. subst x.
    destruct (Legacy.wf_stream_handles st Hwf _ _ _ _ Htr Hh) as [Hb _]. auto. }
  assert (HT : forall t o so tr, Legacy.txns st !! t = Some o ->
     Legacy.streams st !! Legacy.txn_stream o = Some so ->
     Legacy.traces st !! Legacy.stream_trace so = Some tr ->
     1 <= Legacy.txn_handle o < Legacy.trace_next_transaction_handle tr /\
     Legacy.trace_transaction_handles tr !! Legacy.txn_handle o = Some t).
  { intros t o so tr Ht Hs Htr.
    destruct (Legacy.wf_txn st Hwf _ _ Ht) as (x & y & Hx & Hy & _ & Hh & _).
    assert (x = so) by congruence. subst x.
    assert (y = tr) by congruence. subst y.
    destruct (Legacy.wf_transaction_handles st Hwf _ _ _ _ Htr Hh) as [Hb _]. auto. }
  split; [exact HS|]. split.
  { intros r tr h s Htr Hh.
    destruct (Legacy.wf_stream_handles st Hwf _ _ _ _ Htr Hh) as [_ H]. exact H. }
  split; [exact HT|]. split.
  { intros r tr h t Htr Hh.
    destruct (Legacy.wf_transaction_handles st Hwf _ _ _ _ Htr Hh) as [_ H]. exact H. }
  split.
  - intros s1 s2 o1 o2 H1 H2 Etr Eh.
    destruct (Legacy.wf_stream st Hwf _ _ H1) as (tr & Htr & _).
    destruct (HS s1 o1 tr H1 Htr) as [_ L1].
    rewrite Etr in Htr. destruct (HS s2 o2 tr H2 Htr) as [_ L2].
    rewrite Eh in L1. congruence.
  - intros t1 t2 o1 o2 so1 so2 H1 H2 Hs1 Hs2 Etr Eh.
    destruct (Legacy.wf_stream st Hwf _ _ Hs1) as (tr & Htr & _).
    destruct (HT t1 o1 so1 tr H1 Hs1 Htr) as [_ L1].
    rewrite Etr in Htr. destruct (HT t2 o2 so2 tr H2 Hs2 Htr) as [_ L2].
    rewrite Eh in L1. congruence.
Qed.

Lemma legacy_handles_exact_witness :
  Legacy.reachable legacy_session /\
  (Legacy.stream_handle <$> Legacy.streams legacy_session !! 1%nat) = Some 2 /\
  (Legacy.txn_handle <$> Legacy.txns legacy_session !! 2%nat) = Some 3 /\
  exists tr,
    Legacy.traces legacy_session !! 0%nat = Some tr /\
    Legacy.trace_stream_handles tr !! 2 = Some 1%nat /\
    Legacy.trace_transaction_handles tr !! 3 = Some 2%nat.
Proof.
  split; [apply legacy_session_reachable|].
  split; [reflexivity|]. split; [reflexivity|].
  destruct (legacy_handles_exact legacy_session legacy_session_reachable)
    as (HS & _ & HT & _).
  eexists. split; [reflexivity|]. split.
  - apply (HS 1%nat _ _ eq_refl eq_refl).
  - apply (HT 2%nat _ _ _ eq_refl eq_refl eq_refl).
Defined.

(** X27: the legacy implementation never writes and never frees.  In every
    legacy store built by calls the output file of a trace is empty until
    it is closed (the four [_emit_*] methods do nothing and the writer is
    never called), and no stream or transaction is ever in the state FREED:
    [is_stream_closed] is the negation of [is_stream_open],
    [is_transaction_closed] that of [is_transaction_open], and
    [get_stream_handle] answers the handle of the stream, never 0. *)
Theorem legacy_never_writes_never_frees (st : Legacy.Store) :
  Legacy.reachable st ->
  (forall r tr, Legacy.traces st !! r = Some tr ->
     Legacy.trace_output_file tr = Some [] \/ Legacy.trace_output_file tr = None) /\
  (forall s so, Legacy.streams st !! s = Some so ->
     Legacy.stream_state so <> Legacy.FREED /\
     Legacy.is_stream_closed (Some s) st
       = negb <$> Legacy.is_stream_open (Some s) st /\
     Legacy.get_stream_handle (Some s) st = Some (Legacy.stream_handle so) /\
     1 <= Legacy.stream_handle so) /\
  (forall t o, Legacy.txns st !! t = Some o ->
     Legacy.txn_state o <> Legacy.FREED /\
     Legacy.is_transaction_closed (Some t) st
       = negb <$> Legacy.is_transaction_open (Some t) st).
Proof.
  intros Hre. pose proof (legacy_reachable_wf st Hre) as Hwf.
  split; [apply (Legacy.wf_output st Hwf)|]. split.
  - intros s so Hs.
    destruct (Legacy.wf_stream st Hwf _ _ Hs) as (tr & Htr & _ & Hh & Hfr).
    destruct (Legacy.wf_stream_handles st Hwf _ _ _ _ Htr Hh) as [Hb _].
    split; [exact Hfr|].
    unfold Legacy.is_stream_closed, Legacy.is_stream_open, Legacy.get_stream_handle.
    rewrite Hs. cbn [fmap option_fmap option_map].
    unfold Legacy.Stream_is_closed, Legacy.Stream_is_open.
    split; [|split; [|lia]].
    + destruct (Legacy.stream_state so); [reflexivity | reflexivity | contradiction].
    + destruct (decide (Legacy.stream_state so <> Legacy.FREED)); [reflexivity|contradiction].
  - intros t o Ht.
    destruct (Legacy.wf_txn st Hwf _ _ Ht) as (_ & _ & _ & _ & _ & _ & Hfr & _).
    split; [exact Hfr|].
    unfold Legacy.is_transaction_closed, Legacy.is_transaction_open.
    rewrite Ht. cbn [fmap option_fmap option_map].
    unfold Legacy.Transaction_is_closed, Legacy.Transaction_is_open.
    destruct (Legacy.txn_state o); [reflexivity | reflexivity | contradiction].
Qed.

Lemma legacy_never_writes_never_frees_witness :
  Legacy.reachable legacy_session /\
  (Legacy.trace_output_file <$> Legacy.traces legacy_session !! 0%nat)
    = Some (Some []) /\
  Legacy.is_transaction_closed (Some 1%nat) legacy_session = Some true /\
  Legacy.is_transaction_open (Some 1%nat) legacy_session = Some false /\
  Legacy.get_stream_handle (Some 1%nat) legacy_session = Some 2.
Proof.
  split; [apply legacy_session_reachable|].
  split; [reflexivity|]. split; [reflexivity|]. split; [reflexivity|].
  destruct (legacy_never_writes_never_frees legacy_session legacy_session_reachable)
    as (_ & HS & _).
  destruct (HS 1%nat _ eq_refl) as (_ & _ & H & _). exact H.
Defined.

(** X28: the legacy [close_trace] on a trace of a legacy store built by
    calls returns normally.  Afterwards the output file of the trace is
    released; every stream of the trace is CLOSED; every transaction of the
    trace that was OPEN is CLOSED with its end time equal to its start
    time, and those already closed are as they were; the objects of other
    traces are unchanged and none is created.  With [None] for the trace it
    does nothing. *)
Theorem legacy_close_trace_closes_everything (st : Legacy.Store) (r : ref)
    (tr : Legacy.Trace) :
  Legacy.reachable st -> Legacy.traces st !! r = Some tr ->
  Legacy.close_trace None st = Legacy.Return tt st /\
  exists st' tr',
    Legacy.close_trace (Some r) st = Legacy.Return tt st' /\
    Legacy.traces st' !! r = Some tr' /\
    Legacy.trace_output_file tr' = None /\
    Legacy.trace_streams tr' = Legacy.trace_streams tr /\
    (forall s so, Legacy.streams st !! s = Some so -> Legacy.stream_trace so = r ->
       Legacy.streams st' !! s = Some (Legacy.closed_stream so)) /\
    (forall t o so, Legacy.txns st !! t = Some o ->
       Legacy.streams st !! Legacy.txn_stream o = Some so ->
       Legacy.stream_trace so = r ->
       Legacy.txns st' !! t = Some (Legacy.force_closed o) /\
       Legacy.txn_state (Legacy.force_closed o) = Legacy.CLOSED /\
       (Legacy.txn_state o = Legacy.OPEN ->
          Legacy.txn_end_time (Legacy.force_closed o) = Legacy.txn_start_time o) /\
       (Legacy.txn_state o = Legacy.CLOSED -> Legacy.force_closed o = o)) /\
    (forall r', r' <> r -> Legacy.traces st' !! r' = Legacy.traces st !! r') /\
    (forall s so, Legacy.streams st !! s = Some so -> Legacy.stream_trace so <> r ->
       Legacy.streams st' !! s = Some so) /\
    (forall t o so, Legacy.txns st !! t = Some o ->
       Legacy.streams st !! Legacy.txn_stream o = Some so ->
       Legacy.stream_trace so <> r -> Legacy.txns st' !! t = Some o) /\
    length (Legacy.traces st') = length (Legacy.traces st) /\
    length (Legacy.streams st') = length (Legacy.streams st) /\
    length (Legacy.txns st') = length (Legacy.txns st).
Proof.
  intros Hre Htr. pose proof (legacy_reachable_wf st Hre) as Hwf.
  split; [reflexivity|].
  destruct (legacy_close_trace_exact st r tr Hwf Htr)
    as (st' & Hc & _ & Htraces & Hls & Hlt & Hst & Htx).
  exists st', (Legacy.Trace_close tr). split; [exact Hc|].
  split; [rewrite Htraces; eapply lookup_insert_same, Htr|].
  split; [unfold Legacy.Trace_close; destruct (Legacy.trace_output_file tr) eqn:E;
          [reflexivity | exact E]|].
  split; [unfold Legacy.Trace_close; destruct (Legacy.trace_output_file tr);
          reflexivity|].
  split.
  { intros s so Hs E. rewrite (Hst s so Hs), decide_True by exact E. reflexivity. }
  split.
  { intros t o so Ht Hs E.
    split; [rewrite (Htx t o so Ht Hs), decide_True by exact E; reflexivity|].
    destruct (Legacy.wf_txn st Hwf _ _ Ht) as (_ & _ & _ & _ & _ & _ & Hfr & _).
    unfold Legacy.force_closed.
    destruct (decide (Legacy.txn_state o = Legacy.OPEN)) as [Ho|Ho]; cbn.
    - split; [reflexivity|]. split; [reflexivity | congruence].
    - split; [destruct (Legacy.txn_state o); congruence|]. split; [contradiction | reflexivity]. }
  split.
  { intros r' Hne. rewrite Htraces. apply list_lookup_insert_ne. congruence. }
  split.
  { intros s so Hs E. rewrite (Hst s so Hs), decide_False by exact E. reflexivity. }
  split.
  { intros t o so Ht Hs E.
    rewrite (Htx t o so Ht Hs), decide_False by exact E. reflexivity. }
  split; [rewrite Htraces; apply length_insert|]. split; assumption.
Qed.

Lemma legacy_close_trace_closes_everything_witness :
  Legacy.reachable legacy_session /\
  exists st',
    Legacy.close_trace (Some 0%nat) legacy_session = Legacy.Return tt st' /\
    (Legacy.trace_output_file <$> Legacy.traces st' !! 0%nat) = Some None /\
    (Legacy.stream_state <$> Legacy.streams st' !! 0%nat) = Some Legacy.CLOSED /\
    (Legacy.stream_state <$> Legacy.streams st' !! 2%nat) = Some Legacy.OPEN /\
    ((fun o => (Legacy.txn_state o, Legacy.txn_end_time o))
       <$> Legacy.txns st' !! 0%nat) = Some (Legacy.CLOSED, 100) /\
    ((fun o => (Legacy.txn_state o, Legacy.txn_end_time o))
       <$> Legacy.txns st' !! 1%nat) = Some (Legacy.CLOSED, 130) /\
    ((fun o => (Legacy.txn_state o, Legacy.txn_end_time o))
       <$> Legacy.txns st' !! 3%nat) = Some (Legacy.OPEN, 0).
Proof.
  split; [apply legacy_session_reachable|].
  destruct (legacy_close_trace_closes_everything legacy_session 0 _
              legacy_session_reachable eq_refl)
    as (_ & st' & tr' & Hc & Htr' & Hout & _ & Hst & Htx & _ & Hst' & Htx' & _).
  exists st'. split; [exact Hc|].
  split; [rewrite Htr'; simpl; rewrite Hout; reflexivity|].
  split; [rewrite (Hst 0%nat _ eq_refl eq_refl); reflexivity|].
  split; [rewrite (Hst' 2%nat _ eq_refl); [reflexivity | discriminate]|].
  split; [destruct (Htx 0%nat _ _ eq_refl eq_refl eq_refl) as [-> _]; reflexivity|].
  split; [destruct (Htx 1%nat _ _ eq_refl eq_refl eq_refl) as [-> _]; reflexivity|].
  rewrite (Htx' 3%nat _ _ eq_refl eq_refl); [reflexivity | discriminate].
Defined.

(** X29: the legacy [open_transaction].  With [None] for the stream it
    raises [AttributeError]; on a stream that is not OPEN it raises
    [ValueError]; in both cases the store is unchanged, so no identifier and
    no handle is drawn.  On an OPEN stream of a store built by calls it
    returns a new OPEN transaction with the next identifier and the next
    handle of the trace, listed last by the stream and entered in the handle
    table; the [parent] argument plays no part. *)
Theorem legacy_open_transaction_effect (st : Legacy.Store) (s : ref)
    (so : Legacy.Stream) (name : string) (start_time : Z)
    (type_name : option string) (parent parent' : option ref) :
  Legacy.reachable st -> Legacy.streams st !! s = Some so ->
  Legacy.open_transaction None name start_time type_name parent st
    = Legacy.Raise Legacy.AttributeError st /\
  Legacy.open_transaction (Some s) name start_time type_name parent st
    = Legacy.open_transaction (Some s) name start_time type_name parent' st /\
  (Legacy.stream_state so <> Legacy.OPEN ->
   Legacy.open_transaction (Some s) name start_time type_name parent st
     = Legacy.Raise Legacy.ValueError st) /\
  (Legacy.stream_state so = Legacy.OPEN ->
   exists st' tr tr' so',
     Legacy.open_transaction (Some s) name start_time type_name parent st
       = Legacy.Return (length (Legacy.txns st)) st' /\
     Legacy.traces st !! Legacy.stream_trace so = Some tr /\
     Legacy.txns st' =
       Legacy.txns st ++
         [Legacy.mkTransaction (Legacy.trace_next_transaction_id tr) s name
            (Legacy.or_empty type_name) start_time 0 Legacy.OPEN
            (Legacy.trace_next_transaction_handle tr) [] [] false] /\
     Legacy.streams st' !! s = Some so' /\
     Legacy.stream_transactions so'
       = Legacy.stream_transactions so ++ [length (Legacy.txns st)] /\
     Legacy.stream_state so' = Legacy.OPEN /\
     Legacy.traces st' !! Legacy.stream_trace so = Some tr' /\
     Legacy.trace_transaction_handles tr' !! Legacy.trace_next_transaction_handle tr
       = Some (length (Legacy.txns st)) /\
     Legacy.trace_next_transaction_id tr' = Legacy.trace_next_transaction_id tr + 1 /\
     Legacy.trace_next_transaction_handle tr'
       = Legacy.trace_next_transaction_handle tr + 1).
Proof.
  intros Hre Hs. pose proof (legacy_reachable_wf st Hre) as Hwf.
  split; [reflexivity|]. split; [reflexivity|].
  unfold Legacy.open_transaction. rewrite Hs. split.
  - intros Hn.
    destruct (decide (Legacy.stream_state so <> Legacy.OPEN)); [reflexivity|contradiction].
  - intros Ho.
    destruct (decide (Legacy.stream_state so <> Legacy.OPEN)) as [Hn|_]; [contradiction|].
    destruct (Legacy.wf_stream st Hwf _ _ Hs) as (tr & Htr & _).
    rewrite Htr. cbv zeta.
    eexists _, tr, _, _. split; [reflexivity|]. split; [reflexivity|].
    cbn [Legacy.traces Legacy.streams Legacy.txns].
    split; [reflexivity|].
    split; [eapply lookup_insert_same, Hs|]. split; [reflexivity|].
    split; [exact Ho|].
    split; [eapply lookup_insert_same, Htr|].
    split; [simpl; apply lookup_insert_eq|]. split; reflexivity.
Qed.

Lemma legacy_open_transaction_effect_witness :
  Legacy.reachable legacy_session /\
  exists st1 st2,
    Legacy.close_stream (Some 1%nat) legacy_session = Legacy.Return tt st1 /\
    Legacy.open_transaction (Some 1%nat) "late" 5 None None st1
      = Legacy.Raise Legacy.ValueError st1 /\
    Legacy.open_transaction (Some 0%nat) "next" 5 None (Some 2%nat) st1
      = Legacy.Return 4%nat st2 /\
    (Legacy.txn_id <$> Legacy.txns st2 !! 4%nat) = Some 4.
Proof.
  split; [apply legacy_session_reachable|].
  assert (H1 : exists st1,
            Legacy.run [Legacy.CloseStream (Some 1%nat)] legacy_session = Some st1)
    by (eexists; vm_compute; reflexivity).
  destruct H1 as [st1 H1].
  pose proof (legacy_run_reachable _ _ _ legacy_session_reachable H1) as Hre1.
  assert (Hobj : exists so1 so0,
            Legacy.close_stream (Some 1%nat) legacy_session = Legacy.Return tt st1 /\
            Legacy.streams st1 !! 1%nat = Some so1 /\
            Legacy.stream_state so1 <> Legacy.OPEN /\
            Legacy.streams st1 !! 0%nat = Some so0 /\
            Legacy.stream_state so0 = Legacy.OPEN /\
            (Legacy.trace_next_transaction_id
               <$> Legacy.traces st1 !! Legacy.stream_trace so0) = Some 4 /\
            length (Legacy.txns st1) = 4%nat).
  { revert H1. vm_compute. intros [= <-]. eexists _, _.
    split; [reflexivity|]. split; [reflexivity|]. split; [discriminate|].
    split; [reflexivity|]. split; [reflexivity|]. split; reflexivity. }
  destruct Hobj as (so1 & so0 & Hc & Hs1 & Hn1 & Hs0 & Ho0 & Hid & Hlen).
  destruct (legacy_open_transaction_effect st1 1 so1 "late" 5 None None None Hre1 Hs1)
    as (_ & _ & Hval & _).
  destruct (legacy_open_transaction_effect st1 0 so0 "next" 5 None (Some 2%nat) None
              Hre1 Hs0) as (_ & _ & _ & Hok).
  destruct (Hok Ho0) as (st2 & tr & tr' & so' & Hopen & Htr & Htx & _).
  exists st1, st2. split; [exact Hc|]. split; [apply Hval, Hn1|].
  split; [rewrite Hopen, Hlen; reflexivity|].
  rewrite Htx, lookup_app_r by lia. rewrite Hlen. simpl.
  rewrite Htr in Hid. simpl in Hid. injection Hid as ->. reflexivity.
Defined.

(** X30: the legacy [close_transaction].  On an OPEN transaction it stores
    the end time given, whatever it is (zero and negative times included),
    and marks the transaction CLOSED, so that [is_transaction_closed]
    answers [True] and [is_transaction_open] [False]; nothing else in the
    store changes.  On a transaction that is not OPEN, and on [None], it
    does nothing: a second close with another time keeps the first end
    time. *)
Theorem legacy_close_transaction_effect (st : Legacy.Store) (t : ref)
    (o : Legacy.Transaction) (end_time end_time' : Z) :
  Legacy.txns st !! t = Some o ->
  Legacy.close_transaction None end_time st = Legacy.Return tt st /\
  (Legacy.txn_state o <> Legacy.OPEN ->
   Legacy.close_transaction (Some t) end_time st = Legacy.Return tt st) /\
  (Legacy.txn_state o = Legacy.OPEN ->
   exists st',
     Legacy.close_transaction (Some t) end_time st = Legacy.Return tt st' /\
     Legacy.traces st' = Legacy.traces st /\
     Legacy.streams st' = Legacy.streams st /\
     (forall t', t' <> t -> Legacy.txns st' !! t' = Legacy.txns st !! t') /\
     Legacy.get_transaction_end_time (Some t) st' = Some end_time /\
     Legacy.is_transaction_closed (Some t) st' = Some true /\
     Legacy.is_transaction_open (Some t) st' = Some false /\
     Legacy.get_transaction_start_time (Some t) st' = Some (Legacy.txn_start_time o) /\
     Legacy.close_transaction (Some t) end_time' st' = Legacy.Return tt st').
Proof.
  intros Ht. split; [reflexivity|].
  unfold Legacy.close_transaction at 1 2. rewrite Ht. split.
  - intros Hn.
    destruct (decide (Legacy.txn_state o = Legacy.OPEN)); [contradiction|reflexivity].
  - intros Ho.
    destruct (decide (Legacy.txn_state o = Legacy.OPEN)) as [_|Hn]; [|contradiction].
    eexists. split; [reflexivity|].
    cbn [Legacy.with_txn Legacy.traces Legacy.streams Legacy.txns].
    split; [reflexivity|]. split; [reflexivity|].
    split; [intros t' Hne; apply list_lookup_insert_ne; congruence|].
    unfold Legacy.get_transaction_end_time, Legacy.is_transaction_closed,
      Legacy.is_transaction_open, Legacy.get_transaction_start_time,
      Legacy.close_transaction.
    cbn [Legacy.with_txn Legacy.txns].
    rewrite (lookup_insert_same _ _ _ _ Ht). cbn.
    repeat (split; [reflexivity|]). reflexivity.
Qed.

Lemma legacy_close_transaction_effect_witness :
  exists o st',
    Legacy.txns legacy_session !! 0%nat = Some o /\
    Legacy.txn_state o = Legacy.OPEN /\
    Legacy.close_transaction (Some 0%nat) 0 legacy_session = Legacy.Return tt st' /\
    Legacy.is_transaction_closed (Some 0%nat) st' = Some true /\
    Legacy.get_transaction_end_time (Some 0%nat) st' = Some 0 /\
    Legacy.close_transaction (Some 0%nat) 500 st' = Legacy.Return tt st'.
Proof.
  destruct (legacy_close_transaction_effect legacy_session 0 _ 0 500 eq_refl)
    as (_ & _ & H).
  destruct (H eq_refl) as (st' & Hc & _ & _ & _ & He & Hcl & _ & _ & Hagain).
  eexists _, st'. split; [reflexivity|]. split; [reflexivity|]. auto.
Defined.
